(** * playdoom: configuration bootstrap of the doom-cli launcher

    A shallow embedding of [playdoom/config.py] and [playdoom/__main__.py]
    together with the parts of the Python runtime they call:

    - [tomllib] (CPython 3.11, [Lib/tomllib/_parser.py] and [_re.py]),
      transcribed function by function;
    - the file operations [open], [os.mkdir] and [pathlib.Path.mkdir],
      over a finite map from absolute paths to directory and file nodes
      that carry the access rights of the invoking user;
    - exceptions, as an outcome type threaded with the state.

    Conventions.  A Python [str] is a list of Unicode code points, a
    Python [bytes] is a Rocq [string] (a list of 8-bit characters), a
    Python [dict] is an association list in insertion order.  Floats
    are kept as the lexeme handed to [float].  Messages of
    [TOMLDecodeError] are the format strings of the source, without the
    interpolated values and without the coordinates suffix.

    The functions of the program come twice.  [load], [init] and [main]
    are the program where nothing fails but for the state of the files
    and the text of the configuration: every system call does what the
    files allow, standard output takes what is printed, and the
    interpreter has stack and memory for what it is given.  [load_in],
    [init_in] and [main_in] are the same functions in an environment
    [Env] that says which system call fails for another reason (no space
    left, too many open files, a broken pipe), how much of a failing
    write reaches the file, and where the interpreter reaches its
    recursion limit or runs out of memory; at the environment [working]
    they are the former.  The limit of 4300 digits on the conversion of
    integers does not depend on the environment and is part of both. *)

From stdpp Require Import gmap strings list.
From Stdlib Require Import ZArith NArith Ascii String Lia.

Set Warnings "-register-all".

Open Scope string_scope.
Open Scope list_scope.
Open Scope N_scope.

(** ** Python strings *)

Definition char := N.
Definition str := list char.

(** The [str] of an ASCII literal. *)
Definition u (s : string) : str :=
  List.map N_of_ascii (list_ascii_of_string s).

Definition TAB : char := 9.
Definition LF : char := 10.
Definition CR : char := 13.
Definition QUOTE : char := 34.
Definition APOS : char := 39.
Definition BACKSLASH : char := 92.

Definition in_range (lo hi c : char) : bool := (lo <=? c) && (c <=? hi).

Definition str_eqb (a b : str) : bool := bool_decide (a = b).

(** [src.startswith(prefix, pos)], on the unread text [src[pos:]]. *)
Fixpoint startswith (prefix rest : str) : bool :=
  match prefix, rest with
  | [], _ => true
  | p :: prefix', c :: rest' => (p =? c) && startswith prefix' rest'
  | _ :: _, [] => false
  end.

(** [src.index(expect, pos)]: the text before the first occurrence of
    [expect], and the text from that occurrence on. *)
Fixpoint str_index (expect rest : str) : option (str * str) :=
  if startswith expect rest then Some ([], rest)
  else match rest with
       | [] => None
       | c :: rest' =>
           match str_index expect rest' with
           | Some (before, from) => Some (c :: before, from)
           | None => None
           end
       end.

(** [s.replace("\r\n", "\n")] *)
Fixpoint replace_crlf (s : str) : str :=
  match s with
  | c :: s' =>
      match s' with
      | d :: s'' => if (c =? CR) && (d =? LF) then LF :: replace_crlf s''
                    else c :: replace_crlf s'
      | [] => [c]
      end
  | [] => []
  end.

(** [str.lstrip()]: leading whitespace removed (the ASCII white space and
    the separators FS, GS, RS, US; the template holds no other). *)
Definition py_isspace (c : char) : bool :=
  in_range 9 13 c || in_range 28 32 c.

Fixpoint lstrip (s : str) : str :=
  match s with
  | c :: s' => if py_isspace c then lstrip s' else s
  | [] => []
  end.

(** ** Exceptions *)

(** The subclasses of [OSError] that the file operations raise from the
    state of the files, and [OtherOSError] for an [OSError] of any other
    cause (no space left, file too large, quota, input/output error,
    broken pipe). *)
Inductive OSErrorKind :=
| FileNotFoundError | FileExistsError | PermissionError
| IsADirectoryError | NotADirectoryError | OtherOSError (errno : N).

Inductive exn :=
| OSError (k : OSErrorKind)
| ValueError
| UnicodeDecodeError
| UnicodeEncodeError
| TOMLDecodeError (msg : string)
| KeyError
| IndexError
| RecursionError
| MemoryError.

(** [IOError] is an alias of [OSError]; [UnicodeDecodeError],
    [UnicodeEncodeError] and [TOMLDecodeError] derive from [ValueError],
    [KeyError] and [IndexError] from [LookupError], [RecursionError] from
    [RuntimeError]; [MemoryError] stands alone. *)
Definition is_IOError (e : exn) : bool :=
  match e with OSError _ => true | _ => false end.

Definition is_ValueError (e : exn) : bool :=
  match e with
  | ValueError | UnicodeDecodeError | UnicodeEncodeError | TOMLDecodeError _ => true
  | _ => false
  end.

(** ** Results of the parser

    A parsing function returns a value, raises, or runs out of the fuel
    that bounds its loops ([Gas]); [loads_never_out_of_gas] shows the
    last never happens for the fuel [loads] provides. *)

Inductive pres (A : Type) :=
| Got (a : A)
| Fail (e : exn)
| Gas.
Arguments Got {A} a.
Arguments Fail {A} e.
Arguments Gas {A}.

Definition pbind {A B} (m : pres A) (k : A -> pres B) : pres B :=
  match m with
  | Got a => k a
  | Fail e => Fail e
  | Gas => Gas
  end.

Notation "'let*' p ':=' m 'in' k" := (pbind m (fun p => k))
  (at level 10, p pattern, m at level 100, k at level 200).

(** [try: m except KeyError: raise e from None] *)
Definition except_KeyError {A} (m : pres A) (e : exn) : pres A :=
  match m with
  | Fail KeyError => Fail e
  | _ => m
  end.

(** [suffixed_err(src, pos, msg)] *)
Definition suffixed_err {A} (msg : string) : pres A :=
  Fail (TOMLDecodeError msg).

(** ** Parsed values *)

Record date := Date { year : N; month : N; day : N }.
Record time := Time { hour : N; minute : N; second : N; microsecond : N }.

(** [tz] of a [VDateTime]: the offset from UTC in minutes, [None] for a
    local date-time. *)
Inductive value :=
| VStr (s : str)
| VInt (z : Z)
| VFloat (lexeme : str)
| VBool (b : bool)
| VDate (d : date)
| VTime (t : time)
| VDateTime (d : date) (t : time) (tz : option Z)
| VList (l : list value)
| VDict (d : list (str * value)).

Definition Dict := list (str * value).
Definition Key := list str.

(** [k in d], [d[k]] and [d[k] = v] on insertion-ordered dictionaries. *)
Fixpoint dict_get {V} (k : str) (d : list (str * V)) : option V :=
  match d with
  | (k', v) :: d' => if str_eqb k k' then Some v else dict_get k d'
  | [] => None
  end.

Definition dict_mem {V} (k : str) (d : list (str * V)) : bool :=
  match dict_get k d with Some _ => true | None => false end.

Fixpoint dict_set {V} (k : str) (v : V) (d : list (str * V)) : list (str * V) :=
  match d with
  | (k', v') :: d' => if str_eqb k k' then (k', v) :: d'
                      else (k', v') :: dict_set k v d'
  | [] => [(k, v)]
  end.

(** [d.pop(k, None)] *)
Fixpoint dict_pop {V} (k : str) (d : list (str * V)) : list (str * V) :=
  match d with
  | (k', v') :: d' => if str_eqb k k' then d' else (k', v') :: dict_pop k d'
  | [] => []
  end.

(** [l[-1]] and [l[-1] = v] *)
Definition list_last {A} (l : list A) : option A := last l.

Fixpoint set_last {A} (l : list A) (v : A) : list A :=
  match l with
  | [] => []
  | [_] => [v]
  | x :: l' => x :: set_last l' v
  end.

(** [key[:-1]] and [key[-1]] *)
Definition key_parent (key : Key) : Key := removelast key.
Definition key_stem (key : Key) : str := List.last key [].

(** ** class Flags *)

Inductive flag := FROZEN | EXPLICIT_NEST.

Definition flag_eqb (a b : flag) : bool :=
  match a, b with
  | FROZEN, FROZEN | EXPLICIT_NEST, EXPLICIT_NEST => true
  | _, _ => false
  end.

(** One entry of [_flags]:
    [{"flags": set(), "recursive_flags": set(), "nested": {}}]. *)
Inductive flagnode :=
| FlagNode (flags : list flag) (recursive_flags : list flag)
           (nested : list (str * flagnode)).

Definition set_mem (f : flag) (s : list flag) : bool := existsb (flag_eqb f) s.
Definition set_add (f : flag) (s : list flag) : list flag :=
  if set_mem f s then s else s ++ [f].

Record Flags := MkFlags {
  _flags : list (str * flagnode);
  _pending_flags : list (Key * flag)
}.

Definition Flags_new : Flags := MkFlags [] [].

Definition add_pending (fl : Flags) (key : Key) (f : flag) : Flags :=
  MkFlags (_flags fl) (_pending_flags fl ++ [(key, f)]).

Definition empty_flagnode : flagnode := FlagNode [] [] [].

Definition add_flag (f : flag) (recursive : bool) (n : flagnode) : flagnode :=
  match n with
  | FlagNode fs rs nested =>
      if recursive then FlagNode fs (set_add f rs) nested
      else FlagNode (set_add f fs) rs nested
  end.

(** [Flags.set], on the dictionary [cont]. *)
Fixpoint flags_set_in (key : Key) (f : flag) (recursive : bool)
    (cont : list (str * flagnode)) : list (str * flagnode) :=
  match key with
  | [] => cont
  | [stem] =>
      let n := match dict_get stem cont with
               | Some n => n
               | None => empty_flagnode
               end in
      dict_set stem (add_flag f recursive n) cont
  | k :: key' =>
      match (match dict_get k cont with
             | Some n => n
             | None => empty_flagnode
             end) with
      | FlagNode fs rs nested =>
          dict_set k (FlagNode fs rs (flags_set_in key' f recursive nested)) cont
      end
  end.

Definition flags_set (fl : Flags) (key : Key) (f : flag) (recursive : bool) : Flags :=
  MkFlags (flags_set_in key f recursive (_flags fl)) (_pending_flags fl).

Definition finalize_pending (fl : Flags) : Flags :=
  MkFlags
    (fold_left (fun cont '(key, f) => flags_set_in key f false cont)
       (_pending_flags fl) (_flags fl))
    [].

(** [Flags.unset_all] *)
Fixpoint unset_all_in (key : Key) (cont : list (str * flagnode))
    : list (str * flagnode) :=
  match key with
  | [] => cont
  | [stem] => dict_pop stem cont
  | k :: key' =>
      match dict_get k cont with
      | None => cont
      | Some (FlagNode fs rs nested) =>
          dict_set k (FlagNode fs rs (unset_all_in key' nested)) cont
      end
  end.

Definition unset_all (fl : Flags) (key : Key) : Flags :=
  MkFlags (unset_all_in key (_flags fl)) (_pending_flags fl).

(** [Flags.is_] *)
Fixpoint flags_is_in (key : Key) (f : flag) (cont : list (str * flagnode)) : bool :=
  match key with
  | [] => false
  | [stem] =>
      match dict_get stem cont with
      | Some (FlagNode fs rs _) => set_mem f fs || set_mem f rs
      | None => false
      end
  | k :: key' =>
      match dict_get k cont with
      | None => false
      | Some (FlagNode _ rs nested) =>
          if set_mem f rs then true else flags_is_in key' f nested
      end
  end.

Definition flags_is (fl : Flags) (key : Key) (f : flag) : bool :=
  flags_is_in key f (_flags fl).

(** ** class NestedDict

    [get_or_create_nest] returns a reference to a nested dictionary,
    creating the dictionaries missing on the way, and its callers then
    mutate what they got.  Here it returns the dictionary found, and
    [put_nest] stores the mutated dictionary back along the same key. *)

Fixpoint get_or_create_nest (key : Key) (access_lists : bool) (cont : Dict)
    : pres Dict :=
  match key with
  | [] => Got cont
  | k :: key' =>
      let c := match dict_get k cont with
               | Some v => v
               | None => VDict []
               end in
      let* c :=
        match c with
        | VList l =>
            if access_lists then
              match list_last l with
              | Some x => Got x
              | None => Fail IndexError
              end
            else Got c
        | _ => Got c
        end in
      match c with
      | VDict d => get_or_create_nest key' access_lists d
      | _ => Fail KeyError
      end
  end.

Fixpoint put_nest (key : Key) (nest : Dict) (cont : Dict) : Dict :=
  match key with
  | [] => nest
  | k :: key' =>
      match dict_get k cont with
      | None => dict_set k (VDict (put_nest key' nest [])) cont
      | Some (VDict d) => dict_set k (VDict (put_nest key' nest d)) cont
      | Some (VList l) =>
          match list_last l with
          | Some (VDict d) =>
              dict_set k (VList (set_last l (VDict (put_nest key' nest d)))) cont
          | _ => cont
          end
      | Some _ => cont
      end
  end.

Definition append_nest_to_list (key : Key) (data : Dict) : pres Dict :=
  let* cont := get_or_create_nest (key_parent key) true data in
  let last_key := key_stem key in
  match dict_get last_key cont with
  | Some list_ =>
      match list_ with
      | VList l =>
          Got (put_nest (key_parent key)
                 (dict_set last_key (VList (l ++ [VDict []])) cont) data)
      | _ => Fail KeyError
      end
  | None =>
      Got (put_nest (key_parent key)
             (dict_set last_key (VList [VDict []]) cont) data)
  end.

(** [class Output(NamedTuple)] *)
Record Output := MkOutput { data : Dict; flags : Flags }.

(** ** Character classes *)

Definition ASCII_CTRL (c : char) : bool := (c <? 32) || (c =? 127).
Definition ILLEGAL_BASIC_STR_CHARS (c : char) : bool :=
  ASCII_CTRL c && negb (c =? TAB).
Definition ILLEGAL_MULTILINE_BASIC_STR_CHARS (c : char) : bool :=
  ASCII_CTRL c && negb ((c =? TAB) || (c =? LF)).
Definition ILLEGAL_LITERAL_STR_CHARS := ILLEGAL_BASIC_STR_CHARS.
Definition ILLEGAL_MULTILINE_LITERAL_STR_CHARS := ILLEGAL_MULTILINE_BASIC_STR_CHARS.
Definition ILLEGAL_COMMENT_CHARS := ILLEGAL_BASIC_STR_CHARS.

Definition TOML_WS (c : char) : bool := (c =? 32) || (c =? TAB).
Definition TOML_WS_AND_NEWLINE (c : char) : bool := TOML_WS c || (c =? LF).

Definition is_digit (c : char) : bool := in_range 48 57 c.
Definition is_ascii_letter (c : char) : bool :=
  in_range 65 90 c || in_range 97 122 c.
Definition BARE_KEY_CHARS (c : char) : bool :=
  is_ascii_letter c || is_digit c || (c =? 45) || (c =? 95).
Definition KEY_INITIAL_CHARS (c : char) : bool :=
  BARE_KEY_CHARS c || (c =? QUOTE) || (c =? APOS).
Definition HEXDIGIT_CHARS (c : char) : bool :=
  is_digit c || in_range 65 70 c || in_range 97 102 c.

(** [BASIC_STR_ESCAPE_REPLACEMENTS], keyed by the character after the
    backslash. *)
Definition BASIC_STR_ESCAPE_REPLACEMENTS (c : char) : option char :=
  if c =? 98 then Some 8            (* \b *)
  else if c =? 116 then Some 9      (* \t *)
  else if c =? 110 then Some 10     (* \n *)
  else if c =? 102 then Some 12     (* \f *)
  else if c =? 114 then Some 13     (* \r *)
  else if c =? QUOTE then Some 34
  else if c =? BACKSLASH then Some 92
  else None.

(** ** Skipping *)

Fixpoint skip_chars (chars : char -> bool) (rest : str) : str :=
  match rest with
  | c :: rest' => if chars c then skip_chars chars rest' else rest
  | [] => []
  end.

(** The text [src[start_pos:pos]] that [skip_chars] went over. *)
Fixpoint span_chars (chars : char -> bool) (rest : str) : str :=
  match rest with
  | c :: rest' => if chars c then c :: span_chars chars rest' else []
  | [] => []
  end.

(** [skip_until] returns the text skipped with the text from the new
    position on. *)
Definition skip_until (rest : str) (expect : str) (error_on : char -> bool)
    (error_on_eof : bool) : pres (str * str) :=
  let* (skipped, rest') :=
    match str_index expect rest with
    | Some found => Got found
    | None =>
        if error_on_eof then suffixed_err "Expected {expect!r}"
        else Got (rest, [])
    end in
  if existsb error_on skipped
  then suffixed_err "Found invalid character {src[pos]!r}"
  else Got (skipped, rest').

Definition skip_comment (rest : str) : pres str :=
  match rest with
  | c :: rest' =>
      if c =? 35 then
        let* (_, rest'') := skip_until rest' [LF] ILLEGAL_COMMENT_CHARS false in
        Got rest''
      else Got rest
  | [] => Got rest
  end.

Fixpoint skip_comments_and_array_ws (fuel : nat) (rest : str) : pres str :=
  match fuel with
  | O => Gas
  | S fuel' =>
      let rest1 := skip_chars TOML_WS_AND_NEWLINE rest in
      let* rest2 := skip_comment rest1 in
      if (List.length rest2 =? List.length rest)%nat then Got rest2
      else skip_comments_and_array_ws fuel' rest2
  end.

(** ** Strings *)

Definition hex_value (c : char) : N :=
  if is_digit c then c - 48
  else if in_range 65 70 c then c - 55
  else c - 87.

(** [int(hex_str, 16)] *)
Definition int_hex (hex_str : str) : N :=
  fold_left (fun acc c => 16 * acc + hex_value c) hex_str 0.

Definition is_unicode_scalar_value (codepoint : N) : bool :=
  in_range 0 55295 codepoint || in_range 57344 1114111 codepoint.

Definition parse_hex_char (rest : str) (hex_len : nat) : pres (str * str) :=
  let hex_str := take hex_len rest in
  if negb (List.length hex_str =? hex_len)%nat || negb (forallb HEXDIGIT_CHARS hex_str)
  then suffixed_err "Invalid hex value"
  else
    let rest := drop hex_len rest in
    let hex_int := int_hex hex_str in
    if negb (is_unicode_scalar_value hex_int)
    then suffixed_err "Escaped character is not a Unicode scalar value"
    else Got (rest, [hex_int]).

(** [rest] starts at the backslash. *)
Definition parse_basic_str_escape (rest : str) (multiline : bool)
    : pres (str * str) :=
  let escape_id := take 2 rest in
  let rest := drop 2 rest in
  if multiline && (str_eqb escape_id [BACKSLASH; 32]
                   || str_eqb escape_id [BACKSLASH; TAB]
                   || str_eqb escape_id [BACKSLASH; LF])
  then
    if negb (str_eqb escape_id [BACKSLASH; LF]) then
      let rest := skip_chars TOML_WS rest in
      match rest with
      | [] => Got (rest, [])
      | c :: rest' =>
          if negb (c =? LF) then suffixed_err "Unescaped '\' in a string"
          else Got (skip_chars TOML_WS_AND_NEWLINE rest', [])
      end
    else Got (skip_chars TOML_WS_AND_NEWLINE rest, [])
  else if str_eqb escape_id [BACKSLASH; 117] then parse_hex_char rest 4
  else if str_eqb escape_id [BACKSLASH; 85] then parse_hex_char rest 8
  else
    match escape_id with
    | [_; c] =>
        match BASIC_STR_ESCAPE_REPLACEMENTS c with
        | Some r => Got (rest, [r])
        | None => suffixed_err "Unescaped '\' in a string"
        end
    | _ => suffixed_err "Unescaped '\' in a string"
    end.

(** The loop of [parse_basic_str]; [result] also holds the pending
    slice [src[start_pos:pos]]. *)
Fixpoint parse_basic_str (fuel : nat) (rest : str) (multiline : bool)
    (result : str) : pres (str * str) :=
  match fuel with
  | O => Gas
  | S fuel' =>
      match rest with
      | [] => suffixed_err "Unterminated string"
      | c :: rest' =>
          if c =? QUOTE then
            if negb multiline then Got (rest', result)
            else if startswith [QUOTE; QUOTE; QUOTE] rest
                 then Got (drop 3 rest, result)
                 else parse_basic_str fuel' rest' multiline (result ++ [c])
          else if c =? BACKSLASH then
            let* (rest'', parsed_escape) := parse_basic_str_escape rest multiline in
            parse_basic_str fuel' rest'' multiline (result ++ parsed_escape)
          else if (if multiline then ILLEGAL_MULTILINE_BASIC_STR_CHARS c
                   else ILLEGAL_BASIC_STR_CHARS c)
          then suffixed_err "Illegal character {char!r}"
          else parse_basic_str fuel' rest' multiline (result ++ [c])
      end
  end.

(** [rest] starts at the opening quote. *)
Definition parse_one_line_basic_str (fuel : nat) (rest : str) : pres (str * str) :=
  parse_basic_str fuel (drop 1 rest) false [].

(** [rest] starts at the opening apostrophe. *)
Definition parse_literal_str (rest : str) : pres (str * str) :=
  let* (skipped, rest') :=
    skip_until (drop 1 rest) [APOS] ILLEGAL_LITERAL_STR_CHARS true in
  Got (drop 1 rest', skipped).

(** [rest] starts at the three opening delimiters. *)
Definition parse_multiline_str (fuel : nat) (rest : str) (literal : bool)
    : pres (str * str) :=
  let rest := drop 3 rest in
  let rest := if startswith [LF] rest then drop 1 rest else rest in
  let delim := if literal then APOS else QUOTE in
  let* (rest, result) :=
    if literal then
      let* (skipped, rest') :=
        skip_until rest [APOS; APOS; APOS]
          ILLEGAL_MULTILINE_LITERAL_STR_CHARS true in
      Got (drop 3 rest', skipped)
    else parse_basic_str fuel rest true [] in
  if negb (startswith [delim] rest) then Got (rest, result)
  else
    let rest := drop 1 rest in
    if negb (startswith [delim] rest) then Got (rest, result ++ [delim])
    else Got (drop 1 rest, result ++ [delim; delim]).

(** ** Keys *)

Definition parse_key_part (fuel : nat) (rest : str) : pres (str * str) :=
  match rest with
  | c :: _ =>
      if BARE_KEY_CHARS c
      then Got (skip_chars BARE_KEY_CHARS rest, span_chars BARE_KEY_CHARS rest)
      else if c =? APOS then parse_literal_str rest
      else if c =? QUOTE then parse_one_line_basic_str fuel rest
      else suffixed_err "Invalid initial character for a key part"
  | [] => suffixed_err "Invalid initial character for a key part"
  end.

(** The loop of [parse_key], entered after the first key part and the
    white space behind it. *)
Fixpoint parse_key_loop (fuel : nat) (rest : str) (key : Key) : pres (str * Key) :=
  match fuel with
  | O => Gas
  | S fuel' =>
      match rest with
      | c :: rest' =>
          if c =? 46 then
            let rest' := skip_chars TOML_WS rest' in
            let* (rest', key_part) := parse_key_part fuel' rest' in
            parse_key_loop fuel' (skip_chars TOML_WS rest') (key ++ [key_part])
          else Got (rest, key)
      | [] => Got (rest, key)
      end
  end.

Definition parse_key (fuel : nat) (rest : str) : pres (str * Key) :=
  let* (rest, key_part) := parse_key_part fuel rest in
  parse_key_loop fuel (skip_chars TOML_WS rest) [key_part].

(** ** The regular expressions of [_re.py], as matchers

    Each matcher returns what the groups of the match hold together with
    the text behind [match.end()], or [None] when the expression does
    not match at the position. *)

Definition digit_value (c : char) : N := c - 48.

(** Two decimal digits whose value lies in [lo..hi]: [0[1-9]|1[0-2]],
    [[01][0-9]|2[0-3]], [[0-5][0-9]] and the like. *)
Definition two_digits (lo hi : N) (rest : str) : option (N * str) :=
  match rest with
  | a :: b :: rest' =>
      let v := 10 * digit_value a + digit_value b in
      if is_digit a && is_digit b && in_range lo hi v then Some (v, rest')
      else None
  | _ => None
  end.

Definition expect_char (c : char) (rest : str) : option str :=
  match rest with
  | d :: rest' => if c =? d then Some rest' else None
  | [] => None
  end.

(** [int(s)] of a string of decimal digits. *)
Definition int_dec (s : str) : N :=
  fold_left (fun acc c => 10 * acc + digit_value c) s 0.

(** [micros_str.ljust(6, "0")] *)
Definition ljust6 (s : str) : str := s ++ repeat 48 (6 - List.length s).

(** The optional fraction of a second, a dot and digits of which the
    first six count: the microseconds and the text behind. *)
Definition match_fraction (rest : str) : N * str :=
  match rest with
  | c :: rest' =>
      let ds := span_chars is_digit rest' in
      if (c =? 46) && negb (str_eqb ds [])
      then (int_dec (ljust6 (take 6 ds)), skip_chars is_digit rest')
      else (0, rest)
  | [] => (0, rest)
  end.

(** [_TIME_RE_STR] *)
Definition match_time (rest : str) : option (time * str) :=
  match two_digits 0 23 rest with
  | Some (h, rest) =>
      match expect_char 58 rest with
      | Some rest =>
          match two_digits 0 59 rest with
          | Some (m, rest) =>
              match expect_char 58 rest with
              | Some rest =>
                  match two_digits 0 59 rest with
                  | Some (s, rest) =>
                      let '(micros, rest) := match_fraction rest in
                      Some (Time h m s micros, rest)
                  | None => None
                  end
              | None => None
              end
          | None => None
          end
      | None => None
      end
  | None => None
  end.

Definition RE_LOCALTIME := match_time.

(** [(?:([Zz])|([+-])([01][0-9]|2[0-3]):([0-5][0-9]))?] with [cached_tz]:
    the offset in minutes. *)
Definition match_offset (rest : str) : option Z * str :=
  match rest with
  | c :: rest' =>
      if (c =? 90) || (c =? 122) then (Some 0%Z, rest')
      else if (c =? 43) || (c =? 45) then
        match two_digits 0 23 rest' with
        | Some (h, rest1) =>
            match expect_char 58 rest1 with
            | Some rest2 =>
                match two_digits 0 59 rest2 with
                | Some (m, rest3) =>
                    let sign := if c =? 43 then 1%Z else (-1)%Z in
                    (Some (sign * Z.of_N h * 60 + sign * Z.of_N m)%Z, rest3)
                | None => (None, rest)
                end
            | None => (None, rest)
            end
        | None => (None, rest)
        end
      else (None, rest)
  | [] => (None, rest)
  end.

(** [([0-9]{4})]: four decimal digits. *)
Definition four_digits (rest : str) : option (N * str) :=
  let ds := take 4 rest in
  if (List.length ds =? 4)%nat && forallb is_digit ds
  then Some (int_dec ds, drop 4 rest)
  else None.

(** [RE_DATETIME]: the date, the time with its offset when the optional
    group matches, and the text behind the match. *)
Definition RE_DATETIME (rest : str)
    : option (N * N * N * option (time * option Z) * str) :=
  match four_digits rest with
  | Some (y, rest) =>
      match expect_char 45 rest with
      | Some rest =>
          match two_digits 1 12 rest with
          | Some (mo, rest) =>
              match expect_char 45 rest with
              | Some rest =>
                  match two_digits 1 31 rest with
                  | Some (d, rest) =>
                      match rest with
                      | c :: rest' =>
                          if (c =? 84) || (c =? 116) || (c =? 32) then
                            match match_time rest' with
                            | Some (t, rest'') =>
                                let '(tz, rest''') := match_offset rest'' in
                                Some (y, mo, d, Some (t, tz), rest''')
                            | None => Some (y, mo, d, None, rest)
                            end
                          else Some (y, mo, d, None, rest)
                      | [] => Some (y, mo, d, None, rest)
                      end
                  | None => None
                  end
              | None => None
              end
          | None => None
          end
      | None => None
      end
  | None => None
  end.

(** [datetime.date] accepts the years 1..9999 and the days of the
    month; it raises [ValueError] otherwise. *)
Definition is_leap (y : N) : bool :=
  ((y mod 4 =? 0) && negb (y mod 100 =? 0)) || (y mod 400 =? 0).

Definition days_in_month (y m : N) : N :=
  if m =? 2 then (if is_leap y then 29 else 28)
  else if (m =? 4) || (m =? 6) || (m =? 9) || (m =? 11) then 30
  else 31.

Definition valid_date (y m d : N) : bool :=
  in_range 1 9999 y && in_range 1 12 m && in_range 1 (days_in_month y m) d.

(** [match_to_datetime]; [None] stands for the [ValueError]. *)
Definition match_to_datetime (y m d : N) (t : option (time * option Z))
    : option value :=
  if valid_date y m d then
    match t with
    | None => Some (VDate (Date y m d))
    | Some (t, tz) => Some (VDateTime (Date y m d) t tz)
    end
  else None.

Definition match_to_localtime (t : time) : value := VTime t.

(** Digits with single underscores between them, the starred group
    [(?:_?[0-9])] of [RE_NUMBER]: the text matched and the text behind. *)
Fixpoint us_digits (isd : char -> bool) (rest : str) : str * str :=
  match rest with
  | c :: rest' =>
      if isd c then
        let '(m, r) := us_digits isd rest' in (c :: m, r)
      else if c =? 95 then
        match rest' with
        | d :: rest'' =>
            if isd d then
              let '(m, r) := us_digits isd rest'' in (c :: d :: m, r)
            else ([], rest)
        | [] => ([], rest)
        end
      else ([], rest)
  | [] => ([], [])
  end.

Definition is_bindigit (c : char) : bool := in_range 48 49 c.
Definition is_octdigit (c : char) : bool := in_range 48 55 c.

(** First alternative of [RE_NUMBER]: hexadecimal, binary or octal. *)
Definition match_prefixed (rest : str) : option (str * str) :=
  match rest with
  | z :: p :: d :: rest' =>
      let isd := if p =? 120 then Some HEXDIGIT_CHARS
                 else if p =? 98 then Some is_bindigit
                 else if p =? 111 then Some is_octdigit
                 else None in
      match isd with
      | Some isd =>
          if (z =? 48) && isd d then
            let '(m, r) := us_digits isd rest' in Some (z :: p :: d :: m, r)
          else None
      | None => None
      end
  | _ => None
  end.

(** The decimal integer part, with its optional sign. *)
Definition match_dec_int (rest : str) : option (str * str) :=
  let '(sign, rest1) :=
    match rest with
    | c :: rest' => if (c =? 43) || (c =? 45) then ([c], rest') else ([], rest)
    | [] => ([], rest)
    end in
  match rest1 with
  | d :: rest2 =>
      if d =? 48 then Some (sign ++ [d], rest2)
      else if in_range 49 57 d then
        let '(m, r) := us_digits is_digit rest2 in Some (sign ++ d :: m, r)
      else None
  | [] => None
  end.

(** The optional fractional part. *)
Definition match_frac (rest : str) : str * str :=
  match rest with
  | c :: d :: rest' =>
      if (c =? 46) && is_digit d then
        let '(m, r) := us_digits is_digit rest' in (c :: d :: m, r)
      else ([], rest)
  | _ => ([], rest)
  end.

(** The optional exponent part. *)
Definition match_exp (rest : str) : str * str :=
  match rest with
  | e :: rest' =>
      if (e =? 101) || (e =? 69) then
        let '(sign, rest1) :=
          match rest' with
          | c :: rest'' =>
              if (c =? 43) || (c =? 45) then ([c], rest'') else ([], rest')
          | [] => ([], rest')
          end in
        match rest1 with
        | d :: rest2 =>
            if is_digit d then
              let '(m, r) := us_digits is_digit rest2 in
              (e :: sign ++ d :: m, r)
            else ([], rest)
        | [] => ([], rest)
        end
      else ([], rest)
  | [] => ([], rest)
  end.

(** [RE_NUMBER]: the text matched, the group [floatpart] and the text
    behind the match. *)
Definition RE_NUMBER (rest : str) : option (str * str * str) :=
  match match_prefixed rest with
  | Some (m, r) => Some (m, [], r)
  | None =>
      match match_dec_int rest with
      | Some (i, r1) =>
          let '(f, r2) := match_frac r1 in
          let '(e, r3) := match_exp r2 in
          Some (i ++ f ++ e, f ++ e, r3)
      | None => None
      end
  end.

(** [int(s, 0)] on a match of [RE_NUMBER] without float part. *)
Definition digits_value (base : N) (s : str) : N :=
  fold_left (fun acc c => if c =? 95 then acc else base * acc + hex_value c) s 0.

Definition int_base0 (s : str) : Z :=
  match s with
  | c :: ds =>
      if c =? 45 then (- Z.of_N (digits_value 10 ds))%Z
      else if c =? 43 then Z.of_N (digits_value 10 ds)
      else
        match ds with
        | p :: ds' =>
            if p =? 120 then Z.of_N (digits_value 16 ds')
            else if p =? 98 then Z.of_N (digits_value 2 ds')
            else if p =? 111 then Z.of_N (digits_value 8 ds')
            else Z.of_N (digits_value 10 s)
        | [] => Z.of_N (digits_value 10 s)
        end
  | [] => 0%Z
  end.

(** [sys.get_int_max_str_digits()], at the default of CPython 3.11:
    the conversions between [int] and decimal text raise [ValueError]
    beyond so many digits. *)
Definition int_max_str_digits : nat := 4300.

(** A literal with one of the prefixes [0x], [0o] and [0b]; the limit of
    digits does not apply to these bases. *)
Definition is_prefixed (s : str) : bool :=
  match s with
  | c :: p :: _ => (c =? 48) && ((p =? 120) || (p =? 98) || (p =? 111))
  | _ => false
  end.

(** The digits of a decimal literal, sign and underscores not counted. *)
Definition digit_count (s : str) : nat := List.length (List.filter is_digit s).

Definition int_str_too_long (s : str) : bool :=
  negb (is_prefixed s) && (int_max_str_digits <? digit_count s)%nat.

Definition match_to_number (m floatpart : str) : pres value :=
  match floatpart with
  | [] => if int_str_too_long m then Fail ValueError else Got (VInt (int_base0 m))
  | _ => Got (VFloat m)
  end.

(** ** Values *)

Definition parse_key_value_pair_with
    (parse_value : str -> pres (str * value)) (fuel : nat) (rest : str)
    : pres (str * Key * value) :=
  let* (rest, key) := parse_key fuel rest in
  match rest with
  | c :: rest' =>
      if c =? 61 then
        let rest' := skip_chars TOML_WS rest' in
        let* (rest', v) := parse_value rest' in
        Got (rest', key, v)
      else suffixed_err "Expected '=' after a key in a key/value pair"
  | [] => suffixed_err "Expected '=' after a key in a key/value pair"
  end.

(** The part of [parse_value] behind the strings, booleans, arrays and
    inline tables. *)
Definition parse_scalar (rest : str) : pres (str * value) :=
  match RE_DATETIME rest with
  | Some (y, m, d, t, rest') =>
      match match_to_datetime y m d t with
      | Some v => Got (rest', v)
      | None => suffixed_err "Invalid date or datetime"
      end
  | None =>
      match RE_LOCALTIME rest with
      | Some (t, rest') => Got (rest', match_to_localtime t)
      | None =>
          match RE_NUMBER rest with
          | Some (m, floatpart, rest') =>
              let* v := match_to_number m floatpart in
              Got (rest', v)
          | None =>
              let first_three := take 3 rest in
              if str_eqb first_three (u "inf") || str_eqb first_three (u "nan")
              then Got (drop 3 rest, VFloat first_three)
              else
                let first_four := take 4 rest in
                if str_eqb first_four (u "-inf") || str_eqb first_four (u "+inf")
                   || str_eqb first_four (u "-nan") || str_eqb first_four (u "+nan")
                then Got (drop 4 rest, VFloat first_four)
                else suffixed_err "Invalid value"
          end
      end
  end.

Definition parse_array_with
    (parse_array_loop : str -> list value -> pres (str * list value))
    (fuel : nat) (rest : str) : pres (str * list value) :=
  let rest := drop 1 rest in
  let array := [] in
  let* rest := skip_comments_and_array_ws fuel rest in
  if startswith [93] rest then Got (drop 1 rest, array)
  else parse_array_loop rest array.

Definition parse_inline_table_with
    (parse_inline_table_loop : str -> Dict -> Flags -> pres (str * Dict))
    (rest : str) : pres (str * Dict) :=
  let rest := drop 1 rest in
  let nested_dict := [] in
  let flags := Flags_new in
  let rest := skip_chars TOML_WS rest in
  if startswith [125] rest then Got (drop 1 rest, nested_dict)
  else parse_inline_table_loop rest nested_dict flags.

(** [isinstance(value, (dict, list))] *)
Definition is_dict_or_list (v : value) : bool :=
  match v with VDict _ | VList _ => true | _ => false end.

Fixpoint parse_value (fuel : nat) (rest : str) {struct fuel} : pres (str * value) :=
  match fuel with
  | O => Gas
  | S fuel' =>
      match rest with
      | c :: _ =>
          (* Basic strings *)
          if c =? QUOTE then
            let* (rest', s) :=
              if startswith [QUOTE; QUOTE; QUOTE] rest
              then parse_multiline_str fuel' rest false
              else parse_one_line_basic_str fuel' rest in
            Got (rest', VStr s)
          (* Literal strings *)
          else if c =? APOS then
            let* (rest', s) :=
              if startswith [APOS; APOS; APOS] rest
              then parse_multiline_str fuel' rest true
              else parse_literal_str rest in
            Got (rest', VStr s)
          (* Booleans *)
          else if (c =? 116) && startswith (u "true") rest
          then Got (drop 4 rest, VBool true)
          else if (c =? 102) && startswith (u "false") rest
          then Got (drop 5 rest, VBool false)
          (* Arrays *)
          else if c =? 91 then
            let* (rest', l) :=
              parse_array_with (parse_array_loop fuel') fuel' rest in
            Got (rest', VList l)
          (* Inline tables *)
          else if c =? 123 then
            let* (rest', d) :=
              parse_inline_table_with (parse_inline_table_loop fuel') rest in
            Got (rest', VDict d)
          (* Dates and times, numbers, special floats *)
          else parse_scalar rest
      | [] => parse_scalar rest
      end
  end

(** The loop of [parse_array]. *)
with parse_array_loop (fuel : nat) (rest : str) (array : list value)
    {struct fuel} : pres (str * list value) :=
  match fuel with
  | O => Gas
  | S fuel' =>
      let* (rest, val) := parse_value fuel' rest in
      let array := array ++ [val] in
      let* rest := skip_comments_and_array_ws fuel' rest in
      match rest with
      | c :: rest' =>
          if c =? 93 then Got (rest', array)
          else if negb (c =? 44) then suffixed_err "Unclosed array"
          else
            let* rest' := skip_comments_and_array_ws fuel' rest' in
            if startswith [93] rest' then Got (drop 1 rest', array)
            else parse_array_loop fuel' rest' array
      | [] => suffixed_err "Unclosed array"
      end
  end

(** The loop of [parse_inline_table]. *)
with parse_inline_table_loop (fuel : nat) (rest : str) (nested_dict : Dict)
    (flags : Flags) {struct fuel} : pres (str * Dict) :=
  match fuel with
  | O => Gas
  | S fuel' =>
      let* (rest, key, v) :=
        parse_key_value_pair_with (parse_value fuel') fuel' rest in
      if flags_is flags key FROZEN
      then suffixed_err "Cannot mutate immutable namespace {key}"
      else
        let* nest :=
          except_KeyError (get_or_create_nest (key_parent key) false nested_dict)
            (TOMLDecodeError "Cannot overwrite a value") in
        if dict_mem (key_stem key) nest
        then suffixed_err "Duplicate inline table key {key_stem!r}"
        else
          let nested_dict :=
            put_nest (key_parent key) (dict_set (key_stem key) v nest) nested_dict in
          let rest := skip_chars TOML_WS rest in
          match rest with
          | c :: rest' =>
              if c =? 125 then Got (rest', nested_dict)
              else if negb (c =? 44) then suffixed_err "Unclosed inline table"
              else
                let flags :=
                  if is_dict_or_list v then flags_set flags key FROZEN true
                  else flags in
                parse_inline_table_loop fuel' (skip_chars TOML_WS rest')
                  nested_dict flags
          | [] => suffixed_err "Unclosed inline table"
          end
  end.

Definition parse_array (fuel : nat) (rest : str) : pres (str * list value) :=
  parse_array_with (parse_array_loop fuel) fuel rest.

Definition parse_inline_table (fuel : nat) (rest : str) : pres (str * Dict) :=
  parse_inline_table_with (parse_inline_table_loop fuel) rest.

Definition parse_key_value_pair (fuel : nat) (rest : str)
    : pres (str * Key * value) :=
  parse_key_value_pair_with (parse_value fuel) fuel rest.

(** ** Statements *)

Definition create_dict_rule (fuel : nat) (rest : str) (out : Output)
    : pres (str * Output * Key) :=
  let rest := drop 1 rest in            (* Skip "[" *)
  let rest := skip_chars TOML_WS rest in
  let* (rest, key) := parse_key fuel rest in
  if flags_is (flags out) key EXPLICIT_NEST || flags_is (flags out) key FROZEN
  then suffixed_err "Cannot declare {key} twice"
  else
    let fl := flags_set (flags out) key EXPLICIT_NEST false in
    let* nest :=
      except_KeyError (get_or_create_nest key true (data out))
        (TOMLDecodeError "Cannot overwrite a value") in
    let out := MkOutput (put_nest key nest (data out)) fl in
    if negb (startswith [93] rest)
    then suffixed_err "Expected ']' at the end of a table declaration"
    else Got (drop 1 rest, out, key).

Definition create_list_rule (fuel : nat) (rest : str) (out : Output)
    : pres (str * Output * Key) :=
  let rest := drop 2 rest in            (* Skip "[[" *)
  let rest := skip_chars TOML_WS rest in
  let* (rest, key) := parse_key fuel rest in
  if flags_is (flags out) key FROZEN
  then suffixed_err "Cannot mutate immutable namespace {key}"
  else
    (* Free the namespace now that it points to another empty list item... *)
    let fl := unset_all (flags out) key in
    (* ...but this key precisely is still prohibited from table declaration *)
    let fl := flags_set fl key EXPLICIT_NEST false in
    let* data' :=
      except_KeyError (append_nest_to_list key (data out))
        (TOMLDecodeError "Cannot overwrite a value") in
    let out := MkOutput data' fl in
    if negb (startswith [93; 93] rest)
    then suffixed_err "Expected ']]' at the end of an array declaration"
    else Got (drop 2 rest, out, key).

(** [header + key[:i] for i in range(1, len(key))] *)
Definition relative_path_cont_keys (header key : Key) : list Key :=
  List.map (fun i => header ++ take i key) (seq 1 (List.length key - 1)).

(** The [for] loop of [key_value_rule]. *)
Fixpoint check_cont_keys (fl : Flags) (cont_keys : list Key) : pres Flags :=
  match cont_keys with
  | [] => Got fl
  | cont_key :: cont_keys' =>
      (* Check that dotted key syntax does not redefine an existing table *)
      if flags_is fl cont_key EXPLICIT_NEST
      then suffixed_err "Cannot redefine namespace {cont_key}"
      else check_cont_keys (add_pending fl cont_key EXPLICIT_NEST) cont_keys'
  end.

Definition key_value_rule (fuel : nat) (rest : str) (out : Output) (header : Key)
    : pres (str * Output) :=
  let* (rest, key, v) := parse_key_value_pair fuel rest in
  let abs_key_parent := header ++ key_parent key in
  let* fl := check_cont_keys (flags out) (relative_path_cont_keys header key) in
  if flags_is fl abs_key_parent FROZEN
  then suffixed_err "Cannot mutate immutable namespace {abs_key_parent}"
  else
    let* nest :=
      except_KeyError (get_or_create_nest abs_key_parent true (data out))
        (TOMLDecodeError "Cannot overwrite a value") in
    if dict_mem (key_stem key) nest
    then suffixed_err "Cannot overwrite a value"
    else
      (* Mark inline table and array namespaces recursively immutable *)
      let fl := if is_dict_or_list v
                then flags_set fl (header ++ key) FROZEN true
                else fl in
      let data' := put_nest abs_key_parent (dict_set (key_stem key) v nest) (data out) in
      Got (rest, MkOutput data' fl).

(** ** [loads] *)

(** One round of the [while True] loop, one statement at a time. *)
Fixpoint loads_loop (fuel : nat) (rest : str) (out : Output) (header : Key)
    : pres Dict :=
  match fuel with
  | O => Gas
  | S fuel' =>
      (* 1. Skip line leading whitespace *)
      let rest := skip_chars TOML_WS rest in
      (* 2. Parse rules *)
      match rest with
      | [] => Got (data out)
      | c :: rest' =>
          if c =? LF then loads_loop fuel' rest' out header
          else
            let* (rest, out, header) :=
              if KEY_INITIAL_CHARS c then
                let* (rest, out) := key_value_rule fuel' rest out header in
                Got (skip_chars TOML_WS rest, out, header)
              else if c =? 91 then
                let second_char := head rest' in
                let out := MkOutput (data out) (finalize_pending (flags out)) in
                let* (rest, out, header) :=
                  if bool_decide (second_char = Some 91)
                  then create_list_rule fuel' rest out
                  else create_dict_rule fuel' rest out in
                Got (skip_chars TOML_WS rest, out, header)
              else if negb (c =? 35) then suffixed_err "Invalid statement"
              else Got (rest, out, header) in
            (* 3. Skip comment *)
            let* rest := skip_comment rest in
            (* 4. Expect end of line or end of file *)
            match rest with
            | [] => Got (data out)
            | c :: rest' =>
                if negb (c =? LF)
                then suffixed_err
                       "Expected newline or end of document after a statement"
                else loads_loop fuel' rest' out header
            end
      end
  end.

(** Fuel for a source text: no loop of the parser runs longer. *)
Definition loads_fuel (src : str) : nat := 2 * List.length src + 4.

Definition loads_gas (s : str) : pres Dict :=
  let src := replace_crlf s in
  loads_loop (loads_fuel src) src (MkOutput [] Flags_new) [].

(** ** Outcomes of Python calls *)

Inductive outcome (A : Type) :=
| Return (a : A)
| Raise (e : exn).
Arguments Return {A} a.
Arguments Raise {A} e.

(** [tomllib.loads].  Running out of fuel would be a recursion without
    end; [loads_never_out_of_gas] excludes it. *)
Definition loads (s : str) : outcome Dict :=
  match loads_gas s with
  | Got d => Return d
  | Fail e => Raise e
  | Gas => Raise RecursionError
  end.

(** ** Bytes and UTF-8 *)

Definition bytes := string.

Definition byte_values (b : bytes) : list N :=
  List.map N_of_ascii (list_ascii_of_string b).

Definition bytes_of_values (l : list N) : bytes :=
  string_of_list_ascii (List.map ascii_of_N l).

Definition is_cont (b : N) : bool := in_range 128 191 b.

(** [bytes.decode()]: strict UTF-8; [None] stands for the
    [UnicodeDecodeError]. *)
Fixpoint utf8_decode (b : list N) : option str :=
  match b with
  | [] => Some []
  | b0 :: b' =>
      if b0 <? 128 then
        match utf8_decode b' with Some s => Some (b0 :: s) | None => None end
      else if in_range 194 223 b0 then
        match b' with
        | b1 :: b'' =>
            if is_cont b1 then
              match utf8_decode b'' with
              | Some s => Some ((b0 - 192) * 64 + (b1 - 128) :: s)
              | None => None
              end
            else None
        | _ => None
        end
      else if in_range 224 239 b0 then
        match b' with
        | b1 :: b2 :: b'' =>
            if in_range (if b0 =? 224 then 160 else 128)
                        (if b0 =? 237 then 159 else 191) b1 && is_cont b2
            then
              match utf8_decode b'' with
              | Some s =>
                  Some ((b0 - 224) * 4096 + (b1 - 128) * 64 + (b2 - 128) :: s)
              | None => None
              end
            else None
        | _ => None
        end
      else if in_range 240 244 b0 then
        match b' with
        | b1 :: b2 :: b3 :: b'' =>
            if in_range (if b0 =? 240 then 144 else 128)
                        (if b0 =? 244 then 143 else 191) b1
               && is_cont b2 && is_cont b3
            then
              match utf8_decode b'' with
              | Some s =>
                  Some ((b0 - 240) * 262144 + (b1 - 128) * 4096
                        + (b2 - 128) * 64 + (b3 - 128) :: s)
              | None => None
              end
            else None
        | _ => None
        end
      else None
  end.

(** The UTF-8 encoding of Unicode scalar values. *)
Definition utf8_encode_char (c : char) : list N :=
  if c <? 128 then [c]
  else if c <? 2048 then [192 + c / 64; 128 + c mod 64]
  else if c <? 65536 then [224 + c / 4096; 128 + (c / 64) mod 64; 128 + c mod 64]
  else [240 + c / 262144; 128 + (c / 4096) mod 64; 128 + (c / 64) mod 64;
        128 + c mod 64].

Definition utf8_encode (s : str) : bytes :=
  bytes_of_values (List.concat (List.map utf8_encode_char s)).

(** [tomllib.load(fp)], on the bytes that [fp.read()] returns. *)
Definition tomllib_load (b : bytes) : outcome Dict :=
  match utf8_decode (byte_values b) with
  | None => Raise UnicodeDecodeError
  | Some s => loads s
  end.

(** ** The file system

    A path is the list of its components under the root.  A node records
    what the invoking user may do with it.  New directories and files get
    the rights a usual umask leaves the owner. *)

Record perm := Perm { can_read : bool; can_write : bool; can_search : bool }.

Inductive node :=
| Dir (p : perm)
| File (p : perm) (content : bytes).

Abbreviation path := (list string).
Abbreviation filesys := (gmap (list string) node).

Definition new_dir : node := Dir (Perm true true true).
Definition new_file (content : bytes) : node := File (Perm true true false) content.

(** Path resolution: every ancestor named on the way to [pre ++ rest]
    has to be a directory that may be searched.  [None] is success. *)
Fixpoint walk (fs : filesys) (pre : path) (rest : list string)
    : option OSErrorKind :=
  match rest with
  | [] => None
  | c :: rest' =>
      match fs !! pre with
      | None => Some FileNotFoundError
      | Some (File _ _) => Some NotADirectoryError
      | Some (Dir pm) =>
          if can_search pm then walk fs (pre ++ [c]) rest'
          else Some PermissionError
      end
  end.

Definition resolve (fs : filesys) (p : path) : option OSErrorKind := walk fs [] p.

(** [self.parent] *)
Definition parent (p : path) : path := removelast p.

Definition dir_writable (fs : filesys) (p : path) : bool :=
  match fs !! p with
  | Some (Dir pm) => can_write pm
  | _ => false
  end.

(** ** The state of a run and the monad of Python calls *)

Inductive call := CallLoad | CallInit.

Record world := World {
  fs : filesys;              (* the files *)
  stdout : list Dict;        (* the objects whose print has returned *)
  calls : list call          (* ghost: the calls of config's functions *)
}.

Definition M (A : Type) := world -> outcome A * world.

Definition ret {A} (a : A) : M A := fun w => (Return a, w).
Definition raise {A} (e : exn) : M A := fun w => (Raise e, w).

Definition bind {A B} (m : M A) (k : A -> M B) : M B :=
  fun w =>
    match m w with
    | (Return a, w') => k a w'
    | (Raise e, w') => (Raise e, w')
    end.

Notation "'let!' p ':=' m 'in' k" := (bind m (fun p => k))
  (at level 10, p pattern, m at level 100, k at level 200).

(** [try: body except <handles>: handler], where [handler e] is [None]
    for an exception that no clause matches. *)
Definition try_except {A} (body : M A) (handler : exn -> option (M A)) : M A :=
  fun w =>
    match body w with
    | (Return a, w') => (Return a, w')
    | (Raise e, w') =>
        match handler e with
        | Some h => h w'
        | None => (Raise e, w')
        end
    end.

Definition get_fs : M filesys := fun w => (Return (fs w), w).
Definition set_fs (fs' : filesys) : M unit :=
  fun w => (Return tt, World fs' (stdout w) (calls w)).
Definition enter (c : call) : M unit :=
  fun w => (Return tt, World (fs w) (stdout w) (calls w ++ [c])).

(** [repr] of an [int] of more than [int_max_str_digits] decimal digits
    raises [ValueError]. *)
Definition int_repr_too_long (z : Z) : bool :=
  (10 ^ Z.of_nat int_max_str_digits <=? Z.abs z)%Z.

Fixpoint repr_too_long (v : value) : bool :=
  match v with
  | VInt z => int_repr_too_long z
  | VList l => existsb repr_too_long l
  | VDict d => existsb (fun kv => repr_too_long kv.2) d
  | _ => false
  end.

(** [print(obj)] where standard output works: the text of [obj] is
    made first, then written. *)
Definition print (obj : Dict) : M unit :=
  fun w =>
    if repr_too_long (VDict obj) then (Raise ValueError, w)
    else (Return tt, World (fs w) (stdout w ++ [obj]) (calls w)).

(** ** System calls *)

(** [os.mkdir(p)] *)
Definition os_mkdir (p : path) : M unit :=
  let! fs := get_fs in
  match p with
  | [] =>
      match fs !! p with
      | Some _ => raise (OSError FileExistsError)
      | None => raise (OSError FileNotFoundError)
      end
  | _ =>
      match resolve fs p with
      | Some k => raise (OSError k)
      | None =>
          match fs !! p with
          | Some _ => raise (OSError FileExistsError)
          | None =>
              if dir_writable fs (parent p) then set_fs (<[p := new_dir]> fs)
              else raise (OSError PermissionError)
          end
      end
  end.

(** [os.stat(p)] *)
Definition os_stat (p : path) : M node :=
  let! fs := get_fs in
  match resolve fs p with
  | Some k => raise (OSError k)
  | None =>
      match fs !! p with
      | Some n => ret n
      | None => raise (OSError FileNotFoundError)
      end
  end.

(** [open(p, "rb")] followed by [read()] *)
Definition read_file (fs : filesys) (p : path) : outcome bytes :=
  match resolve fs p with
  | Some k => Raise (OSError k)
  | None =>
      match fs !! p with
      | None => Raise (OSError FileNotFoundError)
      | Some (Dir pm) =>
          if can_read pm then Raise (OSError IsADirectoryError)
          else Raise (OSError PermissionError)
      | Some (File pm content) =>
          if can_read pm then Return content else Raise (OSError PermissionError)
      end
  end.

Definition open_rb (p : path) : M bytes := fun w => (read_file (fs w) p, w).

(** [open(p, "w")]: the file is created or truncated. *)
Definition open_w (p : path) : M unit :=
  let! fs := get_fs in
  match resolve fs p with
  | Some k => raise (OSError k)
  | None =>
      match fs !! p with
      | Some (Dir _) => raise (OSError IsADirectoryError)
      | Some (File pm _) =>
          if can_write pm then set_fs (<[p := File pm ""]> fs)
          else raise (OSError PermissionError)
      | None =>
          match p with
          | [] => raise (OSError FileNotFoundError)
          | _ =>
              if dir_writable fs (parent p) then set_fs (<[p := new_file ""]> fs)
              else raise (OSError PermissionError)
          end
      end
  end.

(** [f.write(s)] on a file opened by [open_w], flushed when the [with]
    block is left. *)
Definition file_write (p : path) (s : str) : M unit :=
  let! fs := get_fs in
  match fs !! p with
  | Some (File pm content) => set_fs (<[p := File pm (content ++ utf8_encode s)%string]> fs)
  | _ => ret tt
  end.

(** ** pathlib *)

(** [_ignore_error]: the errors behind which [is_dir] answers [False],
    those of the numbers ENOENT, ENOTDIR, EBADF (9) and ELOOP (40). *)
Definition _ignore_error (e : exn) : bool :=
  match e with
  | OSError FileNotFoundError | OSError NotADirectoryError => true
  | OSError (OtherOSError errno) => (errno =? 9) || (errno =? 40)
  | _ => false
  end.

(** [Path.is_dir] *)
Definition is_dir (p : path) : M bool :=
  try_except
    (let! n := os_stat p in
     ret (match n with Dir _ => true | File _ _ => false end))
    (fun e => if _ignore_error e then Some (ret false) else None).

(** [Path.mkdir(parents=False, exist_ok=exist_ok)] *)
Definition mkdir_no_parents (p : path) (exist_ok : bool) : M unit :=
  try_except (os_mkdir p)
    (fun e =>
       match e with
       | OSError FileNotFoundError => None
       | OSError _ =>
           Some (let! d := is_dir p in
                 if negb exist_ok || negb d then raise e else ret tt)
       | _ => None
       end).

(** [Path.mkdir(parents=True, exist_ok=True)] on the path made of the
    first [n] components of [p], whose parent is made of the first
    [n - 1]. *)
Fixpoint mkdir_parents (p : path) (n : nat) : M unit :=
  let self := take n p in
  try_except (os_mkdir self)
    (fun e =>
       match e with
       | OSError FileNotFoundError =>
           match n with
           | O => None                       (* self.parent == self *)
           | S n' =>
               Some (let! _ := mkdir_parents p n' in
                     mkdir_no_parents self true)
           end
       | OSError _ =>
           Some (let! d := is_dir self in
                 if negb d then raise e else ret tt)
       | _ => None
       end).

Definition Path_mkdir (p : path) : M unit := mkdir_parents p (List.length p).

(** ** playdoom/config.py *)

(** [DIRS = PlatformDirs("doom-cli")]: the directory of the user's
    configuration files is the platform's, [user_config_path] is the
    directory of the application in it. *)
Record PlatformDirs := { appname : string; config_home : path }.

Definition user_config_path (dirs : PlatformDirs) : path :=
  config_home dirs ++ [appname dirs].

Definition DIRS (config_home : path) : PlatformDirs :=
  {| appname := "doom-cli"; config_home := config_home |}.

Definition LINE (l : string) : str := u l ++ [LF].
Definition Q (s : string) : string := (String (ascii_of_nat 34) s) ++ String (ascii_of_nat 34) "".

Definition EXAMPLE_CONFIG : str :=
  lstrip (List.concat [
    [LF];
    LINE "# Example configuration file";
    LINE "# Lines starting with '#' are comments";
    LINE "[engines.example]";
    LINE "# Name(s) to identify the engine, required";
    LINE ("names = [" ++ Q "example" ++ ", " ++ Q "ex" ++ "]");
    LINE "# Path to the engine executable, required";
    LINE ("run = " ++ Q "/path/to/engine.exe");
    LINE "# Valid kinds:";
    LINE "# - Vanilla: Vanilla Doom (e.g. Chocolate Doom, Crispy Doom)";
    LINE "# - Boom: Boom-compatible ports (e.g. ReBoom)";
    LINE "# - MBF: MBF-compatible ports (e.g. PrBoom+, dsda-doom)";
    LINE "# - Eternity: Eternity Engine";
    LINE "# - ZDoom: ZDoom-based ports (e.g. GZDoom, Zandronum)";
    LINE ("kind = " ++ Q "Vanilla");
    LINE "# Any additional arguments to pass to the engine";
    LINE "extra_args = []";
    LINE "# When adding files, use -merge instead of -file";
    LINE "use_merge_arg = false"
  ]).

Definition config_toml (dirs : PlatformDirs) : path :=
  user_config_path dirs ++ ["config.toml"].

Definition init (dirs : PlatformDirs) : M unit :=
  let! _ := enter CallInit in
  let! _ := Path_mkdir (user_config_path dirs) in
  let! _ := open_w (config_toml dirs) in
  file_write (config_toml dirs) EXAMPLE_CONFIG.

Definition load (dirs : PlatformDirs) : M Dict :=
  let! _ := enter CallLoad in
  let! b := open_rb (config_toml dirs) in
  match tomllib_load b with
  | Return d => ret d
  | Raise e => raise e
  end.

(** ** playdoom/__main__.py *)

Definition main (dirs : PlatformDirs) : M unit :=
  try_except
    (let! d := load dirs in print d)
    (fun e => if is_IOError e then Some (init dirs) else None).

(** The exit status of [python -m playdoom]: 0 when [main] returns, 1
    when an exception leaves it. *)
Definition exit_status (dirs : PlatformDirs) (w : world) : N * world :=
  match main dirs w with
  | (Return _, w') => (0, w')
  | (Raise _, w') => (1, w')
  end.

(** ** The program in its environment *)

(** The limits of the interpreter, and what [print] meets when it
    writes the text. *)
Inductive limit := RecursionLimit | MemoryLimit.

Definition limit_exn (l : limit) : exn :=
  match l with
  | RecursionLimit => RecursionError
  | MemoryLimit => MemoryError
  end.

Inductive stdout_error :=
| WriteError (k : OSErrorKind)   (* the write to standard output fails *)
| EncodeError.                   (* a character outside the encoding of standard output *)

Definition stdout_exn (f : stdout_error) : exn :=
  match f with
  | WriteError k => OSError k
  | EncodeError => UnicodeEncodeError
  end.

Inductive syscall :=
| SysMkdir (p : path)
| SysStat (p : path)
| SysOpenRead (p : path)
| SysOpenWrite (p : path).

Record Env := {
  (* the system call fails, whatever the files would allow *)
  os_fault : syscall -> world -> option OSErrorKind;
  (* [f.write], or the close at the end of the [with] block, fails
     after so many bytes have reached the file *)
  write_fault : world -> option (OSErrorKind * nat);
  (* the write of [print] to standard output fails *)
  stdout_fault : world -> Dict -> option stdout_error;
  (* [tomllib.load] reaches a limit of the interpreter on these bytes:
     the parser calls itself for every level of arrays and inline
     tables *)
  load_limit : bytes -> option limit;
  (* [repr] reaches a limit on this mapping: it calls itself for every
     level of tables and arrays *)
  repr_limit : Dict -> option limit
}.

(** The environment in which nothing of this happens. *)
Definition working : Env :=
  {| os_fault := fun _ _ => None;
     write_fault := fun _ => None;
     stdout_fault := fun _ _ => None;
     load_limit := fun _ => None;
     repr_limit := fun _ => None |}.

Definition faulty {A} (env : Env) (c : syscall) (m : M A) : M A :=
  fun w =>
    match os_fault env c w with
    | Some k => (Raise (OSError k), w)
    | None => m w
    end.

Definition os_mkdir_in (env : Env) (p : path) : M unit :=
  faulty env (SysMkdir p) (os_mkdir p).

Definition os_stat_in (env : Env) (p : path) : M node :=
  faulty env (SysStat p) (os_stat p).

Definition open_rb_in (env : Env) (p : path) : M bytes :=
  faulty env (SysOpenRead p) (open_rb p).

Definition open_w_in (env : Env) (p : path) : M unit :=
  faulty env (SysOpenWrite p) (open_w p).

(** The first [n] bytes. *)
Definition bytes_take (n : nat) (b : bytes) : bytes := substring 0 n b.

(** [f.write(s)] and the close of the file: when they fail, the file
    that [open] has emptied keeps the bytes that were written. *)
Definition file_write_in (env : Env) (p : path) (s : str) : M unit :=
  fun w =>
    match write_fault env w with
    | Some (k, n) =>
        (Raise (OSError k),
         match fs w !! p with
         | Some (File pm content) =>
             World (<[p := File pm (content ++ bytes_take n (utf8_encode s))%string]> (fs w))
                   (stdout w) (calls w)
         | _ => w
         end)
    | None => file_write p s w
    end.

(** [print(obj)]: [repr] makes the text, which is then written. *)
Definition print_in (env : Env) (obj : Dict) : M unit :=
  fun w =>
    match repr_limit env obj with
    | Some l => (Raise (limit_exn l), w)
    | None =>
        if repr_too_long (VDict obj) then (Raise ValueError, w)
        else
          match stdout_fault env w obj with
          | Some f => (Raise (stdout_exn f), w)
          | None => (Return tt, World (fs w) (stdout w ++ [obj]) (calls w))
          end
    end.

Definition tomllib_load_in (env : Env) (b : bytes) : outcome Dict :=
  match load_limit env b with
  | Some l => Raise (limit_exn l)
  | None => tomllib_load b
  end.

Definition is_dir_in (env : Env) (p : path) : M bool :=
  try_except
    (let! n := os_stat_in env p in
     ret (match n with Dir _ => true | File _ _ => false end))
    (fun e => if _ignore_error e then Some (ret false) else None).

Definition mkdir_no_parents_in (env : Env) (p : path) (exist_ok : bool) : M unit :=
  try_except (os_mkdir_in env p)
    (fun e =>
       match e with
       | OSError FileNotFoundError => None
       | OSError _ =>
           Some (let! d := is_dir_in env p in
                 if negb exist_ok || negb d then raise e else ret tt)
       | _ => None
       end).

Fixpoint mkdir_parents_in (env : Env) (p : path) (n : nat) : M unit :=
  let self := take n p in
  try_except (os_mkdir_in env self)
    (fun e =>
       match e with
       | OSError FileNotFoundError =>
           match n with
           | O => None
           | S n' =>
               Some (let! _ := mkdir_parents_in env p n' in
                     mkdir_no_parents_in env self true)
           end
       | OSError _ =>
           Some (let! d := is_dir_in env self in
                 if negb d then raise e else ret tt)
       | _ => None
       end).

Definition Path_mkdir_in (env : Env) (p : path) : M unit :=
  mkdir_parents_in env p (List.length p).

Definition init_in (env : Env) (dirs : PlatformDirs) : M unit :=
  let! _ := enter CallInit in
  let! _ := Path_mkdir_in env (user_config_path dirs) in
  let! _ := open_w_in env (config_toml dirs) in
  file_write_in env (config_toml dirs) EXAMPLE_CONFIG.

Definition load_in (env : Env) (dirs : PlatformDirs) : M Dict :=
  let! _ := enter CallLoad in
  let! b := open_rb_in env (config_toml dirs) in
  match tomllib_load_in env b with
  | Return d => ret d
  | Raise e => raise e
  end.

Definition main_in (env : Env) (dirs : PlatformDirs) : M unit :=
  try_except
    (let! d := load_in env dirs in print_in env d)
    (fun e => if is_IOError e then Some (init_in env dirs) else None).

Definition exit_status_in (env : Env) (dirs : PlatformDirs) (w : world) : N * world :=
  match main_in env dirs w with
  | (Return _, w') => (0, w')
  | (Raise _, w') => (1, w')
  end.

(** ** Vocabulary of the specification *)

(** The bytes of the regular file at [p], if there is one. *)
Definition file_content (fs : filesys) (p : path) : option bytes :=
  match fs !! p with
  | Some (File _ c) => Some c
  | _ => None
  end.

(** Well-formed structured text: what [tomllib.load] parses. *)
Definition well_formed (b : bytes) : bool :=
  match tomllib_load b with
  | Return _ => true
  | Raise _ => false
  end.

(** The fields of an engine definition. *)
Definition engine_of (doc : Dict) (id : str) : option Dict :=
  match dict_get (u "engines") doc with
  | Some (VDict engines) =>
      match dict_get id engines with
      | Some (VDict e) => Some e
      | _ => None
      end
  | _ => None
  end.

(** The document that the template parses to. *)
Definition EXAMPLE_DOCUMENT : Dict :=
  [(u "engines", VDict
     [(u "example", VDict
        [(u "names", VList [VStr (u "example"); VStr (u "ex")]);
         (u "run", VStr (u "/path/to/engine.exe"));
         (u "kind", VStr (u "Vanilla"));
         (u "extra_args", VList []);
         (u "use_merge_arg", VBool false)])])].

(** ** Documents of one engine entry

    The text of a document in the layout of the template, for the
    round-trip property of the specification: a table [engines.<id>]
    with the fields [names], [run] and [kind] and, when given, the
    optional fields [extra_args] and [use_merge_arg]. *)

(** A character that a basic string holds as it is. *)
Definition plain_char (c : char) : bool :=
  is_unicode_scalar_value c && negb (c =? QUOTE) && negb (c =? BACKSLASH)
  && negb (ILLEGAL_BASIC_STR_CHARS c).

Definition plain (s : str) : bool := forallb plain_char s.

(** A bare key: letters, digits, dashes and underscores, at least one. *)
Definition bare_key (s : str) : bool :=
  negb (str_eqb s []) && forallb BARE_KEY_CHARS s.

Definition quoted (s : str) : str := QUOTE :: s ++ [QUOTE].

Fixpoint array_items (l : list str) : str :=
  match l with
  | [] => []
  | [s] => quoted s
  | s :: l' => quoted s ++ u ", " ++ array_items l'
  end.

Definition string_array (l : list str) : str := u "[" ++ array_items l ++ u "]".

Record engine := Engine {
  engine_id : str;
  names : list str;
  run : str;
  kind : str;
  extra_args : option (list str);
  use_merge_arg : option bool
}.

Definition well_formed_engine (e : engine) : bool :=
  bare_key (engine_id e) && forallb plain (names e) && plain (run e) && plain (kind e)
  && match extra_args e with Some l => forallb plain l | None => true end.

Definition engine_text (e : engine) : str :=
  u "[engines." ++ engine_id e ++ u "]" ++ [LF]
  ++ u "names = " ++ string_array (names e) ++ [LF]
  ++ u "run = " ++ quoted (run e) ++ [LF]
  ++ u "kind = " ++ quoted (kind e) ++ [LF]
  ++ match extra_args e with
     | Some l => u "extra_args = " ++ string_array l ++ [LF]
     | None => []
     end
  ++ match use_merge_arg e with
     | Some b => u "use_merge_arg = " ++ (if b then u "true" else u "false") ++ [LF]
     | None => []
     end.

Definition string_list (l : list str) : value := VList (List.map VStr l).

(** The mapping of the entry: the fields in the order of the text. *)
Definition engine_fields (e : engine) : Dict :=
  [(u "names", string_list (names e));
   (u "run", VStr (run e));
   (u "kind", VStr (kind e))]
  ++ match extra_args e with
     | Some l => [(u "extra_args", string_list l)]
     | None => []
     end
  ++ match use_merge_arg e with
     | Some b => [(u "use_merge_arg", VBool b)]
     | None => []
     end.

Definition engine_document (e : engine) : Dict :=
  [(u "engines", VDict [(engine_id e, VDict (engine_fields e))])].

(** The entry of the round-trip property of the specification, and the
    same entry without the optional fields. *)
Definition ENGINE_EX : engine :=
  Engine (u "ex") [u "ex"] (u "/bin/x") (u "Vanilla") (Some []) (Some false).

Definition ENGINE_MIN : engine :=
  Engine (u "ex") [u "ex"] (u "/bin/x") (u "Vanilla") None None.

(** The printable ASCII characters and the newline. *)
Definition text_char (c : char) : bool := in_range 32 126 c || (c =? LF).

(** ** Texts for the properties of the parser *)

(** The text with the line ends of DOS and Windows: a carriage return
    before every newline. *)
Fixpoint to_crlf (s : str) : str :=
  match s with
  | c :: s' => if c =? LF then CR :: LF :: to_crlf s' else c :: to_crlf s'
  | [] => []
  end.

Definition no_cr (s : str) : bool := forallb (fun c => negb (c =? CR)) s.

Definition scalar_text (s : str) : bool := forallb is_unicode_scalar_value s.

(** A line of white space and, when given, a comment. *)
Definition ignored_line (ws : str) (comment : option str) : str :=
  ws ++ match comment with Some c => 35 :: c | None => [] end ++ [LF].

Definition comment_text (comment : option str) : bool :=
  match comment with
  | Some c => forallb (fun x => negb (ILLEGAL_COMMENT_CHARS x)) c
  | None => true
  end.

Definition ignorable (l : str * option str) : bool :=
  forallb TOML_WS l.1 && comment_text l.2.

Definition ignored_lines (ls : list (str * option str)) : str :=
  List.concat (List.map (fun l => ignored_line l.1 l.2) ls).

(** The characters a statement may begin with, the white space, the
    line ends and the comment sign included. *)
Definition statement_start (c : char) : bool :=
  TOML_WS c || (c =? LF) || (c =? CR) || KEY_INITIAL_CHARS c
  || (c =? 91) || (c =? 35).

(** The byte order mark U+FEFF. *)
Definition BOM : char := 65279.

(** A document of several engine entries, one after the other, and the
    mapping of its entries in the order of the text. *)
Definition engines_text (es : list engine) : str :=
  List.concat (List.map engine_text es).

Definition engine_entry (e : engine) : str * value :=
  (engine_id e, VDict (engine_fields e)).

Definition engines_document (es : list engine) : Dict :=
  match es with
  | [] => []
  | _ => [(u "engines", VDict (List.map engine_entry es))]
  end.

Definition engine_ids (es : list engine) : list str := List.map engine_id es.

(** ** Sample states *)

Definition home : path := ["home"; "user"; ".config"].
Definition dirs0 : PlatformDirs := DIRS home.

Definition r_x : perm := Perm true false true.
Definition rwx : perm := Perm true true true.

(** A first run: the user's home directory exists, nothing below it. *)
Definition fresh_fs : filesys :=
  <[ ["home"; "user"] := Dir rwx ]>
    (<[ ["home"] := Dir r_x ]> (<[ [] := Dir r_x ]> ∅)).

Definition fresh_world : world := World fresh_fs [] [].

(** The application's directory with a configuration file of the given
    rights and content. *)
Definition config_fs (pm : perm) (content : bytes) : filesys :=
  <[ config_toml dirs0 := File pm content ]>
    (<[ user_config_path dirs0 := Dir rwx ]> (<[ home := Dir rwx ]> fresh_fs)).

Definition rw_ : perm := Perm true true false.
Definition _w_ : perm := Perm false true false.

Definition configured_world : world :=
  World (config_fs rw_ (utf8_encode EXAMPLE_CONFIG)) [] [].

(** An unterminated table. *)
Definition CORRUPT_TEXT : str := LINE "[engines.example".

Definition corrupt_world : world :=
  World (config_fs rw_ (utf8_encode CORRUPT_TEXT)) [] [].

(** The same file, which the user may write but not read. *)
Definition unreadable_world : world :=
  World (config_fs _w_ (utf8_encode CORRUPT_TEXT)) [] [].

(** A regular file where the application's directory should be. *)
Definition blocked_world : world :=
  World (<[ user_config_path dirs0 := File rw_ "" ]>
           (<[ home := Dir rwx ]> fresh_fs)) [] [].

Definition minimal_world : world :=
  World (config_fs rw_ (utf8_encode (engine_text ENGINE_MIN))) [] [].

Definition empty_world : world := World (config_fs rw_ "") [] [].

Definition engine_ex_world : world :=
  World (config_fs rw_ (utf8_encode (engine_text ENGINE_EX))) [] [].

(** The application's directory without a configuration file. *)
Definition dir_only_world : world :=
  World (<[ user_config_path dirs0 := Dir rwx ]> (<[ home := Dir rwx ]> fresh_fs)) [] [].

(** The template with the line ends of DOS and Windows. *)
Definition dos_world : world :=
  World (config_fs rw_ (utf8_encode (to_crlf EXAMPLE_CONFIG))) [] [].

(** A file in Latin-1: the letter e with an acute accent, one byte. *)
Definition latin1_world : world :=
  World (config_fs rw_ (String (ascii_of_nat 233) EmptyString)) [] [].

(** The template behind a byte order mark. *)
Definition bom_world : world :=
  World (config_fs rw_ (utf8_encode (BOM :: EXAMPLE_CONFIG))) [] [].

(** A second entry, and documents of two entries: with identifiers
    that differ, and with the same identifier twice. *)
Definition ENGINE_GZ : engine :=
  Engine (u "gzdoom") [u "gzdoom"; u "gz"] (u "/usr/bin/gzdoom") (u "ZDoom")
    None (Some true).

Definition two_engines_world : world :=
  World (config_fs rw_ (utf8_encode (engines_text [ENGINE_EX; ENGINE_GZ]))) [] [].

Definition duplicate_world : world :=
  World (config_fs rw_ (utf8_encode (engines_text [ENGINE_EX; ENGINE_MIN]))) [] [].

(** An entry with the field [kind] a second time. *)
Definition twice_world : world :=
  World (config_fs rw_
           (utf8_encode (engine_text ENGINE_MIN ++ LINE ("kind = " ++ Q "MBF")))) [] [].

(** The application's directory, which may not be written, without a
    configuration file. *)
Definition read_only_world : world :=
  World (<[ user_config_path dirs0 := Dir r_x ]> (<[ home := Dir rwx ]> fresh_fs)) [] [].

(** A directory named [config.toml] in the application's directory. *)
Definition directory_world : world :=
  World (<[ config_toml dirs0 := Dir rwx ]> (fs dir_only_world)) [] [].

(** A directory named [config.toml] that may be neither read nor
    searched. *)
Definition _w_dir : perm := Perm false true false.

Definition unreadable_directory_world : world :=
  World (<[ config_toml dirs0 := Dir _w_dir ]> (fs dir_only_world)) [] [].

(** An integer of 4000 hexadecimal digits, which are more than 4800
    decimal digits, and one of 4301 decimal digits. *)
Definition HEX_TEXT : str := u "a = 0x" ++ repeat 102 4000 ++ [LF].
Definition DECIMAL_TEXT : str := u "a = " ++ repeat 57 4301 ++ [LF].

Definition hex_world : world := World (config_fs rw_ (utf8_encode HEX_TEXT)) [] [].
Definition decimal_world : world :=
  World (config_fs rw_ (utf8_encode DECIMAL_TEXT)) [] [].

(** Environments: standard output is a pipe without a reader (EPIPE);
    the disk is full (ENOSPC) when the template is written, nothing of
    it reaching the file; the process may open no further file
    (EMFILE). *)
Definition broken_pipe : Env :=
  {| os_fault := fun _ _ => None;
     write_fault := fun _ => None;
     stdout_fault := fun _ _ => Some (WriteError (OtherOSError 32));
     load_limit := fun _ => None;
     repr_limit := fun _ => None |}.

Definition full_disk : Env :=
  {| os_fault := fun _ _ => None;
     write_fault := fun _ => Some (OtherOSError 28, O);
     stdout_fault := fun _ _ => None;
     load_limit := fun _ => None;
     repr_limit := fun _ => None |}.

Definition no_descriptors : Env :=
  {| os_fault := fun c _ =>
       match c with
       | SysOpenRead _ | SysOpenWrite _ => Some (OtherOSError 24)
       | _ => None
       end;
     write_fault := fun _ => None;
     stdout_fault := fun _ _ => None;
     load_limit := fun _ => None;
     repr_limit := fun _ => None |}.

(** ** Predicates of the proofs *)

(** What stops the resolution of a path at an entry on its way: a
    directory that may be searched does not. *)
Definition obstacle_kind (o : option node) : option OSErrorKind :=
  match o with
  | None => Some FileNotFoundError
  | Some (File _ _) => Some NotADirectoryError
  | Some (Dir pm) => if can_search pm then None else Some PermissionError
  end.

(** The first [k] components of [p] lead through directories that may
    be searched, the root being the first. *)
Definition searchable_to (fs : filesys) (p : path) (k : nat) : Prop :=
  forall j, (j < k)%nat ->
    exists pm, fs !! take j p = Some (Dir pm) /\ can_search pm = true.

(** The state of the parser behind the header of an engine's table:
    the fields read so far and the flags of the arrays among them. *)
Definition engine_table (id : str) (fields : Dict) : Dict :=
  [(u "engines", VDict [(id, VDict fields)])].

Definition engine_flags (id : str) (frozen : list (str * flagnode)) : Flags :=
  MkFlags [(u "engines", FlagNode [] [] [(id, FlagNode [EXPLICIT_NEST] [] frozen)])] [].

(** The state of the parser between two entries: the entries read and
    the flags of their tables. *)
Definition engine_frozen (e : engine) : list (str * flagnode) :=
  (u "names", FlagNode [] [FROZEN] [])
  :: match extra_args e with
     | Some _ => [(u "extra_args", FlagNode [] [FROZEN] [])]
     | None => []
     end.

Definition engine_node (e : engine) : str * flagnode :=
  (engine_id e, FlagNode [EXPLICIT_NEST] [] (engine_frozen e)).

Definition engines_state (es : list engine) : Output :=
  match es with
  | [] => MkOutput [] Flags_new
  | _ => MkOutput [(u "engines", VDict (List.map engine_entry es))]
           (MkFlags [(u "engines", FlagNode [] [] (List.map engine_node es))] [])
  end.

Definition engines_header (es : list engine) : Key :=
  match last es with
  | Some e => [u "engines"; engine_id e]
  | None => []
  end.

(** The state within the table of an entry, behind the entries read
    before. *)
Definition open_table (entries : Dict) (id : str) (fields : Dict) : Dict :=
  [(u "engines", VDict (entries ++ [(id, VDict fields)]))].

Definition open_flags (nodes : list (str * flagnode)) (id : str)
    (frozen : list (str * flagnode)) : Flags :=
  MkFlags [(u "engines",
            FlagNode [] [] (nodes ++ [(id, FlagNode [EXPLICIT_NEST] [] frozen)]))] [].

(** The lines of an entry behind its header. *)
Definition engine_lines (e : engine) : str :=
  u "names = " ++ string_array (names e) ++ [LF]
  ++ u "run = " ++ quoted (run e) ++ [LF]
  ++ u "kind = " ++ quoted (kind e) ++ [LF]
  ++ match extra_args e with
     | Some l => u "extra_args = " ++ string_array l ++ [LF]
     | None => []
     end
  ++ match use_merge_arg e with
     | Some b => u "use_merge_arg = " ++ (if b then u "true" else u "false") ++ [LF]
     | None => []
     end.

Definition engine_line_count (e : engine) : nat :=
  3 + match extra_args e with Some _ => 1 | None => 0 end
    + match use_merge_arg e with Some _ => 1 | None => 0 end.

Abbreviation len := (@List.length char).

(** [gas_le m m']: [m] ran out of fuel, or has the result of [m']. *)
Definition gas_le {A} (m m' : pres A) : Prop := m = Gas \/ m = m'.

(** [okE E P m]: [m] does not run out of fuel, the result it returns
    satisfies [P] and the exception it raises satisfies [E]. *)
Definition okE {A} (E : exn -> Prop) (P : A -> Prop) (m : pres A) : Prop :=
  match m with
  | Got a => P a
  | Fail e => E e
  | Gas => False
  end.

(** What the parser raises. *)
Definition parse_exn (e : exn) : Prop :=
  match e with
  | TOMLDecodeError _ | IndexError | ValueError => True
  | _ => False
  end.

Abbreviation ok := (okE parse_exn).

(** The printed objects and the calls are the same in both states. *)
Definition io_same (w w' : world) : Prop :=
  stdout w' = stdout w /\ calls w' = calls w.

(** [fs'] is [fs] with directories made at paths of the first [n]
    components of [p] that held nothing. *)
Definition made_dirs (p : path) (n : nat) (fs fs' : filesys) : Prop :=
  forall q, fs' !! q = fs !! q \/
            (fs !! q = None /\ fs' !! q = Some new_dir /\
             exists k, (k <= n)%nat /\ q = take k p).

(** [p] resolves to a directory. *)
Definition dir_at (fs : filesys) (p : path) : Prop :=
  resolve fs p = None /\ exists pm, fs !! p = Some (Dir pm).

(** [fs] with new directories at the paths of the first [k + 1] to
    [k + m] components of [p]. *)
Fixpoint make_dirs (p : path) (k m : nat) (fs : filesys) : filesys :=
  match m with
  | O => fs
  | S m' => <[take (k + S m') p := new_dir]> (make_dirs p k m' fs)
  end.

(** Some table on the way along [key] is marked immutable with all
    that is below it. *)
Fixpoint frozen_path (key : Key) (cont : list (str * flagnode)) : bool :=
  match key with
  | [] => false
  | k :: key' =>
      match dict_get k cont with
      | None => false
      | Some (FlagNode _ rs nested) => set_mem FROZEN rs || frozen_path key' nested
      end
  end.

(** The invariant of the statements: a key whose path runs into an
    empty array lies below an immutable table. *)
Definition no_index_error (out : Output) : Prop :=
  forall key,
    get_or_create_nest key true (data out) = Fail IndexError ->
    frozen_path key (_flags (flags out)) = true.

(** [m] does not raise [IndexError]. *)
Definition nie {A} (m : pres A) : Prop := m <> Fail IndexError.

Ltac unfold_M :=
  unfold bind, ret, raise, try_except, get_fs, set_fs in *; simpl in *.

(** * Termination of the parser *)

Section Termination.

Lemma ok_bind {A B} E (P : A -> Prop) (Q : B -> Prop) (m : pres A) (k : A -> pres B) :
  okE E P m -> (forall a, P a -> okE E Q (k a)) -> okE E Q (pbind m k).
Proof. destruct m; simpl; auto. Qed.

Lemma ok_mono {A} E (P Q : A -> Prop) (m : pres A) :
  okE E P m -> (forall a, P a -> Q a) -> okE E Q m.
Proof. destruct m; simpl; auto. Qed.

Lemma ok_except_KeyError {A} (P : A -> Prop) (m : pres A) msg :
  okE (fun e => e = KeyError \/ parse_exn e) P m ->
  ok P (except_KeyError m (TOMLDecodeError msg)).
Proof. destruct m as [a|[]|]; simpl; auto; intros [?|?]; done. Qed.

Lemma skip_chars_le chars rest : (len (skip_chars chars rest) <= len rest)%nat.
Proof. induction rest as [|c rest IH]; simpl; [lia|]. destruct (chars c); simpl; lia. Qed.

Lemma str_index_le expect rest before from :
  str_index expect rest = Some (before, from) -> (len from <= len rest)%nat.
Proof.
  revert before from. induction rest as [|c rest IH]; intros before from; simpl.
  - destruct (startswith expect []); intros [= <- <-] || discriminate. simpl; lia.
  - destruct (startswith expect (c :: rest)).
    + intros [= <- <-]. simpl; lia.
    + destruct (str_index expect rest) as [[b f]|] eqn:E; [|discriminate].
      intros [= <- <-]. specialize (IH _ _ eq_refl). lia.
Qed.

Lemma str_index_startswith expect rest before from :
  str_index expect rest = Some (before, from) -> startswith expect from = true.
Proof.
  revert before from. induction rest as [|c rest IH]; intros before from; simpl.
  - destruct (startswith expect []) eqn:E; intros [= <- <-] || discriminate. exact E.
  - destruct (startswith expect (c :: rest)) eqn:E.
    + intros [= <- <-]. exact E.
    + destruct (str_index expect rest) as [[b f]|] eqn:E'; [|discriminate].
      intros [= <- <-]. eauto.
Qed.

Lemma startswith_len prefix rest :
  startswith prefix rest = true -> (len prefix <= len rest)%nat.
Proof.
  revert rest. induction prefix as [|p prefix IH]; intros [|c rest]; simpl; try lia; try discriminate.
  rewrite andb_true_iff. intros [_ H]. apply IH in H. lia.
Qed.

Lemma skip_until_ok rest expect error_on eof :
  ok (fun a => (len a.2 <= len rest)%nat /\ (eof = true -> startswith expect a.2 = true))
     (skip_until rest expect error_on eof).
Proof.
  unfold skip_until.
  destruct (str_index expect rest) as [[b f]|] eqn:E; simpl.
  - destruct (existsb error_on b); simpl; [exact I|].
    split; [eapply str_index_le; eauto | intros _; eapply str_index_startswith; eauto].
  - destruct eof; simpl; [exact I|].
    destruct (existsb error_on rest); simpl; [exact I|]. split; [lia|discriminate].
Qed.

Lemma skip_comment_ok rest :
  ok (fun r => (len r <= len rest)%nat) (skip_comment rest).
Proof.
  unfold skip_comment.
  destruct rest as [|c rest]; simpl; [lia|].
  destruct (c =? 35); simpl; [|lia].
  eapply ok_bind; [apply skip_until_ok|]. intros [sk r] [H _]; simpl in *. lia.
Qed.

Lemma skip_comments_and_array_ws_ok fuel rest :
  (len rest < fuel)%nat ->
  ok (fun r => (len r <= len rest)%nat) (skip_comments_and_array_ws fuel rest).
Proof.
  revert rest. induction fuel as [|fuel IH]; intros rest Hf; [lia|]. simpl.
  pose proof (skip_chars_le TOML_WS_AND_NEWLINE rest) as H1.
  eapply ok_bind; [apply skip_comment_ok|]. intros r2 H2. simpl in H2.
  destruct (Nat.eqb_spec (len r2) (len rest)) as [E|E]; simpl; [lia|].
  eapply ok_mono; [apply IH; lia|]. simpl. intros; lia.
Qed.

Lemma length_drop_le {A} n (l : list A) : (List.length (drop n l) <= List.length l)%nat.
Proof. rewrite length_drop. lia. Qed.

Lemma parse_hex_char_ok rest n :
  ok (fun a => (len a.1 + n <= len rest)%nat) (parse_hex_char rest n).
Proof.
  unfold parse_hex_char.
  destruct (Nat.eqb_spec (len (take n rest)) n) as [E|E]; simpl; [|exact I].
  destruct (forallb HEXDIGIT_CHARS (take n rest)); simpl; [|exact I].
  destruct (is_unicode_scalar_value _); simpl; [|exact I].
  rewrite length_take in E. rewrite length_drop. lia.
Qed.

Lemma parse_basic_str_escape_ok rest multiline :
  ok (fun a => (len a.1 + 2 <= len rest)%nat) (parse_basic_str_escape rest multiline).
Proof.
  unfold parse_basic_str_escape.
  destruct rest as [|b [|c rest]].
  - destruct multiline; simpl; exact I.
  - destruct multiline; simpl; rewrite ?andb_false_r; simpl; try exact I.
    all: repeat (match goal with |- context [str_eqb ?a ?b] => destruct (str_eqb a b) eqn:?; simpl end);
      try exact I.
    all: try (unfold str_eqb in *; repeat match goal with H : bool_decide _ = true |- _ => apply bool_decide_eq_true in H; try discriminate H end).
  - change (drop 2 (b :: c :: rest)) with rest; change (take 2 (b :: c :: rest)) with [b; c].
    assert (Hs : forall chars, (len (skip_chars chars rest) + 2 <= len (b :: c :: rest))%nat).
    { intros. pose proof (skip_chars_le chars rest). simpl. lia. }
    assert (Hh : forall n, ok (fun a => (len a.1 + 2 <= len (b :: c :: rest))%nat) (parse_hex_char rest n)).
    { intros. eapply ok_mono; [apply parse_hex_char_ok|]. simpl. intros; lia. }
    destruct (multiline && _); simpl.
    + destruct (negb _); simpl; [|apply Hs].
      destruct (skip_chars TOML_WS rest) as [|d r1] eqn:E1; simpl.
      * specialize (Hs TOML_WS). rewrite E1 in Hs. simpl in *. lia.
      * destruct (negb (d =? LF)); simpl; [exact I|].
        specialize (Hs TOML_WS). rewrite E1 in Hs.
        pose proof (skip_chars_le TOML_WS_AND_NEWLINE r1). simpl in *. lia.
    + destruct (str_eqb _ _); [apply Hh|].
      destruct (str_eqb _ _); [apply Hh|].
      destruct (BASIC_STR_ESCAPE_REPLACEMENTS c); simpl; [lia|exact I].
Qed.

#[local] Arguments startswith : simpl never.
#[local] Arguments drop : simpl never.

Lemma parse_basic_str_ok fuel rest multiline result :
  (len rest < fuel)%nat ->
  ok (fun a => (len a.1 < len rest)%nat) (parse_basic_str fuel rest multiline result).
Proof.
  revert rest result. induction fuel as [|fuel IH]; intros rest result Hf; [lia|].
  simpl. destruct rest as [|c rest]; [exact I|].
  assert (Hrec : forall res, ok (fun a => (len a.1 < len (c :: rest))%nat)
                               (parse_basic_str fuel rest multiline res)).
  { intros res. eapply ok_mono; [apply IH; simpl in Hf; lia|]. simpl. intros; lia. }
  destruct (c =? QUOTE).
  - destruct (negb multiline); simpl; [lia|].
    destruct (startswith _ _) eqn:E; [|apply Hrec].
    apply startswith_len in E. simpl. rewrite length_drop. simpl in *. lia.
  - destruct (c =? BACKSLASH).
    + eapply ok_bind; [apply parse_basic_str_escape_ok|].
      intros [r e] H. simpl in H.
      eapply ok_mono; [apply IH; simpl in *; lia|]. simpl. intros; lia.
    + destruct (if multiline then _ else _); [exact I|apply Hrec].
Qed.

Lemma parse_one_line_basic_str_ok fuel rest :
  rest <> [] -> (len rest <= fuel)%nat ->
  ok (fun a => (len a.1 < len rest)%nat) (parse_one_line_basic_str fuel rest).
Proof.
  intros Hne Hf. unfold parse_one_line_basic_str.
  destruct rest as [|c rest]; [congruence|].
  change (drop 1 (c :: rest)) with rest.
  eapply ok_mono; [apply parse_basic_str_ok; simpl in Hf; lia|]. simpl. intros; lia.
Qed.

Lemma parse_literal_str_ok rest :
  rest <> [] -> ok (fun a => (len a.1 < len rest)%nat) (parse_literal_str rest).
Proof.
  intros Hne. unfold parse_literal_str.
  destruct rest as [|c rest]; [congruence|].
  change (drop 1 (c :: rest)) with rest.
  eapply ok_bind; [apply skip_until_ok|]. intros [sk r] [H _]. simpl in *.
  rewrite length_drop. lia.
Qed.

Lemma parse_multiline_str_ok fuel rest literal :
  (3 <= len rest)%nat -> (len rest <= fuel)%nat ->
  ok (fun a => (len a.1 < len rest)%nat) (parse_multiline_str fuel rest literal).
Proof.
  intros H3 Hf. unfold parse_multiline_str.
  set (rest1 := if startswith [LF] (drop 3 rest) then drop 1 (drop 3 rest) else drop 3 rest).
  assert (H1 : (len rest1 + 3 <= len rest)%nat).
  { unfold rest1. destruct (startswith _ _); rewrite ?length_drop; lia. }
  eapply ok_bind with (P := fun a => (len a.1 < len rest)%nat).
  - destruct literal.
    + eapply ok_bind; [apply skip_until_ok|]. intros [sk r] [H _]. simpl in *.
      rewrite length_drop. lia.
    + eapply ok_mono; [apply parse_basic_str_ok; lia|]. simpl. intros; lia.
  - intros [r s] H. simpl in H.
    destruct (negb (startswith _ r)); simpl; [lia|].
    destruct (negb (startswith _ (drop 1 r))); simpl; rewrite !length_drop; lia.
Qed.

Lemma skip_chars_cons_true chars c rest :
  chars c = true -> (len (skip_chars chars (c :: rest)) <= len rest)%nat.
Proof. intros H. simpl. rewrite H. apply skip_chars_le. Qed.

Lemma parse_key_part_ok fuel rest :
  (len rest <= fuel)%nat ->
  ok (fun a => (len a.1 < len rest)%nat) (parse_key_part fuel rest).
Proof.
  intros Hf. unfold parse_key_part.
  destruct rest as [|c rest]; [exact I|].
  destruct (BARE_KEY_CHARS c) eqn:E.
  - pose proof (skip_chars_cons_true _ _ rest E). simpl in *. lia.
  - destruct (c =? APOS); [apply parse_literal_str_ok; congruence|].
    destruct (c =? QUOTE); [apply parse_one_line_basic_str_ok; [congruence|lia]|].
    exact I.
Qed.

Lemma parse_key_loop_ok fuel rest key :
  (len rest < fuel)%nat ->
  ok (fun a => (len a.1 <= len rest)%nat) (parse_key_loop fuel rest key).
Proof.
  revert rest key. induction fuel as [|fuel IH]; intros rest key Hf; [lia|].
  simpl. destruct rest as [|c rest]; [simpl; lia|].
  destruct (c =? 46); [|simpl; lia].
  pose proof (skip_chars_le TOML_WS rest) as H1.
  eapply ok_bind; [apply parse_key_part_ok; simpl in Hf; lia|].
  intros [r kp] H. simpl in H.
  pose proof (skip_chars_le TOML_WS r) as H2.
  eapply ok_mono; [apply IH; simpl in Hf; lia|]. simpl. intros; lia.
Qed.

Lemma parse_key_ok fuel rest :
  (len rest < fuel)%nat ->
  ok (fun a => (len a.1 < len rest)%nat) (parse_key fuel rest).
Proof.
  intros Hf. unfold parse_key.
  eapply ok_bind; [apply parse_key_part_ok; lia|].
  intros [r kp] H. simpl in H.
  pose proof (skip_chars_le TOML_WS r) as H2.
  eapply ok_mono; [apply parse_key_loop_ok; lia|]. simpl. intros; lia.
Qed.

(** The matchers leave a suffix of the text they were given. *)

Lemma two_digits_len lo hi rest v r :
  two_digits lo hi rest = Some (v, r) -> (len r + 2 = len rest)%nat.
Proof.
  unfold two_digits. destruct rest as [|a [|b rest]]; try discriminate.
  case_match; intros [= <- <-] || discriminate. simpl. lia.
Qed.

Lemma expect_char_len c rest r :
  expect_char c rest = Some r -> (len r + 1 = len rest)%nat.
Proof.
  unfold expect_char. destruct rest as [|d rest]; try discriminate.
  case_match; intros [= <-] || discriminate. simpl. lia.
Qed.

Lemma match_fraction_len rest m r :
  match_fraction rest = (m, r) -> (len r <= len rest)%nat.
Proof.
  unfold match_fraction. destruct rest as [|c rest]; [intros [= <- <-]; lia|].
  case_match; intros [= <- <-]; [|lia].
  pose proof (skip_chars_le is_digit rest). simpl. lia.
Qed.

Lemma match_time_len rest t r :
  match_time rest = Some (t, r) -> (len r + 8 <= len rest)%nat.
Proof.
  unfold match_time. intros H.
  repeat case_match; try discriminate. simplify_eq.
  repeat match goal with
         | H : two_digits _ _ _ = Some _ |- _ => apply two_digits_len in H
         | H : expect_char _ _ = Some _ |- _ => apply expect_char_len in H
         | H : match_fraction _ = _ |- _ => apply match_fraction_len in H
         end.
  lia.
Qed.

Lemma match_offset_len rest tz r :
  match_offset rest = (tz, r) -> (len r <= len rest)%nat.
Proof.
  unfold match_offset. intros H.
  repeat case_match; simplify_eq; simpl; try lia.
  all: repeat match goal with
         | H : two_digits _ _ _ = Some _ |- _ => apply two_digits_len in H
         | H : expect_char _ _ = Some _ |- _ => apply expect_char_len in H
         end.
  all: simpl in *; lia.
Qed.

Lemma four_digits_len rest y r :
  four_digits rest = Some (y, r) -> (len r + 4 = len rest)%nat.
Proof.
  unfold four_digits.
  destruct (Nat.eqb_spec (len (take 4 rest)) 4) as [E|E]; simpl; [|discriminate].
  case_match; intros [= <- <-] || discriminate.
  rewrite length_take in E. rewrite length_drop. lia.
Qed.

Lemma RE_DATETIME_len rest y m d t r :
  RE_DATETIME rest = Some (y, m, d, t, r) -> (len r + 10 <= len rest)%nat.
Proof.
  unfold RE_DATETIME. intros H.
  repeat case_match; try discriminate; simplify_eq.
  all: repeat match goal with
         | H : two_digits _ _ _ = Some _ |- _ => apply two_digits_len in H
         | H : expect_char _ _ = Some _ |- _ => apply expect_char_len in H
         | H : four_digits _ = Some _ |- _ => apply four_digits_len in H
         | H : match_time _ = Some _ |- _ => apply match_time_len in H
         | H : match_offset _ = _ |- _ => apply match_offset_len in H
         end.
  all: simpl in *; lia.
Qed.

Lemma us_digits_len isd rest m r :
  us_digits isd rest = (m, r) -> (len r <= len rest)%nat.
Proof.
  remember (len rest) as n eqn:En. revert rest En m r.
  induction n as [n IH] using lt_wf_ind. intros rest -> m r.
  destruct rest as [|c rest]; simpl; [intros [= <- <-]; simpl; lia|].
  destruct (isd c).
  - destruct (us_digits isd rest) as [m' r'] eqn:E. intros [= <- <-].
    eapply IH in E; [| |reflexivity]; simpl; lia.
  - destruct (c =? 95); [|intros [= <- <-]; simpl; lia].
    destruct rest as [|d rest]; [intros [= <- <-]; simpl; lia|].
    destruct (isd d); [|intros [= <- <-]; simpl; lia].
    destruct (us_digits isd rest) as [m' r'] eqn:E. intros [= <- <-].
    eapply IH in E; [| |reflexivity]; simpl; lia.
Qed.

Lemma match_prefixed_len rest m r :
  match_prefixed rest = Some (m, r) -> (len r < len rest)%nat.
Proof.
  unfold match_prefixed. intros H.
  repeat case_match; try discriminate; simplify_eq.
  all: match goal with H : us_digits _ _ = _ |- _ => apply us_digits_len in H end.
  all: simpl; lia.
Qed.

Lemma match_dec_int_len rest m r :
  match_dec_int rest = Some (m, r) -> (len r < len rest)%nat.
Proof.
  unfold match_dec_int. intros H.
  repeat case_match; try discriminate; simplify_eq.
  all: try match goal with H : us_digits _ _ = _ |- _ => apply us_digits_len in H end.
  all: simpl in *; lia.
Qed.

Lemma match_frac_len rest m r :
  match_frac rest = (m, r) -> (len r <= len rest)%nat.
Proof.
  unfold match_frac. intros H.
  repeat case_match; try discriminate; simplify_eq.
  all: try match goal with H : us_digits _ _ = _ |- _ => apply us_digits_len in H end.
  all: simpl in *; lia.
Qed.

Lemma match_exp_len rest m r :
  match_exp rest = (m, r) -> (len r <= len rest)%nat.
Proof.
  unfold match_exp. intros H.
  repeat case_match; try discriminate; simplify_eq.
  all: try match goal with H : us_digits _ _ = _ |- _ => apply us_digits_len in H end.
  all: simpl in *; lia.
Qed.

Lemma RE_NUMBER_len rest m f r :
  RE_NUMBER rest = Some (m, f, r) -> (len r < len rest)%nat.
Proof.
  unfold RE_NUMBER. intros H.
  repeat case_match; try discriminate; simplify_eq.
  all: repeat match goal with
         | H : match_prefixed _ = Some _ |- _ => apply match_prefixed_len in H
         | H : match_dec_int _ = Some _ |- _ => apply match_dec_int_len in H
         | H : match_frac _ = _ |- _ => apply match_frac_len in H
         | H : match_exp _ = _ |- _ => apply match_exp_len in H
         end.
  all: lia.
Qed.

Lemma str_eqb_eq a b : str_eqb a b = true -> a = b.
Proof. unfold str_eqb. apply bool_decide_eq_true. Qed.

Lemma take_eq_len {A} n (l m : list A) :
  take n l = m -> List.length m = n -> (n <= List.length l)%nat.
Proof. intros <-. rewrite length_take. lia. Qed.

Lemma parse_scalar_ok rest :
  ok (fun a => (len a.1 < len rest)%nat) (parse_scalar rest).
Proof.
  unfold parse_scalar.
  destruct (RE_DATETIME rest) as [[[[[y m] d] t] r]|] eqn:E1.
  { apply RE_DATETIME_len in E1. destruct (match_to_datetime _ _ _ _); simpl; [lia|exact I]. }
  unfold RE_LOCALTIME.
  destruct (match_time rest) as [[t r]|] eqn:E2.
  { apply match_time_len in E2. simpl. lia. }
  destruct (RE_NUMBER rest) as [[[m f] r]|] eqn:E3.
  { apply RE_NUMBER_len in E3. unfold match_to_number.
    destruct f; [destruct (int_str_too_long m)|]; simpl; first [exact I|lia]. }
  destruct (str_eqb (take 3 rest) _ || str_eqb (take 3 rest) _) eqn:E4.
  { simpl. rewrite length_drop.
    apply orb_true_iff in E4 as [E4|E4]; apply str_eqb_eq in E4;
      apply take_eq_len in E4; try reflexivity; lia. }
  destruct (str_eqb (take 4 rest) _ || _ || _ || _) eqn:E5; [|exact I].
  simpl. rewrite length_drop.
  rewrite !orb_true_iff in E5.
  destruct E5 as [[[E5|E5]|E5]|E5]; apply str_eqb_eq in E5;
    apply take_eq_len in E5; try reflexivity; lia.
Qed.

Lemma get_or_create_nest_ok key access_lists cont :
  okE (fun e => e = KeyError \/ parse_exn e) (fun _ => True)
    (get_or_create_nest key access_lists cont).
Proof.
  revert cont. induction key as [|k key IH]; intros cont; simpl; [exact I|].
  eapply ok_bind with (P := fun _ => True).
  - repeat case_match; simpl; auto.
  - intros c _. destruct c; simpl; auto.
Qed.

Lemma append_nest_to_list_ok key d :
  okE (fun e => e = KeyError \/ parse_exn e) (fun _ => True)
    (append_nest_to_list key d).
Proof.
  unfold append_nest_to_list.
  eapply ok_bind; [apply get_or_create_nest_ok|]. intros cont _.
  repeat case_match; simpl; auto.
Qed.

Lemma parse_key_value_pair_with_ok pv fuel rest :
  (len rest < fuel)%nat ->
  (forall r, (len r + 2 <= len rest)%nat ->
             ok (fun a => (len a.1 < len r)%nat) (pv r)) ->
  ok (fun a => (len a.1.1 + 3 <= len rest)%nat) (parse_key_value_pair_with pv fuel rest).
Proof.
  intros Hf Hpv. unfold parse_key_value_pair_with.
  eapply ok_bind; [apply parse_key_ok; lia|].
  intros [r key] H. simpl in H.
  destruct r as [|c r]; [exact I|].
  destruct (c =? 61); [|exact I].
  pose proof (skip_chars_le TOML_WS r) as H1. simpl in H.
  eapply ok_bind; [apply Hpv; lia|].
  intros [r' v] H'. simpl in *. lia.
Qed.

Lemma parse_array_with_ok loop fuel rest :
  rest <> [] -> (len rest <= fuel)%nat ->
  (forall r arr, (len r < len rest)%nat ->
                 ok (fun a => (len a.1 < len r)%nat) (loop r arr)) ->
  ok (fun a => (len a.1 < len rest)%nat) (parse_array_with loop fuel rest).
Proof.
  intros Hne Hf Hloop. unfold parse_array_with.
  destruct rest as [|c rest]; [congruence|].
  change (drop 1 (c :: rest)) with rest.
  eapply ok_bind; [apply skip_comments_and_array_ws_ok; simpl in Hf; lia|].
  intros r H. simpl in H.
  destruct (startswith [93] r).
  - simpl. rewrite length_drop. lia.
  - eapply ok_mono; [apply Hloop; simpl; lia|]. simpl. intros; lia.
Qed.

Lemma parse_inline_table_with_ok loop rest :
  rest <> [] ->
  (forall r nd fl, (len r < len rest)%nat ->
                   ok (fun a => (len a.1 < len r)%nat) (loop r nd fl)) ->
  ok (fun a => (len a.1 < len rest)%nat) (parse_inline_table_with loop rest).
Proof.
  intros Hne Hloop. unfold parse_inline_table_with.
  destruct rest as [|c rest]; [congruence|].
  change (drop 1 (c :: rest)) with rest.
  pose proof (skip_chars_le TOML_WS rest) as H1.
  destruct (startswith [125] _).
  - simpl. rewrite length_drop. lia.
  - eapply ok_mono; [apply Hloop; simpl; lia|]. simpl. intros; lia.
Qed.

Lemma parse_value_terminates fuel :
  (forall rest, (2 * len rest + 2 <= fuel)%nat ->
     ok (fun a => (len a.1 < len rest)%nat) (parse_value fuel rest)) /\
  (forall rest arr, (2 * len rest + 3 <= fuel)%nat ->
     ok (fun a => (len a.1 < len rest)%nat) (parse_array_loop fuel rest arr)) /\
  (forall rest nd fl, (2 * len rest + 3 <= fuel)%nat ->
     ok (fun a => (len a.1 < len rest)%nat) (parse_inline_table_loop fuel rest nd fl)).
Proof.
  induction fuel as [|fuel (IHv & IHa & IHt)].
  { repeat split; intros; lia. }
  repeat split.
  - (* parse_value *)
    intros rest Hf. cbn [parse_value].
    destruct rest as [|c rest]; [apply parse_scalar_ok|].
    set (r0 := c :: rest) in *. assert (Hne : r0 <> []) by discriminate.
    assert (Hlen : len r0 = S (len rest)) by reflexivity.
    destruct (c =? QUOTE).
    { eapply ok_bind with (P := fun a => (len a.1 < len r0)%nat).
      - destruct (startswith _ r0) eqn:E.
        + apply startswith_len in E. apply parse_multiline_str_ok; simpl in E; lia.
        + apply parse_one_line_basic_str_ok; [done|lia].
      - intros [r s] H. exact H. }
    destruct (c =? APOS).
    { eapply ok_bind with (P := fun a => (len a.1 < len r0)%nat).
      - destruct (startswith _ r0) eqn:E.
        + apply startswith_len in E. apply parse_multiline_str_ok; simpl in E; lia.
        + apply parse_literal_str_ok; done.
      - intros [r s] H. exact H. }
    destruct ((c =? 116) && startswith (u "true") r0) eqn:Et.
    { simpl. rewrite length_drop. lia. }
    destruct ((c =? 102) && startswith (u "false") r0) eqn:Ef.
    { simpl. rewrite length_drop. lia. }
    destruct (c =? 91).
    { eapply ok_bind with (P := fun a => (len a.1 < len r0)%nat).
      - apply parse_array_with_ok; [done|lia|].
        intros r arr Hr. apply IHa. lia.
      - intros [r l] H. exact H. }
    destruct (c =? 123).
    { eapply ok_bind with (P := fun a => (len a.1 < len r0)%nat).
      - apply parse_inline_table_with_ok; [done|].
        intros r nd fl Hr. apply IHt. lia.
      - intros [r l] H. exact H. }
    apply parse_scalar_ok.
  - (* parse_array_loop *)
    intros rest arr Hf. cbn [parse_array_loop].
    eapply ok_bind; [apply IHv; lia|]. intros [r v] H. simpl in H.
    eapply ok_bind; [apply skip_comments_and_array_ws_ok; lia|]. intros r2 H2. simpl in H2.
    destruct r2 as [|c r2]; [exact I|].
    destruct (c =? 93); [simpl in *; lia|].
    destruct (negb (c =? 44)); [exact I|].
    eapply ok_bind; [apply skip_comments_and_array_ws_ok; simpl in *; lia|].
    intros r3 H3. simpl in H3.
    destruct (startswith [93] r3).
    + simpl in *. rewrite length_drop. lia.
    + eapply ok_mono; [apply IHa; simpl in *; lia|]. simpl in *. intros; lia.
  - (* parse_inline_table_loop *)
    intros rest nd fl Hf. cbn [parse_inline_table_loop].
    eapply ok_bind.
    { apply parse_key_value_pair_with_ok; [lia|]. intros r Hr. apply IHv. lia. }
    intros [[r key] v] H. simpl in H.
    destruct (flags_is fl key FROZEN); [exact I|].
    eapply ok_bind with (P := fun _ => True).
    { apply ok_except_KeyError, get_or_create_nest_ok. }
    intros nest _.
    destruct (dict_mem _ _); [exact I|].
    pose proof (skip_chars_le TOML_WS r) as H1.
    destruct (skip_chars TOML_WS r) as [|c r2] eqn:E2; [exact I|].
    destruct (c =? 125); [simpl in *; lia|].
    destruct (negb (c =? 44)); [exact I|].
    pose proof (skip_chars_le TOML_WS r2) as H2.
    eapply ok_mono; [apply IHt; simpl in *; lia|]. simpl in *. intros; lia.
Qed.

Lemma parse_key_value_pair_ok fuel rest :
  (2 * len rest <= fuel)%nat -> rest <> [] ->
  ok (fun a => (len a.1.1 + 3 <= len rest)%nat) (parse_key_value_pair fuel rest).
Proof.
  intros Hf Hne. unfold parse_key_value_pair.
  assert (len rest <> 0%nat) by (destruct rest; simpl; congruence).
  apply parse_key_value_pair_with_ok; [lia|].
  intros r Hr. apply parse_value_terminates. lia.
Qed.

Lemma check_cont_keys_ok fl cont_keys :
  ok (fun _ => True) (check_cont_keys fl cont_keys).
Proof.
  revert fl. induction cont_keys as [|k ks IH]; intros fl; simpl; [exact I|].
  destruct (flags_is fl k EXPLICIT_NEST); [exact I|apply IH].
Qed.

Lemma key_value_rule_ok fuel rest out header :
  (2 * len rest <= fuel)%nat -> rest <> [] ->
  ok (fun a => (len a.1 < len rest)%nat) (key_value_rule fuel rest out header).
Proof.
  intros Hf Hne. unfold key_value_rule.
  eapply ok_bind; [apply parse_key_value_pair_ok; assumption|].
  intros [[r key] v] H. simpl in H.
  eapply ok_bind; [apply check_cont_keys_ok|]. intros fl _.
  destruct (flags_is fl _ FROZEN); [exact I|].
  eapply ok_bind; [apply ok_except_KeyError, get_or_create_nest_ok|]. intros nest _.
  destruct (dict_mem _ nest); [exact I|]. simpl. lia.
Qed.

Lemma create_dict_rule_ok fuel rest out :
  (len rest <= fuel)%nat -> rest <> [] ->
  ok (fun a => (len a.1.1 < len rest)%nat) (create_dict_rule fuel rest out).
Proof.
  intros Hf Hne. unfold create_dict_rule.
  destruct rest as [|c rest]; [congruence|].
  change (drop 1 (c :: rest)) with rest.
  pose proof (skip_chars_le TOML_WS rest) as H1.
  eapply ok_bind; [apply parse_key_ok; simpl in Hf; lia|].
  intros [r key] H. simpl in H.
  destruct (_ || _); [exact I|].
  eapply ok_bind; [apply ok_except_KeyError, get_or_create_nest_ok|]. intros nest _.
  destruct (negb _); [exact I|]. simpl. rewrite length_drop. lia.
Qed.

Lemma create_list_rule_ok fuel rest out :
  (len rest <= fuel)%nat -> rest <> [] ->
  ok (fun a => (len a.1.1 < len rest)%nat) (create_list_rule fuel rest out).
Proof.
  intros Hf Hne. unfold create_list_rule.
  pose proof (length_drop rest 2) as H0.
  pose proof (skip_chars_le TOML_WS (drop 2 rest)) as H1.
  assert (len rest <> 0%nat) by (destruct rest; simpl; congruence).
  destruct (nil_or_length_pos (skip_chars TOML_WS (drop 2 rest))) as [E|E].
  { rewrite E. exact I. }
  eapply ok_bind; [apply parse_key_ok; lia|].
  intros [r key] H'. simpl in H'.
  destruct (flags_is _ key FROZEN); [exact I|].
  eapply ok_bind; [apply ok_except_KeyError, append_nest_to_list_ok|]. intros d _.
  destruct (negb _); [exact I|]. simpl. rewrite length_drop. lia.
Qed.

Lemma loads_loop_ok fuel rest out header :
  (2 * len rest + 3 <= fuel)%nat ->
  ok (fun _ => True) (loads_loop fuel rest out header).
Proof.
  revert rest out header.
  induction fuel as [|fuel IH]; intros rest out header Hf; [lia|].
  cbn [loads_loop].
  pose proof (skip_chars_le TOML_WS rest) as H1.
  destruct (skip_chars TOML_WS rest) as [|c rest'] eqn:E; [exact I|].
  set (r0 := c :: rest') in *.
  assert (Hne : r0 <> []) by discriminate.
  assert (Hlen : len r0 = S (len rest')) by reflexivity.
  destruct (c =? LF); [apply IH; lia|].
  eapply ok_bind with (P := fun a => (len a.1.1 <= len r0)%nat).
  - destruct (KEY_INITIAL_CHARS c).
    { eapply ok_bind; [apply key_value_rule_ok; [lia|done]|].
      intros [r o] H. simpl in *. pose proof (skip_chars_le TOML_WS r). lia. }
    destruct (c =? 91).
    { eapply ok_bind with (P := fun a => (len a.1.1 < len r0)%nat).
      - destruct (bool_decide _);
          [apply create_list_rule_ok|apply create_dict_rule_ok]; done || lia.
      - intros [[r o] h] H. simpl in *. pose proof (skip_chars_le TOML_WS r). lia. }
    destruct (negb (c =? 35)); [exact I|]. simpl. lia.
  - intros [[r o] h] H. simpl in H.
    eapply ok_bind; [apply skip_comment_ok|]. intros r2 H2. simpl in H2.
    destruct r2 as [|d r2]; [exact I|].
    destruct (negb (d =? LF)); [exact I|].
    apply IH. simpl in *. lia.
Qed.

(** The fuel that [loads] provides is never used up, and what the
    parser raises is a [TOMLDecodeError], an [IndexError] or the
    [ValueError] of an integer with too many digits. *)
Lemma loads_gas_ok s : ok (fun _ => True) (loads_gas s).
Proof. unfold loads_gas, loads_fuel. apply loads_loop_ok. lia. Qed.

Theorem loads_never_out_of_gas s : loads_gas s <> Gas.
Proof. pose proof (loads_gas_ok s) as H. destruct (loads_gas s); simpl in H; congruence. Qed.

Theorem loads_raises s e :
  loads s = Raise e ->
  (exists msg, e = TOMLDecodeError msg) \/ e = IndexError \/ e = ValueError.
Proof.
  unfold loads. pose proof (loads_gas_ok s) as H.
  destruct (loads_gas s) as [d|e'|]; simpl in H; [discriminate| |contradiction].
  intros [= <-]. destruct e'; simpl in H; try contradiction; eauto.
Qed.

End Termination.

(** * The file system *)

Lemma walk_None (fs : filesys) pre rest :
  walk fs pre rest = None <->
  forall k, (k < List.length rest)%nat ->
    exists pm, fs !! (pre ++ take k rest) = Some (Dir pm) /\ can_search pm = true.
Proof.
  revert pre. induction rest as [|c rest IH]; intros pre; simpl.
  - split; [intros _ k Hk; lia|done].
  - destruct (fs !! pre) as [[pm|pm b]|] eqn:E.
    + destruct (can_search pm) eqn:Es.
      * rewrite IH. split.
        -- intros H [|k] Hk.
           ++ rewrite take_0, app_nil_r. eauto.
           ++ destruct (H k) as [pm' Hpm']; [lia|].
              exists pm'. rewrite <- app_assoc in Hpm'. exact Hpm'.
        -- intros H k Hk. destruct (H (S k)) as [pm' Hpm']; [lia|].
           exists pm'. rewrite <- app_assoc. exact Hpm'.
      * split; [discriminate|]. intros H. destruct (H 0%nat) as [pm' [H1 H2]]; [lia|].
        rewrite take_0, app_nil_r in H1. congruence.
    + split; [discriminate|]. intros H. destruct (H 0%nat) as [pm' [H1 H2]]; [lia|].
      rewrite take_0, app_nil_r in H1. congruence.
    + split; [discriminate|]. intros H. destruct (H 0%nat) as [pm' [H1 H2]]; [lia|].
      rewrite take_0, app_nil_r in H1. congruence.
Qed.

Lemma resolve_None (fs : filesys) p :
  resolve fs p = None <->
  forall k, (k < List.length p)%nat ->
    exists pm, fs !! take k p = Some (Dir pm) /\ can_search pm = true.
Proof. unfold resolve. rewrite walk_None. reflexivity. Qed.

(** Resolution only looks at the proper ancestors of a path. *)
Lemma walk_ext (fs fs' : filesys) pre rest :
  (forall k, (k < List.length rest)%nat ->
             fs' !! (pre ++ take k rest) = fs !! (pre ++ take k rest)) ->
  walk fs' pre rest = walk fs pre rest.
Proof.
  revert pre. induction rest as [|c rest IH]; intros pre H; simpl; [done|].
  pose proof (H 0%nat ltac:(simpl; lia)) as H0.
  rewrite take_0, app_nil_r in H0. rewrite H0.
  destruct (fs !! pre) as [[pm|pm b]|]; try done.
  destruct (can_search pm); [|done].
  apply IH. intros k Hk. specialize (H (S k) ltac:(simpl; lia)).
  simpl in H. rewrite <- app_assoc. exact H.
Qed.

Lemma take_ne_self {A} (p : list A) k : (k < List.length p)%nat -> take k p <> p.
Proof.
  intros Hk E. apply (f_equal (@List.length A)) in E.
  rewrite length_take in E. lia.
Qed.

Lemma resolve_insert_self (fs : filesys) p n :
  resolve (<[p := n]> fs) p = resolve fs p.
Proof.
  unfold resolve. apply walk_ext. intros k Hk. simpl.
  apply lookup_insert_ne. intros E. symmetry in E. revert E. apply take_ne_self, Hk.
Qed.

Lemma take_app_snoc_ne {A} (p : list A) x k :
  (k <= List.length p)%nat -> take k (p ++ [x]) <> p ++ [x].
Proof.
  intros Hk. apply take_ne_self. rewrite length_app. simpl. lia.
Qed.

(** ** What the system calls do *)

Lemma io_same_refl w : io_same w w.
Proof. split; reflexivity. Qed.

Lemma io_same_trans w1 w2 w3 : io_same w1 w2 -> io_same w2 w3 -> io_same w1 w3.
Proof. intros [? ?] [? ?]. split; congruence. Qed.

Lemma os_mkdir_spec p w r w' :
  os_mkdir p w = (r, w') ->
  io_same w w' /\
  ((exists k, r = Raise (OSError k) /\ fs w' = fs w) \/
   (r = Return tt /\ fs w' = <[p := new_dir]> (fs w) /\
    fs w !! p = None /\ resolve (fs w) p = None)).
Proof.
  unfold os_mkdir. unfold_M. intros H.
  destruct p as [|c p].
  - destruct (fs w !! []); simplify_eq; split; try apply io_same_refl; left; eauto.
  - destruct (resolve (fs w) (c :: p)) eqn:E1; simplify_eq.
    { split; [apply io_same_refl|left; eauto]. }
    destruct (fs w !! (c :: p)) eqn:E2; simplify_eq.
    { split; [apply io_same_refl|left; eauto]. }
    destruct (dir_writable _ _); simplify_eq.
    + split; [split; reflexivity|right; auto].
    + split; [apply io_same_refl|left; eauto].
Qed.

Lemma os_stat_spec p w r w' :
  os_stat p w = (r, w') ->
  w' = w /\
  ((exists k, r = Raise (OSError k) /\
      (_ignore_error (OSError k) = true -> resolve (fs w) p <> None \/ fs w !! p = None)) \/
   (exists n, r = Return n /\ resolve (fs w) p = None /\ fs w !! p = Some n)).
Proof.
  unfold os_stat. unfold_M. intros H.
  destruct (resolve (fs w) p) eqn:E1; simplify_eq.
  { split; [done|left; eexists; split; [done|]]. intros _. left. congruence. }
  destruct (fs w !! p) eqn:E2; simplify_eq.
  - split; [done|right; eauto].
  - split; [done|left; eexists; split; [done|]]. auto.
Qed.

Lemma is_dir_spec p w r w' :
  is_dir p w = (r, w') ->
  w' = w /\
  ((exists k, r = Raise (OSError k)) \/ r = Return false \/
   (r = Return true /\ resolve (fs w) p = None /\ exists pm, fs w !! p = Some (Dir pm))).
Proof.
  unfold is_dir. unfold try_except at 1. unfold bind.
  destruct (os_stat p w) as [r0 w0] eqn:E. apply os_stat_spec in E as [-> E].
  destruct E as [(k & -> & _)|(n & -> & H1 & H2)].
  - destruct (_ignore_error (OSError k)); unfold ret; intros; simplify_eq; auto. eauto.
  - unfold ret. intros; simplify_eq. split; [done|].
    destruct n; auto. right; right. eauto.
Qed.

Lemma made_dirs_refl (p : path) (n : nat) (fs : filesys) : made_dirs p n fs fs.
Proof. intros q. auto. Qed.

Lemma made_dirs_mono (p : path) (n m : nat) (fs fs' : filesys) :
  (n <= m)%nat -> made_dirs p n fs fs' -> made_dirs p m fs fs'.
Proof.
  intros Hnm H q. destruct (H q) as [?|(? & ? & k & ? & ?)]; auto.
  right. repeat split; auto. exists k. split; [lia|done].
Qed.

Lemma made_dirs_insert (p : path) (n : nat) (fs fs1 : filesys) :
  made_dirs p n fs fs1 -> fs1 !! take (S n) p = None ->
  made_dirs p (S n) fs (<[take (S n) p := new_dir]> fs1).
Proof.
  intros H Hnone q. destruct (decide (q = take (S n) p)) as [->|Hne].
  - right. rewrite lookup_insert_eq. repeat split; [|eauto].
    destruct (H (take (S n) p)) as [E|(? & E & _)]; congruence.
  - rewrite lookup_insert_ne by done.
    destruct (H q) as [?|(? & ? & k & ? & ?)]; auto.
    right. repeat split; auto. exists k. split; [lia|done].
Qed.

Lemma dir_at_insert (fs : filesys) (p : path) :
  resolve fs p = None -> dir_at (<[p := new_dir]> fs) p.
Proof.
  intros H. split; [rewrite resolve_insert_self; done|].
  rewrite lookup_insert_eq. unfold new_dir. eauto.
Qed.

Lemma mkdir_no_parents_spec p w r w' :
  mkdir_no_parents p true w = (r, w') ->
  io_same w w' /\
  ((exists k, r = Raise (OSError k) /\ fs w' = fs w) \/
   (r = Return tt /\ dir_at (fs w') p /\
    (fs w' = fs w \/ (fs w !! p = None /\ fs w' = <[p := new_dir]> (fs w))))).
Proof.
  unfold mkdir_no_parents, try_except.
  destruct (os_mkdir p w) as [r0 w0] eqn:E. apply os_mkdir_spec in E as [Hio E].
  destruct E as [(k & -> & Hfs)|(-> & Hfs & H1 & H2)].
  - destruct k; try (intros [= <- <-]; split; [done|left; eauto]).
    all: unfold bind; destruct (is_dir p w0) as [r1 w1] eqn:E1;
      apply is_dir_spec in E1 as [-> E1];
      destruct E1 as [(k' & ->)|[->|(-> & H1 & pm & H2)]]; unfold_M;
      intros [= <- <-]; (split; [done|]); try (left; eauto; fail).
    all: right; split; [done|]; rewrite Hfs in *; split; [split; eauto|auto].
  - intros [= <- <-]. split; [done|]. right. split; [done|].
    rewrite Hfs. split; [apply dir_at_insert; done|auto].
Qed.

Lemma made_dirs_insert_0 (p : path) (n : nat) (fs : filesys) :
  fs !! take n p = None -> made_dirs p n fs (<[take n p := new_dir]> fs).
Proof.
  intros Hnone q. destruct (decide (q = take n p)) as [->|Hne].
  - right. rewrite lookup_insert_eq. eauto.
  - left. by rewrite lookup_insert_ne.
Qed.

Lemma made_dirs_trans (p : path) (n : nat) (fs1 fs2 fs3 : filesys) :
  made_dirs p n fs1 fs2 -> made_dirs p n fs2 fs3 -> made_dirs p n fs1 fs3.
Proof.
  intros H12 H23 q.
  destruct (H23 q) as [E|(E1 & E2 & k & Hk & ->)].
  - rewrite E. apply H12.
  - destruct (H12 (take k p)) as [E|(E3 & E4 & _)].
    + right. rewrite <- E. eauto 6.
    + congruence.
Qed.

(** The handler of [mkdir] for an error other than "not found". *)
Lemma mkdir_exists_handler_spec e p w r w' :
  (let! d := is_dir p in if negb d then raise e else ret tt) w = (r, w') ->
  w' = w /\ ((exists k, r = Raise (OSError k)) \/ r = Raise e \/
             (r = Return tt /\ dir_at (fs w) p)).
Proof.
  unfold bind. destruct (is_dir p w) as [r1 w1] eqn:E1.
  apply is_dir_spec in E1 as [-> E1].
  destruct E1 as [(k' & ->)|[->|(-> & H1 & pm & H2)]]; unfold_M;
    intros [= <- <-]; (split; [done|]); eauto.
  right; right. split; [done|]. split; eauto.
Qed.

Lemma mkdir_parents_spec p n w r w' :
  mkdir_parents p n w = (r, w') ->
  io_same w w' /\ made_dirs p n (fs w) (fs w') /\
  ((exists k, r = Raise (OSError k)) \/ (r = Return tt /\ dir_at (fs w') (take n p))).
Proof.
  revert w r w'. induction n as [|n IH]; intros w r w'.
  - cbn [mkdir_parents]. unfold try_except.
    destruct (os_mkdir (take 0 p) w) as [r0 w0] eqn:E.
    apply os_mkdir_spec in E as [Hio E].
    destruct E as [(k & -> & Hfs)|(-> & Hfs & H1 & H2)].
    + destruct k.
      1: intros [= <- <-]; rewrite Hfs; split; [done|split; [apply made_dirs_refl|eauto]].
      all: intros H; apply mkdir_exists_handler_spec in H as [-> H];
        rewrite Hfs; (split; [done|split; [apply made_dirs_refl|]]);
        destruct H as [?|[->|[-> ?]]]; try rewrite Hfs in *; eauto.
    + intros [= <- <-]. split; [done|]. rewrite Hfs.
      split; [apply made_dirs_insert_0; done|right; split; [done|]].
      apply dir_at_insert; done.
  - cbn [mkdir_parents]. unfold try_except.
    destruct (os_mkdir (take (S n) p) w) as [r0 w0] eqn:E.
    apply os_mkdir_spec in E as [Hio E].
    destruct E as [(k & -> & Hfs)|(-> & Hfs & H1 & H2)].
    + destruct k.
      1:{ unfold bind. destruct (mkdir_parents p n w0) as [r1 w1] eqn:E1.
          apply IH in E1 as (Hio1 & Hmd1 & E1). rewrite Hfs in Hmd1.
          destruct E1 as [(k & ->)|(-> & Hd)].
          - intros [= <- <-]. split; [eapply io_same_trans; eauto|].
            split; [eapply made_dirs_mono; [|eauto]; lia|eauto].
          - intros H. apply mkdir_no_parents_spec in H as (Hio2 & H).
            split; [eapply io_same_trans; [|eauto]; eapply io_same_trans; eauto|].
            destruct H as [(k & -> & Hfs2)|(-> & Hd2 & Hfs2)].
            + rewrite Hfs2. split; [eapply made_dirs_mono; [|eauto]; lia|eauto].
            + split; [|auto].
              destruct Hfs2 as [->|[Hn ->]].
              * eapply made_dirs_mono; [|eauto]; lia.
              * apply made_dirs_insert; done. }
      all: intros H; apply mkdir_exists_handler_spec in H as [-> H];
        rewrite Hfs; (split; [done|split; [apply made_dirs_refl|]]);
        destruct H as [?|[->|[-> ?]]]; try rewrite Hfs in *; eauto.
    + intros [= <- <-]. split; [done|]. rewrite Hfs.
      split; [apply made_dirs_insert_0; done|right; split; [done|]].
      apply dir_at_insert; done.
Qed.

Lemma open_w_spec p w r w' :
  open_w p w = (r, w') ->
  io_same w w' /\
  ((exists k, r = Raise (OSError k) /\ fs w' = fs w) \/
   (r = Return tt /\ resolve (fs w) p = None /\
    exists pm, can_write pm = true /\ fs w' = <[p := File pm ""]> (fs w) /\
      (fs w !! p = None \/ exists c, fs w !! p = Some (File pm c)))).
Proof.
  unfold open_w. unfold_M. intros H.
  destruct (resolve (fs w) p) eqn:E1; simplify_eq.
  { split; [apply io_same_refl|left; eauto]. }
  destruct (fs w !! p) as [[pm|pm c]|] eqn:E2; simplify_eq.
  - split; [apply io_same_refl|left; eauto].
  - destruct (can_write pm) eqn:Ew; simplify_eq.
    + split; [done|right]. split; [done|]. split; [done|]. exists pm. eauto.
    + split; [apply io_same_refl|left; eauto].
  - destruct p as [|c p]; simplify_eq.
    { split; [apply io_same_refl|left; eauto]. }
    destruct (dir_writable _ _); simplify_eq.
    + split; [done|right]. split; [done|]. split; [done|].
      exists (Perm true true false). auto.
    + split; [apply io_same_refl|left; eauto].
Qed.

Lemma mkdir_parents_unfold p n :
  mkdir_parents p n =
  try_except (os_mkdir (take n p))
    (fun e =>
       match e with
       | OSError FileNotFoundError =>
           match n with
           | O => None
           | S n' => Some (let! _ := mkdir_parents p n' in mkdir_no_parents (take n p) true)
           end
       | OSError _ =>
           Some (let! d := is_dir (take n p) in
                 if negb d then raise e else ret tt)
       | _ => None
       end).
Proof. destruct n; reflexivity. Qed.

(** [mkdir] leaves a directory that exists alone. *)
Lemma mkdir_parents_existing p n w :
  dir_at (fs w) (take n p) -> mkdir_parents p n w = (Return tt, w).
Proof.
  intros [Hres [pm Hpm]]. rewrite mkdir_parents_unfold.
  unfold try_except, os_mkdir, bind, get_fs.
  assert (Hmk : (match take n p with
                 | [] => match fs w !! take n p with
                         | Some _ => raise (OSError FileExistsError)
                         | None => raise (OSError FileNotFoundError)
                         end
                 | _ :: _ =>
                     match resolve (fs w) (take n p) with
                     | Some k => raise (OSError k)
                     | None =>
                         match fs w !! take n p with
                         | Some _ => raise (OSError FileExistsError)
                         | None =>
                             if dir_writable (fs w) (parent (take n p))
                             then set_fs (<[take n p := new_dir]> (fs w))
                             else raise (OSError PermissionError)
                         end
                     end
                 end) w = (Raise (OSError FileExistsError) : outcome unit, w)).
  { destruct (take n p); rewrite ?Hres, Hpm; reflexivity. }
  rewrite Hmk.
  unfold is_dir, try_except, bind, os_stat, get_fs, bind.
  rewrite Hres, Hpm. reflexivity.
Qed.


Lemma take_config_toml dirs k :
  (k <= List.length (user_config_path dirs))%nat ->
  take k (config_toml dirs) = take k (user_config_path dirs).
Proof. intros Hk. unfold config_toml. apply take_app_le. exact Hk. Qed.

Lemma length_config_toml dirs :
  List.length (config_toml dirs) = S (List.length (user_config_path dirs)).
Proof. unfold config_toml. rewrite length_app. simpl. lia. Qed.

Lemma resolve_config_toml (fs : filesys) dirs :
  resolve fs (config_toml dirs) = None -> dir_at fs (user_config_path dirs).
Proof.
  intros H. rewrite resolve_None in H. split.
  - apply resolve_None. intros k Hk.
    destruct (H k) as [pm Hpm]; [rewrite length_config_toml; lia|].
    rewrite take_config_toml in Hpm by lia. eauto.
  - destruct (H (List.length (user_config_path dirs))) as [pm [Hpm _]].
    { rewrite length_config_toml; lia. }
    rewrite take_config_toml, firstn_all in Hpm by lia. eauto.
Qed.

Lemma config_toml_not_prefix dirs k :
  take k (user_config_path dirs) <> config_toml dirs.
Proof.
  intros E. apply (f_equal (@List.length string)) in E.
  rewrite length_take, length_config_toml in E. lia.
Qed.

(** What a successful [init] leaves behind. *)
Lemma init_success dirs w w' :
  init dirs w = (Return tt, w') ->
  stdout w' = stdout w /\ calls w' = calls w ++ [CallInit] /\
  resolve (fs w') (config_toml dirs) = None /\
  (exists pm, can_write pm = true /\
     fs w' !! config_toml dirs = Some (File pm (utf8_encode EXAMPLE_CONFIG)) /\
     (fs w !! config_toml dirs = None /\ pm = Perm true true false \/
      exists c, fs w !! config_toml dirs = Some (File pm c))) /\
  (forall q, q <> config_toml dirs ->
     fs w' !! q = fs w !! q \/
     (fs w !! q = None /\ fs w' !! q = Some new_dir /\
      exists k, (k <= List.length (user_config_path dirs))%nat /\
                q = take k (user_config_path dirs))).
Proof.
  unfold init, Path_mkdir. unfold bind at 1. unfold enter at 1.
  set (w0 := World (fs w) (stdout w) (calls w ++ [CallInit])).
  unfold bind at 1.
  destruct (mkdir_parents _ _ w0) as [r1 w1] eqn:E1.
  apply mkdir_parents_spec in E1 as ([Ho1 Hc1] & Hmd & E1).
  destruct E1 as [(k & ->)|(-> & _)]; [discriminate|].
  unfold bind at 1.
  destruct (open_w _ w1) as [r2 w2] eqn:E2.
  assert (Hsame : fs w1 !! config_toml dirs = fs w !! config_toml dirs).
  { destruct (Hmd (config_toml dirs)) as [E|(_ & _ & k & _ & E)]; [exact E|].
    symmetry in E. apply config_toml_not_prefix in E. contradiction. }
  unfold open_w, bind, get_fs, set_fs, raise in E2.
  destruct (resolve (fs w1) (config_toml dirs)) eqn:Hres; [injection E2 as <- <-; discriminate|].
  assert (Hio : forall (pm : perm) (w2 : world),
    w2 = World (<[config_toml dirs := File pm ""]> (fs w1)) (stdout w1) (calls w1) ->
    can_write pm = true ->
    (fs w !! config_toml dirs = None /\ pm = Perm true true false \/
      exists c, fs w !! config_toml dirs = Some (File pm c)) ->
    file_write (config_toml dirs) EXAMPLE_CONFIG w2 = (Return (), w') ->
    stdout w' = stdout w /\ calls w' = calls w ++ [CallInit] /\
    resolve (fs w') (config_toml dirs) = None /\
    (exists pm, can_write pm = true /\
       fs w' !! config_toml dirs = Some (File pm (utf8_encode EXAMPLE_CONFIG)) /\
       (fs w !! config_toml dirs = None /\ pm = Perm true true false \/
        exists c, fs w !! config_toml dirs = Some (File pm c))) /\
    (forall q, q <> config_toml dirs ->
       fs w' !! q = fs w !! q \/
       (fs w !! q = None /\ fs w' !! q = Some new_dir /\
        exists k, (k <= List.length (user_config_path dirs))%nat /\
                  q = take k (user_config_path dirs)))).
  { intros pm w2' -> Hw Hold. unfold file_write, bind, get_fs, set_fs. cbn [fs stdout calls].
    rewrite lookup_insert_eq. intros [= <-]. cbn [fs stdout calls].
    subst w0. simpl in *. split; [congruence|]. split; [congruence|].
    rewrite insert_insert_eq. split; [rewrite resolve_insert_self; done|].
    split; [exists pm; rewrite lookup_insert_eq; done|].
    intros q Hq. rewrite lookup_insert_ne by done. apply Hmd. }
  destruct (fs w1 !! config_toml dirs) as [[pm|pm c]|] eqn:Hl; [injection E2 as <- <-; discriminate| |].
  - destruct (can_write pm) eqn:Hw; [|injection E2 as <- <-; discriminate]. injection E2 as <- <-.
    eapply Hio; eauto.
  - destruct (config_toml dirs) eqn:Ec; [injection E2 as <- <-; discriminate|]. rewrite <- Ec in *.
    destruct (dir_writable _ _); [|injection E2 as <- <-; discriminate]. injection E2 as <- <-.
    eapply Hio; eauto.
Qed.

(** * UTF-8: decoding what was encoded *)

(** Boolean comparisons of code points as propositions, for [lia]. *)
Ltac bool_arith :=
  unfold in_range in *;
  repeat match goal with
         | H : _ && _ = true |- _ => apply andb_true_iff in H; destruct H
         | H : _ || _ = false |- _ => apply orb_false_iff in H; destruct H
         | H : negb _ = true |- _ => apply negb_true_iff in H
         | H : negb _ = false |- _ => apply negb_false_iff in H
         | H : (_ <=? _) = true |- _ => apply N.leb_le in H
         | H : (_ <=? _) = false |- _ => apply N.leb_gt in H
         | H : (_ <? _) = true |- _ => apply N.ltb_lt in H
         | H : (_ <? _) = false |- _ => apply N.ltb_ge in H
         | H : (_ =? _) = true |- _ => apply N.eqb_eq in H
         | H : (_ =? _) = false |- _ => apply N.eqb_neq in H
         end.

Lemma byte_values_of_values l :
  Forall (fun n => n < 256) l -> byte_values (bytes_of_values l) = l.
Proof.
  intros H. unfold byte_values, bytes_of_values.
  rewrite list_ascii_of_string_of_list_ascii, List.map_map.
  induction H as [|n l Hn _ IH]; simpl; [reflexivity|].
  rewrite IH. f_equal. apply N_ascii_embedding. exact Hn.
Qed.

Lemma scalar_le c : is_unicode_scalar_value c = true -> c <= 1114111.
Proof.
  unfold is_unicode_scalar_value. intros H.
  apply orb_true_iff in H as [H|H]; bool_arith; lia.
Qed.

(** The digits of a code point in base 64. *)
Lemma base64_digits c :
  c = 64 * (c / 64) + c mod 64 /\
  c / 64 = 64 * (c / 4096) + (c / 64) mod 64 /\
  c / 4096 = 64 * (c / 262144) + (c / 4096) mod 64 /\
  c mod 64 < 64 /\ (c / 64) mod 64 < 64 /\ (c / 4096) mod 64 < 64.
Proof.
  repeat split; try (apply N.mod_lt; discriminate).
  - apply N.div_mod'.
  - rewrite (N.div_mod' (c / 64) 64) at 1. rewrite N.Div0.div_div. reflexivity.
  - rewrite (N.div_mod' (c / 4096) 64) at 1. rewrite N.Div0.div_div. reflexivity.
Qed.

Ltac base64 c :=
  destruct (base64_digits c) as (H64 & H4096 & H262144 & Hm0 & Hm1 & Hm2);
  set (r0 := c mod 64) in *; set (r1 := (c / 64) mod 64) in *;
  set (r2 := (c / 4096) mod 64) in *; set (q3 := c / 262144) in *;
  set (q2 := c / 4096) in *; set (q1 := c / 64) in *;
  clearbody r0 r1 r2 q3 q2 q1.

Ltac decide_test :=
  match goal with
  | |- context [?a <? ?b] =>
      first [ replace (a <? b) with true by (symmetry; apply N.ltb_lt; lia)
            | replace (a <? b) with false by (symmetry; apply N.ltb_ge; lia) ]
  | |- context [?a <=? ?b] =>
      first [ replace (a <=? b) with true by (symmetry; apply N.leb_le; lia)
            | replace (a <=? b) with false by (symmetry; apply N.leb_gt; lia) ]
  | |- context [?a =? ?b] =>
      first [ replace (a =? b) with true by (symmetry; apply N.eqb_eq; lia)
            | replace (a =? b) with false by (symmetry; apply N.eqb_neq; lia) ]
  end.

Lemma utf8_encode_char_bytes c :
  is_unicode_scalar_value c = true -> Forall (fun n => n < 256) (utf8_encode_char c).
Proof.
  intros H. apply scalar_le in H. unfold utf8_encode_char.
  repeat case_match; bool_arith; base64 c; repeat constructor; lia.
Qed.

Lemma utf8_decode_encode_char c bs :
  is_unicode_scalar_value c = true ->
  utf8_decode (utf8_encode_char c ++ bs) =
  match utf8_decode bs with Some s => Some (c :: s) | None => None end.
Proof.
  intros H. pose proof (scalar_le c H) as Hle.
  assert (Hs : c <= 55295 \/ 57344 <= c).
  { unfold is_unicode_scalar_value in H.
    apply orb_true_iff in H as [H|H]; bool_arith; lia. }
  clear H. unfold utf8_encode_char.
  destruct (c <? 128) eqn:E1; [simpl; rewrite E1; reflexivity|].
  destruct (c <? 2048) eqn:E2; [|destruct (c <? 65536) eqn:E3].
  all: bool_arith; cbn [app utf8_decode]; unfold is_cont, in_range.
  all: base64 c.
  - repeat decide_test. cbn [andb]. f_equal.
    destruct (utf8_decode bs); [|reflexivity]. do 2 f_equal. lia.
  - destruct (N.eq_dec q2 0), (N.eq_dec q2 13); repeat decide_test; cbn [andb].
    all: destruct (utf8_decode bs); [|reflexivity]; do 2 f_equal; lia.
  - destruct (N.eq_dec q3 0), (N.eq_dec q3 4); repeat decide_test; cbn [andb].
    all: destruct (utf8_decode bs); [|reflexivity]; do 2 f_equal; lia.
Qed.

(** Decoding the encoding of Unicode scalar values gives them back. *)
Lemma utf8_decode_encode s :
  forallb is_unicode_scalar_value s = true ->
  utf8_decode (byte_values (utf8_encode s)) = Some s.
Proof.
  intros H. unfold utf8_encode. rewrite byte_values_of_values.
  - induction s as [|c s IH]; [reflexivity|].
    simpl in H. apply andb_true_iff in H as [Hc Hs].
    cbn [List.map List.concat]. rewrite utf8_decode_encode_char by exact Hc.
    rewrite (IH Hs). reflexivity.
  - apply Forall_concat, Forall_map. apply Forall_forall. intros c Hc.
    apply utf8_encode_char_bytes. rewrite forallb_forall in H. apply H.
    apply list_elem_of_In. exact Hc.
Qed.

(** * Parsing the document of one engine entry *)

Lemma skip_chars_app chars s r :
  forallb chars s = true -> skip_chars chars (s ++ r) = skip_chars chars r.
Proof.
  induction s as [|c s IH]; simpl; [reflexivity|].
  intros H. apply andb_true_iff in H as [-> H]. auto.
Qed.

Lemma span_chars_app chars s r :
  forallb chars s = true -> span_chars chars (s ++ r) = s ++ span_chars chars r.
Proof.
  induction s as [|c s IH]; simpl; [reflexivity|].
  intros H. apply andb_true_iff in H as [-> H]. f_equal. auto.
Qed.

Lemma plain_char_spec c :
  plain_char c = true ->
  (c =? QUOTE) = false /\ (c =? BACKSLASH) = false /\
  ILLEGAL_BASIC_STR_CHARS c = false /\ is_unicode_scalar_value c = true.
Proof.
  unfold plain_char. rewrite !andb_true_iff, !negb_true_iff. tauto.
Qed.

Lemma parse_basic_str_plain fuel s r acc :
  plain s = true -> (len s < fuel)%nat ->
  parse_basic_str fuel (s ++ QUOTE :: r) false acc = Got (r, acc ++ s).
Proof.
  revert fuel acc. induction s as [|c s IH]; intros fuel acc Hp Hf.
  - destruct fuel; [simpl in Hf; lia|]. simpl. rewrite app_nil_r. reflexivity.
  - destruct fuel; [simpl in Hf; lia|].
    simpl in Hp. apply andb_true_iff in Hp as [Hc Hp].
    apply plain_char_spec in Hc as (Hq & Hb & Hi & _).
    cbn [app parse_basic_str]. rewrite Hq, Hb, Hi.
    rewrite IH by (simpl in Hf; auto; lia). rewrite <- app_assoc. reflexivity.
Qed.

(** A basic string on one line, when what follows is no quote. *)
Lemma parse_value_quoted fuel s r :
  plain s = true -> startswith [QUOTE] r = false -> (len s + 1 < fuel)%nat ->
  parse_value fuel (quoted s ++ r) = Got (r, VStr s).
Proof.
  intros Hp Hr Hf. destruct fuel as [|fuel]; [lia|].
  unfold quoted. cbn [app parse_value]. change (QUOTE =? QUOTE) with true. cbn match.
  assert (Hs : startswith [QUOTE; QUOTE; QUOTE] (QUOTE :: (s ++ [QUOTE]) ++ r) = false).
  { destruct s as [|c s].
    - cbn [app startswith]. destruct r as [|d r]; [rewrite andb_false_r; reflexivity|].
      cbn [startswith] in Hr. rewrite andb_true_r in Hr. rewrite Hr, !andb_false_r.
      reflexivity.
    - simpl in Hp. apply andb_true_iff in Hp as [Hc _].
      apply plain_char_spec in Hc as (Hq & _). cbn [app startswith].
      rewrite N.eqb_sym in Hq. rewrite Hq, andb_false_r. reflexivity. }
  rewrite Hs. unfold parse_one_line_basic_str.
  change (drop 1 (QUOTE :: (s ++ [QUOTE]) ++ r)) with ((s ++ [QUOTE]) ++ r).
  rewrite <- app_assoc. cbn [app].
  rewrite parse_basic_str_plain by (auto; lia). reflexivity.
Qed.

(** Nothing to skip before a character that is no white space, no
    newline and no [#]. *)
Lemma skip_comments_and_array_ws_none fuel c r :
  TOML_WS_AND_NEWLINE c = false -> (c =? 35) = false -> (0 < fuel)%nat ->
  skip_comments_and_array_ws fuel (c :: r) = Got (c :: r).
Proof.
  intros Hw Hc Hf. destruct fuel; [lia|].
  cbn [skip_comments_and_array_ws skip_chars]. rewrite Hw.
  cbn [skip_comment]. rewrite Hc. cbn [pbind]. rewrite Nat.eqb_refl. reflexivity.
Qed.

(** One blank before such a character. *)
Lemma skip_comments_and_array_ws_blank fuel c r :
  TOML_WS_AND_NEWLINE c = false -> (c =? 35) = false -> (1 < fuel)%nat ->
  skip_comments_and_array_ws fuel (32 :: c :: r) = Got (c :: r).
Proof.
  intros Hw Hc Hf. destruct fuel; [lia|].
  cbn [skip_comments_and_array_ws]. change (skip_chars TOML_WS_AND_NEWLINE (32 :: c :: r))
    with (skip_chars TOML_WS_AND_NEWLINE (c :: r)).
  cbn [skip_chars]. rewrite Hw. cbn [skip_comment]. rewrite Hc. cbn [pbind].
  replace (Nat.eqb (len (c :: r)) (len (32 :: c :: r))) with false
    by (symmetry; apply Nat.eqb_neq; simpl; lia).
  apply skip_comments_and_array_ws_none; auto; lia.
Qed.

Lemma length_quoted s : len (quoted s) = S (S (len s)).
Proof. unfold quoted. simpl. rewrite length_app. simpl. lia. Qed.

(** The items of an array of strings, up to the closing bracket. *)
Lemma parse_array_loop_items fuel s l r acc :
  forallb plain (s :: l) = true ->
  (len (array_items (s :: l)) + 2 < fuel)%nat ->
  parse_array_loop fuel (array_items (s :: l) ++ 93 :: r) acc =
  Got (r, acc ++ List.map VStr (s :: l)).
Proof.
  revert fuel s acc. induction l as [|s' l IH]; intros fuel s acc Hp Hf.
  - destruct fuel as [|fuel]; [lia|].
    cbn [forallb] in Hp. apply andb_true_iff in Hp as [Hs _].
    cbn [array_items] in *. cbn [parse_array_loop].
    rewrite length_quoted in Hf.
    rewrite parse_value_quoted by (auto; lia). cbn [pbind].
    rewrite skip_comments_and_array_ws_none by (reflexivity || lia). cbn [pbind].
    reflexivity.
  - destruct fuel as [|fuel]; [lia|].
    cbn [forallb] in Hp. apply andb_true_iff in Hp as [Hs Hp].
    change (array_items (s :: s' :: l)) with (quoted s ++ u ", " ++ array_items (s' :: l)) in *.
    rewrite !length_app, length_quoted in Hf. change (len (u ", ")) with 2%nat in Hf.
    cbn [parse_array_loop]. rewrite <- !app_assoc.
    rewrite parse_value_quoted by (auto; lia). cbn [pbind].
    change (u ", " ++ array_items (s' :: l) ++ 93 :: r)
      with (44 :: 32 :: array_items (s' :: l) ++ 93 :: r).
    rewrite skip_comments_and_array_ws_none by (reflexivity || lia). cbn [pbind].
    change (44 =? 93) with false. change (negb (44 =? 44)) with false. cbn match.
    assert (Hq : exists t, array_items (s' :: l) = QUOTE :: t).
    { destruct l; simpl; eauto. }
    destruct Hq as [t Ht]. rewrite Ht. cbn [app].
    rewrite skip_comments_and_array_ws_blank by (reflexivity || lia). cbn [pbind].
    change (startswith [93] (QUOTE :: t ++ 93 :: r)) with false. cbn match.
    change (QUOTE :: t ++ 93 :: r) with ((QUOTE :: t) ++ 93 :: r). rewrite <- Ht.
    rewrite IH by (auto; lia). rewrite <- app_assoc. reflexivity.
Qed.

(** An array of strings. *)
Lemma parse_value_string_array fuel l r :
  forallb plain l = true -> (len (string_array l) + 2 < fuel)%nat ->
  parse_value fuel (string_array l ++ r) = Got (r, string_list l).
Proof.
  intros Hp Hf. destruct fuel as [|fuel]; [lia|].
  unfold string_array in *. rewrite !length_app in Hf.
  change (len (u "[")) with 1%nat in Hf. change (len (u "]")) with 1%nat in Hf.
  rewrite <- !app_assoc. change (u "[" ++ array_items l ++ u "]" ++ r)
    with (91 :: array_items l ++ 93 :: r).
  cbn [parse_value]. change (91 =? QUOTE) with false. change (91 =? APOS) with false.
  change (91 =? 116) with false. change (91 =? 102) with false. change (91 =? 91) with true.
  cbn [andb]. cbn match. unfold parse_array_with.
  change (drop 1 (91 :: array_items l ++ 93 :: r)) with (array_items l ++ 93 :: r).
  destruct l as [|s l].
  - cbn [array_items app].
    rewrite skip_comments_and_array_ws_none by (reflexivity || lia). reflexivity.
  - assert (Hq : exists t, array_items (s :: l) = QUOTE :: t).
    { destruct l; simpl; eauto. }
    destruct Hq as [t Ht]. rewrite Ht. cbn [app].
    rewrite skip_comments_and_array_ws_none by (reflexivity || lia). cbn [pbind].
    change (startswith [93] (QUOTE :: t ++ 93 :: r)) with false. cbn match.
    change (QUOTE :: t ++ 93 :: r) with ((QUOTE :: t) ++ 93 :: r). rewrite <- Ht.
    rewrite parse_array_loop_items by (auto; lia). reflexivity.
Qed.

(** ** Keys *)

Lemma bare_char_spec c :
  BARE_KEY_CHARS c = true ->
  TOML_WS c = false /\ (c =? LF) = false /\ KEY_INITIAL_CHARS c = true /\
  (c =? CR) = false.
Proof.
  intros H. unfold KEY_INITIAL_CHARS. rewrite H. cbn [orb].
  unfold BARE_KEY_CHARS, is_ascii_letter, is_digit, in_range in H.
  unfold TOML_WS, LF, CR, TAB.
  repeat (apply orb_true_iff in H as [H|H]); bool_arith;
    repeat split; try reflexivity;
    rewrite ?orb_false_iff; repeat split; apply N.eqb_neq; lia.
Qed.

Lemma bare_key_spec k :
  bare_key k = true ->
  exists c k', k = c :: k' /\ BARE_KEY_CHARS c = true /\ forallb BARE_KEY_CHARS k = true.
Proof.
  unfold bare_key. rewrite andb_true_iff, negb_true_iff. intros [Hne Hall].
  destruct k as [|c k']; [discriminate|].
  exists c, k'. repeat split; auto. simpl in Hall. apply andb_true_iff in Hall as [-> _].
  reflexivity.
Qed.

Lemma skip_ws_bare k r :
  bare_key k = true -> skip_chars TOML_WS (k ++ r) = k ++ r.
Proof.
  intros H. apply bare_key_spec in H as (c & k' & -> & Hc & _).
  apply bare_char_spec in Hc as (Hw & _). cbn [app skip_chars]. rewrite Hw. reflexivity.
Qed.

Lemma parse_key_part_bare fuel k c r :
  bare_key k = true -> BARE_KEY_CHARS c = false ->
  parse_key_part fuel (k ++ c :: r) = Got (c :: r, k).
Proof.
  intros Hk Hc. destruct (bare_key_spec k Hk) as (c0 & k' & E & Hc0 & Hall).
  unfold parse_key_part. rewrite E at 1. cbn [app]. rewrite Hc0.
  rewrite skip_chars_app, span_chars_app by exact Hall.
  cbn [skip_chars span_chars]. rewrite Hc, app_nil_r. reflexivity.
Qed.

Lemma parse_key_loop_stop fuel c r key :
  (c =? 46) = false -> (0 < fuel)%nat ->
  parse_key_loop fuel (c :: r) key = Got (c :: r, key).
Proof. intros Hc Hf. destruct fuel; [lia|]. cbn [parse_key_loop]. rewrite Hc. reflexivity. Qed.

(** The key of a key/value pair. *)
Lemma parse_key_simple fuel k r :
  bare_key k = true -> (0 < fuel)%nat ->
  parse_key fuel (k ++ u " = " ++ r) = Got (61 :: 32 :: r, [k]).
Proof.
  intros Hk Hf. unfold parse_key.
  change (u " = " ++ r) with (32 :: 61 :: 32 :: r).
  rewrite parse_key_part_bare by (auto; reflexivity). cbn [pbind].
  change (skip_chars TOML_WS (32 :: 61 :: 32 :: r)) with (61 :: 32 :: r).
  apply parse_key_loop_stop; [reflexivity|exact Hf].
Qed.

(** The key of the table of an engine. *)
Lemma parse_key_engine fuel id r :
  bare_key id = true -> (1 < fuel)%nat ->
  parse_key fuel (u "engines." ++ id ++ 93 :: r) = Got (93 :: r, [u "engines"; id]).
Proof.
  intros Hk Hf. unfold parse_key.
  change (u "engines." ++ id ++ 93 :: r) with (u "engines" ++ 46 :: id ++ 93 :: r).
  rewrite parse_key_part_bare by reflexivity. cbn [pbind].
  change (skip_chars TOML_WS (46 :: id ++ 93 :: r)) with (46 :: id ++ 93 :: r).
  destruct fuel as [|fuel]; [lia|]. cbn [parse_key_loop].
  change (46 =? 46) with true. cbn match.
  rewrite skip_ws_bare by exact Hk.
  rewrite parse_key_part_bare by (auto; reflexivity). cbn [pbind].
  change (skip_chars TOML_WS (93 :: r)) with (93 :: r).
  apply parse_key_loop_stop; [reflexivity|lia].
Qed.

Lemma parse_key_value_pair_simple fuel k vt r v :
  bare_key k = true -> skip_chars TOML_WS vt = vt ->
  parse_value fuel vt = Got (r, v) ->
  parse_key_value_pair fuel (k ++ u " = " ++ vt) = Got (r, [k], v).
Proof.
  intros Hk Hws Hv. unfold parse_key_value_pair, parse_key_value_pair_with.
  assert (Hf : (0 < fuel)%nat) by (destruct fuel; [discriminate Hv|lia]).
  rewrite parse_key_simple by assumption. cbn [pbind].
  change (61 =? 61) with true. cbn match.
  change (skip_chars TOML_WS (32 :: vt)) with (skip_chars TOML_WS vt).
  rewrite Hws, Hv. reflexivity.
Qed.

(** ** Statements *)

Lemma key_value_rule_simple fuel k vt r v out header nest :
  bare_key k = true -> skip_chars TOML_WS vt = vt ->
  parse_value fuel vt = Got (r, v) ->
  flags_is (flags out) header FROZEN = false ->
  get_or_create_nest header true (data out) = Got nest ->
  dict_mem k nest = false ->
  key_value_rule fuel (k ++ u " = " ++ vt) out header =
  Got (r, MkOutput (put_nest header (dict_set k v nest) (data out))
            (if is_dict_or_list v
             then flags_set (flags out) (header ++ [k]) FROZEN true
             else flags out)).
Proof.
  intros Hk Hws Hv Hfl Hnest Hmem. unfold key_value_rule.
  rewrite (parse_key_value_pair_simple _ _ _ _ _ Hk Hws Hv). cbn [pbind].
  change (relative_path_cont_keys header [k]) with (@nil Key).
  change (key_parent [k]) with (@nil str). change (key_stem [k]) with k.
  cbn [check_cont_keys pbind]. rewrite app_nil_r, Hfl, Hnest.
  cbn [except_KeyError pbind]. rewrite Hmem. reflexivity.
Qed.

(** One round of [loads_loop] over a key/value line. *)
Lemma loads_loop_key_value fuel k vt tail v out header nest :
  bare_key k = true -> skip_chars TOML_WS vt = vt ->
  parse_value fuel vt = Got (LF :: tail, v) ->
  flags_is (flags out) header FROZEN = false ->
  get_or_create_nest header true (data out) = Got nest ->
  dict_mem k nest = false ->
  loads_loop (S fuel) (k ++ u " = " ++ vt) out header =
  loads_loop fuel tail
    (MkOutput (put_nest header (dict_set k v nest) (data out))
       (if is_dict_or_list v
        then flags_set (flags out) (header ++ [k]) FROZEN true
        else flags out))
    header.
Proof.
  intros Hk Hws Hv Hfl Hnest Hmem. cbn [loads_loop].
  rewrite skip_ws_bare by exact Hk.
  rewrite (key_value_rule_simple _ _ _ _ _ _ _ _ Hk Hws Hv Hfl Hnest Hmem).
  destruct (bare_key_spec k Hk) as (c & k' & -> & Hc & _).
  apply bare_char_spec in Hc as (_ & Hlf & Hki & _).
  cbn [app]. rewrite Hlf, Hki. cbn [pbind].
  change (skip_chars TOML_WS (LF :: tail)) with (LF :: tail).
  change (skip_comment (LF :: tail)) with (Got (LF :: tail)). cbn [pbind].
  change (negb (LF =? LF)) with false. reflexivity.
Qed.

Lemma str_eqb_refl s : str_eqb s s = true.
Proof. unfold str_eqb. apply bool_decide_eq_true. reflexivity. Qed.

(** One round of [loads_loop] over the header of the table. *)
Lemma loads_loop_header fuel id tail :
  bare_key id = true -> (1 < fuel)%nat ->
  loads_loop (S fuel) (u "[engines." ++ id ++ u "]" ++ LF :: tail)
    (MkOutput [] Flags_new) [] =
  loads_loop fuel tail (MkOutput (engine_table id []) (engine_flags id []))
    [u "engines"; id].
Proof.
  intros Hk Hf.
  change (u "[engines." ++ id ++ u "]" ++ LF :: tail)
    with (91 :: u "engines." ++ id ++ 93 :: LF :: tail).
  cbn [loads_loop].
  change (skip_chars TOML_WS (91 :: u "engines." ++ id ++ 93 :: LF :: tail))
    with (91 :: u "engines." ++ id ++ 93 :: LF :: tail).
  cbn match. change (91 =? LF) with false. change (KEY_INITIAL_CHARS 91) with false.
  change (91 =? 91) with true. cbn match.
  change (head (u "engines." ++ id ++ 93 :: LF :: tail)) with (Some 101).
  change (bool_decide (Some 101 = Some 91)) with false. cbn match.
  unfold create_dict_rule.
  change (drop 1 (91 :: u "engines." ++ id ++ 93 :: LF :: tail))
    with (u "engines." ++ id ++ 93 :: LF :: tail).
  change (skip_chars TOML_WS (u "engines." ++ id ++ 93 :: LF :: tail))
    with (u "engines." ++ id ++ 93 :: LF :: tail).
  rewrite parse_key_engine by assumption. cbn [pbind flags data].
  change (finalize_pending Flags_new) with Flags_new.
  change (flags_is Flags_new [u "engines"; id] EXPLICIT_NEST) with false.
  change (flags_is Flags_new [u "engines"; id] FROZEN) with false.
  cbn [orb]. cbn match.
  change (get_or_create_nest [u "engines"; id] true []) with (@Got Dict []).
  cbn [except_KeyError pbind].
  change (startswith [93] (93 :: LF :: tail)) with true. cbn [negb]. cbn match.
  change (drop 1 (93 :: LF :: tail)) with (LF :: tail).
  change (skip_chars TOML_WS (LF :: tail)) with (LF :: tail).
  change (skip_comment (LF :: tail)) with (Got (LF :: tail)). cbn [pbind].
  change (negb (LF =? LF)) with false. cbn match.
  reflexivity.
Qed.

(** The table of the engine in the parser's state. *)
Lemma engine_flags_not_frozen id frozen :
  flags_is (engine_flags id frozen) [u "engines"; id] FROZEN = false.
Proof.
  unfold flags_is, engine_flags.
  repeat (progress (cbn [_flags flags_is_in dict_get set_mem existsb];
                    rewrite ?str_eqb_refl)).
  reflexivity.
Qed.

Lemma engine_table_nest id fields :
  get_or_create_nest [u "engines"; id] true (engine_table id fields) = Got fields.
Proof.
  unfold engine_table.
  repeat (progress (cbn [get_or_create_nest dict_get pbind]; rewrite ?str_eqb_refl)).
  reflexivity.
Qed.

Lemma engine_table_put id fields fields' :
  put_nest [u "engines"; id] fields' (engine_table id fields) = engine_table id fields'.
Proof.
  unfold engine_table.
  repeat (progress (cbn [put_nest dict_get dict_set]; rewrite ?str_eqb_refl)).
  reflexivity.
Qed.

Lemma dict_set_fresh {V} k (v : V) d :
  dict_mem k d = false -> dict_set k v d = d ++ [(k, v)].
Proof.
  unfold dict_mem. induction d as [|[k' v'] d IH]; [reflexivity|].
  cbn [dict_get dict_set app]. destruct (str_eqb k k'); [discriminate|].
  intros H. f_equal. auto.
Qed.

Lemma engine_flags_freeze id frozen k :
  dict_mem k frozen = false ->
  flags_set (engine_flags id frozen) ([u "engines"; id] ++ [k]) FROZEN true =
  engine_flags id (frozen ++ [(k, FlagNode [] [FROZEN] [])]).
Proof.
  intros Hk. unfold flags_set, engine_flags. cbn [_flags _pending_flags app].
  f_equal.
  repeat (progress (cbn [flags_set_in dict_get dict_set]; rewrite ?str_eqb_refl)).
  rewrite dict_set_fresh by exact Hk.
  unfold dict_mem in Hk. destruct (dict_get k frozen); [discriminate|]. reflexivity.
Qed.

Lemma parse_value_bool fuel (b : bool) r :
  (0 < fuel)%nat ->
  parse_value fuel ((if b then u "true" else u "false") ++ r) = Got (r, VBool b).
Proof. intros Hf. destruct fuel; [lia|]. destruct b; reflexivity. Qed.

Lemma loads_loop_end fuel out header :
  (0 < fuel)%nat -> loads_loop fuel [] out header = Got (data out).
Proof. intros Hf. destruct fuel; [lia|]. reflexivity. Qed.

Ltac len_tac :=
  unfold string_array, quoted in *;
  repeat first [rewrite length_app in * | progress simpl List.length in *]; lia.

(** One key/value line of the table, with its value [v]. *)
Ltac key_value_step v :=
  lazymatch goal with
  | |- loads_loop (S ?fuel) (?k ++ u " = " ++ ?x ++ LF :: ?tail)
         (MkOutput (engine_table ?id ?fields) (engine_flags ?id ?frozen)) _ = _ =>
      rewrite (loads_loop_key_value fuel k (x ++ LF :: tail) tail v
                 (MkOutput (engine_table id fields) (engine_flags id frozen))
                 [u "engines"; id] fields);
      [ cbn [data flags is_dict_or_list string_list]; rewrite engine_table_put
      | vm_compute; reflexivity
      | reflexivity
      | idtac
      | apply engine_flags_not_frozen
      | apply engine_table_nest
      | vm_compute; reflexivity ]
  end.

Theorem loads_loop_engine_text fuel e :
  well_formed_engine e = true ->
  (len (engine_text e) <= fuel)%nat ->
  loads_loop fuel (engine_text e) (MkOutput [] Flags_new) [] = Got (engine_document e).
Proof.
  destruct e as [id ns rn kd ea um].
  unfold well_formed_engine, engine_text, engine_document, engine_fields.
  cbn [engine_id names run kind extra_args use_merge_arg].
  rewrite !andb_true_iff. intros [[[[Hid Hns] Hrn] Hkd] Hea] Hf.
  assert (Hf' : (len id + len (string_array ns) + len rn + len kd
                 + match ea with Some l => len (string_array l) | None => 0 end
                 + 8 <= fuel)%nat).
  { destruct ea, um; len_tac. }
  clear Hf.
  destruct fuel as [|fuel]; [lia|]. cbn [app].
  rewrite loads_loop_header by (auto; lia).
  (* names *)
  destruct fuel as [|fuel]; [lia|].
  change (u "names = ") with (u "names" ++ u " = "). rewrite <- !app_assoc.
  key_value_step (string_list ns);
    [|apply parse_value_string_array; [exact Hns|lia]].
  rewrite engine_flags_freeze by reflexivity.
  change (dict_set (u "names") (string_list ns) []) with [(u "names", string_list ns)].
  cbn [app].
  (* run *)
  destruct fuel as [|fuel]; [lia|].
  change (u "run = ") with (u "run" ++ u " = "). rewrite <- !app_assoc.
  key_value_step (VStr rn);
    [|apply parse_value_quoted; [exact Hrn|reflexivity|lia]].
  rewrite dict_set_fresh by (vm_compute; reflexivity). cbn [app].
  (* kind *)
  destruct fuel as [|fuel]; [lia|].
  change (u "kind = ") with (u "kind" ++ u " = "). rewrite <- !app_assoc.
  key_value_step (VStr kd);
    [|apply parse_value_quoted; [exact Hkd|reflexivity|lia]].
  rewrite dict_set_fresh by (vm_compute; reflexivity). cbn [app].
  (* extra_args *)
  destruct ea as [l|].
  - destruct fuel as [|fuel]; [lia|].
    change (u "extra_args = ") with (u "extra_args" ++ u " = ").
    rewrite <- !app_assoc. cbn [app].
    key_value_step (string_list l);
      [|apply parse_value_string_array; [exact Hea|lia]].
    rewrite engine_flags_freeze by (vm_compute; reflexivity).
    rewrite dict_set_fresh by (vm_compute; reflexivity). cbn [app].
    (* use_merge_arg *)
    destruct um as [b|].
    + destruct fuel as [|fuel]; [lia|].
      change (u "use_merge_arg = ") with (u "use_merge_arg" ++ u " = ").
      rewrite <- !app_assoc. cbn [app].
      destruct b.
      * key_value_step (VBool true); [|apply (parse_value_bool _ true); lia].
        rewrite dict_set_fresh by (vm_compute; reflexivity). cbn [app].
        rewrite loads_loop_end by lia. reflexivity.
      * key_value_step (VBool false); [|apply (parse_value_bool _ false); lia].
        rewrite dict_set_fresh by (vm_compute; reflexivity). cbn [app].
        rewrite loads_loop_end by lia. reflexivity.
    + rewrite loads_loop_end by lia. reflexivity.
  - cbn [app]. destruct um as [b|].
    + destruct fuel as [|fuel]; [lia|].
      change (u "use_merge_arg = ") with (u "use_merge_arg" ++ u " = ").
      rewrite <- !app_assoc. cbn [app].
      destruct b.
      * key_value_step (VBool true); [|apply (parse_value_bool _ true); lia].
        rewrite dict_set_fresh by (vm_compute; reflexivity). cbn [app].
        rewrite loads_loop_end by lia. reflexivity.
      * key_value_step (VBool false); [|apply (parse_value_bool _ false); lia].
        rewrite dict_set_fresh by (vm_compute; reflexivity). cbn [app].
        rewrite loads_loop_end by lia. reflexivity.
    + rewrite loads_loop_end by lia. reflexivity.
Qed.

(** ** From the text to [tomllib.load] *)

Lemma replace_crlf_no_cr s :
  forallb (fun c => negb (c =? CR)) s = true -> replace_crlf s = s.
Proof.
  induction s as [|c s IH]; [reflexivity|].
  cbn [forallb]. rewrite andb_true_iff, negb_true_iff. intros [Hc Hs].
  cbn [replace_crlf]. destruct s as [|d s]; [reflexivity|].
  rewrite Hc. cbn [andb]. rewrite (IH Hs). reflexivity.
Qed.

Lemma forallb_impl {A} (P Q : A -> bool) l :
  (forall x, P x = true -> Q x = true) -> forallb P l = true -> forallb Q l = true.
Proof.
  intros H. induction l as [|x l IH]; [reflexivity|]. cbn [forallb].
  rewrite !andb_true_iff. intros [Hx Hl]. auto.
Qed.

Section EngineTextChars.
Variable P : char -> bool.
Hypothesis P_text : forall c, text_char c = true -> P c = true.
Hypothesis P_plain : forall c, plain_char c = true -> P c = true.

Lemma P_literal s : forallb text_char (u s) = true -> forallb P (u s) = true.
Proof. apply forallb_impl, P_text. Qed.

Lemma P_bare k : bare_key k = true -> forallb P k = true.
Proof.
  unfold bare_key. rewrite andb_true_iff. intros [_ H]. revert H.
  apply forallb_impl. intros c Hc. apply P_text.
  unfold BARE_KEY_CHARS, is_ascii_letter, is_digit in Hc.
  unfold text_char, in_range in *. apply orb_true_iff. left.
  repeat (apply orb_true_iff in Hc as [Hc|Hc]); bool_arith;
    apply andb_true_iff; split; apply N.leb_le; lia.
Qed.

Lemma P_quoted s : plain s = true -> forallb P (quoted s) = true.
Proof.
  intros H. unfold quoted. cbn [forallb]. rewrite forallb_app. cbn [forallb].
  rewrite (P_text QUOTE) by reflexivity. rewrite andb_true_r. cbn [andb].
  revert H. apply forallb_impl, P_plain.
Qed.

Lemma P_array_items l : forallb plain l = true -> forallb P (array_items l) = true.
Proof.
  induction l as [|s l IH]; [reflexivity|].
  cbn [forallb]. rewrite andb_true_iff. intros [Hs Hl].
  destruct l as [|s' l]; [apply P_quoted, Hs|].
  change (array_items (s :: s' :: l)) with (quoted s ++ u ", " ++ array_items (s' :: l)).
  rewrite !forallb_app, P_quoted, IH by assumption.
  rewrite P_literal by reflexivity. reflexivity.
Qed.

Lemma P_string_array l : forallb plain l = true -> forallb P (string_array l) = true.
Proof.
  intros H. unfold string_array. rewrite !forallb_app, P_array_items by assumption.
  rewrite !P_literal by reflexivity. reflexivity.
Qed.

Lemma P_engine_text e : well_formed_engine e = true -> forallb P (engine_text e) = true.
Proof.
  destruct e as [id ns rn kd ea um].
  unfold well_formed_engine, engine_text.
  cbn [engine_id names run kind extra_args use_merge_arg].
  rewrite !andb_true_iff. intros [[[[Hid Hns] Hrn] Hkd] Hea].
  assert (HLF : forallb P [LF] = true).
  { cbn [forallb]. rewrite (P_text LF) by reflexivity. reflexivity. }
  destruct ea as [l|], um as [[|]|].
  all: repeat (rewrite forallb_app; apply andb_true_iff; split).
  all: first [ apply P_literal; reflexivity | apply P_bare; assumption
             | apply P_string_array; assumption | apply P_quoted; assumption
             | exact HLF | reflexivity ].
Qed.
End EngineTextChars.

Lemma plain_char_no_cr c : plain_char c = true -> negb (c =? CR) = true.
Proof.
  intros H. apply plain_char_spec in H as (_ & _ & Hi & _).
  unfold ILLEGAL_BASIC_STR_CHARS, ASCII_CTRL, TAB in Hi. unfold CR.
  apply negb_true_iff, N.eqb_neq. intros ->. discriminate Hi.
Qed.

Lemma text_char_scalar c : text_char c = true -> is_unicode_scalar_value c = true.
Proof.
  unfold text_char, is_unicode_scalar_value, in_range, LF. intros H.
  apply orb_true_iff. left. apply andb_true_iff.
  apply orb_true_iff in H as [H|H]; bool_arith; split; apply N.leb_le; lia.
Qed.

Lemma text_char_no_cr c : text_char c = true -> negb (c =? CR) = true.
Proof.
  unfold text_char, in_range, LF, CR. intros H. apply negb_true_iff, N.eqb_neq.
  apply orb_true_iff in H as [H|H]; bool_arith; lia.
Qed.

(** [loads] on the text of an engine entry gives its document. *)
Theorem loads_engine_text e :
  well_formed_engine e = true -> loads (engine_text e) = Return (engine_document e).
Proof.
  intros H. unfold loads, loads_gas.
  rewrite replace_crlf_no_cr
    by (apply P_engine_text; auto using text_char_no_cr, plain_char_no_cr).
  rewrite loads_loop_engine_text; [reflexivity|exact H|unfold loads_fuel; lia].
Qed.

(** [tomllib.load] on the encoded text gives the document as well. *)
Theorem tomllib_load_engine_text e :
  well_formed_engine e = true ->
  tomllib_load (utf8_encode (engine_text e)) = Return (engine_document e).
Proof.
  intros H. unfold tomllib_load. rewrite utf8_decode_encode.
  - apply loads_engine_text, H.
  - apply P_engine_text; [exact text_char_scalar| |exact H].
    intros c Hc. apply plain_char_spec in Hc. tauto.
Qed.

(** * config.py and __main__.py *)

Lemma tomllib_load_not_IOError b e :
  tomllib_load b = Raise e -> is_IOError e = false.
Proof.
  unfold tomllib_load. destruct (utf8_decode _); [|intros [= <-]; reflexivity].
  intros H. apply loads_raises in H as [[msg ->]|[->| ->]]; reflexivity.
Qed.

Lemma load_unfold dirs w :
  load dirs w =
  (match read_file (fs w) (config_toml dirs) with
   | Return b => tomllib_load b
   | Raise e => Raise e
   end,
   World (fs w) (stdout w) (calls w ++ [CallLoad])).
Proof.
  unfold load, bind, enter, open_rb, ret, raise. cbn [fs stdout calls].
  destruct (read_file _ _); [|reflexivity].
  destruct (tomllib_load _); reflexivity.
Qed.

Lemma file_write_spec p s w :
  exists w', file_write p s w = (Return tt, w') /\ io_same w w'.
Proof.
  unfold file_write, bind, get_fs, set_fs, ret.
  destruct (fs w !! p) as [[pm|pm c]|]; eexists; split; try reflexivity; split; reflexivity.
Qed.

(** Whatever its outcome, [init] prints nothing and is one call. *)
Lemma init_io dirs w r w' :
  init dirs w = (r, w') ->
  stdout w' = stdout w /\ calls w' = calls w ++ [CallInit].
Proof.
  unfold init, Path_mkdir. unfold bind at 1. unfold enter at 1.
  set (w0 := World (fs w) (stdout w) (calls w ++ [CallInit])).
  unfold bind at 1.
  destruct (mkdir_parents _ _ w0) as [r1 w1] eqn:E1.
  apply mkdir_parents_spec in E1 as ([Ho1 Hc1] & _ & _).
  destruct r1; [|intros [= <- <-]; subst w0; simpl in *; split; congruence].
  unfold bind at 1.
  destruct (open_w _ w1) as [r2 w2] eqn:E2.
  apply open_w_spec in E2 as ([Ho2 Hc2] & _).
  destruct r2; [|intros [= <- <-]; subst w0; simpl in *; split; congruence].
  destruct (file_write_spec (config_toml dirs) EXAMPLE_CONFIG w2) as (w3 & -> & Ho3 & Hc3).
  intros [= <- <-]. subst w0; simpl in *; split; congruence.
Qed.

Lemma main_on_parse_error dirs w b e :
  read_file (fs w) (config_toml dirs) = Return b ->
  tomllib_load b = Raise e ->
  main dirs w = (Raise e, World (fs w) (stdout w) (calls w ++ [CallLoad])).
Proof.
  intros Hr E. unfold main, try_except, bind.
  rewrite load_unfold, Hr, E, (tomllib_load_not_IOError _ _ E). reflexivity.
Qed.

Lemma not_well_formed b :
  well_formed b = false -> exists e, tomllib_load b = Raise e.
Proof. unfold well_formed. destruct (tomllib_load b); [discriminate|eauto]. Qed.

(** C2. When the configuration file can be read and its content is not
    well-formed, the entry point ends with the exception of the parser:
    it is not of the I/O class, no handler catches it, [init] is not
    called and the exit status is not zero. *)
Theorem main_parse_error_unhandled dirs w b :
  read_file (fs w) (config_toml dirs) = Return b ->
  well_formed b = false ->
  exists e,
    tomllib_load b = Raise e /\ is_IOError e = false /\
    main dirs w = (Raise e, World (fs w) (stdout w) (calls w ++ [CallLoad])) /\
    (exit_status dirs w).1 = 1.
Proof.
  intros Hr Hwf. destruct (not_well_formed b Hwf) as [e E].
  exists e. pose proof (main_on_parse_error dirs w b e Hr E) as Hm.
  split; [exact E|]. split; [exact (tomllib_load_not_IOError _ _ E)|].
  split; [exact Hm|]. unfold exit_status. rewrite Hm. reflexivity.
Qed.

(** C7. [load] changes no file and no directory, whether it returns or
    raises; it prints nothing either. *)
Theorem load_changes_nothing dirs w :
  fs (load dirs w).2 = fs w /\ stdout (load dirs w).2 = stdout w.
Proof. rewrite load_unfold. split; reflexivity. Qed.

(** C9. When the configuration file can be read and its content is not
    well-formed, a run of the entry point leaves every file as it was,
    the configuration file with its bytes, and does not call [init]. *)
Theorem main_parse_error_keeps_file dirs w b :
  read_file (fs w) (config_toml dirs) = Return b ->
  well_formed b = false ->
  fs (main dirs w).2 = fs w /\
  file_content (fs (main dirs w).2) (config_toml dirs) = Some b /\
  calls (main dirs w).2 = calls w ++ [CallLoad].
Proof.
  intros Hr Hwf.
  destruct (not_well_formed b Hwf) as [e E].
  rewrite (main_on_parse_error dirs w b e Hr E).
  cbn [snd fs calls]. repeat split.
  unfold read_file in Hr. unfold file_content.
  destruct (resolve _ _); [discriminate|].
  destruct (fs w !! _) as [[pm|pm c]|]; try discriminate.
  all: destruct (can_read pm); congruence.
Qed.

(** C3. Where the directory can be made and the file opened for
    writing, [init] returns; afterwards the configuration directory
    and every directory above it exist, [config.toml] holds the
    template and nothing of what it held before, and no other entry has
    changed but for the directories that were missing.  An error of the
    directory creation or of the opening is the outcome of [init]. *)
Theorem init_creates_directory_and_template dirs w :
  let w0 := World (fs w) (stdout w) (calls w ++ [CallInit]) in
  let ucp := user_config_path dirs in
  (forall w1 w2,
     Path_mkdir ucp w0 = (Return tt, w1) ->
     open_w (config_toml dirs) w1 = (Return tt, w2) ->
     exists w3,
       init dirs w = (Return tt, w3) /\
       (forall k, (k <= List.length ucp)%nat ->
                  exists pm, fs w3 !! take k ucp = Some (Dir pm)) /\
       file_content (fs w3) (config_toml dirs) = Some (utf8_encode EXAMPLE_CONFIG) /\
       (forall q, q <> config_toml dirs ->
          fs w3 !! q = fs w !! q \/
          (fs w !! q = None /\ fs w3 !! q = Some new_dir /\
           exists k, (k <= List.length ucp)%nat /\ q = take k ucp))) /\
  (forall e w1, Path_mkdir ucp w0 = (Raise e, w1) -> init dirs w = (Raise e, w1)) /\
  (forall e w1 w2,
     Path_mkdir ucp w0 = (Return tt, w1) ->
     open_w (config_toml dirs) w1 = (Raise e, w2) ->
     init dirs w = (Raise e, w2)).
Proof.
  intros w0 ucp. repeat split.
  - intros w1 w2 H1 H2.
    destruct (file_write_spec (config_toml dirs) EXAMPLE_CONFIG w2) as (w3 & H3 & _).
    assert (Hi : init dirs w = (Return tt, w3)).
    { unfold init. unfold bind at 1. unfold enter at 1. fold w0.
      unfold bind at 1. fold ucp. rewrite H1.
      unfold bind at 1. rewrite H2. exact H3. }
    exists w3. split; [exact Hi|].
    apply init_success in Hi as (_ & _ & Hres & (pm & _ & Hpm & _) & Hframe).
    split; [|split; [unfold file_content; rewrite Hpm; done|exact Hframe]].
    intros k Hk. rewrite resolve_None in Hres.
    destruct (Hres k) as [pm' [Hpm' _]]; [rewrite length_config_toml; fold ucp; lia|].
    rewrite take_config_toml in Hpm' by (fold ucp; lia). eauto.
  - intros e w1 H1. unfold init. unfold bind at 1. unfold enter at 1. fold w0.
    unfold bind at 1. fold ucp. rewrite H1. reflexivity.
  - intros e w1 w2 H1 H2. unfold init. unfold bind at 1. unfold enter at 1. fold w0.
    unfold bind at 1. fold ucp. rewrite H1. unfold bind at 1. rewrite H2. reflexivity.
Qed.

(** A second [init] finds the directory and a file it may write. *)
Lemma init_again dirs w1 pm :
  resolve (fs w1) (config_toml dirs) = None ->
  can_write pm = true ->
  fs w1 !! config_toml dirs = Some (File pm (utf8_encode EXAMPLE_CONFIG)) ->
  init dirs w1 =
  (Return tt, World (fs w1) (stdout w1) (calls w1 ++ [CallInit])).
Proof.
  intros Hres Hw Hpm. unfold init, Path_mkdir.
  unfold bind at 1. unfold enter at 1.
  set (w0 := World (fs w1) (stdout w1) (calls w1 ++ [CallInit])).
  unfold bind at 1.
  rewrite mkdir_parents_existing
    by (rewrite firstn_all; apply resolve_config_toml; exact Hres).
  unfold bind at 1. unfold open_w, bind, get_fs, set_fs. cbn [fs w0].
  rewrite Hres, Hpm, Hw.
  unfold file_write, bind, get_fs, set_fs. cbn [fs stdout calls].
  rewrite lookup_insert_eq, insert_insert_eq. cbn [String.append].
  rewrite insert_id by exact Hpm. reflexivity.
Qed.

(** C4. After [init] the configuration file holds the bytes of the
    template, whatever it held before; a second [init] returns as well
    and leaves every file as the first one left it. *)
Theorem init_twice_same_content dirs w w1 :
  init dirs w = (Return tt, w1) ->
  file_content (fs w1) (config_toml dirs) = Some (utf8_encode EXAMPLE_CONFIG) /\
  exists w2,
    init dirs w1 = (Return tt, w2) /\ fs w2 = fs w1 /\
    file_content (fs w2) (config_toml dirs) = Some (utf8_encode EXAMPLE_CONFIG).
Proof.
  intros Hi. apply init_success in Hi as (_ & _ & Hres & (pm & Hw & Hpm & _) & _).
  assert (Hc : file_content (fs w1) (config_toml dirs) = Some (utf8_encode EXAMPLE_CONFIG)).
  { unfold file_content. rewrite Hpm. reflexivity. }
  split; [exact Hc|].
  eexists. split; [apply (init_again dirs w1 pm); assumption|]. split; [reflexivity|exact Hc].
Qed.

Lemma load_result dirs w b :
  read_file (fs w) (config_toml dirs) = Return b ->
  (load dirs w).1 = tomllib_load b.
Proof. intros H. rewrite load_unfold, H. reflexivity. Qed.

Lemma template_parses : tomllib_load (utf8_encode EXAMPLE_CONFIG) = Return EXAMPLE_DOCUMENT.
Proof. vm_compute. reflexivity. Qed.

Lemma engine_of_document e :
  engine_of (engine_document e) (engine_id e) = Some (engine_fields e).
Proof.
  unfold engine_of, engine_document. cbn [dict_get].
  rewrite !str_eqb_refl. cbn [dict_get]. rewrite str_eqb_refl. reflexivity.
Qed.

(** C5. A configuration file that holds the text of one engine entry
    (a bare identifier, its strings free of quotes, backslashes and
    control characters) loads as the mapping with the fields as written,
    each with its value, in the order of the text; after [init], what
    [load] returns is the document of the template, whose entry
    [engines.example] has the fields of the template, and [load] does
    return it when the file may be read (as every file that [init]
    created may). *)
Theorem load_round_trip dirs :
  (forall w e,
     well_formed_engine e = true ->
     read_file (fs w) (config_toml dirs) = Return (utf8_encode (engine_text e)) ->
     (load dirs w).1 = Return (engine_document e) /\
     engine_of (engine_document e) (engine_id e) = Some (engine_fields e) /\
     dict_get (u "names") (engine_fields e) = Some (string_list (names e)) /\
     dict_get (u "run") (engine_fields e) = Some (VStr (run e)) /\
     dict_get (u "kind") (engine_fields e) = Some (VStr (kind e)) /\
     dict_get (u "extra_args") (engine_fields e) = string_list <$> extra_args e /\
     dict_get (u "use_merge_arg") (engine_fields e) = VBool <$> use_merge_arg e) /\
  (forall w w1,
     init dirs w = (Return tt, w1) ->
     (forall d, (load dirs w1).1 = Return d -> d = EXAMPLE_DOCUMENT) /\
     ((forall pm c, fs w !! config_toml dirs = Some (File pm c) -> can_read pm = true) ->
      (load dirs w1).1 = Return EXAMPLE_DOCUMENT)) /\
  engine_of EXAMPLE_DOCUMENT (u "example") =
    Some [(u "names", VList [VStr (u "example"); VStr (u "ex")]);
          (u "run", VStr (u "/path/to/engine.exe"));
          (u "kind", VStr (u "Vanilla"));
          (u "extra_args", VList []);
          (u "use_merge_arg", VBool false)].
Proof.
  split; [|split].
  - intros w e He H. rewrite (load_result _ _ _ H).
    split; [apply tomllib_load_engine_text, He|].
    split; [apply engine_of_document|].
    unfold engine_fields. destruct (extra_args e), (use_merge_arg e); repeat split.
  - intros w w1 Hi.
    apply init_success in Hi as (_ & _ & Hres & (pm & Hw & Hpm & Hold) & _).
    split.
    + intros d. rewrite load_unfold. cbn [fst]. unfold read_file. rewrite Hres, Hpm.
      destruct (can_read pm); [|discriminate].
      rewrite template_parses. congruence.
    + intros Hread. rewrite load_unfold. cbn [fst]. unfold read_file. rewrite Hres, Hpm.
      assert (Hr : can_read pm = true).
      { destruct Hold as [[_ ->]|[c Hc]]; [reflexivity|eauto]. }
      rewrite Hr. apply template_parses.
  - reflexivity.
Qed.

(** C8, amended.  [load] applies no default: the text of an engine
    entry without the optional fields loads as the mapping of the
    fields it has, [names], [run] and [kind], without [extra_args] and
    without [use_merge_arg]. *)
Theorem load_applies_no_defaults dirs w e :
  well_formed_engine e = true ->
  extra_args e = None -> use_merge_arg e = None ->
  read_file (fs w) (config_toml dirs) = Return (utf8_encode (engine_text e)) ->
  exists doc fields,
    (load dirs w).1 = Return doc /\
    engine_of doc (engine_id e) = Some fields /\
    fields = [(u "names", string_list (names e));
              (u "run", VStr (run e));
              (u "kind", VStr (kind e))] /\
    dict_get (u "extra_args") fields = None /\
    dict_get (u "use_merge_arg") fields = None.
Proof.
  intros He Hea Hum H. exists (engine_document e), (engine_fields e).
  rewrite (load_result _ _ _ H).
  split; [apply tomllib_load_engine_text, He|].
  split; [apply engine_of_document|].
  unfold engine_fields. rewrite Hea, Hum. repeat split.
Qed.

(** C8 as stated fails: the entry of [ENGINE_MIN] leaves out the
    optional fields, and the loaded engine definition has no
    [extra_args] equal to the empty sequence. *)
Lemma load_applies_no_defaults_counterexample :
  exists doc fields,
    (load dirs0 minimal_world).1 = Return doc /\
    engine_of doc (u "ex") = Some fields /\
    ~ (dict_get (u "extra_args") fields = Some (VList []) /\
       dict_get (u "use_merge_arg") fields = Some (VBool false)).
Proof.
  eexists _, _. split; [vm_compute; reflexivity|]. split; [vm_compute; reflexivity|].
  intros [H _]. vm_compute in H. discriminate H.
Qed.

(** C10. [load] returns what the parser returns and checks nothing
    else: it returns the mapping of every file that can be read and is
    well-formed; the empty file gives the empty mapping, and a document
    without [engines], or with an engine entry without [names], [run]
    and [kind], loads as it is. *)
Theorem load_imposes_no_schema dirs w b :
  read_file (fs w) (config_toml dirs) = Return b ->
  (load dirs w).1 = tomllib_load b /\
  (forall d, tomllib_load b = Return d -> (load dirs w).1 = Return d) /\
  (b = ""%string -> (load dirs w).1 = Return []) /\
  (b = utf8_encode (LINE "title = 'no engines'") ->
   (load dirs w).1 = Return [(u "title", VStr (u "no engines"))]) /\
  (b = utf8_encode (LINE "[engines.ex]") ->
   (load dirs w).1 = Return [(u "engines", VDict [(u "ex", VDict [])])]) /\
  (b = utf8_encode (LINE "[engines.ex]" ++ LINE "extra_args = []") ->
   (load dirs w).1 =
   Return [(u "engines", VDict [(u "ex", VDict [(u "extra_args", VList [])])])]).
Proof.
  intros H. rewrite (load_result _ _ _ H).
  split; [reflexivity|]. split; [auto|].
  repeat split; intros ->; vm_compute; reflexivity.
Qed.

(** * The theorems at the sample states *)

(** The unterminated table of [corrupt_world]. *)
Lemma main_parse_error_unhandled_witness :
  read_file (fs corrupt_world) (config_toml dirs0) = Return (utf8_encode CORRUPT_TEXT) /\
  well_formed (utf8_encode CORRUPT_TEXT) = false /\
  exists e,
    tomllib_load (utf8_encode CORRUPT_TEXT) = Raise e /\ is_IOError e = false /\
    main dirs0 corrupt_world =
      (Raise e, World (fs corrupt_world) (stdout corrupt_world)
                  (calls corrupt_world ++ [CallLoad])) /\
    (exit_status dirs0 corrupt_world).1 = 1.
Proof.
  assert (H1 : read_file (fs corrupt_world) (config_toml dirs0) =
               Return (utf8_encode CORRUPT_TEXT)) by (vm_compute; reflexivity).
  assert (H2 : well_formed (utf8_encode CORRUPT_TEXT) = false) by (vm_compute; reflexivity).
  split; [exact H1|]. split; [exact H2|].
  exact (main_parse_error_unhandled dirs0 corrupt_world _ H1 H2).
Defined.

(** A first run: the two missing directories are made. *)
Lemma init_creates_directory_and_template_witness :
  let w0 := World (fs fresh_world) [] [CallInit] in
  let w1 := (Path_mkdir (user_config_path dirs0) w0).2 in
  let w2 := (open_w (config_toml dirs0) w1).2 in
  Path_mkdir (user_config_path dirs0) w0 = (Return tt, w1) /\
  open_w (config_toml dirs0) w1 = (Return tt, w2) /\
  exists w3,
    init dirs0 fresh_world = (Return tt, w3) /\
    (forall k, (k <= List.length (user_config_path dirs0))%nat ->
               exists pm, fs w3 !! take k (user_config_path dirs0) = Some (Dir pm)) /\
    file_content (fs w3) (config_toml dirs0) = Some (utf8_encode EXAMPLE_CONFIG) /\
    (forall q, q <> config_toml dirs0 ->
       fs w3 !! q = fs fresh_world !! q \/
       (fs fresh_world !! q = None /\ fs w3 !! q = Some new_dir /\
        exists k, (k <= List.length (user_config_path dirs0))%nat /\
                  q = take k (user_config_path dirs0))).
Proof.
  intros w0 w1 w2.
  assert (H1 : Path_mkdir (user_config_path dirs0) w0 = (Return tt, w1))
    by (vm_compute; reflexivity).
  assert (H2 : open_w (config_toml dirs0) w1 = (Return tt, w2))
    by (vm_compute; reflexivity).
  split; [exact H1|]. split; [exact H2|].
  exact (proj1 (init_creates_directory_and_template dirs0 fresh_world) w1 w2 H1 H2).
Defined.

Lemma init_twice_same_content_witness :
  let w1 := (init dirs0 corrupt_world).2 in
  init dirs0 corrupt_world = (Return tt, w1) /\
  file_content (fs w1) (config_toml dirs0) = Some (utf8_encode EXAMPLE_CONFIG) /\
  exists w2,
    init dirs0 w1 = (Return tt, w2) /\ fs w2 = fs w1 /\
    file_content (fs w2) (config_toml dirs0) = Some (utf8_encode EXAMPLE_CONFIG).
Proof.
  intros w1.
  assert (H1 : init dirs0 corrupt_world = (Return tt, w1)) by (vm_compute; reflexivity).
  split; [exact H1|].
  exact (init_twice_same_content dirs0 corrupt_world w1 H1).
Defined.

Lemma load_round_trip_witness :
  (well_formed_engine ENGINE_EX = true /\
   read_file (fs engine_ex_world) (config_toml dirs0) =
     Return (utf8_encode (engine_text ENGINE_EX)) /\
   (load dirs0 engine_ex_world).1 = Return (engine_document ENGINE_EX)) /\
  (let w1 := (init dirs0 fresh_world).2 in
   init dirs0 fresh_world = (Return tt, w1) /\
   (load dirs0 w1).1 = Return EXAMPLE_DOCUMENT).
Proof.
  split.
  - assert (He : well_formed_engine ENGINE_EX = true) by (vm_compute; reflexivity).
    assert (H : read_file (fs engine_ex_world) (config_toml dirs0) =
                Return (utf8_encode (engine_text ENGINE_EX))) by (vm_compute; reflexivity).
    split; [exact He|]. split; [exact H|].
    exact (proj1 (proj1 (load_round_trip dirs0) engine_ex_world ENGINE_EX He H)).
  - intros w1.
    assert (H : init dirs0 fresh_world = (Return tt, w1)) by (vm_compute; reflexivity).
    split; [exact H|].
    refine (proj2 (proj1 (proj2 (load_round_trip dirs0)) fresh_world w1 H) _).
    intros pm c Hc. vm_compute in Hc. discriminate Hc.
Defined.

Lemma load_applies_no_defaults_witness :
  well_formed_engine ENGINE_MIN = true /\
  read_file (fs minimal_world) (config_toml dirs0) =
    Return (utf8_encode (engine_text ENGINE_MIN)) /\
  exists doc fields,
    (load dirs0 minimal_world).1 = Return doc /\
    engine_of doc (engine_id ENGINE_MIN) = Some fields /\
    fields = [(u "names", string_list (names ENGINE_MIN));
              (u "run", VStr (run ENGINE_MIN));
              (u "kind", VStr (kind ENGINE_MIN))] /\
    dict_get (u "extra_args") fields = None /\
    dict_get (u "use_merge_arg") fields = None.
Proof.
  assert (He : well_formed_engine ENGINE_MIN = true) by (vm_compute; reflexivity).
  assert (H : read_file (fs minimal_world) (config_toml dirs0) =
              Return (utf8_encode (engine_text ENGINE_MIN))) by (vm_compute; reflexivity).
  split; [exact He|]. split; [exact H|].
  exact (load_applies_no_defaults dirs0 minimal_world ENGINE_MIN He eq_refl eq_refl H).
Defined.

Lemma main_parse_error_keeps_file_witness :
  read_file (fs corrupt_world) (config_toml dirs0) = Return (utf8_encode CORRUPT_TEXT) /\
  well_formed (utf8_encode CORRUPT_TEXT) = false /\
  fs (main dirs0 corrupt_world).2 = fs corrupt_world /\
  file_content (fs (main dirs0 corrupt_world).2) (config_toml dirs0) =
    Some (utf8_encode CORRUPT_TEXT) /\
  calls (main dirs0 corrupt_world).2 = calls corrupt_world ++ [CallLoad].
Proof.
  assert (H1 : read_file (fs corrupt_world) (config_toml dirs0) =
               Return (utf8_encode CORRUPT_TEXT)) by (vm_compute; reflexivity).
  assert (H2 : well_formed (utf8_encode CORRUPT_TEXT) = false) by (vm_compute; reflexivity).
  split; [exact H1|]. split; [exact H2|].
  exact (main_parse_error_keeps_file dirs0 corrupt_world _ H1 H2).
Defined.

Lemma load_imposes_no_schema_witness :
  read_file (fs empty_world) (config_toml dirs0) = Return ""%string /\
  (load dirs0 empty_world).1 = Return [].
Proof.
  assert (H : read_file (fs empty_world) (config_toml dirs0) = Return ""%string)
    by (vm_compute; reflexivity).
  split; [exact H|].
  exact (proj1 (proj2 (proj2 (load_imposes_no_schema dirs0 empty_world _ H))) eq_refl).
Defined.

(** * More fuel, same result *)

Lemma gas_le_refl {A} (m : pres A) : gas_le m m.
Proof. right. reflexivity. Qed.

Lemma gas_le_bind {A B} (m m' : pres A) (k k' : A -> pres B) :
  gas_le m m' -> (forall a, gas_le (k a) (k' a)) ->
  gas_le (pbind m k) (pbind m' k').
Proof.
  intros [->| ->] H; [left; reflexivity|].
  destruct m'; simpl; [apply H|right; reflexivity|left; reflexivity].
Qed.

Lemma gas_le_got {A} (m m' : pres A) :
  gas_le m m' -> m <> Gas -> m' = m.
Proof. intros [->| ->] H; congruence. Qed.

Ltac gas_same :=
  repeat first
    [ apply gas_le_refl
    | apply gas_le_bind; [|intros; try match goal with a : (_ * _)%type |- _ => destruct a end]
    | match goal with
      | |- gas_le (match ?x with _ => _ end) (match ?x with _ => _ end) => destruct x
      | |- gas_le (if ?x then _ else _) (if ?x then _ else _) => destruct x
      end ].

Lemma skip_comments_and_array_ws_mono f f' rest :
  (f <= f')%nat ->
  gas_le (skip_comments_and_array_ws f rest) (skip_comments_and_array_ws f' rest).
Proof.
  revert f' rest. induction f as [|f IH]; intros f' rest Hf; [left; reflexivity|].
  destruct f' as [|f']; [lia|]. cbn [skip_comments_and_array_ws].
  gas_same. apply IH. lia.
Qed.

Lemma parse_basic_str_mono f f' rest multiline result :
  (f <= f')%nat ->
  gas_le (parse_basic_str f rest multiline result)
         (parse_basic_str f' rest multiline result).
Proof.
  revert f' rest result. induction f as [|f IH]; intros f' rest result Hf; [left; reflexivity|].
  destruct f' as [|f']; [lia|]. cbn [parse_basic_str].
  gas_same; apply IH; lia.
Qed.

Lemma parse_multiline_str_mono f f' rest literal :
  (f <= f')%nat ->
  gas_le (parse_multiline_str f rest literal) (parse_multiline_str f' rest literal).
Proof.
  intros Hf. unfold parse_multiline_str.
  apply gas_le_bind; [|intros [r s]; apply gas_le_refl].
  destruct literal; [apply gas_le_refl|]. apply parse_basic_str_mono, Hf.
Qed.

Lemma parse_key_part_mono f f' rest :
  (f <= f')%nat -> gas_le (parse_key_part f rest) (parse_key_part f' rest).
Proof.
  intros Hf. unfold parse_key_part, parse_one_line_basic_str.
  gas_same. apply parse_basic_str_mono, Hf.
Qed.

Lemma parse_key_loop_mono f f' rest key :
  (f <= f')%nat -> gas_le (parse_key_loop f rest key) (parse_key_loop f' rest key).
Proof.
  revert f' rest key. induction f as [|f IH]; intros f' rest key Hf; [left; reflexivity|].
  destruct f' as [|f']; [lia|]. cbn [parse_key_loop].
  destruct rest as [|c rest]; [apply gas_le_refl|].
  destruct (c =? 46); [|apply gas_le_refl].
  apply gas_le_bind; [apply parse_key_part_mono; lia|].
  intros [r kp]. apply IH. lia.
Qed.

Lemma parse_key_mono f f' rest :
  (f <= f')%nat -> gas_le (parse_key f rest) (parse_key f' rest).
Proof.
  intros Hf. unfold parse_key.
  apply gas_le_bind; [apply parse_key_part_mono, Hf|].
  intros [r kp]. apply parse_key_loop_mono, Hf.
Qed.

Lemma parse_key_value_pair_with_mono pv pv' f f' rest :
  (f <= f')%nat -> (forall r, gas_le (pv r) (pv' r)) ->
  gas_le (parse_key_value_pair_with pv f rest) (parse_key_value_pair_with pv' f' rest).
Proof.
  intros Hf Hpv. unfold parse_key_value_pair_with.
  apply gas_le_bind; [apply parse_key_mono, Hf|].
  intros [r key]. destruct r as [|c r]; [apply gas_le_refl|].
  destruct (c =? 61); [|apply gas_le_refl].
  apply gas_le_bind; [apply Hpv|]. intros [r' v]. apply gas_le_refl.
Qed.

Lemma parse_value_mono f :
  (forall f' rest, (f <= f')%nat -> gas_le (parse_value f rest) (parse_value f' rest)) /\
  (forall f' rest arr, (f <= f')%nat ->
     gas_le (parse_array_loop f rest arr) (parse_array_loop f' rest arr)) /\
  (forall f' rest nd fl, (f <= f')%nat ->
     gas_le (parse_inline_table_loop f rest nd fl) (parse_inline_table_loop f' rest nd fl)).
Proof.
  induction f as [|f (IHv & IHa & IHt)]; [repeat split; intros; left; reflexivity|].
  repeat split.
  - intros [|f'] rest Hf; [lia|]. assert (Hf' : (f <= f')%nat) by lia.
    cbn [parse_value].
    destruct rest as [|c rest]; [apply gas_le_refl|].
    destruct (c =? QUOTE).
    { apply gas_le_bind; [|intros [r s]; apply gas_le_refl].
      destruct (startswith _ _);
        [apply parse_multiline_str_mono, Hf'|apply parse_basic_str_mono, Hf']. }
    destruct (c =? APOS).
    { apply gas_le_bind; [|intros [r s]; apply gas_le_refl].
      destruct (startswith _ _); [apply parse_multiline_str_mono, Hf'|apply gas_le_refl]. }
    destruct (_ && _); [apply gas_le_refl|].
    destruct (_ && _); [apply gas_le_refl|].
    destruct (c =? 91).
    { apply gas_le_bind; [|intros [r s]; apply gas_le_refl].
      unfold parse_array_with.
      apply gas_le_bind; [apply skip_comments_and_array_ws_mono, Hf'|].
      intros r. destruct (startswith _ _); [apply gas_le_refl|]. apply IHa, Hf'. }
    destruct (c =? 123).
    { apply gas_le_bind; [|intros [r s]; apply gas_le_refl].
      unfold parse_inline_table_with.
      destruct (startswith _ _); [apply gas_le_refl|]. apply IHt, Hf'. }
    apply gas_le_refl.
  - intros [|f'] rest arr Hf; [lia|]. assert (Hf' : (f <= f')%nat) by lia.
    cbn [parse_array_loop].
    apply gas_le_bind; [apply IHv, Hf'|]. intros [r v].
    apply gas_le_bind; [apply skip_comments_and_array_ws_mono, Hf'|]. intros r2.
    destruct r2 as [|c r2]; [apply gas_le_refl|].
    destruct (c =? 93); [apply gas_le_refl|].
    destruct (negb _); [apply gas_le_refl|].
    apply gas_le_bind; [apply skip_comments_and_array_ws_mono, Hf'|]. intros r3.
    destruct (startswith _ _); [apply gas_le_refl|]. apply IHa, Hf'.
  - intros [|f'] rest nd fl Hf; [lia|]. assert (Hf' : (f <= f')%nat) by lia.
    cbn [parse_inline_table_loop].
    apply gas_le_bind.
    { apply parse_key_value_pair_with_mono; [exact Hf'|]. intros r. apply IHv, Hf'. }
    intros [[r key] v].
    destruct (flags_is _ _ _); [apply gas_le_refl|].
    apply gas_le_bind; [apply gas_le_refl|]. intros nest.
    destruct (dict_mem _ _); [apply gas_le_refl|].
    destruct (skip_chars TOML_WS r) as [|c r2]; [apply gas_le_refl|].
    destruct (c =? 125); [apply gas_le_refl|].
    destruct (negb _); [apply gas_le_refl|].
    apply IHt, Hf'.
Qed.

Lemma key_value_rule_mono f f' rest out header :
  (f <= f')%nat ->
  gas_le (key_value_rule f rest out header) (key_value_rule f' rest out header).
Proof.
  intros Hf. unfold key_value_rule, parse_key_value_pair.
  apply gas_le_bind; [|intros; apply gas_le_refl].
  apply parse_key_value_pair_with_mono; [exact Hf|].
  intros r. apply parse_value_mono, Hf.
Qed.

Lemma create_dict_rule_mono f f' rest out :
  (f <= f')%nat -> gas_le (create_dict_rule f rest out) (create_dict_rule f' rest out).
Proof.
  intros Hf. unfold create_dict_rule.
  apply gas_le_bind; [apply parse_key_mono, Hf|intros; apply gas_le_refl].
Qed.

Lemma create_list_rule_mono f f' rest out :
  (f <= f')%nat -> gas_le (create_list_rule f rest out) (create_list_rule f' rest out).
Proof.
  intros Hf. unfold create_list_rule.
  apply gas_le_bind; [apply parse_key_mono, Hf|intros; apply gas_le_refl].
Qed.

Lemma loads_loop_mono f f' rest out header :
  (f <= f')%nat -> gas_le (loads_loop f rest out header) (loads_loop f' rest out header).
Proof.
  revert f' rest out header.
  induction f as [|f IH]; intros f' rest out header Hf; [left; reflexivity|].
  destruct f' as [|f']; [lia|]. assert (Hf' : (f <= f')%nat) by lia.
  cbn [loads_loop].
  destruct (skip_chars TOML_WS rest) as [|c rest']; [apply gas_le_refl|].
  destruct (c =? LF); [apply IH, Hf'|].
  apply gas_le_bind.
  - destruct (KEY_INITIAL_CHARS c).
    { apply gas_le_bind; [apply key_value_rule_mono, Hf'|intros; apply gas_le_refl]. }
    destruct (c =? 91); [|apply gas_le_refl].
    apply gas_le_bind; [|intros; apply gas_le_refl].
    destruct (bool_decide _); [apply create_list_rule_mono, Hf'|apply create_dict_rule_mono, Hf'].
  - intros [[r o] h].
    apply gas_le_bind; [apply gas_le_refl|]. intros r2.
    destruct r2 as [|d r2]; [apply gas_le_refl|].
    destruct (negb _); [apply gas_le_refl|]. apply IH, Hf'.
Qed.

(** Any fuel above the bound gives the result of [loads]. *)
Lemma loads_loop_fuel f f' rest out header :
  (2 * len rest + 3 <= f)%nat -> (2 * len rest + 3 <= f')%nat ->
  loads_loop f rest out header = loads_loop f' rest out header.
Proof.
  intros Hf Hf'.
  pose proof (loads_loop_ok (2 * len rest + 3) rest out header (le_n _)) as Hok.
  assert (Hne : loads_loop (2 * len rest + 3) rest out header <> Gas).
  { intros E. rewrite E in Hok. exact Hok. }
  rewrite (gas_le_got _ _ (loads_loop_mono _ f rest out header Hf) Hne).
  rewrite (gas_le_got _ _ (loads_loop_mono _ f' rest out header Hf') Hne).
  reflexivity.
Qed.

(** [loads] with any fuel above the bound. *)
Lemma loads_with_fuel s f :
  (2 * len (replace_crlf s) + 3 <= f)%nat ->
  loads s = match loads_loop f (replace_crlf s) (MkOutput [] Flags_new) [] with
            | Got d => Return d
            | Fail e => Raise e
            | Gas => Raise RecursionError
            end.
Proof.
  intros Hf. unfold loads, loads_gas.
  rewrite (loads_loop_fuel _ f) by (unfold loads_fuel; lia). reflexivity.
Qed.

(** * Line ends *)

Lemma to_crlf_head s d t : to_crlf s = d :: t -> (d =? LF) = false.
Proof.
  destruct s as [|c s]; cbn [to_crlf]; [discriminate|].
  destruct (c =? LF) eqn:E; intros [= <- _]; [reflexivity|exact E].
Qed.

Lemma replace_crlf_to_crlf s : replace_crlf (to_crlf s) = s.
Proof.
  induction s as [|c s IH]; [reflexivity|]. cbn [to_crlf].
  destruct (c =? LF) eqn:E.
  - apply N.eqb_eq in E. subst c. cbn [replace_crlf].
    change ((CR =? CR) && (LF =? LF)) with true. cbn match. rewrite IH. reflexivity.
  - cbn [replace_crlf]. destruct (to_crlf s) as [|d t] eqn:Et.
    + destruct s as [|c' s]; [reflexivity|]. cbn [to_crlf] in Et.
      destruct (c' =? LF); discriminate Et.
    + rewrite (to_crlf_head _ _ _ Et), andb_false_r. rewrite IH. reflexivity.
Qed.

Lemma replace_crlf_app a b :
  no_cr a = true -> replace_crlf (a ++ b) = a ++ replace_crlf b.
Proof.
  unfold no_cr. induction a as [|c a IH]; [reflexivity|].
  cbn [forallb]. rewrite andb_true_iff, negb_true_iff. intros [Hc Ha].
  cbn [app replace_crlf]. rewrite <- (IH Ha).
  destruct (a ++ b) as [|d s] eqn:E; [reflexivity|].
  rewrite Hc. reflexivity.
Qed.

Lemma scalar_to_crlf s : scalar_text s = true -> scalar_text (to_crlf s) = true.
Proof.
  unfold scalar_text. induction s as [|c s IH]; [reflexivity|].
  cbn [forallb to_crlf]. rewrite andb_true_iff. intros [Hc Hs].
  destruct (c =? LF); cbn [forallb]; rewrite ?Hc, (IH Hs); reflexivity.
Qed.

Lemma tomllib_load_encoded s :
  scalar_text s = true -> tomllib_load (utf8_encode s) = loads s.
Proof. intros H. unfold tomllib_load. rewrite utf8_decode_encode by exact H. reflexivity. Qed.

(** * Lines that hold no statement *)

Lemma str_index_newline c s :
  forallb (fun x => negb (x =? LF)) c = true ->
  str_index [LF] (c ++ LF :: s) = Some (c, LF :: s).
Proof.
  induction c as [|x c IH]; [reflexivity|].
  cbn [forallb]. rewrite andb_true_iff, negb_true_iff. intros [Hx Hc].
  cbn [app str_index startswith]. rewrite N.eqb_sym, Hx. cbn [andb].
  rewrite (IH Hc). reflexivity.
Qed.

Lemma comment_char_spec x :
  negb (ILLEGAL_COMMENT_CHARS x) = true -> (x =? LF) = false /\ (x =? CR) = false.
Proof.
  unfold ILLEGAL_COMMENT_CHARS, ILLEGAL_BASIC_STR_CHARS, ASCII_CTRL, TAB, LF, CR.
  rewrite negb_true_iff. intros H.
  split; apply N.eqb_neq; intros ->; discriminate H.
Qed.

Lemma ws_char_spec x :
  TOML_WS x = true -> (x =? LF) = false /\ (x =? CR) = false.
Proof.
  unfold TOML_WS, TAB, LF, CR. intros H.
  apply orb_true_iff in H as [H|H]; apply N.eqb_eq in H; subst x; split; reflexivity.
Qed.

Lemma skip_comment_line c s :
  forallb (fun x => negb (ILLEGAL_COMMENT_CHARS x)) c = true ->
  skip_comment (35 :: c ++ LF :: s) = Got (LF :: s).
Proof.
  intros Hc. cbn [skip_comment]. change (35 =? 35) with true. cbn match.
  unfold skip_until. rewrite str_index_newline.
  - cbn [pbind].
    replace (existsb ILLEGAL_COMMENT_CHARS c) with false; [reflexivity|].
    symmetry. induction c as [|x c IH]; [reflexivity|].
    cbn [forallb existsb] in *. apply andb_true_iff in Hc as [Hx Hc].
    apply negb_true_iff in Hx. rewrite Hx, (IH Hc). reflexivity.
  - revert Hc. apply forallb_impl. intros x Hx.
    apply comment_char_spec in Hx as [-> _]. reflexivity.
Qed.

(** One round of [loads_loop] over a line without a statement. *)
Lemma loads_loop_ignored_line f ws c s out header :
  forallb TOML_WS ws = true -> comment_text c = true ->
  loads_loop (S f) (ignored_line ws c ++ s) out header = loads_loop f s out header.
Proof.
  intros Hws Hc. unfold ignored_line. cbn [loads_loop].
  rewrite <- !app_assoc, skip_chars_app by exact Hws.
  destruct c as [c|]; cbn [app comment_text] in *.
  - change (skip_chars TOML_WS (35 :: c ++ LF :: s)) with (35 :: c ++ LF :: s).
    cbn match. change (35 =? LF) with false. change (KEY_INITIAL_CHARS 35) with false.
    change (35 =? 91) with false. change (negb (35 =? 35)) with false. cbn match.
    cbn [pbind]. rewrite skip_comment_line by exact Hc. cbn [pbind].
    change (negb (LF =? LF)) with false. reflexivity.
  - change (skip_chars TOML_WS (LF :: s)) with (LF :: s).
    cbn match. change (LF =? LF) with true. reflexivity.
Qed.

Lemma ignored_line_no_cr ws c :
  forallb TOML_WS ws = true -> comment_text c = true -> no_cr (ignored_line ws c) = true.
Proof.
  intros Hws Hc. unfold no_cr, ignored_line. rewrite !forallb_app.
  apply andb_true_iff. split; [|apply andb_true_iff; split; [|reflexivity]].
  - revert Hws. apply forallb_impl. intros x Hx.
    apply ws_char_spec in Hx as [_ ->]. reflexivity.
  - destruct c as [c|]; [|reflexivity]. cbn [forallb comment_text] in *.
    change (negb (35 =? CR)) with true. cbn [andb].
    revert Hc. apply forallb_impl. intros x Hx.
    apply comment_char_spec in Hx as [_ ->]. reflexivity.
Qed.

Lemma loads_ignored_line ws c s :
  forallb TOML_WS ws = true -> comment_text c = true ->
  loads (ignored_line ws c ++ s) = loads s.
Proof.
  intros Hws Hc.
  assert (Hlen : (1 <= len (ignored_line ws c))%nat).
  { unfold ignored_line. rewrite !length_app. cbn [List.length]. lia. }
  rewrite (loads_with_fuel _ (S (2 * len (ignored_line ws c ++ replace_crlf s) + 3))).
  2:{ rewrite replace_crlf_app by (apply ignored_line_no_cr; assumption). lia. }
  rewrite replace_crlf_app by (apply ignored_line_no_cr; assumption).
  rewrite loads_loop_ignored_line by assumption.
  rewrite <- (loads_with_fuel s); [reflexivity|]. rewrite length_app. lia.
Qed.

(** * A character that starts no statement *)

Lemma loads_loop_invalid_statement f ws c rest out header :
  forallb TOML_WS ws = true -> statement_start c = false ->
  loads_loop (S f) (ws ++ c :: rest) out header =
  Fail (TOMLDecodeError "Invalid statement").
Proof.
  intros Hws Hc. unfold statement_start in Hc.
  apply orb_false_iff in Hc as [Hc H35]. apply orb_false_iff in Hc as [Hc H91].
  apply orb_false_iff in Hc as [Hc Hkey]. apply orb_false_iff in Hc as [Hc _].
  apply orb_false_iff in Hc as [Hc Hlf].
  cbn [loads_loop]. rewrite skip_chars_app by exact Hws.
  cbn [skip_chars]. rewrite Hc, Hlf, Hkey, H91, H35. reflexivity.
Qed.

Lemma loads_invalid_statement ws c rest :
  forallb TOML_WS ws = true -> statement_start c = false ->
  loads (ws ++ c :: rest) = Raise (TOMLDecodeError "Invalid statement").
Proof.
  intros Hws Hc.
  assert (Hcr : no_cr (ws ++ [c]) = true).
  { unfold no_cr. rewrite forallb_app. apply andb_true_iff. split.
    - revert Hws. apply forallb_impl. intros x Hx.
      apply ws_char_spec in Hx as [_ ->]. reflexivity.
    - cbn [forallb]. unfold statement_start in Hc.
      apply orb_false_iff in Hc as [Hc _]. apply orb_false_iff in Hc as [Hc _].
      apply orb_false_iff in Hc as [Hc _]. apply orb_false_iff in Hc as [_ ->].
      reflexivity. }
  replace (ws ++ c :: rest) with ((ws ++ [c]) ++ rest) by (rewrite <- app_assoc; reflexivity).
  rewrite (loads_with_fuel _ (S (2 * len (replace_crlf ((ws ++ [c]) ++ rest)) + 3))) by lia.
  rewrite replace_crlf_app by exact Hcr. rewrite <- app_assoc. cbn [app].
  rewrite loads_loop_invalid_statement by assumption. reflexivity.
Qed.

(** * Documents of several engine entries *)

Lemma dict_get_fresh {V} k (d : list (str * V)) :
  dict_mem k d = false -> dict_get k d = None.
Proof. unfold dict_mem. destruct (dict_get k d); [discriminate|reflexivity]. Qed.

Lemma dict_get_snoc {V} k (v : V) d :
  dict_mem k d = false -> dict_get k (d ++ [(k, v)]) = Some v.
Proof.
  unfold dict_mem. induction d as [|[k' v'] d IH]; cbn [app dict_get].
  - rewrite str_eqb_refl. reflexivity.
  - destruct (str_eqb k k'); [discriminate|exact IH].
Qed.

Lemma dict_set_snoc {V} k (v v' : V) d :
  dict_mem k d = false -> dict_set k v' (d ++ [(k, v)]) = d ++ [(k, v')].
Proof.
  unfold dict_mem. induction d as [|[k' v''] d IH]; cbn [app dict_get dict_set].
  - rewrite str_eqb_refl. reflexivity.
  - destruct (str_eqb k k'); [discriminate|]. intros H. rewrite (IH H). reflexivity.
Qed.

Lemma open_nest entries id fields :
  dict_mem id entries = false ->
  get_or_create_nest [u "engines"; id] true (open_table entries id fields) = Got fields.
Proof.
  intros H. unfold open_table.
  cbn [get_or_create_nest dict_get]. rewrite str_eqb_refl. cbn [pbind].
  rewrite dict_get_snoc by exact H. reflexivity.
Qed.

Lemma open_put entries id fields fields' :
  dict_mem id entries = false ->
  put_nest [u "engines"; id] fields' (open_table entries id fields) =
  open_table entries id fields'.
Proof.
  intros H. unfold open_table.
  cbn [put_nest dict_get dict_set]. rewrite str_eqb_refl.
  rewrite dict_get_snoc by exact H. cbn [put_nest].
  rewrite dict_set_snoc by exact H. reflexivity.
Qed.

Lemma open_not_frozen nodes id frozen :
  dict_mem id nodes = false ->
  flags_is (open_flags nodes id frozen) [u "engines"; id] FROZEN = false.
Proof.
  intros H. unfold flags_is, open_flags.
  cbn [_flags flags_is_in dict_get]. rewrite str_eqb_refl.
  cbn [set_mem existsb]. rewrite dict_get_snoc by exact H. reflexivity.
Qed.

Lemma open_freeze nodes id frozen k :
  dict_mem id nodes = false -> dict_mem k frozen = false ->
  flags_set (open_flags nodes id frozen) ([u "engines"; id] ++ [k]) FROZEN true =
  open_flags nodes id (frozen ++ [(k, FlagNode [] [FROZEN] [])]).
Proof.
  intros H Hk. unfold flags_set, open_flags. cbn [_flags _pending_flags app]. f_equal.
  cbn [flags_set_in dict_get dict_set]. rewrite !str_eqb_refl.
  rewrite dict_get_snoc by exact H. cbn [flags_set_in].
  rewrite dict_get_fresh by exact Hk. rewrite dict_set_snoc by exact H.
  rewrite dict_set_fresh by exact Hk. reflexivity.
Qed.

(** The header of a further table [engines.<id>]. *)
Lemma create_dict_rule_engine fuel id tail entries nodes :
  bare_key id = true -> (1 < fuel)%nat ->
  create_dict_rule fuel (u "[engines." ++ id ++ u "]" ++ LF :: tail)
    (MkOutput [(u "engines", VDict entries)]
       (MkFlags [(u "engines", FlagNode [] [] nodes)] [])) =
  match dict_get id nodes with
  | Some (FlagNode fs rs _) =>
      if set_mem EXPLICIT_NEST fs || set_mem EXPLICIT_NEST rs
         || (set_mem FROZEN fs || set_mem FROZEN rs)
      then Fail (TOMLDecodeError "Cannot declare {key} twice")
      else
        let* nest :=
          except_KeyError
            (get_or_create_nest [u "engines"; id] true [(u "engines", VDict entries)])
            (TOMLDecodeError "Cannot overwrite a value") in
        Got (LF :: tail,
             MkOutput (put_nest [u "engines"; id] nest [(u "engines", VDict entries)])
               (flags_set (MkFlags [(u "engines", FlagNode [] [] nodes)] [])
                  [u "engines"; id] EXPLICIT_NEST false),
             [u "engines"; id])
  | None =>
      let* nest :=
        except_KeyError
          (get_or_create_nest [u "engines"; id] true [(u "engines", VDict entries)])
          (TOMLDecodeError "Cannot overwrite a value") in
      Got (LF :: tail,
           MkOutput (put_nest [u "engines"; id] nest [(u "engines", VDict entries)])
             (flags_set (MkFlags [(u "engines", FlagNode [] [] nodes)] [])
                [u "engines"; id] EXPLICIT_NEST false),
           [u "engines"; id])
  end.
Proof.
  intros Hk Hf. unfold create_dict_rule.
  change (drop 1 (u "[engines." ++ id ++ u "]" ++ LF :: tail))
    with (u "engines." ++ id ++ 93 :: LF :: tail).
  change (skip_chars TOML_WS (u "engines." ++ id ++ 93 :: LF :: tail))
    with (u "engines." ++ id ++ 93 :: LF :: tail).
  rewrite parse_key_engine by assumption. cbn [pbind flags data].
  unfold flags_is. cbn [_flags flags_is_in dict_get]. rewrite str_eqb_refl.
  cbn [set_mem existsb].
  change (startswith [93] (93 :: LF :: tail)) with true. cbn [negb].
  change (drop 1 (93 :: LF :: tail)) with (LF :: tail).
  destruct (dict_get id nodes) as [[fs rs nested]|]; [|reflexivity].
  destruct (_ || _ || _); reflexivity.
Qed.

Lemma loads_loop_statement fuel c rest out header out' header' tail :
  TOML_WS c = false -> (c =? LF) = false -> KEY_INITIAL_CHARS c = false ->
  (c =? 91) = true -> head rest <> Some 91 ->
  create_dict_rule fuel (c :: rest)
    (MkOutput (data out) (finalize_pending (flags out))) =
  Got (LF :: tail, out', header') ->
  loads_loop (S fuel) (c :: rest) out header = loads_loop fuel tail out' header'.
Proof.
  intros Hws Hlf Hkey H91 Hhd Hr. cbn [loads_loop skip_chars].
  rewrite Hws, Hlf, Hkey, H91. rewrite bool_decide_eq_false_2 by exact Hhd.
  rewrite Hr. cbn [pbind].
  change (skip_chars TOML_WS (LF :: tail)) with (LF :: tail).
  change (skip_comment (LF :: tail)) with (Got (LF :: tail)). cbn [pbind].
  change (negb (LF =? LF)) with false. reflexivity.
Qed.

Lemma loads_loop_next_header fuel id tail entries nodes header :
  bare_key id = true -> (1 < fuel)%nat ->
  dict_mem id entries = false -> dict_mem id nodes = false ->
  loads_loop (S fuel) (u "[engines." ++ id ++ u "]" ++ LF :: tail)
    (MkOutput [(u "engines", VDict entries)]
       (MkFlags [(u "engines", FlagNode [] [] nodes)] [])) header =
  loads_loop fuel tail (MkOutput (open_table entries id []) (open_flags nodes id []))
    [u "engines"; id].
Proof.
  intros Hk Hf He Hn.
  change (u "[engines." ++ id ++ u "]" ++ LF :: tail)
    with (91 :: u "engines." ++ id ++ 93 :: LF :: tail).
  apply loads_loop_statement; try reflexivity; [discriminate|].
  cbn [data flags]. change (finalize_pending (MkFlags ?x [])) with (MkFlags x []).
  change (91 :: u "engines." ++ id ++ 93 :: LF :: tail)
    with (u "[engines." ++ id ++ u "]" ++ LF :: tail).
  rewrite create_dict_rule_engine by assumption.
  rewrite (dict_get_fresh _ _ Hn).
  cbn [get_or_create_nest dict_get]. rewrite str_eqb_refl. cbn [pbind].
  rewrite (dict_get_fresh _ _ He). cbn [pbind get_or_create_nest except_KeyError].
  unfold open_table, open_flags, flags_set. cbn [_flags _pending_flags].
  cbn [put_nest dict_get dict_set flags_set_in]. rewrite !str_eqb_refl.
  rewrite (dict_get_fresh _ _ He), (dict_get_fresh _ _ Hn).
  cbn [put_nest]. rewrite !dict_set_fresh by assumption. reflexivity.
Qed.

(** The header of a table that was declared before. *)
Lemma loads_loop_declared_twice fuel id tail entries nodes header frozen :
  bare_key id = true -> (1 < fuel)%nat ->
  dict_get id nodes = Some (FlagNode [EXPLICIT_NEST] [] frozen) ->
  loads_loop (S fuel) (u "[engines." ++ id ++ u "]" ++ LF :: tail)
    (MkOutput [(u "engines", VDict entries)]
       (MkFlags [(u "engines", FlagNode [] [] nodes)] [])) header =
  Fail (TOMLDecodeError "Cannot declare {key} twice").
Proof.
  intros Hk Hf Hn.
  pose proof (create_dict_rule_engine fuel id tail entries nodes Hk Hf) as Hc.
  rewrite Hn in Hc. cbn [set_mem existsb flag_eqb orb] in Hc.
  change (u "[engines." ++ id ++ u "]" ++ LF :: tail)
    with (91 :: u "engines." ++ id ++ 93 :: LF :: tail) in *.
  cbn [loads_loop skip_chars]. change (TOML_WS 91) with false. cbn match.
  change (91 =? LF) with false. change (KEY_INITIAL_CHARS 91) with false.
  change (91 =? 91) with true. cbn match.
  change (head (u "engines." ++ id ++ 93 :: LF :: tail)) with (Some 101).
  change (bool_decide (Some 101 = Some 91)) with false. cbn match.
  cbn [data flags]. change (finalize_pending (MkFlags ?x [])) with (MkFlags x []).
  rewrite Hc. reflexivity.
Qed.

(** One key/value line of a table behind other tables. *)
Ltac line_step :=
  lazymatch goal with
  | |- loads_loop (S ?fuel) (?k ++ u " = " ++ ?x ++ LF :: ?tail)
         (MkOutput (open_table ?en ?id ?fields) (open_flags ?nd ?id ?frozen)) _ = _ =>
      let v := lazymatch x with
               | string_array ?l => constr:(string_list l)
               | quoted ?s => constr:(VStr s)
               | u "true" => constr:(VBool true)
               | u "false" => constr:(VBool false)
               end in
      rewrite (loads_loop_key_value fuel k (x ++ LF :: tail) tail v
                 (MkOutput (open_table en id fields) (open_flags nd id frozen))
                 [u "engines"; id] fields);
      [ cbn [data flags is_dict_or_list string_list]; rewrite open_put by assumption
      | vm_compute; reflexivity
      | reflexivity
      | first [ apply parse_value_string_array; [assumption|lia]
              | apply parse_value_quoted; [assumption|reflexivity|lia]
              | apply (parse_value_bool _ true); lia
              | apply (parse_value_bool _ false); lia ]
      | apply open_not_frozen; assumption
      | apply open_nest; assumption
      | vm_compute; reflexivity ];
      try (rewrite open_freeze by (assumption || (vm_compute; reflexivity)));
      rewrite dict_set_fresh by (vm_compute; reflexivity); cbn [app]
  end.

Lemma loads_loop_engine_lines fuel e entries nodes tail :
  well_formed_engine e = true ->
  dict_mem (engine_id e) entries = false -> dict_mem (engine_id e) nodes = false ->
  (len (engine_lines e) + 8 <= fuel)%nat ->
  loads_loop (engine_line_count e + fuel) (engine_lines e ++ tail)
    (MkOutput (open_table entries (engine_id e) []) (open_flags nodes (engine_id e) []))
    [u "engines"; engine_id e] =
  loads_loop fuel tail
    (MkOutput (open_table entries (engine_id e) (engine_fields e))
       (open_flags nodes (engine_id e) (engine_frozen e)))
    [u "engines"; engine_id e].
Proof.
  destruct e as [id ns rn kd ea um].
  unfold well_formed_engine, engine_lines, engine_fields, engine_frozen, engine_line_count.
  cbn [engine_id names run kind extra_args use_merge_arg].
  rewrite !andb_true_iff. intros [[[[Hid Hns] Hrn] Hkd] Hea] He Hn Hf.
  assert (Hf' : (len (string_array ns) + len rn + len kd
                 + match ea with Some l => len (string_array l) | None => 0 end
                 + 8 <= fuel)%nat).
  { destruct ea, um; len_tac. }
  clear Hf.
  change (u "names = ") with (u "names" ++ u " = ").
  change (u "run = ") with (u "run" ++ u " = ").
  change (u "kind = ") with (u "kind" ++ u " = ").
  change (u "extra_args = ") with (u "extra_args" ++ u " = ").
  change (u "use_merge_arg = ") with (u "use_merge_arg" ++ u " = ").
  destruct ea as [l|], um as [[|]|]; cbn [Nat.add]; rewrite <- ?app_assoc; cbn [app].
  all: repeat line_step; reflexivity.
Qed.

Lemma engines_state_snoc es e :
  engines_state (es ++ [e]) =
  MkOutput (open_table (List.map engine_entry es) (engine_id e) (engine_fields e))
    (open_flags (List.map engine_node es) (engine_id e) (engine_frozen e)).
Proof.
  unfold open_table, open_flags.
  destruct es as [|a es]; [reflexivity|].
  cbn [app engines_state List.map]. rewrite !List.map_app. reflexivity.
Qed.

Lemma engines_header_snoc es e :
  engines_header (es ++ [e]) = [u "engines"; engine_id e].
Proof. unfold engines_header. rewrite last_snoc. reflexivity. Qed.

Lemma fresh_engine_id id es :
  ~ In id (engine_ids es) ->
  dict_mem id (List.map engine_entry es) = false /\
  dict_mem id (List.map engine_node es) = false.
Proof.
  unfold dict_mem. induction es as [|a es IH]; intros H; [split; reflexivity|].
  cbn [List.map dict_get engine_entry engine_node engine_ids] in *.
  unfold str_eqb. rewrite bool_decide_eq_false_2 by (intros ->; apply H; left; reflexivity).
  apply IH. intros Hin. apply H. right. exact Hin.
Qed.

Lemma known_engine_id id es :
  In id (engine_ids es) ->
  exists frozen,
    dict_get id (List.map engine_node es) = Some (FlagNode [EXPLICIT_NEST] [] frozen).
Proof.
  induction es as [|a es IH]; intros H; [destruct H|].
  cbn [List.map dict_get engine_node]. unfold str_eqb.
  destruct (decide (id = engine_id a)) as [->|Hne].
  - rewrite bool_decide_eq_true_2 by reflexivity. eauto.
  - rewrite bool_decide_eq_false_2 by exact Hne.
    apply IH. destruct H as [H|H]; [congruence|exact H].
Qed.

Lemma engine_text_lines e :
  engine_text e = u "[engines." ++ engine_id e ++ u "]" ++ [LF] ++ engine_lines e.
Proof. reflexivity. Qed.

Lemma length_engine_text e :
  len (engine_text e) = (len (engine_id e) + len (engine_lines e) + 11)%nat.
Proof. rewrite engine_text_lines, !length_app. cbn [List.length u]. simpl. lia. Qed.

Lemma well_formed_engine_id e : well_formed_engine e = true -> bare_key (engine_id e) = true.
Proof. unfold well_formed_engine. rewrite !andb_true_iff. tauto. Qed.

(** The rounds of [loads_loop] over one entry. *)
Lemma loads_loop_engine fuel es e tail :
  well_formed_engine e = true -> ~ In (engine_id e) (engine_ids es) ->
  (len (engine_text e) <= fuel)%nat ->
  loads_loop (S (engine_line_count e + fuel)) (engine_text e ++ tail)
    (engines_state es) (engines_header es) =
  loads_loop fuel tail (engines_state (es ++ [e])) (engines_header (es ++ [e])).
Proof.
  intros He Hid Hf. pose proof (well_formed_engine_id e He) as Hk.
  destruct (fresh_engine_id _ _ Hid) as [Hen Hnd].
  rewrite length_engine_text in Hf.
  rewrite engines_state_snoc, engines_header_snoc.
  rewrite engine_text_lines, <- !app_assoc.
  change ([LF] ++ engine_lines e ++ tail) with (LF :: engine_lines e ++ tail).
  assert (Hl : (1 < engine_line_count e + fuel)%nat) by lia.
  destruct es as [|a es].
  - cbn [engines_state engines_header last].
    rewrite loads_loop_header by assumption.
    change (engine_table (engine_id e) []) with (open_table [] (engine_id e) []).
    change (engine_flags (engine_id e) []) with (open_flags [] (engine_id e) []).
    apply (loads_loop_engine_lines fuel e [] []); auto. lia.
  - cbn [engines_state].
    rewrite loads_loop_next_header by assumption.
    apply loads_loop_engine_lines; auto. lia.
Qed.

Lemma length_engines_text_cons e es :
  len (engines_text (e :: es)) = (len (engine_text e) + len (engines_text es))%nat.
Proof. unfold engines_text. cbn [List.map List.concat]. apply length_app. Qed.

(** The rounds of [loads_loop] over entries with identifiers that
    differ from each other and from those read before. *)
Lemma loads_loop_engines es' es fuel fuel' tail :
  forallb well_formed_engine es' = true -> NoDup (engine_ids (es ++ es')) ->
  (2 * len (engines_text es' ++ tail) + 3 <= fuel)%nat ->
  (2 * len tail + 3 <= fuel')%nat ->
  loads_loop fuel (engines_text es' ++ tail) (engines_state es) (engines_header es) =
  loads_loop fuel' tail (engines_state (es ++ es')) (engines_header (es ++ es')).
Proof.
  revert es fuel. induction es' as [|e es' IH]; intros es fuel Hwf Hnd Hf Hf'.
  - rewrite app_nil_r. apply loads_loop_fuel; assumption.
  - cbn [forallb] in Hwf. apply andb_true_iff in Hwf as [He Hwf].
    assert (Hid : ~ In (engine_id e) (engine_ids es)).
    { unfold engine_ids in *. rewrite List.map_app in Hnd. cbn [List.map] in Hnd.
      apply NoDup_app in Hnd as (_ & Hd & _). intros Hin.
      apply list_elem_of_In in Hin. apply (Hd _ Hin). left. }
    unfold engines_text in *. cbn [List.map List.concat] in *.
    rewrite <- app_assoc in *. rewrite !length_app in Hf.
    set (rest := List.concat (List.map engine_text es') ++ tail) in *.
    set (F := (2 * len (engine_text e) + 2 * len rest + 3)%nat).
    rewrite (loads_loop_fuel fuel (S (engine_line_count e + F)))
      by (unfold F; unfold rest; rewrite ?length_app; lia).
    rewrite loads_loop_engine by (auto; unfold F; lia).
    assert (HF : (2 * len rest + 3 <= F)%nat) by (unfold F; lia).
    replace (es ++ e :: es') with ((es ++ [e]) ++ es') by (rewrite <- app_assoc; reflexivity).
    apply IH; [exact Hwf| |exact HF|exact Hf'].
    rewrite <- app_assoc. exact Hnd.
Qed.

Lemma engines_text_chars (P : char -> bool) es :
  (forall c, text_char c = true -> P c = true) ->
  (forall c, plain_char c = true -> P c = true) ->
  forallb well_formed_engine es = true -> forallb P (engines_text es) = true.
Proof.
  intros Ht Hp. unfold engines_text. induction es as [|e es IH]; [reflexivity|].
  cbn [forallb List.map List.concat]. rewrite andb_true_iff. intros [He Hes].
  rewrite forallb_app, (P_engine_text P Ht Hp e He), (IH Hes). reflexivity.
Qed.

Lemma engines_text_no_cr es :
  forallb well_formed_engine es = true -> no_cr (engines_text es) = true.
Proof. apply engines_text_chars; auto using text_char_no_cr, plain_char_no_cr. Qed.

Lemma engines_text_scalar es :
  forallb well_formed_engine es = true -> scalar_text (engines_text es) = true.
Proof.
  apply engines_text_chars; [exact text_char_scalar|].
  intros c Hc. apply plain_char_spec in Hc. tauto.
Qed.

Lemma loads_engines_text es :
  forallb well_formed_engine es = true -> NoDup (engine_ids es) ->
  loads (engines_text es) = Return (engines_document es).
Proof.
  intros Hwf Hnd.
  rewrite (loads_with_fuel _ (2 * len (engines_text es) + 3))
    by (rewrite replace_crlf_no_cr by (apply engines_text_no_cr, Hwf); lia).
  rewrite replace_crlf_no_cr by (apply engines_text_no_cr, Hwf).
  pose proof (loads_loop_engines es [] (2 * len (engines_text es) + 3) 3 [] Hwf Hnd) as H.
  rewrite app_nil_r in H. cbn [app engines_state engines_header last] in H.
  rewrite H by (cbn [List.length]; lia).
  cbn [loads_loop skip_chars]. destruct es; reflexivity.
Qed.

Lemma loads_engines_text_duplicate es1 e es2 :
  forallb well_formed_engine (es1 ++ [e]) = true -> NoDup (engine_ids es1) ->
  In (engine_id e) (engine_ids es1) ->
  loads (engines_text (es1 ++ e :: es2)) =
  Raise (TOMLDecodeError "Cannot declare {key} twice").
Proof.
  intros Hwf Hnd Hin.
  rewrite forallb_app in Hwf. cbn [forallb] in Hwf.
  apply andb_true_iff in Hwf as [Hwf1 He]. rewrite andb_true_r in He.
  unfold engines_text. rewrite List.map_app, concat_app. cbn [List.map List.concat].
  fold (engines_text es1). fold (engines_text es2).
  set (tail := engine_text e ++ engines_text es2).
  assert (Hcr : no_cr (engines_text es1 ++ engine_text e) = true).
  { unfold no_cr. rewrite forallb_app. apply andb_true_iff. split.
    - apply (engines_text_no_cr _ Hwf1).
    - apply P_engine_text; auto using text_char_no_cr, plain_char_no_cr. }
  unfold tail. rewrite app_assoc.
  set (src := (engines_text es1 ++ engine_text e) ++ replace_crlf (engines_text es2)).
  rewrite (loads_with_fuel _ (2 * len src + 3))
    by (rewrite replace_crlf_app by exact Hcr; fold src; lia).
  rewrite replace_crlf_app by exact Hcr. fold src.
  unfold src. rewrite <- app_assoc.
  set (rest := replace_crlf (engines_text es2)).
  pose proof (well_formed_engine_id e He) as Hk.
  pose proof (loads_loop_engines es1 [] (2 * len (engines_text es1 ++ engine_text e ++ rest) + 3)
                (S (2 * len (engine_text e ++ rest) + 3))
                (engine_text e ++ rest) Hwf1 Hnd (le_n _)) as H.
  cbn [app engines_state engines_header last] in H. rewrite H by lia. clear H.
  destruct (known_engine_id _ _ Hin) as [frozen Hfr].
  destruct es1 as [|a es1]; [destruct Hin|].
  cbn [engines_state]. rewrite engine_text_lines, <- !app_assoc.
  change ([LF] ++ engine_lines e ++ rest) with (LF :: engine_lines e ++ rest).
  rewrite (loads_loop_declared_twice _ _ _ _ _ _ frozen); [reflexivity|exact Hk|lia|exact Hfr].
Qed.

(** * UTF-8: what decodes was encoded *)

Lemma digits64_2 x y :
  y < 64 -> (x * 64 + y) / 64 = x /\ (x * 64 + y) mod 64 = y.
Proof.
  intros Hy. split.
  - symmetry. apply (N.div_unique _ _ _ y); lia.
  - symmetry. apply (N.mod_unique _ _ x); lia.
Qed.

Lemma digits64_3 x y z :
  y < 64 -> z < 64 ->
  (x * 4096 + y * 64 + z) / 4096 = x /\
  ((x * 4096 + y * 64 + z) / 64) mod 64 = y /\
  (x * 4096 + y * 64 + z) mod 64 = z.
Proof.
  intros Hy Hz. split; [|split].
  - symmetry. apply (N.div_unique _ _ _ (y * 64 + z)); lia.
  - replace (x * 4096 + y * 64 + z) with ((x * 64 + y) * 64 + z) by lia.
    rewrite (proj1 (digits64_2 _ z Hz)). apply digits64_2, Hy.
  - replace (x * 4096 + y * 64 + z) with ((x * 64 + y) * 64 + z) by lia.
    apply digits64_2, Hz.
Qed.

Lemma digits64_4 x y z t :
  y < 64 -> z < 64 -> t < 64 ->
  (x * 262144 + y * 4096 + z * 64 + t) / 262144 = x /\
  ((x * 262144 + y * 4096 + z * 64 + t) / 4096) mod 64 = y /\
  ((x * 262144 + y * 4096 + z * 64 + t) / 64) mod 64 = z /\
  (x * 262144 + y * 4096 + z * 64 + t) mod 64 = t.
Proof.
  intros Hy Hz Ht. split; [|split].
  - symmetry. apply (N.div_unique _ _ _ (y * 4096 + z * 64 + t)); lia.
  - replace (x * 262144 + y * 4096 + z * 64 + t)
      with ((x * 64 + y) * 4096 + z * 64 + t) by lia.
    rewrite (proj1 (digits64_3 _ z t Hz Ht)). apply digits64_2, Hy.
  - replace (x * 262144 + y * 4096 + z * 64 + t)
      with ((x * 64 + y) * 4096 + z * 64 + t) by lia.
    destruct (digits64_3 (x * 64 + y) z t Hz Ht) as (_ & H2 & H3). auto.
Qed.

Lemma utf8_decode_exact_len n bs s :
  (List.length bs <= n)%nat ->
  utf8_decode bs = Some s ->
  scalar_text s = true /\ List.concat (List.map utf8_encode_char s) = bs.
Proof.
  revert bs s. induction n as [|n IH]; intros bs s Hn.
  { destruct bs; [|simpl in Hn; lia]. intros [= <-]. split; reflexivity. }
  destruct bs as [|b0 bs]; [intros [= <-]; split; reflexivity|].
  cbn [utf8_decode]. unfold is_cont, scalar_text.
  destruct (b0 <? 128) eqn:E1.
  { destruct (utf8_decode bs) as [s'|] eqn:Ed; [|discriminate]. intros [= <-].
    apply IH in Ed as [Hs Hc]; [|simpl in Hn; lia].
    cbn [forallb List.map List.concat]. rewrite Hc. unfold utf8_encode_char. rewrite E1.
    split; [|reflexivity]. apply andb_true_iff. split; [|exact Hs].
    unfold is_unicode_scalar_value, in_range. bool_arith.
    apply orb_true_iff. left. apply andb_true_iff. split; apply N.leb_le; lia. }
  destruct (in_range 194 223 b0) eqn:E2.
  { destruct bs as [|b1 bs]; [discriminate|].
    destruct (in_range 128 191 b1) eqn:E3; [|discriminate].
    destruct (utf8_decode bs) as [s'|] eqn:Ed; [|discriminate]. intros [= <-].
    apply IH in Ed as [Hs Hc]; [|simpl in Hn; lia].
    cbn [forallb List.map List.concat]. bool_arith.
    assert (Hb0 : b0 = 192 + (b0 - 192)) by lia.
    assert (Hb1 : b1 = 128 + (b1 - 128)) by lia.
    set (x := b0 - 192) in *. set (y := b1 - 128) in *.
    assert (Hx : 2 <= x <= 31) by lia. assert (Hy : y < 64) by lia.
    clearbody x y. subst b0 b1.
    destruct (digits64_2 x y Hy) as [Hd Hm].
    split.
    - apply andb_true_iff. split; [|exact Hs].
      unfold is_unicode_scalar_value, in_range.
      apply orb_true_iff. left. apply andb_true_iff. split; apply N.leb_le; lia.
    - rewrite Hc. unfold utf8_encode_char.
      replace (x * 64 + y <? 128) with false by (symmetry; apply N.ltb_ge; lia).
      replace (x * 64 + y <? 2048) with true by (symmetry; apply N.ltb_lt; lia).
      rewrite Hd, Hm. reflexivity. }
  destruct (in_range 224 239 b0) eqn:E3.
  { destruct bs as [|b1 [|b2 bs]]; try discriminate.
    destruct (in_range _ _ b1 && in_range 128 191 b2) eqn:E4; [|discriminate].
    destruct (utf8_decode bs) as [s'|] eqn:Ed; [|discriminate]. intros [= <-].
    apply IH in Ed as [Hs Hc]; [|simpl in Hn; lia].
    cbn [forallb List.map List.concat].
    apply andb_true_iff in E4 as [E4 E5]. unfold in_range in E4, E5.
    apply andb_true_iff in E4 as [E4a E4b].
    assert (Hlo : (if b0 =? 224 then 160 else 128) <= b1) by (apply N.leb_le, E4a).
    assert (Hhi : b1 <= (if b0 =? 237 then 159 else 191)) by (apply N.leb_le, E4b).
    clear E4a E4b. bool_arith.
    assert (Hb0 : b0 = 224 + (b0 - 224)) by lia.
    assert (Hb1 : b1 = 128 + (b1 - 128)) by (destruct (b0 =? 224); lia).
    assert (Hb2 : b2 = 128 + (b2 - 128)) by lia.
    set (x := b0 - 224) in *. set (y := b1 - 128) in *. set (z := b2 - 128) in *.
    assert (Hx : x <= 15) by lia.
    assert (Hy : y < 64) by (destruct (b0 =? 237); lia).
    assert (Hz : z < 64) by lia.
    assert (Hlo' : x = 0 -> 32 <= y).
    { intros Hx0. replace (b0 =? 224) with true in Hlo by (symmetry; apply N.eqb_eq; lia). lia. }
    assert (Hhi' : x = 13 -> y <= 31).
    { intros Hx0. replace (b0 =? 237) with true in Hhi by (symmetry; apply N.eqb_eq; lia). lia. }
    clear Hlo Hhi E1 E2.
    clearbody x y z. subst b0 b1 b2.
    destruct (digits64_3 x y z Hy Hz) as (Hd & Hm1 & Hm0).
    split.
    - apply andb_true_iff. split; [|exact Hs].
      unfold is_unicode_scalar_value, in_range. apply orb_true_iff.
      destruct (N.le_gt_cases x 13) as [Hle|Hgt].
      + left. apply andb_true_iff. split; apply N.leb_le; [lia|].
        destruct (N.eq_dec x 13) as [E|E]; [specialize (Hhi' E)|]; lia.
      + right. apply andb_true_iff. split; apply N.leb_le; lia.
    - rewrite Hc. unfold utf8_encode_char.
      assert (2048 <= x * 4096 + y * 64 + z).
      { destruct (N.eq_dec x 0) as [E|E]; [specialize (Hlo' E)|]; lia. }
      replace (x * 4096 + y * 64 + z <? 128) with false by (symmetry; apply N.ltb_ge; lia).
      replace (x * 4096 + y * 64 + z <? 2048) with false by (symmetry; apply N.ltb_ge; lia).
      replace (x * 4096 + y * 64 + z <? 65536) with true by (symmetry; apply N.ltb_lt; lia).
      rewrite Hd, Hm1, Hm0. reflexivity. }
  destruct (in_range 240 244 b0) eqn:E4; [|discriminate].
  destruct bs as [|b1 [|b2 [|b3 bs]]]; try discriminate.
  destruct (in_range _ _ b1 && in_range 128 191 b2 && in_range 128 191 b3) eqn:E5;
    [|discriminate].
  destruct (utf8_decode bs) as [s'|] eqn:Ed; [|discriminate]. intros [= <-].
  apply IH in Ed as [Hs Hc]; [|simpl in Hn; lia].
  cbn [forallb List.map List.concat].
  apply andb_true_iff in E5 as [E5 E7]. apply andb_true_iff in E5 as [E5 E6].
  unfold in_range in E5. apply andb_true_iff in E5 as [E5a E5b].
  assert (Hlo : (if b0 =? 240 then 144 else 128) <= b1) by (apply N.leb_le, E5a).
  assert (Hhi : b1 <= (if b0 =? 244 then 143 else 191)) by (apply N.leb_le, E5b).
  clear E5a E5b. bool_arith.
  assert (Hb0 : b0 = 240 + (b0 - 240)) by lia.
  assert (Hb1 : b1 = 128 + (b1 - 128)) by (destruct (b0 =? 240); lia).
  assert (Hb2 : b2 = 128 + (b2 - 128)) by lia.
  assert (Hb3 : b3 = 128 + (b3 - 128)) by lia.
  set (x := b0 - 240) in *. set (y := b1 - 128) in *.
  set (z := b2 - 128) in *. set (t := b3 - 128) in *.
  assert (Hx : x <= 4) by lia.
  assert (Hy : y < 64) by (destruct (b0 =? 244); lia).
  assert (Hz : z < 64) by lia. assert (Ht : t < 64) by lia.
  assert (Hlo' : x = 0 -> 16 <= y).
  { intros Hx0. replace (b0 =? 240) with true in Hlo by (symmetry; apply N.eqb_eq; lia). lia. }
  assert (Hhi' : x = 4 -> y <= 15).
  { intros Hx0. replace (b0 =? 244) with true in Hhi by (symmetry; apply N.eqb_eq; lia). lia. }
  clear Hlo Hhi E1 E2 E3.
  clearbody x y z t. subst b0 b1 b2 b3.
  destruct (digits64_4 x y z t Hy Hz Ht) as (Hd & Hm2 & Hm1 & Hm0).
  assert (65536 <= x * 262144 + y * 4096 + z * 64 + t).
  { destruct (N.eq_dec x 0) as [E|E]; [specialize (Hlo' E)|]; lia. }
  assert (x * 262144 + y * 4096 + z * 64 + t <= 1114111).
  { destruct (N.eq_dec x 4) as [E|E]; [specialize (Hhi' E)|]; lia. }
  split.
  - apply andb_true_iff. split; [|exact Hs].
    unfold is_unicode_scalar_value, in_range. apply orb_true_iff.
    right. apply andb_true_iff. split; apply N.leb_le; lia.
  - rewrite Hc. unfold utf8_encode_char.
    replace (x * 262144 + y * 4096 + z * 64 + t <? 128) with false
      by (symmetry; apply N.ltb_ge; lia).
    replace (x * 262144 + y * 4096 + z * 64 + t <? 2048) with false
      by (symmetry; apply N.ltb_ge; lia).
    replace (x * 262144 + y * 4096 + z * 64 + t <? 65536) with false
      by (symmetry; apply N.ltb_ge; lia).
    rewrite Hd, Hm2, Hm1, Hm0. reflexivity.
Qed.

Lemma bytes_of_byte_values b : bytes_of_values (byte_values b) = b.
Proof.
  unfold bytes_of_values, byte_values. rewrite List.map_map.
  rewrite <- (string_of_list_ascii_of_string b) at 2. f_equal.
  induction (list_ascii_of_string b) as [|a l IH]; [reflexivity|].
  cbn [List.map]. rewrite ascii_N_embedding, IH. reflexivity.
Qed.

Lemma utf8_decode_exact b s :
  utf8_decode (byte_values b) = Some s -> scalar_text s = true /\ utf8_encode s = b.
Proof.
  intros H. apply (utf8_decode_exact_len _ _ _ (le_n _)) in H as [Hs Hc].
  split; [exact Hs|]. unfold utf8_encode. rewrite Hc. apply bytes_of_byte_values.
Qed.

(** * A field given twice *)

Lemma key_value_rule_overwrite fuel k vt r v out header nest :
  bare_key k = true -> skip_chars TOML_WS vt = vt ->
  parse_value fuel vt = Got (r, v) ->
  flags_is (flags out) header FROZEN = false ->
  get_or_create_nest header true (data out) = Got nest ->
  dict_mem k nest = true ->
  key_value_rule fuel (k ++ u " = " ++ vt) out header =
  Fail (TOMLDecodeError "Cannot overwrite a value").
Proof.
  intros Hk Hws Hv Hfl Hnest Hmem. unfold key_value_rule.
  rewrite (parse_key_value_pair_simple _ _ _ _ _ Hk Hws Hv). cbn [pbind].
  change (relative_path_cont_keys header [k]) with (@nil Key).
  change (key_parent [k]) with (@nil str). change (key_stem [k]) with k.
  cbn [check_cont_keys pbind]. rewrite app_nil_r, Hfl, Hnest.
  cbn [except_KeyError pbind]. rewrite Hmem. reflexivity.
Qed.

Lemma loads_loop_overwrite fuel k s tail entries nodes id fields frozen :
  bare_key k = true -> plain s = true -> (len s + 2 < fuel)%nat ->
  dict_mem id entries = false -> dict_mem id nodes = false ->
  dict_mem k fields = true ->
  loads_loop (S fuel) (k ++ u " = " ++ quoted s ++ LF :: tail)
    (MkOutput (open_table entries id fields) (open_flags nodes id frozen))
    [u "engines"; id] =
  Fail (TOMLDecodeError "Cannot overwrite a value").
Proof.
  intros Hk Hs Hf He Hn Hmem. cbn [loads_loop].
  rewrite skip_ws_bare by exact Hk.
  rewrite (key_value_rule_overwrite fuel k (quoted s ++ LF :: tail) (LF :: tail) (VStr s)
             _ _ fields Hk).
  - destruct (bare_key_spec k Hk) as (c & k' & -> & Hc & _).
    apply bare_char_spec in Hc as (_ & Hlf & Hki & _).
    cbn [app]. rewrite Hlf, Hki. reflexivity.
  - reflexivity.
  - apply parse_value_quoted; [exact Hs|reflexivity|lia].
  - apply open_not_frozen, Hn.
  - apply open_nest, He.
  - exact Hmem.
Qed.

Lemma bare_key_no_cr k : bare_key k = true -> no_cr k = true.
Proof.
  unfold bare_key, no_cr. rewrite andb_true_iff. intros [_ H]. revert H.
  apply forallb_impl. intros c Hc. apply bare_char_spec in Hc as (_ & _ & _ & ->).
  reflexivity.
Qed.

Lemma plain_no_cr s : plain s = true -> no_cr s = true.
Proof. apply forallb_impl, plain_char_no_cr. Qed.

(** The text of an entry with one more line for the field [k]. *)
Lemma loads_field_twice e k s rest :
  well_formed_engine e = true -> bare_key k = true -> plain s = true ->
  dict_mem k (engine_fields e) = true ->
  loads (engine_text e ++ k ++ u " = " ++ quoted s ++ LF :: rest) =
  Raise (TOMLDecodeError "Cannot overwrite a value").
Proof.
  intros He Hk Hs Hmem.
  set (line := k ++ u " = " ++ quoted s ++ [LF]).
  assert (Hcr : no_cr (engine_text e ++ line) = true).
  { pose proof (bare_key_no_cr k Hk) as H1. pose proof (plain_no_cr s Hs) as H2.
    pose proof (P_engine_text _ text_char_no_cr plain_char_no_cr e He) as H3.
    unfold no_cr, line, quoted in *. rewrite !forallb_app. cbn [forallb].
    rewrite ?forallb_app. cbn [forallb].
    repeat (apply andb_true_iff; split); first [exact H1|exact H2|exact H3|reflexivity]. }
  replace (engine_text e ++ k ++ u " = " ++ quoted s ++ LF :: rest)
    with ((engine_text e ++ line) ++ rest)
    by (unfold line; rewrite <- !app_assoc; reflexivity).
  set (src := (engine_text e ++ line) ++ replace_crlf rest).
  set (F := (2 * len src + 3)%nat).
  rewrite (loads_with_fuel _ (S (engine_line_count e + S F)))
    by (rewrite replace_crlf_app by exact Hcr; fold src; unfold F; lia).
  rewrite replace_crlf_app by exact Hcr.
  rewrite <- app_assoc.
  assert (Hlen : (len (engine_text e) <= S F)%nat).
  { unfold F, src. rewrite !length_app. lia. }
  pose proof (loads_loop_engine (S F) [] e (line ++ replace_crlf rest) He
                (fun H : In (engine_id e) (engine_ids []) => H) Hlen) as H.
  cbn [engines_state engines_header last] in H. rewrite H. clear H.
  rewrite engines_state_snoc, engines_header_snoc.
  unfold line. rewrite <- !app_assoc. cbn [app List.map].
  rewrite loads_loop_overwrite; [reflexivity|exact Hk|exact Hs| |reflexivity|reflexivity|exact Hmem].
  unfold F, src, line, quoted. rewrite !length_app. cbn [List.length]. rewrite !length_app. lia.
Qed.

(** * Runs of [init] and [main] *)

(** Resolution stops at the first ancestor that is missing. *)
Lemma walk_missing (fs : filesys) (pre rest : path) (i : nat) :
  (i < List.length rest)%nat ->
  (forall j, (j < i)%nat ->
     exists pm, fs !! (pre ++ take j rest) = Some (Dir pm) /\ can_search pm = true) ->
  fs !! (pre ++ take i rest) = None ->
  walk fs pre rest = Some FileNotFoundError.
Proof.
  revert pre i. induction rest as [|c rest IH]; intros pre i Hi Hdirs Hnone; [simpl in Hi; lia|].
  cbn [walk]. destruct i as [|i].
  - rewrite take_0, app_nil_r in Hnone. rewrite Hnone. reflexivity.
  - destruct (Hdirs 0%nat ltac:(lia)) as (pm & Hpm & Hs).
    rewrite take_0, app_nil_r in Hpm. rewrite Hpm, Hs.
    apply (IH _ i); [simpl in Hi; lia| |].
    + intros j Hj. destruct (Hdirs (S j) ltac:(lia)) as (pm' & Hpm' & Hs').
      exists pm'. rewrite <- app_assoc. auto.
    + rewrite <- app_assoc. exact Hnone.
Qed.

(** Resolution stops at an ancestor that is a regular file. *)
Lemma walk_file (fs : filesys) (pre rest : path) (i : nat) pm c :
  (i < List.length rest)%nat ->
  (forall j, (j < i)%nat ->
     exists pm, fs !! (pre ++ take j rest) = Some (Dir pm) /\ can_search pm = true) ->
  fs !! (pre ++ take i rest) = Some (File pm c) ->
  walk fs pre rest = Some NotADirectoryError.
Proof.
  revert pre i. induction rest as [|d rest IH]; intros pre i Hi Hdirs Hfile; [simpl in Hi; lia|].
  cbn [walk]. destruct i as [|i].
  - rewrite take_0, app_nil_r in Hfile. rewrite Hfile. reflexivity.
  - destruct (Hdirs 0%nat ltac:(lia)) as (pm' & Hpm & Hs).
    rewrite take_0, app_nil_r in Hpm. rewrite Hpm, Hs.
    apply (IH _ i); [simpl in Hi; lia| |].
    + intros j Hj. destruct (Hdirs (S j) ltac:(lia)) as (pm'' & Hpm' & Hs').
      exists pm''. rewrite <- app_assoc. auto.
    + rewrite <- app_assoc. exact Hfile.
Qed.

Lemma take_inj_len {A} (p : list A) i j :
  (i <= List.length p)%nat -> (j <= List.length p)%nat -> take i p = take j p -> i = j.
Proof.
  intros Hi Hj E. apply (f_equal (@List.length A)) in E.
  rewrite !length_take in E. lia.
Qed.

Lemma make_dirs_old (p : path) (k m : nat) (fs : filesys) (q : path) :
  (forall j, (k < j <= k + m)%nat -> q <> take j p) ->
  make_dirs p k m fs !! q = fs !! q.
Proof.
  induction m as [|m IH]; intros H; [reflexivity|].
  cbn [make_dirs]. rewrite lookup_insert_ne.
  - apply IH. intros j Hj. apply H. lia.
  - intros E. symmetry in E. revert E. apply H. lia.
Qed.

Lemma make_dirs_new (p : path) (k m : nat) (fs : filesys) (j : nat) :
  (k < j <= k + m)%nat -> make_dirs p k m fs !! take j p = Some new_dir.
Proof.
  induction m as [|m IH]; intros H; [lia|].
  cbn [make_dirs]. destruct (decide (j = k + S m)%nat) as [->|Hne].
  - apply lookup_insert_eq.
  - destruct (decide (take (k + S m) p = take j p)) as [E|E].
    + rewrite E. apply lookup_insert_eq.
    + rewrite lookup_insert_ne by exact E. apply IH. lia.
Qed.

Lemma parent_take (p : path) (n : nat) :
  (n < List.length p)%nat -> parent (take (S n) p) = take n p.
Proof. intros H. unfold parent. apply removelast_firstn, H. Qed.

(** [os.mkdir] where the parent is a directory that may be written. *)
Lemma os_mkdir_creates (p : path) (n : nat) w pm :
  (n < List.length p)%nat ->
  resolve (fs w) (take (S n) p) = None ->
  fs w !! take (S n) p = None ->
  fs w !! take n p = Some (Dir pm) -> can_write pm = true ->
  os_mkdir (take (S n) p) w =
  (Return tt, World (<[take (S n) p := new_dir]> (fs w)) (stdout w) (calls w)).
Proof.
  intros Hn Hres Hnone Hpar Hw. unfold os_mkdir, bind, get_fs.
  destruct (take (S n) p) as [|c q] eqn:E.
  { apply (f_equal (@List.length string)) in E. rewrite length_take in E. cbn [List.length] in E. lia. }
  rewrite Hres, Hnone. unfold dir_writable. rewrite <- E, parent_take by exact Hn.
  rewrite Hpar, Hw. reflexivity.
Qed.

(** [os.mkdir] where an ancestor is missing. *)
Lemma os_mkdir_missing (p : path) (n i : nat) w :
  (S i < n)%nat -> (n <= List.length p)%nat ->
  resolve (fs w) (take i p) = None ->
  (exists pm, fs w !! take i p = Some (Dir pm) /\ can_search pm = true) ->
  fs w !! take (S i) p = None ->
  os_mkdir (take n p) w = (Raise (OSError FileNotFoundError), w).
Proof.
  intros Hi Hn Hres Hdir Hnone. unfold os_mkdir, bind, get_fs.
  destruct (take n p) as [|c q] eqn:E.
  { apply (f_equal (@List.length string)) in E. rewrite length_take in E. cbn [List.length] in E. lia. }
  rewrite <- E.
  assert (Hw : resolve (fs w) (take n p) = Some FileNotFoundError).
  { unfold resolve. apply (walk_missing _ _ _ (S i)).
    - rewrite length_take. lia.
    - intros j Hj. cbn [app]. rewrite take_take. replace (j `min` n)%nat with j by lia.
      destruct (decide (j = i)) as [->|Hne]; [exact Hdir|].
      rewrite resolve_None in Hres. destruct (Hres j) as (pm' & Hpm' & Hs').
      { rewrite length_take. lia. }
      rewrite take_take in Hpm'. replace (j `min` i)%nat with j in Hpm' by lia. eauto.
    - cbn [app]. rewrite take_take. replace (S i `min` n)%nat with (S i) by lia.
      exact Hnone. }
  rewrite Hw. reflexivity.
Qed.

Lemma world_eta w : World (fs w) (stdout w) (calls w) = w.
Proof. destruct w; reflexivity. Qed.

(** [Path.mkdir(parents=True)] makes the whole chain of missing
    directories below a directory that may be searched and written. *)
Lemma mkdir_parents_creates (p : path) (k m : nat) w pm :
  (k + m <= List.length p)%nat ->
  resolve (fs w) (take k p) = None ->
  fs w !! take k p = Some (Dir pm) ->
  can_search pm = true -> can_write pm = true ->
  (forall j, (k < j <= k + m)%nat -> fs w !! take j p = None) ->
  mkdir_parents p (k + m) w =
  (Return tt, World (make_dirs p k m (fs w)) (stdout w) (calls w)).
Proof.
  intros Hlen Hres Hdir Hs Hw. revert w Hlen Hres Hdir.
  induction m as [|m IH]; intros w Hlen Hres Hdir Hnone.
  - rewrite Nat.add_0_r. cbn [make_dirs]. rewrite world_eta.
    apply mkdir_parents_existing. split; eauto.
  - assert (Hres1 : forall (fs1 : filesys) n,
              (k <= n <= k + m)%nat ->
              (forall j, (j <= k)%nat -> fs1 !! take j p = fs w !! take j p) ->
              (forall j, (k < j <= n)%nat -> fs1 !! take j p = Some new_dir) ->
              resolve fs1 (take (S n) p) = None).
    { intros fs1 n Hn Hold Hnew. apply resolve_None. intros j Hj.
      rewrite length_take in Hj. rewrite take_take.
      replace (j `min` S n)%nat with j by lia.
      destruct (decide (j < k)%nat) as [Hjk|Hjk].
      - rewrite Hold by lia. rewrite resolve_None in Hres.
        destruct (Hres j) as (pm' & Hpm' & Hs'); [rewrite length_take; lia|].
        rewrite take_take in Hpm'. replace (j `min` k)%nat with j in Hpm' by lia. eauto.
      - destruct (decide (j = k)) as [->|Hne].
        + rewrite Hold by lia. eauto.
        + rewrite Hnew by lia. unfold new_dir. eauto. }
    replace (k + S m)%nat with (S (k + m)) by lia.
    rewrite mkdir_parents_unfold. unfold try_except.
    destruct m as [|m].
    + rewrite Nat.add_0_r in *.
      rewrite (os_mkdir_creates p k w pm); [|lia| | |exact Hdir|exact Hw].
      * cbn [make_dirs]. replace (k + 1)%nat with (S k) by lia. reflexivity.
      * apply Hres1; [lia|auto|intros; lia].
      * apply Hnone. lia.
    + rewrite (os_mkdir_missing p (S (k + S m)) k w); [|lia|lia|exact Hres|eauto|apply Hnone; lia].
      unfold bind. rewrite IH; [|lia|exact Hres|exact Hdir|intros; apply Hnone; lia].
      unfold mkdir_no_parents, try_except.
      set (fs1 := make_dirs p k (S m) (fs w)).
      rewrite (os_mkdir_creates p (k + S m) _ (Perm true true true)); cbn [fs stdout calls].
      * cbn [make_dirs]. fold fs1. replace (k + S (S m))%nat with (S (k + S m)) by lia.
        reflexivity.
      * lia.
      * apply Hres1; [lia| |].
        -- intros j Hj. apply make_dirs_old. intros i Hi E.
           apply take_inj_len in E; lia.
        -- intros j Hj. apply make_dirs_new. lia.
      * unfold fs1. rewrite make_dirs_old; [apply Hnone; lia|].
        intros i Hi E. apply take_inj_len in E; lia.
      * apply make_dirs_new. lia.
      * reflexivity.
Qed.

Lemma parent_config_toml dirs : parent (config_toml dirs) = user_config_path dirs.
Proof. unfold parent, config_toml. apply removelast_last. Qed.

Lemma config_toml_ne_nil dirs : config_toml dirs <> [].
Proof. unfold config_toml. intros E. apply app_eq_nil in E as [_ E]. discriminate E. Qed.

(** Where the configuration directory is a directory that may be
    searched and written and holds no [config.toml], [init] creates the
    file with the template. *)
Lemma init_in_directory dirs w pm :
  resolve (fs w) (user_config_path dirs) = None ->
  fs w !! user_config_path dirs = Some (Dir pm) ->
  can_search pm = true -> can_write pm = true ->
  fs w !! config_toml dirs = None ->
  (let! _ := open_w (config_toml dirs) in
   file_write (config_toml dirs) EXAMPLE_CONFIG) w =
  (Return tt,
   World (<[config_toml dirs := new_file (utf8_encode EXAMPLE_CONFIG)]> (fs w))
         (stdout w) (calls w)).
Proof.
  intros Hres Hdir Hs Hw Hnone.
  assert (Hres' : resolve (fs w) (config_toml dirs) = None).
  { apply resolve_None. intros j Hj. rewrite length_config_toml in Hj.
    rewrite take_config_toml by lia.
    destruct (decide (j = List.length (user_config_path dirs))) as [->|Hne].
    - rewrite firstn_all. eauto.
    - rewrite resolve_None in Hres. apply Hres. lia. }
  unfold bind at 1. unfold open_w, bind, get_fs. rewrite Hres', Hnone.
  pose proof (config_toml_ne_nil dirs) as Hne.
  destruct (config_toml dirs) as [|c q] eqn:E; [congruence|]. rewrite <- E in *.
  unfold dir_writable. rewrite parent_config_toml, Hdir, Hw.
  unfold set_fs, file_write, bind, get_fs. cbn [fs stdout calls].
  rewrite lookup_insert_eq. unfold new_file, set_fs. cbn [fs stdout calls].
  rewrite insert_insert_eq. reflexivity.
Qed.

Lemma init_unfold dirs w :
  init dirs w =
  (let! _ := Path_mkdir (user_config_path dirs) in
   let! _ := open_w (config_toml dirs) in
   file_write (config_toml dirs) EXAMPLE_CONFIG)
    (World (fs w) (stdout w) (calls w ++ [CallInit])).
Proof. reflexivity. Qed.

(** What [init] leaves behind, whatever its outcome: directories made
    on the way to the configuration directory, and the configuration
    file changed only when [init] returns. *)
Lemma init_outcome dirs w r w' :
  init dirs w = (r, w') ->
  (forall q, q <> config_toml dirs ->
     fs w' !! q = fs w !! q \/
     (fs w !! q = None /\ fs w' !! q = Some new_dir /\
      exists k, (k <= List.length (user_config_path dirs))%nat /\
                q = take k (user_config_path dirs))) /\
  (r = Return tt \/
   ((exists k, r = Raise (OSError k)) /\
    fs w' !! config_toml dirs = fs w !! config_toml dirs)).
Proof.
  intros Hi. destruct r as [[]|e].
  { apply init_success in Hi as (_ & _ & _ & _ & Hframe). auto. }
  revert Hi. rewrite init_unfold. unfold Path_mkdir. unfold bind at 1.
  set (w0 := World (fs w) (stdout w) (calls w ++ [CallInit])).
  destruct (mkdir_parents _ _ w0) as [r1 w1] eqn:E1.
  apply mkdir_parents_spec in E1 as (_ & Hmd & E1). cbn [fs w0] in Hmd.
  assert (Hcfg : fs w1 !! config_toml dirs = fs w !! config_toml dirs).
  { destruct (Hmd (config_toml dirs)) as [E|(_ & _ & k & _ & E)]; [exact E|].
    symmetry in E. apply config_toml_not_prefix in E. contradiction. }
  destruct E1 as [(k & ->)|(-> & _)].
  { intros [= <- <-]. split; [intros q _; apply Hmd|]. right. eauto. }
  unfold bind at 1. destruct (open_w _ w1) as [r2 w2] eqn:E2.
  apply open_w_spec in E2 as (_ & E2).
  destruct E2 as [(k & -> & Hfs)|(-> & _)].
  - intros [= <- <-]. rewrite Hfs. split; [intros q _; apply Hmd|]. right. eauto.
  - destruct (file_write_spec (config_toml dirs) EXAMPLE_CONFIG w2) as (w3 & -> & _).
    discriminate.
Qed.

Lemma load_missing_file dirs w :
  fs w !! config_toml dirs = None ->
  exists k, load dirs w =
            (Raise (OSError k), World (fs w) (stdout w) (calls w ++ [CallLoad])).
Proof.
  intros Hnone. rewrite load_unfold. unfold read_file. rewrite Hnone.
  destruct (resolve _ _); eauto.
Qed.

Lemma main_on_io_error dirs w k :
  (load dirs w).1 = Raise (OSError k) ->
  main dirs w = init dirs (World (fs w) (stdout w) (calls w ++ [CallLoad])).
Proof.
  rewrite load_unfold. cbn [fst]. intros H.
  unfold main, try_except, bind. rewrite load_unfold, H. reflexivity.
Qed.

Lemma main_on_document dirs w d :
  (load dirs w).1 = Return d ->
  repr_too_long (VDict d) = false ->
  main dirs w = (Return tt, World (fs w) (stdout w ++ [d]) (calls w ++ [CallLoad])).
Proof.
  rewrite load_unfold. cbn [fst]. intros H Hd.
  unfold main, try_except, bind. rewrite load_unfold, H.
  unfold print. rewrite Hd. reflexivity.
Qed.

Lemma walk_kinds (fs : filesys) (pre rest : path) k :
  walk fs pre rest = Some k ->
  k = FileNotFoundError \/ k = NotADirectoryError \/ k = PermissionError.
Proof.
  revert pre. induction rest as [|c rest IH]; intros pre; cbn [walk]; [discriminate|].
  destruct (fs !! pre) as [[pm|pm b]|]; [|intros [= <-]; auto..].
  destruct (can_search pm); [apply IH|intros [= <-]; auto].
Qed.

(** * The parser raises no [IndexError] *)

(** ** Dictionaries *)

Lemma str_eqb_neq a b : a <> b -> str_eqb a b = false.
Proof. intros H. unfold str_eqb. apply bool_decide_eq_false_2, H. Qed.

Lemma dict_get_set_eq {V} k (v : V) d : dict_get k (dict_set k v d) = Some v.
Proof.
  induction d as [|[k' v'] d IH]; cbn [dict_set dict_get].
  - rewrite str_eqb_refl. reflexivity.
  - destruct (str_eqb k k') eqn:E; cbn [dict_get]; rewrite E; [reflexivity|exact IH].
Qed.

Lemma dict_get_set_ne {V} k k' (v : V) d :
  k <> k' -> dict_get k' (dict_set k v d) = dict_get k' d.
Proof.
  intros Hne. induction d as [|[k2 v2] d IH]; cbn [dict_set dict_get].
  - rewrite str_eqb_neq by congruence. reflexivity.
  - destruct (str_eqb k k2) eqn:E; cbn [dict_get].
    + apply str_eqb_eq in E. subst k2. rewrite !str_eqb_neq by congruence. reflexivity.
    + rewrite IH. reflexivity.
Qed.

Lemma dict_get_pop_ne {V} k k' (d : list (str * V)) :
  k <> k' -> dict_get k' (dict_pop k d) = dict_get k' d.
Proof.
  intros Hne. induction d as [|[k2 v2] d IH]; cbn [dict_pop dict_get]; [reflexivity|].
  destruct (str_eqb k k2) eqn:E; cbn [dict_get].
  - apply str_eqb_eq in E. subst k2. rewrite str_eqb_neq by congruence. reflexivity.
  - rewrite IH. reflexivity.
Qed.

Lemma list_last_set_last {A} (l : list A) v : l <> [] -> list_last (set_last l v) = Some v.
Proof.
  unfold list_last. induction l as [|x l IH]; [congruence|]. intros _.
  destruct l as [|y l]; [reflexivity|].
  change (set_last (x :: y :: l) v) with (x :: set_last (y :: l) v).
  specialize (IH ltac:(discriminate)).
  destruct (set_last (y :: l) v) as [|z t] eqn:E; [discriminate IH|].
  exact IH.
Qed.

Lemma list_last_nonempty {A} (l : list A) x : list_last l = Some x -> l <> [].
Proof. intros H ->. discriminate H. Qed.

(** ** [get_or_create_nest] and [put_nest] *)

Lemma goc_cons k key al cont :
  get_or_create_nest (k :: key) al cont =
  match dict_get k cont with
  | None => get_or_create_nest key al []
  | Some (VDict d) => get_or_create_nest key al d
  | Some (VList l) =>
      if al then
        match list_last l with
        | None => Fail IndexError
        | Some (VDict d) => get_or_create_nest key al d
        | Some _ => Fail KeyError
        end
      else Fail KeyError
  | Some _ => Fail KeyError
  end.
Proof.
  cbn [get_or_create_nest].
  destruct (dict_get k cont) as [[]|]; try reflexivity.
  destruct al; [|reflexivity].
  destruct (list_last l) as [[]|]; reflexivity.
Qed.

Lemma goc_empty key al : get_or_create_nest key al [] = Got [].
Proof. induction key as [|k key IH]; [reflexivity|]. rewrite goc_cons. exact IH. Qed.

Lemma goc_app P more al cont c :
  get_or_create_nest P al cont = Got c ->
  get_or_create_nest (P ++ more) al cont = get_or_create_nest more al c.
Proof.
  revert cont. induction P as [|k P IH]; intros cont; [intros [= ->]; reflexivity|].
  cbn [app]. rewrite !goc_cons.
  destruct (dict_get k cont) as [[]|]; try discriminate; try apply IH.
  destruct al; [|discriminate].
  destruct (list_last l) as [[]|]; try discriminate. apply IH.
Qed.

Lemma goc_false_nie key cont : nie (get_or_create_nest key false cont).
Proof.
  unfold nie. revert cont. induction key as [|k key IH]; intros cont; [discriminate|].
  rewrite goc_cons. destruct (dict_get k cont) as [[]|]; try discriminate; apply IH.
Qed.

(** The value of [k] decides what happens below [k]. *)
Lemma goc_cons_ext k key al cont cont' :
  dict_get k cont' = dict_get k cont ->
  get_or_create_nest (k :: key) al cont' = get_or_create_nest (k :: key) al cont.
Proof. intros H. rewrite !goc_cons, H. reflexivity. Qed.

Lemma put_nest_cons k P N cont :
  put_nest (k :: P) N cont =
  match dict_get k cont with
  | None => dict_set k (VDict (put_nest P N [])) cont
  | Some (VDict d) => dict_set k (VDict (put_nest P N d)) cont
  | Some (VList l) =>
      match list_last l with
      | Some (VDict d) => dict_set k (VList (set_last l (VDict (put_nest P N d)))) cont
      | _ => cont
      end
  | Some _ => cont
  end.
Proof. reflexivity. Qed.

(** Below the place of the change, the nest that was put is found. *)
Lemma goc_put_below P more N cont n0 :
  get_or_create_nest P true cont = Got n0 ->
  get_or_create_nest (P ++ more) true (put_nest P N cont) =
  get_or_create_nest more true N.
Proof.
  revert cont. induction P as [|k P IH]; intros cont H; [reflexivity|].
  cbn [app]. rewrite goc_cons in H. rewrite put_nest_cons, goc_cons.
  destruct (dict_get k cont) as [[]|] eqn:E; try discriminate H.
  - destruct (list_last l) as [[]|] eqn:El; try discriminate H.
    rewrite dict_get_set_eq.
    rewrite list_last_set_last by (eapply list_last_nonempty; eauto).
    apply IH, H.
  - rewrite dict_get_set_eq. apply IH, H.
  - rewrite dict_get_set_eq. apply IH, H.
Qed.

(** Elsewhere, what fails after the change failed before it. *)
Lemma goc_put_elsewhere P key N cont n0 e :
  get_or_create_nest P true cont = Got n0 ->
  (forall more, key <> P ++ more) ->
  get_or_create_nest key true (put_nest P N cont) = Fail e ->
  get_or_create_nest key true cont = Fail e.
Proof.
  revert cont key. induction P as [|k P IH]; intros cont key H Hne.
  { exfalso. apply (Hne key). reflexivity. }
  destruct key as [|k2 key]; [discriminate|].
  rewrite goc_cons in H. rewrite put_nest_cons.
  destruct (decide (k2 = k)) as [->|Hk].
  - assert (Hne' : forall more, key <> P ++ more).
    { intros more ->. apply (Hne more). reflexivity. }
    rewrite !goc_cons.
    destruct (dict_get k cont) as [[]|] eqn:E; try discriminate H.
    + destruct (list_last l) as [[]|] eqn:El; try discriminate H.
      rewrite dict_get_set_eq.
      rewrite list_last_set_last by (eapply list_last_nonempty; eauto).
      apply IH; assumption.
    + rewrite dict_get_set_eq. apply IH; assumption.
    + rewrite dict_get_set_eq. apply IH; assumption.
  - intros Hf. rewrite <- Hf. symmetry. apply goc_cons_ext.
    destruct (dict_get k cont) as [[]|] eqn:E; try discriminate H.
    + destruct (list_last l) as [[]|] eqn:El; try discriminate H.
      apply dict_get_set_ne. congruence.
    + apply dict_get_set_ne. congruence.
    + apply dict_get_set_ne. congruence.
Qed.

Lemma prefix_or_not (P key : Key) :
  (exists more, key = P ++ more) \/ (forall more, key <> P ++ more).
Proof.
  revert key. induction P as [|k P IH]; intros key; [left; eauto|].
  destruct key as [|k2 key]; [right; discriminate|].
  destruct (decide (k2 = k)) as [->|Hk].
  - destruct (IH key) as [[more ->]|Hne]; [left; eauto|].
    right. intros more [= E]. apply (Hne more E).
  - right. intros more [= E _]. contradiction.
Qed.

(** ** Flags *)

Lemma set_mem_add f g s : set_mem f s = true -> set_mem f (set_add g s) = true.
Proof.
  unfold set_add, set_mem. intros H. destruct (existsb (flag_eqb g) s); [exact H|].
  rewrite existsb_app, H. reflexivity.
Qed.

Lemma set_mem_add_eq f s : set_mem f (set_add f s) = true.
Proof.
  unfold set_add. destruct (set_mem f s) eqn:E; [exact E|].
  unfold set_mem. rewrite existsb_app. cbn [existsb].
  destruct f; cbn [flag_eqb]; rewrite orb_true_r; reflexivity.
Qed.

Lemma frozen_path_app p q cont :
  frozen_path p cont = true -> frozen_path (p ++ q) cont = true.
Proof.
  revert cont. induction p as [|k p IH]; intros cont; [discriminate|].
  cbn [app frozen_path]. destruct (dict_get k cont) as [[fs rs nested]|]; [|discriminate].
  destruct (set_mem FROZEN rs); [reflexivity|]. cbn [orb]. apply IH.
Qed.

Lemma frozen_path_is key cont :
  frozen_path key cont = true -> flags_is_in key FROZEN cont = true.
Proof.
  revert cont. induction key as [|k key IH]; intros cont; [discriminate|].
  cbn [frozen_path]. destruct key as [|k2 key].
  - cbn [flags_is_in frozen_path].
    destruct (dict_get k cont) as [[fs rs nested]|]; [|discriminate].
    rewrite orb_false_r. intros ->. apply orb_true_r.
  - change (flags_is_in (k :: k2 :: key) FROZEN cont)
      with (match dict_get k cont with
            | None => false
            | Some (FlagNode _ rs nested) =>
                if set_mem FROZEN rs then true else flags_is_in (k2 :: key) FROZEN nested
            end).
    destruct (dict_get k cont) as [[fs rs nested]|]; [|discriminate].
    destruct (set_mem FROZEN rs); [reflexivity|]. cbn [orb]. apply IH.
Qed.

Lemma flags_set_in_cons k key f r cont :
  flags_set_in (k :: key) f r cont =
  match key with
  | [] =>
      dict_set k (add_flag f r (match dict_get k cont with
                                | Some n => n
                                | None => empty_flagnode
                                end)) cont
  | _ =>
      match (match dict_get k cont with
             | Some n => n
             | None => empty_flagnode
             end) with
      | FlagNode fs rs nested =>
          dict_set k (FlagNode fs rs (flags_set_in key f r nested)) cont
      end
  end.
Proof. destruct key; reflexivity. Qed.

(** Setting a flag leaves what is immutable immutable. *)
Lemma frozen_path_set key key' f r cont :
  frozen_path key cont = true -> frozen_path key (flags_set_in key' f r cont) = true.
Proof.
  revert key cont. induction key' as [|k key' IH]; intros key cont H; [exact H|].
  destruct key as [|a key]; [discriminate H|].
  rewrite flags_set_in_cons. cbn [frozen_path] in *.
  destruct (decide (a = k)) as [->|Hne].
  - destruct (dict_get k cont) as [[fs rs nested]|] eqn:E; [|discriminate H].
    destruct key' as [|k2 key'].
    + rewrite dict_get_set_eq. cbn [add_flag].
      destruct r; [|exact H].
      apply orb_true_iff in H as [H|H]; [|rewrite H; apply orb_true_r].
      rewrite (set_mem_add _ _ _ H). reflexivity.
    + rewrite dict_get_set_eq.
      apply orb_true_iff in H as [H|H]; [rewrite H; reflexivity|].
      rewrite (IH _ _ H). apply orb_true_r.
  - assert (E : forall n, dict_get a (dict_set k n cont) = dict_get a cont).
    { intros n. apply dict_get_set_ne. congruence. }
    destruct key' as [|k2 key'].
    + rewrite E. exact H.
    + destruct (match dict_get k cont with Some n => n | None => empty_flagnode end).
      rewrite E. exact H.
Qed.

(** Marking a table immutable covers all that is below it. *)
Lemma frozen_path_frozen key q cont :
  key <> [] -> frozen_path (key ++ q) (flags_set_in key FROZEN true cont) = true.
Proof.
  revert cont. induction key as [|k key IH]; intros cont Hne; [congruence|].
  rewrite flags_set_in_cons. cbn [app frozen_path].
  destruct key as [|k2 key].
  - rewrite dict_get_set_eq.
    destruct (match dict_get k cont with Some n => n | None => empty_flagnode end)
      as [fs rs nested].
    cbn [add_flag]. rewrite set_mem_add_eq. reflexivity.
  - destruct (match dict_get k cont with Some n => n | None => empty_flagnode end)
      as [fs rs nested].
    rewrite dict_get_set_eq. rewrite IH by discriminate. apply orb_true_r.
Qed.

(** [unset_all] frees the tables below its key only. *)
Lemma frozen_path_unset key q cont :
  (forall more, q <> key ++ more) ->
  frozen_path q (unset_all_in key cont) = frozen_path q cont.
Proof.
  revert q cont. induction key as [|k key IH]; intros q cont Hne.
  { exfalso. apply (Hne q). reflexivity. }
  destruct q as [|a q]; [reflexivity|].
  destruct key as [|k2 key].
  - cbn [unset_all_in frozen_path].
    rewrite dict_get_pop_ne; [reflexivity|].
    intros ->. apply (Hne q). reflexivity.
  - change (unset_all_in (k :: k2 :: key) cont)
      with (match dict_get k cont with
            | None => cont
            | Some (FlagNode fs rs nested) =>
                dict_set k (FlagNode fs rs (unset_all_in (k2 :: key) nested)) cont
            end).
    destruct (dict_get k cont) as [[fs rs nested]|] eqn:E; [|reflexivity].
    cbn [frozen_path]. destruct (decide (a = k)) as [->|Ha].
    + rewrite dict_get_set_eq, E. rewrite IH; [reflexivity|].
      intros more ->. apply (Hne more). reflexivity.
    + rewrite dict_get_set_ne by congruence. reflexivity.
Qed.

Lemma frozen_path_finalize key fl :
  frozen_path key (_flags fl) = true ->
  frozen_path key (_flags (finalize_pending fl)) = true.
Proof.
  unfold finalize_pending. cbn [_flags].
  generalize (_flags fl). induction (_pending_flags fl) as [|[k f] l IH]; intros cont H.
  - exact H.
  - cbn [fold_left]. apply IH. apply frozen_path_set, H.
Qed.

Lemma check_cont_keys_flags fl ks fl' :
  check_cont_keys fl ks = Got fl' -> _flags fl' = _flags fl.
Proof.
  revert fl. induction ks as [|k ks IH]; intros fl; cbn [check_cont_keys].
  - intros [= ->]. reflexivity.
  - destruct (flags_is fl k EXPLICIT_NEST) eqn:E; [discriminate|].
    intros H. apply IH in H. exact H.
Qed.

Lemma check_cont_keys_is fl ks fl' key f :
  check_cont_keys fl ks = Got fl' -> flags_is fl' key f = flags_is fl key f.
Proof. intros H. unfold flags_is. rewrite (check_cont_keys_flags _ _ _ H). reflexivity. Qed.

(** ** The functions that read the text *)

Lemma nie_bind {A B} (m : pres A) (k : A -> pres B) :
  nie m -> (forall a, nie (k a)) -> nie (pbind m k).
Proof.
  unfold nie. intros Hm Hk. destruct m as [a|e|]; cbn [pbind]; [apply Hk|congruence|discriminate].
Qed.

Lemma nie_except_KeyError {A} (m : pres A) msg :
  nie m -> nie (except_KeyError m (TOMLDecodeError msg)).
Proof. unfold nie. intros Hm. destruct m as [a|[]|]; cbn [except_KeyError]; congruence. Qed.

Lemma nie_fail {A B} e : nie (@Fail A e) -> nie (@Fail B e).
Proof. unfold nie. intros H [= ->]. apply H. reflexivity. Qed.

Ltac nie_step :=
  lazymatch goal with
  | |- nie (Got _) => discriminate
  | |- nie (Fail (TOMLDecodeError _)) => discriminate
  | |- nie (Fail KeyError) => discriminate
  | |- nie (Fail ValueError) => discriminate
  | |- nie Gas => discriminate
  | |- nie (suffixed_err _) => discriminate
  | |- nie (pbind _ _) => apply nie_bind; [|intros ?]
  | |- nie (match ?x with _ => _ end) => destruct x
  end.

Lemma skip_until_nie rest expect error_on eof : nie (skip_until rest expect error_on eof).
Proof. unfold skip_until. repeat nie_step. Qed.

Lemma skip_comment_nie rest : nie (skip_comment rest).
Proof. unfold skip_comment. repeat first [apply skip_until_nie | nie_step]. Qed.

Lemma skip_comments_and_array_ws_nie fuel rest : nie (skip_comments_and_array_ws fuel rest).
Proof.
  revert rest. induction fuel as [|fuel IH]; intros rest; [discriminate|].
  cbn [skip_comments_and_array_ws].
  apply nie_bind; [apply skip_comment_nie|]. intros r. destruct (_ =? _)%nat; [discriminate|apply IH].
Qed.

Lemma parse_hex_char_nie rest n : nie (parse_hex_char rest n).
Proof. unfold parse_hex_char. repeat nie_step. Qed.

Lemma parse_basic_str_escape_nie rest multiline : nie (parse_basic_str_escape rest multiline).
Proof.
  unfold parse_basic_str_escape. repeat first [apply parse_hex_char_nie | nie_step].
Qed.

Lemma parse_basic_str_nie fuel rest multiline result :
  nie (parse_basic_str fuel rest multiline result).
Proof.
  revert rest result. induction fuel as [|fuel IH]; intros rest result; [discriminate|].
  cbn [parse_basic_str].
  repeat first [apply IH | apply parse_basic_str_escape_nie | nie_step].
Qed.

Lemma parse_literal_str_nie rest : nie (parse_literal_str rest).
Proof. unfold parse_literal_str. repeat first [apply skip_until_nie | nie_step]. Qed.

Lemma parse_multiline_str_nie fuel rest literal : nie (parse_multiline_str fuel rest literal).
Proof.
  unfold parse_multiline_str.
  repeat first [apply skip_until_nie | apply parse_basic_str_nie | nie_step].
Qed.

Lemma parse_key_part_nie fuel rest : nie (parse_key_part fuel rest).
Proof.
  unfold parse_key_part, parse_one_line_basic_str.
  repeat first [apply parse_literal_str_nie | apply parse_basic_str_nie | nie_step].
Qed.

Lemma parse_key_loop_nie fuel rest key : nie (parse_key_loop fuel rest key).
Proof.
  revert rest key. induction fuel as [|fuel IH]; intros rest key; [discriminate|].
  cbn [parse_key_loop].
  repeat first [apply IH | apply parse_key_part_nie | nie_step].
Qed.

Lemma parse_key_nie fuel rest : nie (parse_key fuel rest).
Proof.
  unfold parse_key.
  repeat first [apply parse_key_loop_nie | apply parse_key_part_nie | nie_step].
Qed.

Lemma parse_scalar_nie rest : nie (parse_scalar rest).
Proof. unfold parse_scalar, match_to_number. repeat nie_step. Qed.

Lemma parse_key_value_pair_with_nie pv fuel rest :
  (forall r, nie (pv r)) -> nie (parse_key_value_pair_with pv fuel rest).
Proof.
  intros Hpv. unfold parse_key_value_pair_with.
  repeat first [apply Hpv | apply parse_key_nie | nie_step].
Qed.

Lemma parse_value_nie fuel :
  (forall rest, nie (parse_value fuel rest)) /\
  (forall rest arr, nie (parse_array_loop fuel rest arr)) /\
  (forall rest nd fl, nie (parse_inline_table_loop fuel rest nd fl)).
Proof.
  induction fuel as [|fuel (IHv & IHa & IHt)]; [repeat split; intros; discriminate|].
  repeat split.
  - intros rest. cbn [parse_value]. unfold parse_array_with, parse_inline_table_with,
      parse_one_line_basic_str.
    repeat first [ apply IHa | apply IHt | apply parse_scalar_nie
                 | apply parse_multiline_str_nie | apply parse_basic_str_nie
                 | apply parse_literal_str_nie | apply skip_comments_and_array_ws_nie
                 | nie_step ].
  - intros rest arr. cbn [parse_array_loop].
    repeat first [ apply IHv | apply IHa | apply skip_comments_and_array_ws_nie | nie_step ].
  - intros rest nd fl. cbn [parse_inline_table_loop].
    apply nie_bind; [apply parse_key_value_pair_with_nie, IHv|]. intros [[r key] v].
    destruct (flags_is fl key FROZEN); [discriminate|].
    apply nie_bind; [apply nie_except_KeyError, goc_false_nie|]. intros nest.
    repeat first [ apply IHt | nie_step ].
Qed.

Lemma parse_key_value_pair_nie fuel rest : nie (parse_key_value_pair fuel rest).
Proof.
  unfold parse_key_value_pair. apply parse_key_value_pair_with_nie. apply parse_value_nie.
Qed.

(** A key has a part at least. *)
Lemma parse_key_loop_nonempty fuel rest key r key' :
  parse_key_loop fuel rest key = Got (r, key') -> key <> [] -> key' <> [].
Proof.
  revert rest key. induction fuel as [|fuel IH]; intros rest key; [discriminate|].
  cbn [parse_key_loop]. destruct rest as [|c rest]; [intros [= _ <-]; auto|].
  destruct (c =? 46); [|intros [= _ <-]; auto].
  destruct (parse_key_part fuel _) as [[r1 kp]| |]; cbn [pbind]; try discriminate.
  intros H _. apply IH in H; [exact H|]. intros E. apply app_eq_nil in E as [_ E]. discriminate E.
Qed.

Lemma parse_key_nonempty fuel rest r key :
  parse_key fuel rest = Got (r, key) -> key <> [].
Proof.
  unfold parse_key. destruct (parse_key_part fuel rest) as [[r1 kp]| |]; cbn [pbind];
    try discriminate.
  intros H. apply parse_key_loop_nonempty in H; [exact H|discriminate].
Qed.

Lemma parse_key_value_pair_nonempty fuel rest r key v :
  parse_key_value_pair fuel rest = Got (r, key, v) -> key <> [].
Proof.
  unfold parse_key_value_pair, parse_key_value_pair_with.
  destruct (parse_key fuel rest) as [[r1 key1]| |] eqn:E; cbn [pbind]; try discriminate.
  apply parse_key_nonempty in E.
  destruct r1 as [|c r1]; [discriminate|]. destruct (c =? 61); [|discriminate].
  destruct (parse_value fuel _) as [[r2 v2]| |]; cbn [pbind]; try discriminate.
  intros [= _ <- _]. exact E.
Qed.

Lemma key_parent_stem (key : Key) : key <> [] -> key = key_parent key ++ [key_stem key].
Proof. intros H. unfold key_parent, key_stem. apply app_removelast_last, H. Qed.

(** ** The statements keep the invariant *)

Lemma no_index_error_init : no_index_error (MkOutput [] Flags_new).
Proof. intros key H. cbn [data] in H. rewrite goc_empty in H. discriminate H. Qed.

Lemma check_cont_keys_nie fl ks : nie (check_cont_keys fl ks).
Proof.
  revert fl. induction ks as [|k ks IH]; intros fl; cbn [check_cont_keys]; [discriminate|].
  destruct (flags_is fl k EXPLICIT_NEST); [discriminate|apply IH].
Qed.

(** Where the check for an immutable table passed, the way to the
    table runs into no empty array. *)
Lemma goc_checked out key0 key :
  no_index_error out ->
  flags_is_in (key0 ++ key) FROZEN (_flags (flags out)) = false ->
  nie (get_or_create_nest key0 true (data out)).
Proof.
  intros Inv Hf H. apply Inv in H. apply (frozen_path_app _ key) in H.
  apply frozen_path_is in H. congruence.
Qed.

Lemma no_index_error_put out P stem X nest fl' :
  no_index_error out ->
  get_or_create_nest P true (data out) = Got nest ->
  (forall m, get_or_create_nest (stem :: m) true (dict_set stem X nest) = Fail IndexError ->
             frozen_path (P ++ stem :: m) (_flags fl') = true) ->
  (forall key, (forall more, key <> P ++ stem :: more) ->
               frozen_path key (_flags (flags out)) = true ->
               frozen_path key (_flags fl') = true) ->
  no_index_error (MkOutput (put_nest P (dict_set stem X nest) (data out)) fl').
Proof.
  intros Inv Eg Hstem Hfl key Hk. cbn [data flags] in *.
  destruct (prefix_or_not P key) as [[more ->]|Hne].
  - rewrite (goc_put_below P more _ _ nest Eg) in Hk.
    destruct more as [|s m]; [discriminate Hk|].
    destruct (decide (s = stem)) as [->|Hs]; [apply Hstem, Hk|].
    apply Hfl.
    + intros more E. apply app_inv_head in E. congruence.
    + apply Inv. rewrite (goc_app P (s :: m) true _ nest Eg).
      rewrite <- Hk. symmetry. apply goc_cons_ext. apply dict_get_set_ne. congruence.
  - apply Hfl.
    + intros more E. apply (Hne (stem :: more)). exact E.
    + apply Inv. eapply goc_put_elsewhere; eauto.
Qed.

Lemma key_value_rule_inv fuel rest out header :
  no_index_error out ->
  nie (key_value_rule fuel rest out header) /\
  (forall r out', key_value_rule fuel rest out header = Got (r, out') ->
                  no_index_error out').
Proof.
  intros Inv. unfold key_value_rule.
  destruct (parse_key_value_pair fuel rest) as [[[r key] v]|e|] eqn:Ep; cbn [pbind].
  2:{ split; [eapply nie_fail; rewrite <- Ep; apply parse_key_value_pair_nie|discriminate]. }
  2:{ split; discriminate. }
  pose proof (parse_key_value_pair_nonempty _ _ _ _ _ Ep) as Hne.
  set (P := header ++ key_parent key). set (stem := key_stem key).
  assert (Hkey : header ++ key = P ++ [stem]).
  { unfold P, stem. rewrite <- app_assoc, <- key_parent_stem by exact Hne. reflexivity. }
  destruct (check_cont_keys (flags out) _) as [fl|e|] eqn:Ec; cbn [pbind].
  2:{ split; [eapply nie_fail; rewrite <- Ec; apply check_cont_keys_nie|discriminate]. }
  2:{ split; discriminate. }
  pose proof (check_cont_keys_flags _ _ _ Ec) as Hfl.
  destruct (flags_is fl P FROZEN) eqn:Ef; [split; discriminate|].
  assert (Hg : nie (get_or_create_nest P true (data out))).
  { apply (goc_checked out P []); [exact Inv|].
    rewrite app_nil_r. unfold flags_is in Ef. rewrite Hfl in Ef. exact Ef. }
  destruct (get_or_create_nest P true (data out)) as [nest|e|] eqn:Eg.
  2:{ split; [|destruct e; discriminate]. destruct e; cbn; try discriminate. congruence. }
  2:{ split; discriminate. }
  cbn [except_KeyError pbind].
  destruct (dict_mem stem nest); [split; discriminate|].
  split; [discriminate|]. intros r' out' [= _ <-].
  apply no_index_error_put; [exact Inv|exact Eg| |].
  - intros m Hm. rewrite goc_cons, dict_get_set_eq in Hm.
    assert (Hv : is_dict_or_list v = true) by (destruct v; try discriminate Hm; reflexivity).
    rewrite Hv, Hkey. unfold flags_set. cbn [_flags].
    replace (P ++ stem :: m) with ((P ++ [stem]) ++ m) by (rewrite <- app_assoc; reflexivity).
    apply frozen_path_frozen. intros E. apply app_eq_nil in E as [_ E]. discriminate E.
  - intros k' _ Hk'. rewrite <- Hfl in Hk'.
    destruct (is_dict_or_list v); [|exact Hk'].
    unfold flags_set. cbn [_flags]. apply frozen_path_set, Hk'.
Qed.

Lemma create_dict_rule_inv fuel rest out :
  no_index_error out ->
  nie (create_dict_rule fuel rest out) /\
  (forall r out' h, create_dict_rule fuel rest out = Got (r, out', h) ->
                    no_index_error out').
Proof.
  intros Inv. unfold create_dict_rule.
  destruct (parse_key fuel _) as [[r key]|e|] eqn:Ep; cbn [pbind].
  2:{ split; [eapply nie_fail; rewrite <- Ep; apply parse_key_nie|discriminate]. }
  2:{ split; discriminate. }
  destruct (flags_is (flags out) key EXPLICIT_NEST || flags_is (flags out) key FROZEN) eqn:Ef;
    [split; discriminate|].
  apply orb_false_iff in Ef as [_ Ef].
  assert (Hg : nie (get_or_create_nest key true (data out))).
  { apply (goc_checked out key []); [exact Inv|]. rewrite app_nil_r. exact Ef. }
  destruct (get_or_create_nest key true (data out)) as [nest|e|] eqn:Eg.
  2:{ split; [|destruct e; discriminate]. destruct e; cbn; try discriminate. congruence. }
  2:{ split; discriminate. }
  cbn [except_KeyError pbind].
  destruct (negb (startswith [93] r)); [split; discriminate|].
  split; [discriminate|]. intros r' out' h [= _ <- _].
  intros k' Hk'. cbn [data flags] in *. unfold flags_set. cbn [_flags].
  apply frozen_path_set. apply Inv.
  destruct (prefix_or_not key k') as [[more ->]|Hne].
  - rewrite (goc_put_below key more _ _ nest Eg) in Hk'.
    rewrite (goc_app key more true _ nest Eg). exact Hk'.
  - eapply goc_put_elsewhere; eauto.
Qed.

Lemma append_nest_to_list_inv out key fl' :
  no_index_error out -> key <> [] ->
  flags_is (flags out) key FROZEN = false ->
  (forall k', (forall more, k' <> key ++ more) ->
              frozen_path k' (_flags (flags out)) = true ->
              frozen_path k' (_flags fl') = true) ->
  nie (append_nest_to_list key (data out)) /\
  (forall data', append_nest_to_list key (data out) = Got data' ->
                 no_index_error (MkOutput data' fl')).
Proof.
  intros Inv Hne Hf Hfl. unfold append_nest_to_list.
  set (P := key_parent key). set (stem := key_stem key).
  assert (Hkey : key = P ++ [stem]) by (apply key_parent_stem, Hne).
  assert (Hg : nie (get_or_create_nest P true (data out))).
  { apply (goc_checked out P [stem]); [exact Inv|]. rewrite <- Hkey. exact Hf. }
  destruct (get_or_create_nest P true (data out)) as [cont|e|] eqn:Eg; cbn [pbind].
  2:{ split; [eapply nie_fail; exact Hg|discriminate]. }
  2:{ split; discriminate. }
  assert (Hput : forall l,
            no_index_error
              (MkOutput (put_nest P (dict_set stem (VList (l ++ [VDict []])) cont) (data out))
                 fl')).
  { intros l. apply no_index_error_put; [exact Inv|exact Eg| |].
    - intros m Hm. rewrite goc_cons, dict_get_set_eq in Hm.
      unfold list_last in Hm. rewrite last_snoc in Hm. rewrite goc_empty in Hm.
      discriminate Hm.
    - intros k' Hk'. apply Hfl. intros more E. apply (Hk' more).
      rewrite E, Hkey, <- app_assoc. reflexivity. }
  destruct (dict_get stem cont) as [[]|]; try (split; discriminate).
  - split; [discriminate|]. intros data' [= <-]. apply Hput.
  - split; [discriminate|]. intros data' [= <-]. apply (Hput []).
Qed.

Lemma create_list_rule_inv fuel rest out :
  no_index_error out ->
  nie (create_list_rule fuel rest out) /\
  (forall r out' h, create_list_rule fuel rest out = Got (r, out', h) ->
                    no_index_error out').
Proof.
  intros Inv. unfold create_list_rule.
  destruct (parse_key fuel _) as [[r key]|e|] eqn:Ep; cbn [pbind].
  2:{ split; [eapply nie_fail; rewrite <- Ep; apply parse_key_nie|discriminate]. }
  2:{ split; discriminate. }
  pose proof (parse_key_nonempty _ _ _ _ Ep) as Hne.
  destruct (flags_is (flags out) key FROZEN) eqn:Ef; [split; discriminate|].
  set (fl' := flags_set (unset_all (flags out) key) key EXPLICIT_NEST false).
  destruct (append_nest_to_list_inv out key fl' Inv Hne Ef) as [Hn Hi].
  { intros k' Hk' H. unfold fl', flags_set, unset_all. cbn [_flags].
    apply frozen_path_set. rewrite frozen_path_unset by exact Hk'. exact H. }
  destruct (append_nest_to_list key (data out)) as [data'|e|] eqn:Ea.
  2:{ split; [|destruct e; discriminate]. destruct e; cbn; try discriminate. congruence. }
  2:{ split; discriminate. }
  cbn [except_KeyError pbind].
  destruct (negb (startswith [93; 93] r)); [split; discriminate|].
  split; [discriminate|]. intros r' out' h [= _ <- _]. apply Hi. reflexivity.
Qed.

Lemma no_index_error_finalize out :
  no_index_error out ->
  no_index_error (MkOutput (data out) (finalize_pending (flags out))).
Proof. intros Inv key H. cbn [data flags] in *. apply frozen_path_finalize, Inv, H. Qed.

Lemma loads_loop_nie fuel rest out header :
  no_index_error out -> nie (loads_loop fuel rest out header).
Proof.
  revert rest out header. induction fuel as [|fuel IH]; intros rest out header Inv;
    [discriminate|].
  cbn [loads_loop].
  destruct (skip_chars TOML_WS rest) as [|c rest']; [discriminate|].
  destruct (c =? LF); [apply IH, Inv|].
  assert (Hnext : forall r out' h,
            no_index_error out' ->
            nie (let* rest := skip_comment (skip_chars TOML_WS r) in
                 match rest with
                 | [] => Got (data out')
                 | c :: rest' =>
                     if negb (c =? LF)
                     then suffixed_err
                            "Expected newline or end of document after a statement"
                     else loads_loop fuel rest' out' h
                 end)).
  { intros r out' h Inv'. apply nie_bind; [apply skip_comment_nie|]. intros r2.
    destruct r2 as [|d r2]; [discriminate|].
    destruct (negb (d =? LF)); [discriminate|]. apply IH, Inv'. }
  destruct (KEY_INITIAL_CHARS c).
  { destruct (key_value_rule_inv fuel (c :: rest') out header Inv) as [Hn Hi].
    destruct (key_value_rule fuel (c :: rest') out header) as [[r out']|e|] eqn:E;
      cbn [pbind]; [|eapply nie_fail; exact Hn|discriminate].
    apply Hnext. apply (Hi r out'). reflexivity. }
  destruct (c =? 91).
  { pose proof (no_index_error_finalize out Inv) as Inv1.
    destruct (bool_decide _).
    - destruct (create_list_rule_inv fuel (c :: rest') _ Inv1) as [Hn Hi].
      destruct (create_list_rule fuel (c :: rest') _) as [[[r out'] h]|e|] eqn:E;
        cbn [pbind]; [|eapply nie_fail; exact Hn|discriminate].
      apply Hnext. apply (Hi r out' h). reflexivity.
    - destruct (create_dict_rule_inv fuel (c :: rest') _ Inv1) as [Hn Hi].
      destruct (create_dict_rule fuel (c :: rest') _) as [[[r out'] h]|e|] eqn:E;
        cbn [pbind]; [|eapply nie_fail; exact Hn|discriminate].
      apply Hnext. apply (Hi r out' h). reflexivity. }
  destruct (negb (c =? 35)); [discriminate|]. cbn [pbind].
  assert (H := Hnext (c :: rest') out header Inv).
  apply nie_bind; [apply skip_comment_nie|]. intros r2.
  destruct r2 as [|d r2]; [discriminate|].
  destruct (negb (d =? LF)); [discriminate|]. apply IH, Inv.
Qed.

(** [loads] raises a [TOMLDecodeError], or the [ValueError] of an
    integer with too many digits, and nothing else. *)
Lemma loads_raises_toml s e :
  loads s = Raise e -> (exists msg, e = TOMLDecodeError msg) \/ e = ValueError.
Proof.
  intros H. destruct (loads_raises s e H) as [Hm|[->|Hv]]; [left; exact Hm| |right; exact Hv].
  exfalso. unfold loads in H.
  pose proof (loads_loop_nie (loads_fuel (replace_crlf s)) (replace_crlf s)
                (MkOutput [] Flags_new) [] no_index_error_init) as Hn.
  fold (loads_gas s) in Hn. unfold nie in Hn.
  destruct (loads_gas s) as [d|e'|] eqn:E; try discriminate H.
  injection H as ->. congruence.
Qed.

Lemma tomllib_load_raises b e :
  tomllib_load b = Raise e ->
  is_ValueError e = true /\
  (e = UnicodeDecodeError \/ (exists msg, e = TOMLDecodeError msg) \/ e = ValueError).
Proof.
  unfold tomllib_load. destruct (utf8_decode _); [|intros [= <-]; auto].
  intros H. apply loads_raises_toml in H as [[msg ->]| ->]; eauto.
Qed.

(** * The program in its environment *)

(** ** At [working], the functions of the first part *)

Lemma faulty_working {A} c (m : M A) : faulty working c m = m.
Proof. reflexivity. Qed.

Lemma is_dir_in_working p : is_dir_in working p = is_dir p.
Proof. reflexivity. Qed.

Lemma mkdir_no_parents_in_working p b :
  mkdir_no_parents_in working p b = mkdir_no_parents p b.
Proof. reflexivity. Qed.

Lemma mkdir_parents_in_working p n w :
  mkdir_parents_in working p n w = mkdir_parents p n w.
Proof.
  revert w. induction n as [|n IH]; intros w; [reflexivity|].
  cbn [mkdir_parents_in mkdir_parents]. unfold try_except.
  change (os_mkdir_in working (take (S n) p)) with (os_mkdir (take (S n) p)).
  destruct (os_mkdir (take (S n) p) w) as [[[]|e] w0]; [reflexivity|].
  destruct e as [k| | | | | | | |]; try reflexivity.
  destruct k; try reflexivity.
  unfold bind. rewrite IH. reflexivity.
Qed.

Lemma init_in_working dirs w : init_in working dirs w = init dirs w.
Proof.
  unfold init_in, init, Path_mkdir_in, Path_mkdir.
  unfold bind at 1 3. unfold enter. unfold bind at 1 3.
  rewrite mkdir_parents_in_working. reflexivity.
Qed.

Lemma load_in_working dirs w : load_in working dirs w = load dirs w.
Proof. reflexivity. Qed.

Lemma print_in_working d w : print_in working d w = print d w.
Proof. unfold print_in, print. cbn. destruct (existsb _ d); reflexivity. Qed.

Lemma main_in_working dirs w : main_in working dirs w = main dirs w.
Proof.
  unfold main_in, main, try_except, bind.
  rewrite load_in_working. destruct (load dirs w) as [[d|e] w1].
  - rewrite print_in_working. destruct (print d w1) as [[[]|e] w2]; [reflexivity|].
    destruct (is_IOError e); [apply init_in_working|reflexivity].
  - destruct (is_IOError e); [apply init_in_working|reflexivity].
Qed.

(** ** What the system calls do *)

Lemma os_mkdir_in_spec env p w r w' :
  os_mkdir_in env p w = (r, w') ->
  io_same w w' /\
  ((exists k, r = Raise (OSError k) /\ fs w' = fs w) \/
   (r = Return tt /\ fs w' = <[p := new_dir]> (fs w) /\
    fs w !! p = None /\ resolve (fs w) p = None)).
Proof.
  unfold os_mkdir_in, faulty. destruct (os_fault env _ w).
  - intros [= <- <-]. split; [apply io_same_refl|left; eauto].
  - apply os_mkdir_spec.
Qed.

Lemma is_dir_in_spec env p w r w' :
  is_dir_in env p w = (r, w') ->
  w' = w /\
  ((exists k, r = Raise (OSError k)) \/ r = Return false \/
   (r = Return true /\ resolve (fs w) p = None /\ exists pm, fs w !! p = Some (Dir pm))).
Proof.
  unfold is_dir_in, os_stat_in, faulty. unfold try_except at 1. unfold bind.
  destruct (os_fault env _ w) as [k|].
  - destruct (_ignore_error (OSError k)); unfold ret; intros; simplify_eq; eauto.
  - destruct (os_stat p w) as [r0 w0] eqn:E. apply os_stat_spec in E as [-> E].
    destruct E as [(k & -> & _)|(n & -> & H1 & H2)].
    + destruct (_ignore_error (OSError k)); unfold ret; intros; simplify_eq; auto. eauto.
    + unfold ret. intros; simplify_eq. split; [done|].
      destruct n; auto. right; right. eauto.
Qed.

Lemma mkdir_no_parents_in_spec env p w r w' :
  mkdir_no_parents_in env p true w = (r, w') ->
  io_same w w' /\
  ((exists k, r = Raise (OSError k) /\ fs w' = fs w) \/
   (r = Return tt /\ dir_at (fs w') p /\
    (fs w' = fs w \/ (fs w !! p = None /\ fs w' = <[p := new_dir]> (fs w))))).
Proof.
  unfold mkdir_no_parents_in, try_except.
  destruct (os_mkdir_in env p w) as [r0 w0] eqn:E. apply os_mkdir_in_spec in E as [Hio E].
  destruct E as [(k & -> & Hfs)|(-> & Hfs & H1 & H2)].
  - destruct k; try (intros [= <- <-]; split; [done|left; eauto]).
    all: unfold bind; destruct (is_dir_in env p w0) as [r1 w1] eqn:E1;
      apply is_dir_in_spec in E1 as [-> E1];
      destruct E1 as [(k' & ->)|[->|(-> & H1 & pm & H2)]]; unfold_M;
      intros [= <- <-]; (split; [done|]); try (left; eauto; fail).
    all: right; split; [done|]; rewrite Hfs in *; split; [split; eauto|auto].
  - intros [= <- <-]. split; [done|]. right. split; [done|].
    rewrite Hfs. split; [apply dir_at_insert; done|auto].
Qed.

Lemma mkdir_exists_handler_in_spec env e p w r w' :
  (let! d := is_dir_in env p in if negb d then raise e else ret tt) w = (r, w') ->
  w' = w /\ ((exists k, r = Raise (OSError k)) \/ r = Raise e \/
             (r = Return tt /\ dir_at (fs w) p)).
Proof.
  unfold bind. destruct (is_dir_in env p w) as [r1 w1] eqn:E1.
  apply is_dir_in_spec in E1 as [-> E1].
  destruct E1 as [(k' & ->)|[->|(-> & H1 & pm & H2)]]; unfold_M;
    intros [= <- <-]; (split; [done|]); eauto.
  right; right. split; [done|]. split; eauto.
Qed.

(** Whatever fails, [mkdir] changes the files by new directories on the
    way to its path, and raises errors of the I/O class only. *)
Lemma mkdir_parents_in_spec env p n w r w' :
  mkdir_parents_in env p n w = (r, w') ->
  io_same w w' /\ made_dirs p n (fs w) (fs w') /\
  ((exists k, r = Raise (OSError k)) \/ (r = Return tt /\ dir_at (fs w') (take n p))).
Proof.
  revert w r w'. induction n as [|n IH]; intros w r w'.
  - cbn [mkdir_parents_in]. unfold try_except.
    destruct (os_mkdir_in env (take 0 p) w) as [r0 w0] eqn:E.
    apply os_mkdir_in_spec in E as [Hio E].
    destruct E as [(k & -> & Hfs)|(-> & Hfs & H1 & H2)].
    + destruct k.
      1: intros [= <- <-]; rewrite Hfs; split; [done|split; [apply made_dirs_refl|eauto]].
      all: intros H; apply mkdir_exists_handler_in_spec in H as [-> H];
        rewrite Hfs; (split; [done|split; [apply made_dirs_refl|]]);
        destruct H as [?|[->|[-> ?]]]; try rewrite Hfs in *; eauto.
    + intros [= <- <-]. split; [done|]. rewrite Hfs.
      split; [apply made_dirs_insert_0; done|right; split; [done|]].
      apply dir_at_insert; done.
  - cbn [mkdir_parents_in]. unfold try_except.
    destruct (os_mkdir_in env (take (S n) p) w) as [r0 w0] eqn:E.
    apply os_mkdir_in_spec in E as [Hio E].
    destruct E as [(k & -> & Hfs)|(-> & Hfs & H1 & H2)].
    + destruct k.
      1:{ unfold bind. destruct (mkdir_parents_in env p n w0) as [r1 w1] eqn:E1.
          apply IH in E1 as (Hio1 & Hmd1 & E1). rewrite Hfs in Hmd1.
          destruct E1 as [(k & ->)|(-> & Hd)].
          - intros [= <- <-]. split; [eapply io_same_trans; eauto|].
            split; [eapply made_dirs_mono; [|eauto]; lia|eauto].
          - intros H. apply mkdir_no_parents_in_spec in H as (Hio2 & H).
            split; [eapply io_same_trans; [|eauto]; eapply io_same_trans; eauto|].
            destruct H as [(k & -> & Hfs2)|(-> & Hd2 & Hfs2)].
            + rewrite Hfs2. split; [eapply made_dirs_mono; [|eauto]; lia|eauto].
            + split; [|auto].
              destruct Hfs2 as [->|[Hn ->]].
              * eapply made_dirs_mono; [|eauto]; lia.
              * apply made_dirs_insert; done. }
      all: intros H; apply mkdir_exists_handler_in_spec in H as [-> H];
        rewrite Hfs; (split; [done|split; [apply made_dirs_refl|]]);
        destruct H as [?|[->|[-> ?]]]; try rewrite Hfs in *; eauto.
    + intros [= <- <-]. split; [done|]. rewrite Hfs.
      split; [apply made_dirs_insert_0; done|right; split; [done|]].
      apply dir_at_insert; done.
Qed.

Lemma open_w_in_spec env p w r w' :
  open_w_in env p w = (r, w') ->
  io_same w w' /\
  ((exists k, r = Raise (OSError k) /\ fs w' = fs w) \/
   (r = Return tt /\ resolve (fs w) p = None /\
    exists pm, can_write pm = true /\ fs w' = <[p := File pm ""]> (fs w) /\
      (fs w !! p = None \/ exists c, fs w !! p = Some (File pm c)))).
Proof.
  unfold open_w_in, faulty. destruct (os_fault env _ w).
  - intros [= <- <-]. split; [apply io_same_refl|left; eauto].
  - apply open_w_spec.
Qed.

Lemma bytes_take_all b : bytes_take (String.length b) b = b.
Proof.
  unfold bytes_take. induction b as [|a b IH]; [reflexivity|].
  cbn [String.length substring]. f_equal. exact IH.
Qed.

Lemma bytes_take_0 b : bytes_take 0 b = ""%string.
Proof. unfold bytes_take. destruct b; reflexivity. Qed.

Lemma file_write_in_spec env p s w r w' :
  file_write_in env p s w = (r, w') ->
  io_same w w' /\
  (forall q, q <> p -> fs w' !! q = fs w !! q) /\
  ((r = Return tt /\ file_write p s w = (Return tt, w')) \/
   (exists k n, r = Raise (OSError k) /\ write_fault env w = Some (k, n) /\
      (fs w' = fs w \/
       exists pm c, fs w !! p = Some (File pm c) /\
         fs w' = <[p := File pm (c ++ bytes_take n (utf8_encode s))%string]> (fs w)))).
Proof.
  unfold file_write_in. destruct (write_fault env w) as [[k n]|] eqn:E.
  - intros [= <- <-]. destruct (fs w !! p) as [[pm|pm c]|] eqn:El.
    + split; [apply io_same_refl|]. split; [auto|]. right. exists k, n. auto.
    + split; [split; reflexivity|]. cbn [fs]. split.
      * intros q Hq. apply lookup_insert_ne. congruence.
      * right. exists k, n. split; [done|]. split; [done|]. right. eauto.
    + split; [apply io_same_refl|]. split; [auto|]. right. exists k, n. auto.
  - intros H. destruct (file_write_spec p s w) as (w2 & H2 & Hio).
    rewrite H2 in H. injection H as <- <-. split; [exact Hio|]. split; [|left; auto].
    intros q Hq. revert H2. unfold file_write, bind, get_fs, set_fs, ret.
    destruct (fs w !! p) as [[pm|pm c]|]; intros [= <-]; cbn [fs]; try reflexivity.
    apply lookup_insert_ne. congruence.
Qed.

Lemma init_in_unfold env dirs w :
  init_in env dirs w =
  (let! _ := Path_mkdir_in env (user_config_path dirs) in
   let! _ := open_w_in env (config_toml dirs) in
   file_write_in env (config_toml dirs) EXAMPLE_CONFIG)
    (World (fs w) (stdout w) (calls w ++ [CallInit])).
Proof. reflexivity. Qed.

(** Whatever its outcome and whatever fails, [init_in] completes no
    print and is one call. *)
Lemma init_in_io env dirs w r w' :
  init_in env dirs w = (r, w') ->
  stdout w' = stdout w /\ calls w' = calls w ++ [CallInit].
Proof.
  rewrite init_in_unfold. unfold Path_mkdir_in.
  set (w0 := World (fs w) (stdout w) (calls w ++ [CallInit])).
  unfold bind at 1.
  destruct (mkdir_parents_in _ _ _ w0) as [r1 w1] eqn:E1.
  apply mkdir_parents_in_spec in E1 as ([Ho1 Hc1] & _ & _).
  destruct r1; [|intros [= <- <-]; subst w0; simpl in *; split; congruence].
  unfold bind at 1.
  destruct (open_w_in _ _ w1) as [r2 w2] eqn:E2.
  apply open_w_in_spec in E2 as ([Ho2 Hc2] & _).
  destruct r2; [|intros [= <- <-]; subst w0; simpl in *; split; congruence].
  intros H. apply file_write_in_spec in H as ([Ho3 Hc3] & _).
  subst w0; simpl in *; split; congruence.
Qed.

(** What [init_in] leaves behind, whatever its outcome: directories made
    on the way to the configuration directory; the configuration file
    as it was, or with the bytes of the template that were written in
    the place of what it held. *)
Lemma init_in_outcome env dirs w r w' :
  init_in env dirs w = (r, w') ->
  (forall q, q <> config_toml dirs ->
     fs w' !! q = fs w !! q \/
     (fs w !! q = None /\ fs w' !! q = Some new_dir /\
      exists k, (k <= List.length (user_config_path dirs))%nat /\
                q = take k (user_config_path dirs))) /\
  (fs w' !! config_toml dirs = fs w !! config_toml dirs \/
   exists pm n,
     fs w' !! config_toml dirs =
       Some (File pm (bytes_take n (utf8_encode EXAMPLE_CONFIG))) /\
     can_write pm = true /\
     (fs w !! config_toml dirs = None /\ pm = Perm true true false \/
      exists c, fs w !! config_toml dirs = Some (File pm c))) /\
  (r = Return tt \/ exists k, r = Raise (OSError k)).
Proof.
  rewrite init_in_unfold. unfold Path_mkdir_in. unfold bind at 1.
  set (w0 := World (fs w) (stdout w) (calls w ++ [CallInit])).
  destruct (mkdir_parents_in _ _ _ w0) as [r1 w1] eqn:E1.
  apply mkdir_parents_in_spec in E1 as (_ & Hmd & E1). cbn [fs w0] in Hmd.
  assert (Hcfg : fs w1 !! config_toml dirs = fs w !! config_toml dirs).
  { destruct (Hmd (config_toml dirs)) as [E|(_ & _ & k & _ & E)]; [exact E|].
    symmetry in E. apply config_toml_not_prefix in E. contradiction. }
  destruct E1 as [(k & ->)|(-> & _)].
  { intros [= <- <-]. split; [intros q _; apply Hmd|]. split; [left; exact Hcfg|eauto]. }
  unfold bind at 1. destruct (open_w_in _ _ w1) as [r2 w2] eqn:E2.
  pose proof (open_w_in_spec _ _ _ _ _ E2) as (_ & E2').
  destruct E2' as [(k & -> & Hfs)|(-> & _ & pm & Hw & Hfs & Hold)].
  { intros [= <- <-]. rewrite Hfs. split; [intros q _; apply Hmd|].
    split; [left; exact Hcfg|eauto]. }
  rewrite Hcfg in Hold.
  assert (Hold' : fs w !! config_toml dirs = None /\ pm = Perm true true false \/
                  exists c, fs w !! config_toml dirs = Some (File pm c)).
  { destruct Hold as [Hn|Hc]; [|right; exact Hc].
    revert E2 Hfs. unfold open_w_in, faulty, open_w, bind, get_fs, set_fs, raise.
    destruct (os_fault env _ w1); [discriminate|].
    destruct (resolve (fs w1) (config_toml dirs)); [discriminate|].
    rewrite Hcfg, Hn. pose proof (config_toml_ne_nil dirs) as Hne.
    destruct (config_toml dirs) as [|c0 q0] eqn:Ec; [congruence|]. rewrite <- Ec in *.
    destruct (dir_writable _ _); [|discriminate].
    intros [= <-]. cbn [fs]. intros Hfs. left. split; [done|].
    assert (E : (<[config_toml dirs := new_file ""]> (fs w1) : filesys) !! config_toml dirs =
                (<[config_toml dirs := File pm ""]> (fs w1) : filesys) !! config_toml dirs)
      by (rewrite Hfs; reflexivity).
    rewrite !lookup_insert_eq in E. unfold new_file in E. congruence. }
  intros H. apply file_write_in_spec in H as (_ & Hother & H).
  assert (Hframe : forall q, q <> config_toml dirs ->
    fs w' !! q = fs w !! q \/
    (fs w !! q = None /\ fs w' !! q = Some new_dir /\
     exists k, (k <= List.length (user_config_path dirs))%nat /\
               q = take k (user_config_path dirs))).
  { intros q Hq. rewrite (Hother q Hq), Hfs, lookup_insert_ne by done. apply Hmd. }
  split; [exact Hframe|].
  destruct H as [[-> H]|(k & n & -> & _ & H)].
  - split; [|auto]. right. exists pm, (String.length (utf8_encode EXAMPLE_CONFIG)).
    revert H. unfold file_write, bind, get_fs, set_fs. rewrite Hfs, lookup_insert_eq.
    intros [= <-]. cbn [fs]. rewrite lookup_insert_eq. cbn [String.append].
    split; [|auto]. rewrite bytes_take_all. reflexivity.
  - split; [|eauto]. right. exists pm.
    destruct H as [H|(pm' & c & Hl & H)].
    + exists O. rewrite H, Hfs, lookup_insert_eq, bytes_take_0. auto.
    + exists n. rewrite Hfs, lookup_insert_eq in Hl. injection Hl as <- <-.
      rewrite H, lookup_insert_eq. auto.
Qed.

(** ** [load_in] and [main_in] *)

Lemma load_in_unfold env dirs w :
  load_in env dirs w =
  (match (open_rb_in env (config_toml dirs)
            (World (fs w) (stdout w) (calls w ++ [CallLoad]))).1 with
   | Return b => tomllib_load_in env b
   | Raise e => Raise e
   end,
   World (fs w) (stdout w) (calls w ++ [CallLoad])).
Proof.
  unfold load_in, bind, enter, open_rb_in, faulty, open_rb, ret, raise. cbn [fs stdout calls].
  destruct (os_fault env _ _); [reflexivity|]. cbn [fst].
  destruct (read_file _ _); [|reflexivity].
  destruct (tomllib_load_in _ _); reflexivity.
Qed.

Lemma open_rb_in_raises env p w e :
  (open_rb_in env p w).1 = Raise e -> exists k, e = OSError k.
Proof.
  unfold open_rb_in, faulty, open_rb, read_file.
  destruct (os_fault env _ w); cbn [fst]; [intros [= <-]; eauto|].
  repeat case_match; intros [= <-]; eauto.
Qed.

(** * The entry point in its environment *)

Lemma print_in_returns env d w :
  (print_in env d w).1 = Return tt ->
  print_in env d w = (Return tt, World (fs w) (stdout w ++ [d]) (calls w)).
Proof.
  unfold print_in. destruct (repr_limit env d); [discriminate|].
  destruct (repr_too_long (VDict d)); [discriminate|].
  destruct (stdout_fault env w d); [discriminate|reflexivity].
Qed.

Lemma print_in_raises env d w e :
  (print_in env d w).1 = Raise e -> print_in env d w = (Raise e, w).
Proof.
  unfold print_in. destruct (repr_limit env d); [intros [= <-]; reflexivity|].
  destruct (repr_too_long (VDict d)); [intros [= <-]; reflexivity|].
  destruct (stdout_fault env w d); [intros [= <-]; reflexivity|discriminate].
Qed.

Lemma load_in_state env dirs w r w1 :
  load_in env dirs w = (r, w1) ->
  w1 = World (fs w) (stdout w) (calls w ++ [CallLoad]).
Proof. rewrite load_in_unfold. intros [= _ <-]. reflexivity. Qed.

(** [main_in] after [load_in] or [print_in] raised an error of the I/O
    class: the outcome is that of [init_in]. *)
Lemma main_in_initializes env dirs w w1 :
  w1 = World (fs w) (stdout w) (calls w ++ [CallLoad]) ->
  stdout (init_in env dirs w1).2 = stdout w /\
  calls (init_in env dirs w1).2 = calls w ++ [CallLoad; CallInit].
Proof.
  intros ->. destruct (init_in env dirs _) as [r w2] eqn:E.
  apply init_in_io in E as [Ho Hc]. cbn [snd stdout calls] in *.
  rewrite Ho, Hc, <- app_assoc. done.
Qed.

(** C1, amended.  The entry point prints the document that [load]
    returns, and does not call [init], when [print] succeeds.  When
    [load] raises an error of the I/O class it calls [init] once, on the
    state that [load] left, and the outcome is that of [init]: the error
    is not reported, [load] is not called again and [print] is not
    called.  The same happens when [load] returns and [print], which
    stands in the same [try], raises an error of the I/O class.  Another
    exception of [print] ends the run: no print was completed, no file
    has changed and [init] is not called; [print] raises [ValueError]
    for a document with an integer of more than 4300 decimal digits. *)
Theorem main_prints_or_initializes env dirs w :
  (forall d w1,
     load_in env dirs w = (Return d, w1) ->
     (print_in env d w1).1 = Return tt ->
     main_in env dirs w =
     (Return tt, World (fs w) (stdout w ++ [d]) (calls w ++ [CallLoad]))) /\
  (forall k w1,
     load_in env dirs w = (Raise (OSError k), w1) ->
     main_in env dirs w = init_in env dirs w1 /\
     stdout (main_in env dirs w).2 = stdout w /\
     calls (main_in env dirs w).2 = calls w ++ [CallLoad; CallInit]) /\
  (forall d w1 k,
     load_in env dirs w = (Return d, w1) ->
     (print_in env d w1).1 = Raise (OSError k) ->
     main_in env dirs w = init_in env dirs w1 /\
     stdout (main_in env dirs w).2 = stdout w /\
     calls (main_in env dirs w).2 = calls w ++ [CallLoad; CallInit]) /\
  (forall d w1 e,
     load_in env dirs w = (Return d, w1) ->
     (print_in env d w1).1 = Raise e -> is_IOError e = false ->
     main_in env dirs w =
     (Raise e, World (fs w) (stdout w) (calls w ++ [CallLoad]))) /\
  (forall d w1,
     repr_limit env d = None -> repr_too_long (VDict d) = true ->
     (print_in env d w1).1 = Raise ValueError).
Proof.
  split; [|split; [|split; [|split]]].
  - intros d w1 H Hp. unfold main_in, try_except, bind. rewrite H.
    rewrite (print_in_returns _ _ _ Hp). apply load_in_state in H as ->. reflexivity.
  - intros k w1 H.
    assert (Hm : main_in env dirs w = init_in env dirs w1).
    { unfold main_in, try_except, bind. rewrite H. reflexivity. }
    split; [exact Hm|]. rewrite Hm. apply main_in_initializes.
    eapply load_in_state, H.
  - intros d w1 k H Hp.
    assert (Hm : main_in env dirs w = init_in env dirs w1).
    { unfold main_in, try_except, bind. rewrite H.
      rewrite (print_in_raises _ _ _ _ Hp). reflexivity. }
    split; [exact Hm|]. rewrite Hm. apply main_in_initializes.
    eapply load_in_state, H.
  - intros d w1 e H Hp He. unfold main_in, try_except, bind. rewrite H.
    rewrite (print_in_raises _ _ _ _ Hp), He. apply load_in_state in H as ->. reflexivity.
  - intros d w1 Hl Hd. unfold print_in. rewrite Hl, Hd. reflexivity.
Qed.

(** With the template in place and standard output working, [load]
    returns its document and the entry point prints it; on a first run
    [load] raises "not found" and [init] is called once; with the
    template in place and standard output a pipe without a reader,
    [init] is called although [load] returned; a document with an
    integer of 4000 hexadecimal digits ends the run with [ValueError]. *)
Lemma main_prints_or_initializes_witness :
  main_in working dirs0 configured_world =
    (Return tt, World (fs configured_world) [EXAMPLE_DOCUMENT] [CallLoad]) /\
  (main_in working dirs0 fresh_world =
     init_in working dirs0 (World (fs fresh_world) [] [CallLoad]) /\
   stdout (main_in working dirs0 fresh_world).2 = [] /\
   calls (main_in working dirs0 fresh_world).2 = [CallLoad; CallInit]) /\
  (main_in broken_pipe dirs0 configured_world =
     init_in broken_pipe dirs0 (World (fs configured_world) [] [CallLoad]) /\
   stdout (main_in broken_pipe dirs0 configured_world).2 = [] /\
   calls (main_in broken_pipe dirs0 configured_world).2 = [CallLoad; CallInit]) /\
  exists d,
    load_in working dirs0 hex_world = (Return d, World (fs hex_world) [] [CallLoad]) /\
    main_in working dirs0 hex_world =
      (Raise ValueError, World (fs hex_world) [] [CallLoad]).
Proof.
  split; [|split; [|split]].
  - refine (proj1 (main_prints_or_initializes working dirs0 configured_world)
              EXAMPLE_DOCUMENT (World (fs configured_world) [] [CallLoad]) _ _).
    + vm_compute. reflexivity.
    + vm_compute. reflexivity.
  - refine (proj1 (proj2 (main_prints_or_initializes working dirs0 fresh_world))
              FileNotFoundError (World (fs fresh_world) [] [CallLoad]) _).
    vm_compute. reflexivity.
  - refine (proj1 (proj2 (proj2 (main_prints_or_initializes broken_pipe dirs0 configured_world)))
              EXAMPLE_DOCUMENT (World (fs configured_world) [] [CallLoad]) (OtherOSError 32) _ _).
    + vm_compute. reflexivity.
    + vm_compute. reflexivity.
  - destruct (load_in working dirs0 hex_world) as [[d|e] w1] eqn:E.
    + pose proof (load_in_state _ _ _ _ _ E) as Hw.
      change (w1 = World (fs hex_world) [] [CallLoad]) in Hw. subst w1. exists d. split; [reflexivity|].
      refine (proj1 (proj2 (proj2 (proj2 (main_prints_or_initializes working dirs0 hex_world))))
                d _ ValueError E _ eq_refl).
      apply (f_equal fst) in E. vm_compute in E. injection E as <-.
      vm_compute. reflexivity.
    + exfalso. apply (f_equal fst) in E. vm_compute in E. discriminate E.
Defined.

(** C1 as stated fails.  With the template in place and standard output
    a pipe without a reader, [load] returns the document, nothing is
    printed and [init] is called; with an integer of 4000 hexadecimal
    digits in the file and nothing failing, [load] returns the document
    and it is not printed. *)
Lemma main_prints_or_initializes_counterexample :
  (exists d,
     (load_in broken_pipe dirs0 configured_world).1 = Return d /\
     ~ (stdout (main_in broken_pipe dirs0 configured_world).2 = [d] /\
        calls (main_in broken_pipe dirs0 configured_world).2 = [CallLoad])) /\
  (exists d,
     (load dirs0 hex_world).1 = Return d /\
     ~ stdout (main dirs0 hex_world).2 = [d]).
Proof.
  split.
  - exists EXAMPLE_DOCUMENT. split; [vm_compute; reflexivity|].
    intros [_ H]. vm_compute in H. discriminate H.
  - destruct ((load dirs0 hex_world).1) as [d|e] eqn:E.
    + exists d. split; [reflexivity|].
      assert (Hm : stdout (main dirs0 hex_world).2 = []) by (vm_compute; reflexivity).
      rewrite Hm. discriminate.
    + exfalso. vm_compute in E. discriminate E.
Qed.

(** * The failures of [load] *)

(** Resolution fails at the first entry on the way that is not a
    directory open to search, with the error of that entry. *)
Lemma walk_Some_iff (fs : filesys) (pre rest : path) e :
  walk fs pre rest = Some e <->
  exists k, (k < List.length rest)%nat /\
    (forall j, (j < k)%nat ->
       exists pm, fs !! (pre ++ take j rest) = Some (Dir pm) /\ can_search pm = true) /\
    obstacle_kind (fs !! (pre ++ take k rest)) = Some e.
Proof.
  revert pre. induction rest as [|c rest IH]; intros pre.
  - cbn [walk]. split; [discriminate|]. intros (k & Hk & _). simpl in Hk. lia.
  - cbn [walk]. split.
    + intros H.
      destruct (fs !! pre) as [[pm|pm b]|] eqn:El.
      * destruct (can_search pm) eqn:Es.
        -- apply IH in H as (k & Hk & Hdirs & Hob). exists (S k).
           split; [simpl; lia|]. split.
           ++ intros [|j] Hj.
              ** rewrite take_0, app_nil_r. eauto.
              ** destruct (Hdirs j ltac:(lia)) as (pm' & Hpm').
                 exists pm'. rewrite <- app_assoc in Hpm'. exact Hpm'.
           ++ rewrite <- app_assoc in Hob. exact Hob.
        -- exists 0%nat. split; [simpl; lia|]. split; [intros j Hj; lia|].
           rewrite take_0, app_nil_r, El. cbn [obstacle_kind]. rewrite Es. exact H.
      * exists 0%nat. split; [simpl; lia|]. split; [intros j Hj; lia|].
        rewrite take_0, app_nil_r, El. exact H.
      * exists 0%nat. split; [simpl; lia|]. split; [intros j Hj; lia|].
        rewrite take_0, app_nil_r, El. exact H.
    + intros (k & Hk & Hdirs & Hob). destruct k as [|k].
      * rewrite take_0, app_nil_r in Hob.
        destruct (fs !! pre) as [[pm|pm b]|]; cbn [obstacle_kind] in Hob; [|exact Hob..].
        destruct (can_search pm); [discriminate|exact Hob].
      * destruct (Hdirs 0%nat ltac:(lia)) as (pm & Hpm & Hs).
        rewrite take_0, app_nil_r in Hpm. rewrite Hpm, Hs.
        apply IH. exists k. split; [simpl in Hk; lia|]. split.
        -- intros j Hj. destruct (Hdirs (S j) ltac:(lia)) as (pm' & Hpm').
           exists pm'. rewrite <- app_assoc. exact Hpm'.
        -- rewrite <- app_assoc. exact Hob.
Qed.

Lemma resolve_Some_iff (fs : filesys) (p : path) e :
  resolve fs p = Some e <->
  exists k, (k < List.length p)%nat /\ searchable_to fs p k /\
            obstacle_kind (fs !! take k p) = Some e.
Proof. unfold resolve, searchable_to. rewrite walk_Some_iff. reflexivity. Qed.

Lemma resolve_None_iff (fs : filesys) (p : path) :
  resolve fs p = None <-> searchable_to fs p (List.length p).
Proof. apply resolve_None. Qed.

(** [open] followed by [read], by the entry at which the way to the
    file ends. *)
Lemma read_file_on_the_way (fs : filesys) (p : path) k e :
  (k < List.length p)%nat -> searchable_to fs p k ->
  obstacle_kind (fs !! take k p) = Some e ->
  read_file fs p = Raise (OSError e).
Proof.
  intros Hk Hs Hob. unfold read_file.
  rewrite (proj2 (resolve_Some_iff fs p e)) by eauto. reflexivity.
Qed.

Lemma read_file_at_the_end (fs : filesys) (p : path) :
  searchable_to fs p (List.length p) ->
  read_file fs p =
  match fs !! p with
  | None => Raise (OSError FileNotFoundError)
  | Some (Dir pm) =>
      if can_read pm then Raise (OSError IsADirectoryError)
      else Raise (OSError PermissionError)
  | Some (File pm content) =>
      if can_read pm then Return content else Raise (OSError PermissionError)
  end.
Proof. intros Hs. unfold read_file. rewrite (proj2 (resolve_None_iff fs p) Hs). reflexivity. Qed.

(** The cases of [read_file], one of which holds. *)
Lemma read_file_cases (fs : filesys) (p : path) :
  (exists k e, (k < List.length p)%nat /\ searchable_to fs p k /\
     obstacle_kind (fs !! take k p) = Some e /\ read_file fs p = Raise (OSError e)) \/
  (searchable_to fs p (List.length p) /\
   read_file fs p =
   match fs !! p with
   | None => Raise (OSError FileNotFoundError)
   | Some (Dir pm) =>
       if can_read pm then Raise (OSError IsADirectoryError)
       else Raise (OSError PermissionError)
   | Some (File pm content) =>
       if can_read pm then Return content else Raise (OSError PermissionError)
   end).
Proof.
  destruct (resolve fs p) as [e|] eqn:E.
  - left. pose proof (proj1 (resolve_Some_iff fs p e) E) as (k & Hk & Hs & Hob).
    exists k, e. repeat split; try assumption. eapply read_file_on_the_way; eauto.
  - right. apply resolve_None_iff in E. split; [exact E|]. apply read_file_at_the_end, E.
Qed.

(** The way to a path stops at one entry only. *)
Lemma obstacle_unique (fs : filesys) (p : path) k k' e e' :
  searchable_to fs p k -> obstacle_kind (fs !! take k p) = Some e ->
  searchable_to fs p k' -> obstacle_kind (fs !! take k' p) = Some e' ->
  k = k' /\ e = e'.
Proof.
  intros Hs Hob Hs' Hob'.
  assert (Hlt : forall a b ea, searchable_to fs p b ->
            obstacle_kind (fs !! take a p) = Some ea -> ~ (a < b)%nat).
  { intros a b ea Hb Ha Hab. destruct (Hb a Hab) as (pm & Hpm & Hsr).
    rewrite Hpm in Ha. cbn [obstacle_kind] in Ha. rewrite Hsr in Ha. discriminate Ha. }
  assert (k = k').
  { pose proof (Hlt k k' e Hs' Hob). pose proof (Hlt k' k e' Hs Hob'). lia. }
  subst k'. split; [reflexivity|congruence].
Qed.

(** Nothing stops the way to a path that resolves. *)
Lemma no_obstacle (fs : filesys) (p : path) k e :
  (k < List.length p)%nat -> searchable_to fs p (List.length p) ->
  obstacle_kind (fs !! take k p) = Some e -> False.
Proof.
  intros Hk Hs Hob. destruct (Hs k Hk) as (pm & Hpm & Hsr).
  rewrite Hpm in Hob. cbn [obstacle_kind] in Hob. rewrite Hsr in Hob. discriminate Hob.
Qed.

Ltac lookup_cases fs p :=
  let pm := fresh "pm" in
  let c := fresh "c" in
  let El := fresh "El" in
  let Er := fresh "Er" in
  destruct (fs !! p) as [[pm|pm c]|] eqn:El;
    [destruct (can_read pm) eqn:Er|destruct (can_read pm) eqn:Er|].

(** What [open] and [read] give, by the state of the files. *)
Lemma read_file_kinds (fs : filesys) (p : path) :
  (read_file fs p = Raise (OSError FileNotFoundError) <->
   exists k, (k <= List.length p)%nat /\ searchable_to fs p k /\
             fs !! take k p = None) /\
  (read_file fs p = Raise (OSError NotADirectoryError) <->
   exists k pm c, (k < List.length p)%nat /\ searchable_to fs p k /\
                  fs !! take k p = Some (File pm c)) /\
  (read_file fs p = Raise (OSError PermissionError) <->
   (exists k pm, (k < List.length p)%nat /\ searchable_to fs p k /\
                 fs !! take k p = Some (Dir pm) /\ can_search pm = false) \/
   (searchable_to fs p (List.length p) /\
    exists pm, (fs !! p = Some (Dir pm) \/ exists c, fs !! p = Some (File pm c)) /\
               can_read pm = false)) /\
  (read_file fs p = Raise (OSError IsADirectoryError) <->
   searchable_to fs p (List.length p) /\
   exists pm, fs !! p = Some (Dir pm) /\ can_read pm = true) /\
  (forall b, read_file fs p = Return b <->
   searchable_to fs p (List.length p) /\
   exists pm, fs !! p = Some (File pm b) /\ can_read pm = true) /\
  (forall e, read_file fs p = Raise e ->
   e = OSError FileNotFoundError \/ e = OSError NotADirectoryError \/
   e = OSError PermissionError \/ e = OSError IsADirectoryError).
Proof.
  destruct (read_file_cases fs p) as [(k & e & Hk & Hs & Hob & ->)|(Hs & ->)].
  - (* the way stops at component [k] *)
    assert (Hend : searchable_to fs p (List.length p) -> False)
      by (intros H; eapply no_obstacle; eauto).
    assert (Huniq : forall k' e', searchable_to fs p k' ->
              obstacle_kind (fs !! take k' p) = Some e' -> e = e').
    { intros k' e' Hs' Hob'.
      destruct (obstacle_unique fs p k k' e e' Hs Hob Hs' Hob') as [_ E]. exact E. }
    assert (Hnode : match fs !! take k p with
                    | None => e = FileNotFoundError
                    | Some (File _ _) => e = NotADirectoryError
                    | Some (Dir pm) => can_search pm = false /\ e = PermissionError
                    end).
    { destruct (fs !! take k p) as [[pm|pm c]|]; cbn [obstacle_kind] in Hob;
        [destruct (can_search pm)|..]; simplify_eq; auto. }
    refine (conj _ (conj _ (conj _ (conj _ (conj _ _))))).
    + split.
      * intros [= ->]. exists k. split; [lia|]. split; [exact Hs|].
        destruct (fs !! take k p) as [[pm|pm c]|]; [destruct Hnode|..]; congruence.
      * intros (k' & _ & Hs' & Hl). rewrite (Huniq k' FileNotFoundError Hs'); [reflexivity|].
        rewrite Hl. reflexivity.
    + split.
      * intros [= ->]. exists k.
        destruct (fs !! take k p) as [[pm|pm c]|]; [destruct Hnode|..]; try congruence. eauto.
      * intros (k' & pm & c & _ & Hs' & Hl).
        rewrite (Huniq k' NotADirectoryError Hs'); [reflexivity|]. rewrite Hl. reflexivity.
    + split.
      * intros [= ->]. left. exists k.
        destruct (fs !! take k p) as [[pm|pm c]|]; [destruct Hnode|..]; try congruence. eauto.
      * intros [(k' & pm & _ & Hs' & Hl & Hsr)|[H _]]; [|destruct (Hend H)].
        rewrite (Huniq k' PermissionError Hs'); [reflexivity|].
        rewrite Hl. cbn [obstacle_kind]. rewrite Hsr. reflexivity.
    + split.
      * intros [= ->]. exfalso.
        destruct (fs !! take k p) as [[pm|pm c]|]; [destruct Hnode|..]; congruence.
      * intros [H _]. destruct (Hend H).
    + intros b. split; [discriminate|]. intros [H _]. destruct (Hend H).
    + intros e' [= <-].
      destruct (fs !! take k p) as [[pm|pm c]|]; [destruct Hnode|..]; simplify_eq; auto.
  - (* the way leads to the place of the file *)
    assert (Hway : forall k e, (k < List.length p)%nat ->
              obstacle_kind (fs !! take k p) = Some e -> False)
      by (intros k e Hk Hob; eapply no_obstacle; eauto).
    refine (conj _ (conj _ (conj _ (conj _ (conj _ _))))).
    + split.
      * intros H. exists (List.length p). split; [lia|]. split; [exact Hs|].
        rewrite firstn_all. lookup_cases fs p; congruence.
      * intros (k & Hk & _ & Hl). destruct (decide (k < List.length p)%nat) as [Hlt|Hge].
        -- exfalso. apply (Hway k FileNotFoundError Hlt). rewrite Hl. reflexivity.
        -- rewrite take_ge in Hl by lia. rewrite Hl. reflexivity.
    + split.
      * intros H. exfalso. lookup_cases fs p; congruence.
      * intros (k & pm & c & Hk & _ & Hl). exfalso.
        apply (Hway k NotADirectoryError Hk). rewrite Hl. reflexivity.
    + split.
      * intros H. right. split; [exact Hs|]. lookup_cases fs p; try congruence; eauto.
      * intros [(k & pm & Hk & _ & Hl & Hsr)|(_ & pm & [Hl|[c Hl]] & Hr)].
        -- exfalso. apply (Hway k PermissionError Hk). rewrite Hl. cbn [obstacle_kind].
           rewrite Hsr. reflexivity.
        -- rewrite Hl, Hr. reflexivity.
        -- rewrite Hl, Hr. reflexivity.
    + split.
      * intros H. split; [exact Hs|]. lookup_cases fs p; try congruence; eauto.
      * intros (_ & pm & Hl & Hr). rewrite Hl, Hr. reflexivity.
    + intros b. split.
      * intros H. split; [exact Hs|]. lookup_cases fs p; try congruence.
        injection H as <-. eauto.
      * intros (_ & pm & Hl & Hr). rewrite Hl, Hr. reflexivity.
    + intros e. lookup_cases fs p; intros [= <-]; auto.
Qed.

Lemma load_raises_IOError dirs w k :
  (load dirs w).1 = Raise (OSError k) <->
  read_file (fs w) (config_toml dirs) = Raise (OSError k).
Proof.
  rewrite load_unfold. cbn [fst].
  destruct (read_file (fs w) (config_toml dirs)) as [b|e].
  - split; [|discriminate]. intros H. apply tomllib_load_not_IOError in H. discriminate H.
  - split; intros [= ->]; reflexivity.
Qed.

(** C6, amended.  [load] raises "not found" exactly when the way to the
    configuration file ends at a missing entry: the file, or a directory
    above it, does not exist, and every directory before that entry
    exists and may be searched.  The file can be opened and read exactly
    when every directory above it may be searched and it is a regular
    file that may be read; [load] raises an exception that is not of the
    I/O class exactly when the file can be read and its content is not
    well-formed, the exception is the one of the parser, a
    [UnicodeDecodeError], a [TOMLDecodeError] or the [ValueError] of an
    integer with more than 4300 digits; [load] returns a mapping exactly
    when the file can be read and the parser returns that mapping.  In
    the other states [load] raises another error of the I/O class: "not
    a directory" exactly when the way ends at a regular file above the
    configuration file, "permission denied" exactly when it ends at a
    directory that may not be searched or leads to an entry that may not
    be read, "is a directory" exactly when it leads to a directory that
    may be read; and no other. *)
Theorem load_failure_kinds dirs w :
  ((load dirs w).1 = Raise (OSError FileNotFoundError) <->
   exists k, (k <= List.length (config_toml dirs))%nat /\
     searchable_to (fs w) (config_toml dirs) k /\
     fs w !! take k (config_toml dirs) = None) /\
  (forall b,
     read_file (fs w) (config_toml dirs) = Return b <->
     searchable_to (fs w) (config_toml dirs) (List.length (config_toml dirs)) /\
     exists pm, fs w !! config_toml dirs = Some (File pm b) /\ can_read pm = true) /\
  ((exists e, (load dirs w).1 = Raise e /\ is_IOError e = false) <->
   exists b, read_file (fs w) (config_toml dirs) = Return b /\ well_formed b = false) /\
  (forall e,
     (load dirs w).1 = Raise e -> is_IOError e = false ->
     (exists b, read_file (fs w) (config_toml dirs) = Return b /\
                tomllib_load b = Raise e) /\
     (e = UnicodeDecodeError \/ (exists msg, e = TOMLDecodeError msg) \/ e = ValueError)) /\
  (forall d,
     (load dirs w).1 = Return d <->
     exists b, read_file (fs w) (config_toml dirs) = Return b /\
               tomllib_load b = Return d) /\
  ((load dirs w).1 = Raise (OSError NotADirectoryError) <->
   exists k pm c, (k < List.length (config_toml dirs))%nat /\
     searchable_to (fs w) (config_toml dirs) k /\
     fs w !! take k (config_toml dirs) = Some (File pm c)) /\
  ((load dirs w).1 = Raise (OSError PermissionError) <->
   (exists k pm, (k < List.length (config_toml dirs))%nat /\
      searchable_to (fs w) (config_toml dirs) k /\
      fs w !! take k (config_toml dirs) = Some (Dir pm) /\ can_search pm = false) \/
   (searchable_to (fs w) (config_toml dirs) (List.length (config_toml dirs)) /\
    exists pm, (fs w !! config_toml dirs = Some (Dir pm) \/
                exists c, fs w !! config_toml dirs = Some (File pm c)) /\
               can_read pm = false)) /\
  ((load dirs w).1 = Raise (OSError IsADirectoryError) <->
   searchable_to (fs w) (config_toml dirs) (List.length (config_toml dirs)) /\
   exists pm, fs w !! config_toml dirs = Some (Dir pm) /\ can_read pm = true) /\
  (forall k,
     (load dirs w).1 = Raise (OSError k) ->
     k = FileNotFoundError \/ k = NotADirectoryError \/
     k = PermissionError \/ k = IsADirectoryError).
Proof.
  destruct (read_file_kinds (fs w) (config_toml dirs))
    as (Hnf & Hnd & Hpe & Hid & Hret & Hall).
  refine (conj _ (conj _ (conj _ (conj _ (conj _ (conj _ (conj _ (conj _ _)))))))).
  - rewrite load_raises_IOError. exact Hnf.
  - exact Hret.
  - rewrite load_unfold. cbn [fst]. split.
    + intros (e & He & Hio).
      destruct (read_file (fs w) (config_toml dirs)) as [b|e'] eqn:Er.
      * exists b. split; [reflexivity|]. unfold well_formed. rewrite He. reflexivity.
      * injection He as ->.
        destruct (Hall _ eq_refl) as [->|[->|[->| ->]]]; discriminate Hio.
    + intros (b & -> & Hwf). destruct (not_well_formed b Hwf) as [e He].
      exists e. split; [exact He|]. eapply tomllib_load_not_IOError, He.
  - intros e. rewrite load_unfold. cbn [fst]. intros He Hio.
    destruct (read_file (fs w) (config_toml dirs)) as [b|e'] eqn:Er.
    + split; [eauto|]. apply tomllib_load_raises in He as [_ He]. exact He.
    + injection He as ->.
      destruct (Hall _ eq_refl) as [->|[->|[->| ->]]]; discriminate Hio.
  - intros d. rewrite load_unfold. cbn [fst].
    destruct (read_file (fs w) (config_toml dirs)) as [b|e'] eqn:Er.
    + split; [eauto|]. intros (b' & [= <-] & H). exact H.
    + split; [discriminate|]. intros (b' & [=] & _).
  - rewrite load_raises_IOError. exact Hnd.
  - rewrite load_raises_IOError. exact Hpe.
  - rewrite load_raises_IOError. exact Hid.
  - intros k. rewrite load_raises_IOError. intros H.
    destruct (Hall _ H) as [E|[E|[E|E]]]; injection E as ->; auto.
Qed.

(** On a first run the directory of the user's configuration files is
    the first entry that is missing, and [load] raises "not found"; the
    unterminated table of [corrupt_world] is a parse error. *)
Lemma load_failure_kinds_witness :
  (load dirs0 fresh_world).1 = Raise (OSError FileNotFoundError) /\
  exists e, (load dirs0 corrupt_world).1 = Raise e /\ is_IOError e = false.
Proof.
  split.
  - apply (proj1 (load_failure_kinds dirs0 fresh_world)).
    exists 3%nat. split; [vm_compute; lia|]. split; [|vm_compute; reflexivity].
    intros j Hj.
    assert (E : j = 0%nat \/ j = 1%nat \/ j = 2%nat) by lia.
    destruct E as [->|[->| ->]]; eexists; split; vm_compute; reflexivity.
  - apply (proj1 (proj2 (proj2 (load_failure_kinds dirs0 corrupt_world)))).
    exists (utf8_encode CORRUPT_TEXT). split; vm_compute; reflexivity.
Defined.

(** C6 as stated fails: with a regular file in the place of the
    configuration directory there is no configuration file, and [load]
    raises "not a directory"; with a file that may not be read, the
    content is not well-formed and [load] raises "permission denied". *)
Lemma load_failure_kinds_counterexample :
  ~ ((load dirs0 blocked_world).1 = Raise (OSError FileNotFoundError) <->
     fs blocked_world !! config_toml dirs0 = None) /\
  ~ ((exists e, (load dirs0 unreadable_world).1 = Raise e /\ is_IOError e = false) <->
     (exists b, file_content (fs unreadable_world) (config_toml dirs0) = Some b /\
                well_formed b = false)).
Proof.
  split.
  - intros [_ H].
    assert (E : (load dirs0 blocked_world).1 = Raise (OSError NotADirectoryError))
      by (vm_compute; reflexivity).
    rewrite E in H. discriminate H. vm_compute. reflexivity.
  - intros [_ H].
    assert (E : (load dirs0 unreadable_world).1 = Raise (OSError PermissionError))
      by (vm_compute; reflexivity).
    destruct H as (e & He & Hio).
    + exists (utf8_encode CORRUPT_TEXT). split; vm_compute; reflexivity.
    + rewrite E in He. injection He as <-. discriminate Hio.
Qed.

(** * Further properties of [init], [load] and [main] *)

(** X1. On a first run, where a directory on the way to the
    configuration directory exists and may be searched and written and
    nothing exists below it, [init] returns: it has made every missing
    directory of the chain and the configuration file with the template,
    and nothing else. *)
Theorem init_creates_missing_directories dirs w k pm :
  (k <= List.length (user_config_path dirs))%nat ->
  resolve (fs w) (take k (user_config_path dirs)) = None ->
  fs w !! take k (user_config_path dirs) = Some (Dir pm) ->
  can_search pm = true -> can_write pm = true ->
  (forall j, (k < j <= List.length (user_config_path dirs))%nat ->
             fs w !! take j (user_config_path dirs) = None) ->
  fs w !! config_toml dirs = None ->
  init dirs w =
  (Return tt,
   World (<[config_toml dirs := new_file (utf8_encode EXAMPLE_CONFIG)]>
            (make_dirs (user_config_path dirs) k
               (List.length (user_config_path dirs) - k) (fs w)))
         (stdout w) (calls w ++ [CallInit])).
Proof.
  set (ucp := user_config_path dirs).
  intros Hk Hres Hdir Hs Hw Hnone Hcfg.
  rewrite init_unfold. fold ucp. unfold Path_mkdir. unfold bind at 1.
  set (m := (List.length ucp - k)%nat).
  replace (List.length ucp) with (k + m)%nat at 1 by lia.
  rewrite (mkdir_parents_creates ucp k m _ pm); cbn [fs stdout calls];
    [|lia|exact Hres|exact Hdir|exact Hs|exact Hw|intros; apply Hnone; lia].
  set (fs1 := make_dirs ucp k m (fs w)).
  assert (Hold : forall j, (j <= k)%nat -> fs1 !! take j ucp = fs w !! take j ucp).
  { intros j Hj. apply make_dirs_old. intros i Hi E. apply take_inj_len in E; lia. }
  assert (Hnew : forall j, (k < j <= List.length ucp)%nat -> fs1 !! take j ucp = Some new_dir).
  { intros j Hj. apply make_dirs_new. lia. }
  assert (Hat : exists pm', fs1 !! ucp = Some (Dir pm') /\
                            can_search pm' = true /\ can_write pm' = true).
  { rewrite <- (firstn_all ucp).
    destruct (decide (k = List.length ucp)) as [E|E].
    - rewrite Hold by lia. rewrite <- E. eauto.
    - rewrite Hnew by lia. unfold new_dir. eauto. }
  destruct Hat as (pm' & Hpm' & Hs' & Hw').
  rewrite (init_in_directory dirs (World fs1 (stdout w) (calls w ++ [CallInit])) pm');
    cbn [fs stdout calls]; try assumption; [reflexivity| |].
  - apply resolve_None. intros j Hj.
    destruct (decide (j < k)%nat) as [Hjk|Hjk].
    + rewrite Hold by lia. rewrite resolve_None in Hres.
      destruct (Hres j) as (pm'' & Hpm'' & Hs''); [rewrite length_take; lia|].
      rewrite take_take in Hpm''. replace (j `min` k)%nat with j in Hpm'' by lia. eauto.
    + destruct (decide (j = k)) as [->|Hne].
      * rewrite Hold by lia. eauto.
      * rewrite Hnew by (fold ucp in Hj; lia). unfold new_dir. eauto.
  - unfold fs1. rewrite make_dirs_old; [exact Hcfg|].
    intros i Hi E. symmetry in E. revert E. apply config_toml_not_prefix.
Qed.

Lemma init_creates_missing_directories_witness :
  init dirs0 fresh_world =
  (Return tt,
   World (<[config_toml dirs0 := new_file (utf8_encode EXAMPLE_CONFIG)]>
            (make_dirs (user_config_path dirs0) 2 2 fresh_fs))
         [] [CallInit]).
Proof.
  refine (init_creates_missing_directories dirs0 fresh_world 2 rwx _ _ _ _ _ _ _).
  - vm_compute. lia.
  - vm_compute. reflexivity.
  - vm_compute. reflexivity.
  - reflexivity.
  - reflexivity.
  - intros j Hj. change (List.length (user_config_path dirs0)) with 4%nat in Hj.
    assert (E : j = 3%nat \/ j = 4%nat) by lia.
    destruct E as [-> | ->]; vm_compute; reflexivity.
  - vm_compute. reflexivity.
Defined.

(** X4. First run, second run: when there is no configuration file and
    [main] returns, it has written the template and printed nothing; the
    next run of [main] prints the document of the template and changes
    no file. *)
Theorem main_first_run_then_prints dirs w w1 :
  fs w !! config_toml dirs = None ->
  main dirs w = (Return tt, w1) ->
  file_content (fs w1) (config_toml dirs) = Some (utf8_encode EXAMPLE_CONFIG) /\
  stdout w1 = stdout w /\
  main dirs w1 =
  (Return tt,
   World (fs w1) (stdout w ++ [EXAMPLE_DOCUMENT])
         (calls w ++ [CallLoad; CallInit; CallLoad])).
Proof.
  intros Hnone Hm.
  destruct (load_missing_file dirs w Hnone) as [k Hl].
  rewrite (main_on_io_error dirs w k) in Hm by (rewrite Hl; reflexivity).
  apply init_success in Hm as (Hout & Hcalls & Hres & (pm & _ & Hpm & Hold) & _).
  cbn [fs stdout calls] in *.
  destruct Hold as [[_ ->]|[c Hc]]; [|congruence].
  split; [unfold file_content; rewrite Hpm; reflexivity|]. split; [exact Hout|].
  rewrite (main_on_document dirs w1 EXAMPLE_DOCUMENT).
  - rewrite Hout, Hcalls, <- !app_assoc. reflexivity.
  - rewrite load_unfold. cbn [fst]. unfold read_file. rewrite Hres, Hpm. cbn [can_read].
    apply template_parses.
  - reflexivity.
Qed.

Lemma main_first_run_then_prints_witness :
  let w1 := (main dirs0 fresh_world).2 in
  fs fresh_world !! config_toml dirs0 = None /\
  main dirs0 fresh_world = (Return tt, w1) /\
  main dirs0 w1 =
  (Return tt, World (fs w1) [EXAMPLE_DOCUMENT] [CallLoad; CallInit; CallLoad]).
Proof.
  intros w1.
  assert (H0 : fs fresh_world !! config_toml dirs0 = None) by (vm_compute; reflexivity).
  assert (H1 : main dirs0 fresh_world = (Return tt, w1)) by (vm_compute; reflexivity).
  split; [exact H0|]. split; [exact H1|].
  exact (proj2 (proj2 (main_first_run_then_prints dirs0 fresh_world w1 H0 H1))).
Defined.

(** X5. A configuration file that may be written but not read is lost:
    [load] fails with a permission error, [main] takes it for a missing
    file and [init] overwrites the content with the template.  The file
    stays unreadable, so the next run does the same. *)
Theorem main_overwrites_unreadable_file dirs w pm c :
  resolve (fs w) (config_toml dirs) = None ->
  fs w !! config_toml dirs = Some (File pm c) ->
  can_read pm = false -> can_write pm = true ->
  exists w1,
    main dirs w = (Return tt, w1) /\
    fs w1 = <[config_toml dirs := File pm (utf8_encode EXAMPLE_CONFIG)]> (fs w) /\
    stdout w1 = stdout w /\
    calls w1 = calls w ++ [CallLoad; CallInit] /\
    (load dirs w1).1 = Raise (OSError PermissionError).
Proof.
  intros Hres Hfile Hr Hw.
  assert (Hl : (load dirs w).1 = Raise (OSError PermissionError)).
  { rewrite load_unfold. cbn [fst]. unfold read_file. rewrite Hres, Hfile, Hr. reflexivity. }
  rewrite (main_on_io_error _ _ _ Hl). rewrite init_unfold. unfold Path_mkdir.
  unfold bind at 1.
  rewrite mkdir_parents_existing
    by (rewrite firstn_all; apply resolve_config_toml; exact Hres).
  unfold bind at 1. unfold open_w, bind, get_fs, set_fs. cbn [fs stdout calls].
  rewrite Hres, Hfile, Hw.
  unfold file_write, bind, get_fs, set_fs. cbn [fs stdout calls].
  rewrite lookup_insert_eq, insert_insert_eq. cbn [String.append].
  eexists. split; [reflexivity|]. cbn [fs stdout calls].
  split; [reflexivity|]. split; [reflexivity|]. split; [rewrite <- app_assoc; reflexivity|].
  rewrite load_unfold. cbn [fst fs]. unfold read_file.
  rewrite resolve_insert_self, Hres, lookup_insert_eq, Hr. reflexivity.
Qed.

Lemma main_overwrites_unreadable_file_witness :
  resolve (fs unreadable_world) (config_toml dirs0) = None /\
  fs unreadable_world !! config_toml dirs0 = Some (File _w_ (utf8_encode CORRUPT_TEXT)) /\
  exists w1,
    main dirs0 unreadable_world = (Return tt, w1) /\
    fs w1 = <[config_toml dirs0 := File _w_ (utf8_encode EXAMPLE_CONFIG)]>
              (fs unreadable_world) /\
    stdout w1 = stdout unreadable_world /\
    calls w1 = calls unreadable_world ++ [CallLoad; CallInit] /\
    (load dirs0 w1).1 = Raise (OSError PermissionError).
Proof.
  assert (H0 : resolve (fs unreadable_world) (config_toml dirs0) = None)
    by (vm_compute; reflexivity).
  assert (H1 : fs unreadable_world !! config_toml dirs0 =
               Some (File _w_ (utf8_encode CORRUPT_TEXT))) by (vm_compute; reflexivity).
  split; [exact H0|]. split; [exact H1|].
  exact (main_overwrites_unreadable_file dirs0 unreadable_world _ _ H0 H1 eq_refl eq_refl).
Defined.

Lemma user_config_path_ne_nil dirs : user_config_path dirs <> [].
Proof. unfold user_config_path. intros E. apply app_eq_nil in E as [_ E]. discriminate E. Qed.

(** X6. A regular file in the place of the configuration directory
    stops every run: [load] raises "not a directory", which [main] takes
    for a missing file, and [init] then raises "file exists" out of
    [mkdir], which nothing handles.  No file is changed and nothing is
    printed. *)
Theorem main_fails_on_file_in_place_of_directory dirs w pm c :
  resolve (fs w) (user_config_path dirs) = None ->
  fs w !! user_config_path dirs = Some (File pm c) ->
  (load dirs w).1 = Raise (OSError NotADirectoryError) /\
  main dirs w =
    (Raise (OSError FileExistsError),
     World (fs w) (stdout w) (calls w ++ [CallLoad; CallInit])) /\
  (exit_status dirs w).1 = 1.
Proof.
  intros Hres Hfile.
  assert (Hl : (load dirs w).1 = Raise (OSError NotADirectoryError)).
  { rewrite load_unfold. cbn [fst]. unfold read_file, resolve.
    rewrite (walk_file (fs w) [] (config_toml dirs)
               (List.length (user_config_path dirs)) pm c); [reflexivity| | |].
    - rewrite length_config_toml. lia.
    - intros j Hj. cbn [app]. rewrite take_config_toml by lia.
      rewrite resolve_None in Hres. apply Hres, Hj.
    - cbn [app]. rewrite take_config_toml, firstn_all by lia. exact Hfile. }
  assert (Hm : main dirs w =
               (Raise (OSError FileExistsError),
                World (fs w) (stdout w) (calls w ++ [CallLoad; CallInit]))).
  { rewrite (main_on_io_error _ _ _ Hl). rewrite init_unfold. unfold Path_mkdir.
    unfold bind at 1. rewrite mkdir_parents_unfold, firstn_all.
    unfold try_except, os_mkdir, bind, get_fs. cbn [fs stdout calls].
    pose proof (user_config_path_ne_nil dirs) as Hne.
    destruct (user_config_path dirs) as [|a ucp] eqn:E; [congruence|]. rewrite <- E in *.
    rewrite Hres, Hfile. unfold raise at 1.
    unfold is_dir, try_except, bind, os_stat, bind, get_fs. cbn [fs stdout calls].
    rewrite Hres, Hfile. unfold ret, raise. cbn [negb].
    rewrite <- app_assoc. reflexivity. }
  split; [exact Hl|]. split; [exact Hm|].
  unfold exit_status. rewrite Hm. reflexivity.
Qed.

Lemma main_fails_on_file_in_place_of_directory_witness :
  resolve (fs blocked_world) (user_config_path dirs0) = None /\
  fs blocked_world !! user_config_path dirs0 = Some (File rw_ "") /\
  main dirs0 blocked_world =
    (Raise (OSError FileExistsError),
     World (fs blocked_world) (stdout blocked_world)
           (calls blocked_world ++ [CallLoad; CallInit])).
Proof.
  assert (H0 : resolve (fs blocked_world) (user_config_path dirs0) = None)
    by (vm_compute; reflexivity).
  assert (H1 : fs blocked_world !! user_config_path dirs0 = Some (File rw_ ""))
    by (vm_compute; reflexivity).
  split; [exact H0|]. split; [exact H1|].
  exact (proj1 (proj2 (main_fails_on_file_in_place_of_directory dirs0 blocked_world _ _ H0 H1))).
Defined.

(** X9. Line ends: a configuration file written with a carriage return
    before every newline loads as the same text with plain newlines. *)
Theorem load_accepts_dos_line_ends dirs w s :
  scalar_text s = true -> no_cr s = true ->
  read_file (fs w) (config_toml dirs) = Return (utf8_encode (to_crlf s)) ->
  (load dirs w).1 = loads s /\
  (load dirs w).1 = tomllib_load (utf8_encode s).
Proof.
  intros Hs Hcr Hr. rewrite (load_result _ _ _ Hr).
  rewrite !tomllib_load_encoded by auto using scalar_to_crlf.
  assert (H : loads (to_crlf s) = loads s); [|split; exact H].
  unfold loads, loads_gas.
  rewrite replace_crlf_to_crlf, (replace_crlf_no_cr s) by exact Hcr. reflexivity.
Qed.

Lemma load_accepts_dos_line_ends_witness :
  scalar_text EXAMPLE_CONFIG = true /\ no_cr EXAMPLE_CONFIG = true /\
  read_file (fs dos_world) (config_toml dirs0) =
    Return (utf8_encode (to_crlf EXAMPLE_CONFIG)) /\
  (load dirs0 dos_world).1 = tomllib_load (utf8_encode EXAMPLE_CONFIG).
Proof.
  assert (H0 : scalar_text EXAMPLE_CONFIG = true) by (vm_compute; reflexivity).
  assert (H1 : no_cr EXAMPLE_CONFIG = true) by (vm_compute; reflexivity).
  assert (H2 : read_file (fs dos_world) (config_toml dirs0) =
               Return (utf8_encode (to_crlf EXAMPLE_CONFIG))) by (vm_compute; reflexivity).
  split; [exact H0|]. split; [exact H1|]. split; [exact H2|].
  exact (proj2 (load_accepts_dos_line_ends dirs0 dos_world EXAMPLE_CONFIG H0 H1 H2)).
Defined.

Lemma loads_ignored_lines ls s :
  forallb ignorable ls = true -> loads (ignored_lines ls ++ s) = loads s.
Proof.
  unfold ignored_lines. induction ls as [|[ws c] ls IH]; [reflexivity|].
  cbn [forallb List.map List.concat]. unfold ignorable at 1. cbn [fst snd].
  rewrite !andb_true_iff. intros [[Hws Hc] Hls].
  rewrite <- app_assoc, loads_ignored_line by assumption. apply IH, Hls.
Qed.

(** X10. Leading lines that hold only white space, or white space and
    a comment, do not count: the file loads as the file without them,
    and a file of such lines only loads as the empty mapping. *)
Theorem load_skips_leading_comment_lines dirs w ls s :
  forallb ignorable ls = true ->
  scalar_text (ignored_lines ls ++ s) = true ->
  read_file (fs w) (config_toml dirs) = Return (utf8_encode (ignored_lines ls ++ s)) ->
  (load dirs w).1 = tomllib_load (utf8_encode s) /\
  (s = [] -> (load dirs w).1 = Return []).
Proof.
  intros Hls Hs Hr. rewrite (load_result _ _ _ Hr).
  rewrite tomllib_load_encoded by exact Hs.
  rewrite loads_ignored_lines by assumption.
  unfold scalar_text in Hs. rewrite forallb_app in Hs. apply andb_true_iff in Hs as [_ Hs].
  rewrite tomllib_load_encoded by exact Hs.
  split; [reflexivity|]. intros ->. reflexivity.
Qed.

Lemma load_skips_leading_comment_lines_witness :
  let s := drop 68 EXAMPLE_CONFIG in
  let ls := [([], Some (u " Example configuration file"));
             ([], Some (u " Lines starting with '#' are comments"))] in
  forallb ignorable ls = true /\
  scalar_text (ignored_lines ls ++ s) = true /\
  read_file (fs configured_world) (config_toml dirs0) =
    Return (utf8_encode (ignored_lines ls ++ s)) /\
  (load dirs0 configured_world).1 = tomllib_load (utf8_encode s).
Proof.
  intros s ls.
  assert (H0 : forallb ignorable ls = true) by (vm_compute; reflexivity).
  assert (H1 : scalar_text (ignored_lines ls ++ s) = true) by (vm_compute; reflexivity).
  assert (H2 : read_file (fs configured_world) (config_toml dirs0) =
               Return (utf8_encode (ignored_lines ls ++ s))) by (vm_compute; reflexivity).
  split; [exact H0|]. split; [exact H1|]. split; [exact H2|].
  exact (proj1 (load_skips_leading_comment_lines dirs0 configured_world ls s H0 H1 H2)).
Defined.

(** X11. A file whose first character behind leading white space can
    start no statement (no key, no table header, no comment, no line
    end) does not load: the parser raises "Invalid statement", and
    [main] ends with it without calling [init].  A byte order mark is
    such a character. *)
Theorem load_rejects_unexpected_character dirs w ws c rest :
  forallb TOML_WS ws = true -> statement_start c = false ->
  scalar_text (ws ++ c :: rest) = true ->
  read_file (fs w) (config_toml dirs) = Return (utf8_encode (ws ++ c :: rest)) ->
  (load dirs w).1 = Raise (TOMLDecodeError "Invalid statement") /\
  main dirs w =
    (Raise (TOMLDecodeError "Invalid statement"),
     World (fs w) (stdout w) (calls w ++ [CallLoad])).
Proof.
  intros Hws Hc Hs Hr.
  assert (Hl : tomllib_load (utf8_encode (ws ++ c :: rest)) =
               Raise (TOMLDecodeError "Invalid statement")).
  { rewrite tomllib_load_encoded by exact Hs. apply loads_invalid_statement; assumption. }
  split; [rewrite (load_result _ _ _ Hr); exact Hl|].
  apply (main_on_parse_error dirs w _ _ Hr Hl).
Qed.

Lemma load_rejects_unexpected_character_witness :
  statement_start BOM = false /\
  scalar_text ([] ++ BOM :: EXAMPLE_CONFIG) = true /\
  read_file (fs bom_world) (config_toml dirs0) =
    Return (utf8_encode ([] ++ BOM :: EXAMPLE_CONFIG)) /\
  (load dirs0 bom_world).1 = Raise (TOMLDecodeError "Invalid statement").
Proof.
  assert (H0 : statement_start BOM = false) by (vm_compute; reflexivity).
  assert (H1 : scalar_text ([] ++ BOM :: EXAMPLE_CONFIG) = true) by (vm_compute; reflexivity).
  assert (H2 : read_file (fs bom_world) (config_toml dirs0) =
               Return (utf8_encode ([] ++ BOM :: EXAMPLE_CONFIG))) by (vm_compute; reflexivity).
  split; [exact H0|]. split; [exact H1|]. split; [exact H2|].
  exact (proj1 (load_rejects_unexpected_character dirs0 bom_world [] BOM EXAMPLE_CONFIG
                  eq_refl H0 H1 H2)).
Defined.

Lemma engine_of_engines_document es e :
  NoDup (engine_ids es) -> In e es ->
  engine_of (engines_document es) (engine_id e) = Some (engine_fields e).
Proof.
  intros Hnd Hin. unfold engine_of, engines_document.
  destruct es as [|a es]; [destruct Hin|].
  cbn [dict_get]. rewrite str_eqb_refl.
  assert (H : dict_get (engine_id e) (List.map engine_entry (a :: es)) =
              Some (VDict (engine_fields e))); [|rewrite H; reflexivity].
  revert Hnd Hin. generalize (a :: es). clear a es.
  induction l as [|a l IH]; intros Hnd Hin; [destruct Hin|].
  cbn [List.map dict_get engine_entry]. unfold str_eqb.
  destruct Hin as [->|Hin]; [rewrite bool_decide_eq_true_2 by reflexivity; reflexivity|].
  cbn [engine_ids List.map] in Hnd. apply NoDup_cons in Hnd as [Hna Hnd].
  rewrite bool_decide_eq_false_2; [apply IH; assumption|].
  intros E. apply Hna. rewrite <- E. apply list_elem_of_In.
  unfold engine_ids. apply in_map. exact Hin.
Qed.

(** X12. A configuration file of several engine entries, one after
    the other, with identifiers that differ, loads as the mapping of
    all of them in the order of the text, each with the fields as
    written. *)
Theorem load_reads_every_engine dirs w es :
  forallb well_formed_engine es = true -> NoDup (engine_ids es) ->
  read_file (fs w) (config_toml dirs) = Return (utf8_encode (engines_text es)) ->
  (load dirs w).1 = Return (engines_document es) /\
  (forall e, In e es ->
     engine_of (engines_document es) (engine_id e) = Some (engine_fields e)).
Proof.
  intros Hwf Hnd Hr. rewrite (load_result _ _ _ Hr).
  rewrite tomllib_load_encoded by (apply engines_text_scalar, Hwf).
  split; [apply loads_engines_text; assumption|].
  intros e. apply engine_of_engines_document, Hnd.
Qed.

Lemma load_reads_every_engine_witness :
  forallb well_formed_engine [ENGINE_EX; ENGINE_GZ] = true /\
  NoDup (engine_ids [ENGINE_EX; ENGINE_GZ]) /\
  read_file (fs two_engines_world) (config_toml dirs0) =
    Return (utf8_encode (engines_text [ENGINE_EX; ENGINE_GZ])) /\
  (load dirs0 two_engines_world).1 = Return (engines_document [ENGINE_EX; ENGINE_GZ]).
Proof.
  assert (H0 : forallb well_formed_engine [ENGINE_EX; ENGINE_GZ] = true)
    by (vm_compute; reflexivity).
  assert (H1 : NoDup (engine_ids [ENGINE_EX; ENGINE_GZ]))
    by (apply (bool_decide_unpack _); vm_compute; exact I).
  assert (H2 : read_file (fs two_engines_world) (config_toml dirs0) =
               Return (utf8_encode (engines_text [ENGINE_EX; ENGINE_GZ])))
    by (vm_compute; reflexivity).
  split; [exact H0|]. split; [exact H1|]. split; [exact H2|].
  exact (proj1 (load_reads_every_engine dirs0 two_engines_world _ H0 H1 H2)).
Defined.

(** X13. A configuration file that declares an engine identifier a
    second time does not load, whatever follows: the parser raises
    "Cannot declare ... twice", and [main] ends with it without calling
    [init]. *)
Theorem load_rejects_duplicate_engine dirs w es1 e es2 :
  forallb well_formed_engine (es1 ++ [e]) = true -> NoDup (engine_ids es1) ->
  In (engine_id e) (engine_ids es1) ->
  scalar_text (engines_text (es1 ++ e :: es2)) = true ->
  read_file (fs w) (config_toml dirs) =
    Return (utf8_encode (engines_text (es1 ++ e :: es2))) ->
  (load dirs w).1 = Raise (TOMLDecodeError "Cannot declare {key} twice") /\
  main dirs w =
    (Raise (TOMLDecodeError "Cannot declare {key} twice"),
     World (fs w) (stdout w) (calls w ++ [CallLoad])).
Proof.
  intros Hwf Hnd Hin Hs Hr.
  assert (Hl : tomllib_load (utf8_encode (engines_text (es1 ++ e :: es2))) =
               Raise (TOMLDecodeError "Cannot declare {key} twice")).
  { rewrite tomllib_load_encoded by exact Hs.
    apply loads_engines_text_duplicate; assumption. }
  split; [rewrite (load_result _ _ _ Hr); exact Hl|].
  apply (main_on_parse_error dirs w _ _ Hr Hl).
Qed.

Lemma load_rejects_duplicate_engine_witness :
  forallb well_formed_engine ([ENGINE_EX] ++ [ENGINE_MIN]) = true /\
  NoDup (engine_ids [ENGINE_EX]) /\
  In (engine_id ENGINE_MIN) (engine_ids [ENGINE_EX]) /\
  scalar_text (engines_text ([ENGINE_EX] ++ ENGINE_MIN :: [])) = true /\
  read_file (fs duplicate_world) (config_toml dirs0) =
    Return (utf8_encode (engines_text ([ENGINE_EX] ++ ENGINE_MIN :: []))) /\
  (load dirs0 duplicate_world).1 = Raise (TOMLDecodeError "Cannot declare {key} twice").
Proof.
  assert (H0 : forallb well_formed_engine ([ENGINE_EX] ++ [ENGINE_MIN]) = true)
    by (vm_compute; reflexivity).
  assert (H1 : NoDup (engine_ids [ENGINE_EX]))
    by (apply (bool_decide_unpack _); vm_compute; exact I).
  assert (H2 : In (engine_id ENGINE_MIN) (engine_ids [ENGINE_EX])) by (left; reflexivity).
  assert (H3 : scalar_text (engines_text ([ENGINE_EX] ++ ENGINE_MIN :: [])) = true)
    by (vm_compute; reflexivity).
  assert (H4 : read_file (fs duplicate_world) (config_toml dirs0) =
               Return (utf8_encode (engines_text ([ENGINE_EX] ++ ENGINE_MIN :: []))))
    by (vm_compute; reflexivity).
  split; [exact H0|]. split; [exact H1|]. split; [exact H2|]. split; [exact H3|].
  split; [exact H4|].
  exact (proj1 (load_rejects_duplicate_engine dirs0 duplicate_world _ _ _ H0 H1 H2 H3 H4)).
Defined.

(** X14. [load] raises [UnicodeDecodeError] exactly for a file that is
    not the UTF-8 encoding of a text: overlong forms, surrogates, code
    points above U+10FFFF and truncated sequences are refused, and the
    file that is the encoding of a text loads as the parse of that
    text. *)
Theorem load_decodes_exactly_utf8 dirs w b :
  read_file (fs w) (config_toml dirs) = Return b ->
  ((load dirs w).1 = Raise UnicodeDecodeError <->
   ~ exists s, scalar_text s = true /\ b = utf8_encode s) /\
  (forall s, scalar_text s = true -> b = utf8_encode s -> (load dirs w).1 = loads s).
Proof.
  intros Hr. rewrite (load_result _ _ _ Hr). split.
  - unfold tomllib_load. destruct (utf8_decode (byte_values b)) as [s|] eqn:Ed.
    + apply utf8_decode_exact in Ed as [Hs Hb]. split.
      * intros H. apply loads_raises in H as [[msg H]|[H|H]]; discriminate H.
      * intros H. exfalso. apply H. exists s. auto.
    + split; [|reflexivity]. intros _ (s & Hs & ->).
      rewrite utf8_decode_encode in Ed by exact Hs. discriminate Ed.
  - intros s Hs ->. apply tomllib_load_encoded, Hs.
Qed.

Lemma load_decodes_exactly_utf8_witness :
  read_file (fs latin1_world) (config_toml dirs0) =
    Return (String (ascii_of_nat 233) EmptyString) /\
  ~ exists s, scalar_text s = true /\ String (ascii_of_nat 233) EmptyString = utf8_encode s.
Proof.
  assert (H : read_file (fs latin1_world) (config_toml dirs0) =
              Return (String (ascii_of_nat 233) EmptyString)) by (vm_compute; reflexivity).
  split; [exact H|].
  apply (proj1 (proj1 (load_decodes_exactly_utf8 dirs0 latin1_world _ H))).
  vm_compute. reflexivity.
Defined.

(** X16. A field given twice within an engine entry is an error, not
    a replacement: the parser raises "Cannot overwrite a value" at the
    second line, whatever follows it, and [main] ends with it without
    calling [init]. *)
Theorem load_rejects_field_given_twice dirs w e k s rest :
  well_formed_engine e = true -> bare_key k = true -> plain s = true ->
  dict_mem k (engine_fields e) = true ->
  scalar_text (engine_text e ++ k ++ u " = " ++ quoted s ++ LF :: rest) = true ->
  read_file (fs w) (config_toml dirs) =
    Return (utf8_encode (engine_text e ++ k ++ u " = " ++ quoted s ++ LF :: rest)) ->
  (load dirs w).1 = Raise (TOMLDecodeError "Cannot overwrite a value") /\
  main dirs w =
    (Raise (TOMLDecodeError "Cannot overwrite a value"),
     World (fs w) (stdout w) (calls w ++ [CallLoad])).
Proof.
  intros He Hk Hs Hmem Hsc Hr.
  assert (Hl : tomllib_load
                 (utf8_encode (engine_text e ++ k ++ u " = " ++ quoted s ++ LF :: rest)) =
               Raise (TOMLDecodeError "Cannot overwrite a value")).
  { rewrite tomllib_load_encoded by exact Hsc. apply loads_field_twice; assumption. }
  split; [rewrite (load_result _ _ _ Hr); exact Hl|].
  apply (main_on_parse_error dirs w _ _ Hr Hl).
Qed.

Lemma load_rejects_field_given_twice_witness :
  let text := engine_text ENGINE_MIN ++ u "kind" ++ u " = " ++ quoted (u "MBF") ++ LF :: [] in
  well_formed_engine ENGINE_MIN = true /\
  dict_mem (u "kind") (engine_fields ENGINE_MIN) = true /\
  scalar_text text = true /\
  read_file (fs twice_world) (config_toml dirs0) = Return (utf8_encode text) /\
  (load dirs0 twice_world).1 = Raise (TOMLDecodeError "Cannot overwrite a value").
Proof.
  intros text.
  assert (H0 : well_formed_engine ENGINE_MIN = true) by (vm_compute; reflexivity).
  assert (H1 : dict_mem (u "kind") (engine_fields ENGINE_MIN) = true)
    by (vm_compute; reflexivity).
  assert (H2 : scalar_text text = true) by (vm_compute; reflexivity).
  assert (H3 : read_file (fs twice_world) (config_toml dirs0) = Return (utf8_encode text))
    by (vm_compute; reflexivity).
  split; [exact H0|]. split; [exact H1|]. split; [exact H2|]. split; [exact H3|].
  exact (proj1 (load_rejects_field_given_twice dirs0 twice_world ENGINE_MIN (u "kind")
                  (u "MBF") [] H0 eq_refl eq_refl H1 H2 H3)).
Defined.

(** X17. In a configuration directory that may be searched but not
    written and holds no [config.toml], [load] raises "not found",
    [main] calls [init], [mkdir] accepts the directory as it is, and
    opening the file for writing raises "permission denied", with which
    [main] ends.  No file is changed and nothing is printed. *)
Theorem main_fails_in_read_only_directory dirs w pm :
  resolve (fs w) (user_config_path dirs) = None ->
  fs w !! user_config_path dirs = Some (Dir pm) ->
  can_search pm = true -> can_write pm = false ->
  fs w !! config_toml dirs = None ->
  (load dirs w).1 = Raise (OSError FileNotFoundError) /\
  main dirs w =
    (Raise (OSError PermissionError),
     World (fs w) (stdout w) (calls w ++ [CallLoad; CallInit])) /\
  (exit_status dirs w).1 = 1.
Proof.
  intros Hres Hdir Hs Hw Hnone.
  assert (Hres' : resolve (fs w) (config_toml dirs) = None).
  { apply resolve_None. intros j Hj. rewrite length_config_toml in Hj.
    rewrite take_config_toml by lia.
    destruct (decide (j = List.length (user_config_path dirs))) as [->|Hne].
    - rewrite firstn_all. eauto.
    - rewrite resolve_None in Hres. apply Hres. lia. }
  assert (Hl : (load dirs w).1 = Raise (OSError FileNotFoundError)).
  { rewrite load_unfold. cbn [fst]. unfold read_file. rewrite Hres', Hnone. reflexivity. }
  assert (Hm : main dirs w =
               (Raise (OSError PermissionError),
                World (fs w) (stdout w) (calls w ++ [CallLoad; CallInit]))).
  { rewrite (main_on_io_error _ _ _ Hl). rewrite init_unfold. unfold Path_mkdir.
    unfold bind at 1.
    rewrite mkdir_parents_existing by (rewrite firstn_all; split; eauto).
    unfold bind at 1. unfold open_w, bind, get_fs, raise. cbn [fs stdout calls].
    rewrite Hres', Hnone.
    pose proof (config_toml_ne_nil dirs) as Hne.
    destruct (config_toml dirs) as [|c q] eqn:E; [congruence|]. rewrite <- E.
    unfold dir_writable. rewrite parent_config_toml, Hdir, Hw, <- app_assoc. reflexivity. }
  split; [exact Hl|]. split; [exact Hm|].
  unfold exit_status. rewrite Hm. reflexivity.
Qed.

Lemma main_fails_in_read_only_directory_witness :
  resolve (fs read_only_world) (user_config_path dirs0) = None /\
  fs read_only_world !! user_config_path dirs0 = Some (Dir r_x) /\
  fs read_only_world !! config_toml dirs0 = None /\
  main dirs0 read_only_world =
    (Raise (OSError PermissionError),
     World (fs read_only_world) (stdout read_only_world)
           (calls read_only_world ++ [CallLoad; CallInit])).
Proof.
  assert (H0 : resolve (fs read_only_world) (user_config_path dirs0) = None)
    by (vm_compute; reflexivity).
  assert (H1 : fs read_only_world !! user_config_path dirs0 = Some (Dir r_x))
    by (vm_compute; reflexivity).
  assert (H2 : fs read_only_world !! config_toml dirs0 = None) by (vm_compute; reflexivity).
  split; [exact H0|]. split; [exact H1|]. split; [exact H2|].
  exact (proj1 (proj2 (main_fails_in_read_only_directory dirs0 read_only_world r_x
                         H0 H1 eq_refl eq_refl H2))).
Defined.

(** * Runs that fail *)

(** X2. When [init] raises, whatever failed: no entry that existed has
    changed, the configuration file apart, and what is new are
    directories on the way to the configuration directory; no print was
    completed.  The configuration file is as it was, or, when the
    failure came after [open] had emptied it, it holds the first bytes
    of the template that were written before the failure and nothing of
    what it held. *)
Theorem init_failure_keeps_files env dirs w e w' :
  init_in env dirs w = (Raise e, w') ->
  (forall q, q <> config_toml dirs ->
     fs w' !! q = fs w !! q \/
     (fs w !! q = None /\ fs w' !! q = Some new_dir /\
      exists k, (k <= List.length (user_config_path dirs))%nat /\
                q = take k (user_config_path dirs))) /\
  (fs w' !! config_toml dirs = fs w !! config_toml dirs \/
   exists pm n,
     fs w' !! config_toml dirs =
       Some (File pm (bytes_take n (utf8_encode EXAMPLE_CONFIG))) /\
     can_write pm = true /\
     (fs w !! config_toml dirs = None /\ pm = Perm true true false \/
      exists c, fs w !! config_toml dirs = Some (File pm c))) /\
  stdout w' = stdout w.
Proof.
  intros Hi. pose proof (init_in_io _ _ _ _ _ Hi) as [Hout _].
  apply init_in_outcome in Hi as (Hframe & Hcfg & _).
  split; [exact Hframe|]. split; [exact Hcfg|exact Hout].
Qed.

(** The disk is full when [init] writes over the configuration of
    [corrupt_world]: [init] raises, and the file is empty. *)
Lemma init_failure_keeps_files_witness :
  let w' := World (<[config_toml dirs0 := File rw_ ""]> (fs corrupt_world)) [] [CallInit] in
  init_in full_disk dirs0 corrupt_world = (Raise (OSError (OtherOSError 28)), w') /\
  file_content (fs corrupt_world) (config_toml dirs0) = Some (utf8_encode CORRUPT_TEXT) /\
  file_content (fs w') (config_toml dirs0) = Some ""%string /\
  stdout w' = stdout corrupt_world.
Proof.
  intros w'.
  assert (H : init_in full_disk dirs0 corrupt_world =
              (Raise (OSError (OtherOSError 28)), w')) by (vm_compute; reflexivity).
  split; [exact H|]. split; [vm_compute; reflexivity|]. split; [vm_compute; reflexivity|].
  exact (proj2 (proj2 (init_failure_keeps_files full_disk dirs0 corrupt_world _ w' H))).
Defined.

Lemma main_in_cases env dirs w :
  let w0 := World (fs w) (stdout w) (calls w ++ [CallLoad]) in
  (exists d, (load_in env dirs w).1 = Return d /\ (print_in env d w0).1 = Return tt /\
     main_in env dirs w = (Return tt, World (fs w) (stdout w ++ [d]) (calls w ++ [CallLoad]))) \/
  (exists e, is_IOError e = false /\ main_in env dirs w = (Raise e, w0) /\
     ((load_in env dirs w).1 = Raise e \/
      exists d, (load_in env dirs w).1 = Return d /\ (print_in env d w0).1 = Raise e)) \/
  (main_in env dirs w = init_in env dirs w0 /\
   ((exists k, (load_in env dirs w).1 = Raise (OSError k)) \/
    exists d k, (load_in env dirs w).1 = Return d /\
                (print_in env d w0).1 = Raise (OSError k))).
Proof.
  intros w0. unfold main_in, try_except, bind.
  destruct (load_in env dirs w) as [r w1] eqn:El.
  pose proof (load_in_state _ _ _ _ _ El) as Hw. fold w0 in Hw. subst w1.
  cbn [fst]. destruct r as [d|e].
  - destruct ((print_in env d w0).1) as [[]|e] eqn:Ep.
    + left. exists d. split; [reflexivity|]. split; [exact Ep|].
      rewrite (print_in_returns _ _ _ Ep). reflexivity.
    + rewrite (print_in_raises _ _ _ _ Ep). destruct (is_IOError e) eqn:Eio.
      * destruct e; try discriminate Eio. right; right.
        split; [reflexivity|]. right. eauto.
      * right; left. exists e. split; [exact Eio|]. split; [reflexivity|]. right. eauto.
  - destruct (is_IOError e) eqn:Eio.
    + destruct e; try discriminate Eio. right; right.
      split; [reflexivity|]. left. eauto.
    + right; left. exists e. split; [exact Eio|]. split; [reflexivity|left; reflexivity].
Qed.

(** X3. A run of [main] changes nothing outside the configuration,
    whatever fails: the configuration file apart, every entry is as
    before, but for new directories on the way to the configuration
    directory; a run in which [print] completed changes no entry at
    all; and the configuration file changes only in a run where [load],
    or [print] after it, raised an error of the I/O class. *)
Theorem main_touches_only_the_configuration env dirs w :
  (forall q, q <> config_toml dirs ->
     fs (main_in env dirs w).2 !! q = fs w !! q \/
     (fs w !! q = None /\ fs (main_in env dirs w).2 !! q = Some new_dir /\
      exists k, (k <= List.length (user_config_path dirs))%nat /\
                q = take k (user_config_path dirs))) /\
  (stdout (main_in env dirs w).2 = stdout w \/ fs (main_in env dirs w).2 = fs w) /\
  (fs (main_in env dirs w).2 !! config_toml dirs <> fs w !! config_toml dirs ->
   (exists k, (load_in env dirs w).1 = Raise (OSError k)) \/
   (exists d k,
      (load_in env dirs w).1 = Return d /\
      (print_in env d (World (fs w) (stdout w) (calls w ++ [CallLoad]))).1 =
        Raise (OSError k))).
Proof.
  destruct (main_in_cases env dirs w) as [(d & _ & _ & ->)|[(e & _ & -> & _)|[-> Hio]]];
    cbn [snd fs stdout].
  - split; [auto|]. split; [auto|]. congruence.
  - split; [auto|]. split; [auto|]. congruence.
  - destruct (init_in env dirs _) as [r w'] eqn:Ei. cbn [snd].
    pose proof (init_in_io _ _ _ _ _ Ei) as [Hout _].
    apply init_in_outcome in Ei as (Hframe & _). cbn [fs stdout] in *.
    split; [exact Hframe|]. split; [left; exact Hout|]. intros _. exact Hio.
Qed.

(** X7. A directory named [config.toml] stops every run as well: [load]
    raises "is a directory" when the directory may be read and
    "permission denied" when it may not, and [init] then raises "is a
    directory", with which [main] ends.  No file is changed and nothing
    is printed. *)
Theorem main_fails_on_directory_in_place_of_file dirs w pm :
  resolve (fs w) (config_toml dirs) = None ->
  fs w !! config_toml dirs = Some (Dir pm) ->
  (load dirs w).1 =
    Raise (OSError (if can_read pm then IsADirectoryError else PermissionError)) /\
  main dirs w =
    (Raise (OSError IsADirectoryError),
     World (fs w) (stdout w) (calls w ++ [CallLoad; CallInit])) /\
  (exit_status dirs w).1 = 1.
Proof.
  intros Hres Hdir.
  assert (Hl : (load dirs w).1 =
               Raise (OSError (if can_read pm then IsADirectoryError else PermissionError))).
  { rewrite load_unfold. cbn [fst]. unfold read_file. rewrite Hres, Hdir.
    destruct (can_read pm); reflexivity. }
  assert (Hm : main dirs w =
               (Raise (OSError IsADirectoryError),
                World (fs w) (stdout w) (calls w ++ [CallLoad; CallInit]))).
  { rewrite (main_on_io_error _ _ _ Hl). rewrite init_unfold. unfold Path_mkdir.
    unfold bind at 1.
    rewrite mkdir_parents_existing
      by (rewrite firstn_all; apply resolve_config_toml; exact Hres).
    unfold bind at 1. unfold open_w, bind, get_fs, raise. cbn [fs stdout calls].
    rewrite Hres, Hdir, <- app_assoc. reflexivity. }
  split; [exact Hl|]. split; [exact Hm|].
  unfold exit_status. rewrite Hm. reflexivity.
Qed.

(** A directory that may be read, and one that may not. *)
Lemma main_fails_on_directory_in_place_of_file_witness :
  ((load dirs0 directory_world).1 = Raise (OSError IsADirectoryError) /\
   main dirs0 directory_world =
     (Raise (OSError IsADirectoryError),
      World (fs directory_world) [] [CallLoad; CallInit])) /\
  ((load dirs0 unreadable_directory_world).1 = Raise (OSError PermissionError) /\
   main dirs0 unreadable_directory_world =
     (Raise (OSError IsADirectoryError),
      World (fs unreadable_directory_world) [] [CallLoad; CallInit])).
Proof.
  split.
  - assert (H0 : resolve (fs directory_world) (config_toml dirs0) = None)
      by (vm_compute; reflexivity).
    assert (H1 : fs directory_world !! config_toml dirs0 = Some (Dir rwx))
      by (vm_compute; reflexivity).
    destruct (main_fails_on_directory_in_place_of_file dirs0 directory_world _ H0 H1)
      as (Hl & Hm & _).
    split; [exact Hl|exact Hm].
  - assert (H0 : resolve (fs unreadable_directory_world) (config_toml dirs0) = None)
      by (vm_compute; reflexivity).
    assert (H1 : fs unreadable_directory_world !! config_toml dirs0 = Some (Dir _w_dir))
      by (vm_compute; reflexivity).
    destruct (main_fails_on_directory_in_place_of_file dirs0 unreadable_directory_world
                _ H0 H1) as (Hl & Hm & _).
    split; [exact Hl|exact Hm].
Defined.

Lemma tomllib_load_in_raises env b e :
  tomllib_load_in env b = Raise e ->
  is_IOError e = false /\ e <> KeyError /\ e <> IndexError /\
  (e = UnicodeDecodeError \/ (exists msg, e = TOMLDecodeError msg) \/ e = ValueError \/
   ((e = RecursionError \/ e = MemoryError) /\ load_limit env b <> None)).
Proof.
  unfold tomllib_load_in. destruct (load_limit env b) as [l|] eqn:El.
  - intros [= <-]. destruct l; cbn [limit_exn]; repeat split; try discriminate;
      right; right; right; (split; [auto|discriminate]).
  - intros H. apply tomllib_load_raises in H as [_ H].
    destruct H as [->|[[msg ->]| ->]]; repeat split; try discriminate; eauto.
Qed.

(** X8. What [load] can raise, whatever fails: the [OSError] of opening
    and reading the file; or the exception of [tomllib.load] on the bytes
    read, which is a [UnicodeDecodeError], a [TOMLDecodeError], the
    [ValueError] of an integer with more than 4300 digits, or a
    [RecursionError] or [MemoryError] where the interpreter reaches a
    limit.  It is never a [KeyError] or an [IndexError]: the lookups of
    the parser are guarded. *)
Theorem load_raises_only env dirs w e :
  (load_in env dirs w).1 = Raise e ->
  e <> KeyError /\ e <> IndexError /\
  ((exists k,
      e = OSError k /\
      (open_rb_in env (config_toml dirs)
         (World (fs w) (stdout w) (calls w ++ [CallLoad]))).1 = Raise e) \/
   (exists b,
      (open_rb_in env (config_toml dirs)
         (World (fs w) (stdout w) (calls w ++ [CallLoad]))).1 = Return b /\
      tomllib_load_in env b = Raise e /\ is_IOError e = false /\
      (e = UnicodeDecodeError \/ (exists msg, e = TOMLDecodeError msg) \/
       e = ValueError \/
       ((e = RecursionError \/ e = MemoryError) /\ load_limit env b <> None)))).
Proof.
  rewrite load_in_unfold. cbn [fst].
  destruct ((open_rb_in env (config_toml dirs) _).1) as [b|e'] eqn:Er.
  - intros Hb. destruct (tomllib_load_in_raises env b e Hb) as (Hio & Hk & Hi & Hc).
    split; [exact Hk|]. split; [exact Hi|]. right. exists b. auto.
  - intros [= ->]. destruct (open_rb_in_raises _ _ _ _ Er) as [k ->].
    split; [discriminate|]. split; [discriminate|]. left. eauto.
Qed.

(** An integer of 4301 decimal digits, and a process that may open no
    further file. *)
Lemma load_raises_only_witness :
  ((load_in working dirs0 decimal_world).1 = Raise ValueError /\
   exists b,
     (open_rb_in working (config_toml dirs0)
        (World (fs decimal_world) [] [CallLoad])).1 = Return b /\
     tomllib_load_in working b = Raise ValueError) /\
  (load_in no_descriptors dirs0 configured_world).1 = Raise (OSError (OtherOSError 24)).
Proof.
  assert (H : (load_in working dirs0 decimal_world).1 = Raise ValueError)
    by (vm_compute; reflexivity).
  split; [split; [exact H|]|vm_compute; reflexivity].
  destruct (load_raises_only working dirs0 decimal_world _ H)
    as (_ & _ & [(k & E & _)|(b & Hb & Hl & _)]).
  - discriminate E.
  - exists b. split; [exact Hb|exact Hl].
Defined.

(** X15. How [main] can fail, whatever fails.  When [main] ends with an
    exception, no print was completed and one of three things happened:
    [load] raised the exception, which is not of the I/O class; or
    [load] returned and [print] raised it, and it is not of the I/O
    class; in both cases no file has changed and [init] was not called;
    or [load], or [print] after it, raised an error of the I/O class,
    [init] was called and raised the exception. *)
Theorem main_raises_only env dirs w e w' :
  main_in env dirs w = (Raise e, w') ->
  stdout w' = stdout w /\
  (((load_in env dirs w).1 = Raise e /\ is_IOError e = false /\
    w' = World (fs w) (stdout w) (calls w ++ [CallLoad])) \/
   (exists d,
      (load_in env dirs w).1 = Return d /\
      (print_in env d (World (fs w) (stdout w) (calls w ++ [CallLoad]))).1 = Raise e /\
      is_IOError e = false /\
      w' = World (fs w) (stdout w) (calls w ++ [CallLoad])) \/
   (((exists k, (load_in env dirs w).1 = Raise (OSError k)) \/
     (exists d k,
        (load_in env dirs w).1 = Return d /\
        (print_in env d (World (fs w) (stdout w) (calls w ++ [CallLoad]))).1 =
          Raise (OSError k))) /\
    init_in env dirs (World (fs w) (stdout w) (calls w ++ [CallLoad])) = (Raise e, w'))).
Proof.
  intros Hm.
  destruct (main_in_cases env dirs w) as [(d & _ & _ & H)|[(e0 & Hio & H & Hc)|[H Hc]]];
    rewrite H in Hm.
  - discriminate Hm.
  - injection Hm as -> <-. split; [reflexivity|].
    destruct Hc as [Hl|(d & Hl & Hp)]; [left; auto|right; left; eauto].
  - pose proof (init_in_io _ _ _ _ _ Hm) as [Hout _]. cbn [stdout] in Hout.
    split; [exact Hout|]. right; right. auto.
Qed.

(** The integer of 4000 hexadecimal digits loads and cannot be
    printed. *)
Lemma main_raises_only_witness :
  let w' := World (fs hex_world) [] [CallLoad] in
  main_in working dirs0 hex_world = (Raise ValueError, w') /\
  stdout w' = stdout hex_world.
Proof.
  intros w'.
  assert (H : main_in working dirs0 hex_world = (Raise ValueError, w'))
    by (vm_compute; reflexivity).
  split; [exact H|].
  exact (proj1 (main_raises_only working dirs0 hex_world _ w' H)).
Defined.
